(** * MiniCore-OS: interrupt layer, task scheduler, heap allocator
      and terminal

    A shallow embedding of [src/isr.c], [src/scheduler.c], [src/mm.c]
    and the terminal functions of [src/kernel.c] (with the constants and
    structs of their headers), followed by the properties of the
    specification's section 8 and of the component descriptions of
    section 4 that can be stated over it.

    Conventions, fixed by the target (32-bit x86, protected mode):
    - [size_t], [uint32_t] and pointers are 32 bits wide; unsigned
      arithmetic is written out with [mod 2^32];
    - a pointer is an address in [Z], [NULL] is [0];
    - [sizeof(mem_block_t)] is 16 (four 4-byte fields), and memory is
      byte-addressed and little-endian;
    - C loops whose termination depends on the data are given fuel. *)

From Stdlib Require Import ZArith Lia Ascii String List Bool.
From stdpp Require Import base tactics option list gmap strings.

#[local] Open Scope Z_scope.

(** 32-bit unsigned wrap-around, shared by the three components. *)
Definition UINT32_MOD : Z := 4294967296.
Definition u32 (x : Z) : Z := x mod UINT32_MOD.
Definition u8 (x : Z) : Z := x mod 256.

(** ** Interrupt layer ([src/isr.h], [src/isr.c]) *)

Module Isr.

(** [struct registers] *)
Record registers := mk_registers {
  ds : Z;
  edi : Z; esi : Z; ebp : Z; esp : Z; ebx : Z; edx : Z; ecx : Z; eax : Z;
  int_no : Z; err_code : Z;
  eip : Z; cs : Z; eflags : Z; useresp : Z; ss : Z
}.

(** What the layer does to the outside world: port writes, the two
    terminal calls it uses, and the [hlt] instruction. *)
Inductive event :=
| Outb (port val : Z)
| SetColor (color : Z)
| WriteString (s : string)
| Hlt.

Section Machine.

(** [K] is the rest of the kernel state, which registered handlers may
    change; the layer itself never looks at it. *)
Context {K : Type}.

Record machine := mk_machine {
  trace : list event;   (* oldest event first *)
  kernel : K
}.

Definition emit (e : event) (m : machine) : machine :=
  {| trace := trace m ++ [e]; kernel := kernel m |}.

Definition outb (port val : Z) : machine -> machine := emit (Outb port val).
Definition terminal_setcolor (color : Z) : machine -> machine := emit (SetColor color).
Definition terminal_writestring (data : string) : machine -> machine := emit (WriteString data).

(** [typedef void (*isr_t)(struct registers*)] *)
#[local] Abbreviation isr_t := (registers -> machine -> machine).

(** [static isr_t interrupt_handlers[256]]: a vector absent from the map
    holds the null pointer. *)
#[local] Abbreviation handler_table := (gmap Z isr_t).

(** How a call of the layer ends. [Spinning m] is a run still inside
    [while (1) hlt] when the fuel ran out, with [m] the machine so far;
    [Fault] is an access outside the 256-entry table. *)
Inductive outcome :=
| Returned (m : machine)
| Spinning (m : machine)
| Fault.

Definition VGA_COLOR_BLACK : Z := 0.
Definition VGA_COLOR_LIGHT_RED : Z := 12.
Definition VGA_COLOR_WHITE : Z := 15.

Definition vga_entry_color (fg bg : Z) : Z := u8 (Z.lor fg (Z.shiftl bg 4)).

Definition newline : string := String (ascii_of_nat 10) EmptyString.

Definition exception_messages : list string := [
  "Division By Zero";
  "Debug";
  "Non Maskable Interrupt";
  "Breakpoint";
  "Into Detected Overflow";
  "Out of Bounds";
  "Invalid Opcode";
  "No Coprocessor";
  "Double Fault";
  "Coprocessor Segment Overrun";
  "Bad TSS";
  "Segment Not Present";
  "Stack Fault";
  "General Protection Fault";
  "Page Fault";
  "Unknown Interrupt";
  "Coprocessor Fault";
  "Alignment Check";
  "Machine Check";
  "Reserved";
  "Reserved";
  "Reserved";
  "Reserved";
  "Reserved";
  "Reserved";
  "Reserved";
  "Reserved";
  "Reserved";
  "Reserved";
  "Reserved";
  "Reserved";
  "Reserved"
]%string.

(** [isr_init]: every entry null. *)
Definition isr_init : handler_table := ∅.

(** [register_interrupt_handler]; the parameter is a [uint8_t]. *)
Definition register_interrupt_handler (n : Z) (handler : isr_t)
  (interrupt_handlers : handler_table) : handler_table :=
  <[u8 n := handler]> interrupt_handlers.

(** [while (1) { hlt }] *)
Fixpoint halt_loop (fuel : nat) (m : machine) : outcome :=
  match fuel with
  | O => Spinning m
  | S fuel' => halt_loop fuel' (emit Hlt m)
  end.

Definition in_table (v : Z) : bool := (0 <=? v) && (v <? 256).

(** [isr_handler] *)
Definition isr_handler (fuel : nat) (interrupt_handlers : handler_table)
  (r : registers) (m : machine) : outcome :=
  if negb (in_table (int_no r)) then Fault else
  match interrupt_handlers !! int_no r with
  | Some handler => Returned (handler r m)
  | None =>
    let m := terminal_setcolor (vga_entry_color VGA_COLOR_LIGHT_RED VGA_COLOR_BLACK) m in
    let m := terminal_writestring "Exception: " m in
    let m :=
      if int_no r <? 32
      then terminal_writestring (nth (Z.to_nat (int_no r)) exception_messages ""%string) m
      else terminal_writestring "Unknown Exception" m in
    let m := terminal_writestring (newline ++ "System Halted." ++ newline) m in
    halt_loop fuel m
  end.

(** [irq_ack]; the parameter is a [uint8_t]. *)
Definition irq_ack (irq : Z) (m : machine) : machine :=
  let m := if 8 <=? irq then outb 160 32 m else m in   (* outb(0xA0, 0x20) *)
  outb 32 32 m.                                        (* outb(0x20, 0x20) *)

(** [irq_handler]; [r->int_no - 32] is computed in [uint32_t] and then
    narrowed to the [uint8_t] parameter of [irq_ack]. *)
Definition irq_handler (interrupt_handlers : handler_table)
  (r : registers) (m : machine) : outcome :=
  let m := irq_ack (u8 (u32 (int_no r - 32))) m in
  if negb (in_table (int_no r)) then Fault else
  match interrupt_handlers !! int_no r with
  | Some handler => Returned (handler r m)
  | None => Returned m
  end.

(** *** Vocabulary of the properties *)

(** The machine [m] after the events [es] have happened. *)
Definition after (m : machine) (es : list event) : machine :=
  {| trace := trace m ++ es; kernel := kernel m |}.

(** The events of the end-of-interrupt protocol for IRQ line [irq]. *)
Definition eoi_events (irq : Z) : list event :=
  (if 8 <=? irq then [Outb 160 32] else []) ++ [Outb 32 32].

(** The name under which each CPU exception vector is reported: vectors
    0 to 18 have a name of their own, vectors 19 to 31 are all reported
    as "Reserved". *)
Definition exception_name (v : Z) : string :=
  match v with
  | 0 => "Division By Zero"
  | 1 => "Debug"
  | 2 => "Non Maskable Interrupt"
  | 3 => "Breakpoint"
  | 4 => "Into Detected Overflow"
  | 5 => "Out of Bounds"
  | 6 => "Invalid Opcode"
  | 7 => "No Coprocessor"
  | 8 => "Double Fault"
  | 9 => "Coprocessor Segment Overrun"
  | 10 => "Bad TSS"
  | 11 => "Segment Not Present"
  | 12 => "Stack Fault"
  | 13 => "General Protection Fault"
  | 14 => "Page Fault"
  | 15 => "Unknown Interrupt"
  | 16 => "Coprocessor Fault"
  | 17 => "Alignment Check"
  | 18 => "Machine Check"
  | _ => "Reserved"
  end.

(** What an unhandled trap prints before it halts. *)
Definition fatal_report (name : string) : list event :=
  [ SetColor 12;
    WriteString "Exception: ";
    WriteString name;
    WriteString (newline ++ "System Halted." ++ newline) ].

End Machine.

Arguments machine : clear implicits.
Arguments outcome : clear implicits.

Arguments fatal_report : clear implicits.
Arguments eoi_events : clear implicits.

Abbreviation isr_t K := (registers -> machine K -> machine K).
Abbreviation handler_table K := (gmap Z (isr_t K)).

(** Sample inputs: a register snapshot for vector [v], a machine with
    no other kernel state, and a handler that leaves a mark on the
    terminal. *)
Definition regs_of_vector (v : Z) : registers :=
  mk_registers 16 0 0 0 0 0 0 0 0 v 0 0 8 514 0 16.

Definition boot_machine : machine unit := {| trace := []; kernel := tt |}.

Definition marking_handler : isr_t unit :=
  fun r m => terminal_writestring "handled" m.

End Isr.

(** ** Task scheduler ([src/scheduler.h], [src/scheduler.c]) *)

Module Scheduler.

Definition MAX_TASKS : nat := 8.
Definition TASK_STACK_SIZE : Z := 4096.

(** [task_state_t] *)
Inductive task_state_t :=
| TASK_READY
| TASK_RUNNING
| TASK_SLEEPING
| TASK_TERMINATED.

#[global] Instance task_state_eq_dec : EqDecision task_state_t.
Proof. solve_decision. Defined.

(** A [task_t*] points into the static array [tasks]: it is either null
    or the index of a slot. *)
Definition task_ptr : Type := option nat.

(** [task_t]. The 4096-byte [stack] member is never read or written by
    the scheduler; only its address is used, see [stack_addr] below. *)
Record task_t := mk_task {
  id : Z;
  name : list ascii;          (* char name[32] *)
  state : task_state_t;
  esp : Z;
  ebp : Z;
  ebx : Z; esi : Z; edi : Z;
  eflags : Z;
  eip : Z;
  time_slice : Z;
  time_remaining : Z;
  sleep_until : Z;
  next : task_ptr
}.

Definition set_state (v : task_state_t) (t : task_t) : task_t :=
  mk_task (id t) (name t) v (esp t) (ebp t) (ebx t) (esi t) (edi t)
          (eflags t) (eip t) (time_slice t) (time_remaining t) (sleep_until t) (next t).
Definition set_id (v : Z) (t : task_t) : task_t :=
  mk_task v (name t) (state t) (esp t) (ebp t) (ebx t) (esi t) (edi t)
          (eflags t) (eip t) (time_slice t) (time_remaining t) (sleep_until t) (next t).
Definition set_time_remaining (v : Z) (t : task_t) : task_t :=
  mk_task (id t) (name t) (state t) (esp t) (ebp t) (ebx t) (esi t) (edi t)
          (eflags t) (eip t) (time_slice t) v (sleep_until t) (next t).
Definition set_sleep_until (v : Z) (t : task_t) : task_t :=
  mk_task (id t) (name t) (state t) (esp t) (ebp t) (ebx t) (esi t) (edi t)
          (eflags t) (eip t) (time_slice t) (time_remaining t) v (next t).
Definition set_next (v : task_ptr) (t : task_t) : task_t :=
  mk_task (id t) (name t) (state t) (esp t) (ebp t) (ebx t) (esi t) (edi t)
          (eflags t) (eip t) (time_slice t) (time_remaining t) (sleep_until t) v.

(** A zero-filled slot, as static storage is before [scheduler_init];
    enumerator 0 is [TASK_READY]. *)
Definition zero_task : task_t :=
  mk_task 0 (replicate 32 zero) TASK_READY 0 0 0 0 0 0 0 0 0 0 None.

#[global] Instance task_inhabited : Inhabited task_t := populate zero_task.

(** The file-scope variables of [scheduler.c], and the terminal lines
    written so far. *)
Record sched := mk_sched {
  tasks : list task_t;              (* static task_t tasks[MAX_TASKS] *)
  task_queue_head : task_ptr;
  task_queue_tail : task_ptr;
  current_task : task_ptr;
  next_task_id : Z;
  system_ticks : Z;
  console : list string
}.

Definition set_tasks (v : list task_t) (s : sched) : sched :=
  mk_sched v (task_queue_head s) (task_queue_tail s) (current_task s)
           (next_task_id s) (system_ticks s) (console s).
Definition set_task_queue_head (v : task_ptr) (s : sched) : sched :=
  mk_sched (tasks s) v (task_queue_tail s) (current_task s)
           (next_task_id s) (system_ticks s) (console s).
Definition set_task_queue_tail (v : task_ptr) (s : sched) : sched :=
  mk_sched (tasks s) (task_queue_head s) v (current_task s)
           (next_task_id s) (system_ticks s) (console s).
Definition set_current_task (v : task_ptr) (s : sched) : sched :=
  mk_sched (tasks s) (task_queue_head s) (task_queue_tail s) v
           (next_task_id s) (system_ticks s) (console s).
Definition set_next_task_id (v : Z) (s : sched) : sched :=
  mk_sched (tasks s) (task_queue_head s) (task_queue_tail s) (current_task s)
           v (system_ticks s) (console s).
Definition set_system_ticks (v : Z) (s : sched) : sched :=
  mk_sched (tasks s) (task_queue_head s) (task_queue_tail s) (current_task s)
           (next_task_id s) v (console s).
Definition terminal_writestring (data : string) (s : sched) : sched :=
  mk_sched (tasks s) (task_queue_head s) (task_queue_tail s) (current_task s)
           (next_task_id s) (system_ticks s) (console s ++ [data]).

(** [tasks[i]] read through a valid pointer, and [tasks[i].field = ...]. *)
Definition task_at (s : sched) (i : nat) : task_t := tasks s !!! i.
Definition update_task (i : nat) (f : task_t -> task_t) (s : sched) : sched :=
  set_tasks (alter f i (tasks s)) s.

(** How a call into the scheduler ends: control comes back to the caller
    ([Returns]), or the caller's context is abandoned for another one
    ([Abandons]). In both cases [s] is the scheduler state at that point. *)
Inductive completion :=
| Returns (s : sched)
| Abandons (s : sched).

Definition state_of (c : completion) : sched :=
  match c with Returns s | Abandons s => s end.

Section Linked.

(** [stack_addr i] is the address of [tasks[i].stack], fixed at link time. *)
Variable stack_addr : nat -> Z.

Definition newline : string := String (ascii_of_nat 10) EmptyString.

(** [scheduler_init] *)
Definition scheduler_init (s : sched) : sched :=
  let s := set_tasks (map (fun t => set_id 0 (set_state TASK_TERMINATED t)) (tasks s)) s in
  let s := set_task_queue_head None s in
  let s := set_task_queue_tail None s in
  let s := set_current_task None s in
  let s := set_system_ticks 0 s in
  let s := terminal_writestring ("Scheduler initialized" ++ newline) s in
  terminal_writestring ("Demo tasks disabled for stability" ++ newline) s.

(** [task_queue_add] *)
Definition task_queue_add (task : nat) (s : sched) : sched :=
  let s := update_task task (set_next None) s in
  match task_queue_tail s with
  | Some tail =>
    let s := update_task tail (set_next (Some task)) s in
    set_task_queue_tail (Some task) s
  | None =>
    let s := set_task_queue_head (Some task) s in
    set_task_queue_tail (Some task) s
  end.

(** [task_queue_remove_next] *)
Definition task_queue_remove_next (s : sched) : task_ptr * sched :=
  match task_queue_head s with
  | None => (None, s)
  | Some task =>
    let s := set_task_queue_head (next (task_at s task)) s in
    let s := match task_queue_head s with
             | None => set_task_queue_tail None s
             | Some _ => s
             end in
    let s := update_task task (set_next None) s in
    (Some task, s)
  end.

(** [switch_to_task]: the bookkeeping of a switch and nothing else. The
    local [old_esp] is computed and then only tested by an [if] whose
    body is empty; the assembly routine [task_switch] declared in the
    header is never called, so the function returns to its caller. *)
Definition switch_to_task (task : nat) (s : sched) : completion :=
  let s := update_task task (set_state TASK_RUNNING) s in
  let s := update_task task (fun t => set_time_remaining (time_slice t) t) s in
  let old_esp := match current_task s with
                 | Some cur => esp (task_at s cur)
                 | None => 0
                 end in
  let s := set_current_task (Some task) s in
  Returns s.

(** [schedule] *)
Definition schedule (s : sched) : completion :=
  let '(next_task, s) := task_queue_remove_next s in
  match next_task with
  | None => Returns s                       (* No tasks to run *)
  | Some next_task =>
    let s :=
      match current_task s with
      | Some cur =>
        if decide (state (task_at s cur) = TASK_RUNNING) then
          let s := update_task cur (set_state TASK_READY) s in
          let s := update_task cur (fun t => set_time_remaining (time_slice t) t) s in
          task_queue_add cur s
        else s
      | None => s
      end in
    switch_to_task next_task s
  end.

(** The body of the wake-up loop of [scheduler_tick] for slot [i]. *)
Definition wake_slot (s : sched) (i : nat) : sched :=
  if decide (state (task_at s i) = TASK_SLEEPING) then
    if sleep_until (task_at s i) <=? system_ticks s then
      let s := update_task i (set_state TASK_READY) s in
      task_queue_add i s
    else s
  else s.

(** [for (int i = 0; i < MAX_TASKS; i++)] around it. *)
Definition wake_sleeping_tasks (s : sched) : sched :=
  foldl wake_slot s (seq 0 MAX_TASKS).

(** [scheduler_tick] *)
Definition scheduler_tick (r : Isr.registers) (s : sched) : completion :=
  let s := set_system_ticks (u32 (system_ticks s + 1)) s in
  let s := wake_sleeping_tasks s in
  match current_task s with
  | Some cur =>
    if 100 <? system_ticks s then
      let s := update_task cur
                 (fun t => set_time_remaining (u32 (time_remaining t - 1)) t) s in
      if time_remaining (task_at s cur) =? 0 then schedule s else Returns s
    else Returns s
  | None => Returns s
  end.

(** [task_yield] *)
Definition task_yield (s : sched) : completion := schedule s.

(** [task_sleep] *)
Definition task_sleep (ticks : Z) (s : sched) : completion :=
  match current_task s with
  | Some cur =>
    let s := update_task cur (set_state TASK_SLEEPING) s in
    let s := update_task cur (set_sleep_until (u32 (system_ticks s + ticks))) s in
    schedule s
  | None => Returns s
  end.

(** [task_exit] *)
Definition task_exit (s : sched) : completion :=
  match current_task s with
  | Some cur =>
    let s := update_task cur (set_state TASK_TERMINATED) s in
    let s := set_current_task None s in
    schedule s
  | None => Returns s
  end.

(** The name loop of [task_create]: copy characters while [i < 32] and
    the source has not ended. *)
Fixpoint copy_name (src : string) (dst : list ascii) : list ascii :=
  match src, dst with
  | String c src', _ :: dst' => c :: copy_name src' dst'
  | _, _ => dst
  end.

(** The slot search of [task_create]: the first [TASK_TERMINATED] slot. *)
Fixpoint find_free_slot (ts : list task_t) (i : nat) : task_ptr :=
  match ts with
  | [] => None
  | t :: ts' =>
    if decide (state t = TASK_TERMINATED) then Some i else find_free_slot ts' (S i)
  end.

(** [task_create]; the result is the new task's id, 0 when no slot is free. *)
Definition task_create (name_arg : string) (entry_point : Z) (s : sched) : Z * sched :=
  match find_free_slot (tasks s) 0 with
  | None => (0, s)
  | Some task =>
    let old := task_at s task in
    let new_id := next_task_id s in
    let s := set_next_task_id (u32 (next_task_id s + 1)) s in
    let sp := u32 (stack_addr task + TASK_STACK_SIZE - 4) in
    let s := update_task task (fun _ =>
               mk_task new_id
                       (<[31%nat := zero]> (copy_name name_arg (name old)))
                       TASK_READY
                       sp sp
                       0 0 0
                       514                      (* 0x202 *)
                       (u32 entry_point)
                       10 10
                       0
                       (next old)) s in
    let s := task_queue_add task s in
    (id (task_at s task), s)
  end.

End Linked.

(** The state before [scheduler_init] runs: zero-filled static storage,
    except [next_task_id], which is initialised to 1. *)
Definition boot_sched : sched :=
  mk_sched (replicate MAX_TASKS zero_task) None None None 1 0 [].

(** *** Vocabulary of the properties *)

(** The calls that can reach the scheduler once it is initialised: the
    timer interrupt and the functions of [scheduler.h]. *)
Inductive op :=
| OpTick
| OpSchedule
| OpYield
| OpSleep (ticks : Z)
| OpExit
| OpCreate (name_arg : string) (entry_point : Z).

(** The register snapshot passed to [scheduler_tick], which ignores it. *)
Definition timer_regs : Isr.registers := Isr.regs_of_vector 32.

Definition run_op (stack_addr : nat -> Z) (o : op) (s : sched) : sched :=
  match o with
  | OpTick => state_of (scheduler_tick timer_regs s)
  | OpSchedule => state_of (schedule s)
  | OpYield => state_of (task_yield s)
  | OpSleep ticks => state_of (task_sleep ticks s)
  | OpExit => state_of (task_exit s)
  | OpCreate name_arg entry_point => snd (task_create stack_addr name_arg entry_point s)
  end.

Definition exec (stack_addr : nat -> Z) (ops : list op) (s : sched) : sched :=
  foldl (fun s o => run_op stack_addr o s) s ops.

Definition is_tick (o : op) : bool :=
  match o with OpTick => true | _ => false end.

Definition count_ticks (ops : list op) : Z :=
  Z.of_nat (length (filter (fun o => is_tick o = true) ops)).

(** [n] timer interrupts in a row. *)
Definition run_ticks (n : nat) (s : sched) : sched :=
  Nat.iter n (fun s => state_of (scheduler_tick timer_regs s)) s.

(** The task whose code the CPU is executing when each of the next [n]
    timer interrupts arrives, according to [current_task]. *)
Fixpoint tick_observations (n : nat) (s : sched) : list task_ptr :=
  match n with
  | O => []
  | S n' => current_task s
            :: tick_observations n' (state_of (scheduler_tick timer_regs s))
  end.

(** The name of a slot as a C string: the characters before the first NUL. *)
Fixpoint c_string (cs : list ascii) : string :=
  match cs with
  | [] => EmptyString
  | c :: cs' => if decide (c = zero) then EmptyString else String c (c_string cs')
  end.

Definition observed_name (s : sched) (p : task_ptr) : option string :=
  match p with
  | Some i => Some (c_string (name (task_at s i)))
  | None => None
  end.

(** The names of the tasks seen current at each of the next [n] ticks;
    [None] when no task is current. *)
Fixpoint tick_names (n : nat) (s : sched) : list (option string) :=
  match n with
  | O => []
  | S n' => observed_name s (current_task s)
            :: tick_names n' (state_of (scheduler_tick timer_regs s))
  end.

(** Merge runs of equal neighbours: [a;a;b;b;a] becomes [a;b;a]. *)
Fixpoint merge_runs {A} `{EqDecision A} (l : list A) : list A :=
  match l with
  | [] => []
  | x :: l' =>
    match l' with
    | y :: _ => if decide (x = y) then merge_runs l' else x :: merge_runs l'
    | [] => [x]
    end
  end.

(** The execution order over the next [n] ticks: the tasks that held the
    CPU, in order, each maximal run counted once. *)
Definition execution_order (n : nat) (s : sched) : list string :=
  omap (fun x => x) (merge_runs (tick_names n s)).

(** Task [i] is not linked in the ready queue: neither end of the queue
    nor any [next] field points to it. *)
Definition unlinked (i : nat) (s : sched) : Prop :=
  task_queue_head s ≠ Some i ∧
  task_queue_tail s ≠ Some i ∧
  ∀ j, next (task_at s j) ≠ Some i.

(** Task [i] is asleep until tick [wake], out of the ready queue and
    not the current task. *)
Definition parked (i : nat) (wake : Z) (s : sched) : Prop :=
  state (task_at s i) = TASK_SLEEPING ∧
  sleep_until (task_at s i) = wake ∧
  current_task s ≠ Some i ∧
  unlinked i s.

(** Scenario B of the specification: tasks A, B and C created in that
    order on a freshly initialised scheduler. *)
Definition three_tasks (stack_addr : nat -> Z) (entry : Z) : sched :=
  exec stack_addr [OpCreate "A" entry; OpCreate "B" entry; OpCreate "C" entry]
       (scheduler_init boot_sched).

(** The same after one call of [schedule] has installed the first task,
    with the tick counter at [ticks]. *)
Definition three_tasks_started (stack_addr : nat -> Z) (entry : Z) (ticks : Z) : sched :=
  set_system_ticks ticks (run_op stack_addr OpSchedule (three_tasks stack_addr entry)).

(** One task, created and installed by a call of [schedule]. *)
Definition lone_task (stack_addr : nat -> Z) (entry : Z) : sched :=
  exec stack_addr [OpCreate "A" entry; OpSchedule] (scheduler_init boot_sched).

(** *** States named by the statements below *)

(** A link map for the examples: [tasks] at 1 MiB, 4180 bytes per slot,
    the stack 68 bytes into the slot. *)
Definition sample_stacks : nat -> Z := fun i => 1048576 + 4180 * Z.of_nat i + 68.

(** The state [task_queue_remove_next] leaves when slot [j] heads the queue. *)
Definition dequeued (j : nat) (s : sched) : sched :=
  let s := set_task_queue_head (next (task_at s j)) s in
  let s := match task_queue_head s with
           | None => set_task_queue_tail None s
           | Some _ => s
           end in
  update_task j (set_next None) s.

(** The bookkeeping of [switch_to_task] on slot [j]. *)
Definition installed (j : nat) (s : sched) : sched :=
  set_current_task (Some j)
    (update_task j (fun t => set_time_remaining (time_slice t) t)
       (update_task j (set_state TASK_RUNNING) s)).

(** The two stores of [task_exit] before it calls [schedule]. *)
Definition exiting (i : nat) (s : sched) : sched :=
  set_current_task None (update_task i (set_state TASK_TERMINATED) s).

(** The branch of [schedule] that puts a running task back in the queue. *)
Definition demoted (cur : nat) (s : sched) : sched :=
  task_queue_add cur
    (update_task cur (fun t => set_time_remaining (time_slice t) t)
       (update_task cur (set_state TASK_READY) s)).

(** No slot is sleeping. *)
Definition no_sleepers (s : sched) : Prop :=
  ∀ j, state (task_at s j) ≠ TASK_SLEEPING.

(** A state transformer under a completion. *)
Definition map_state (f : sched -> sched) (c : completion) : completion :=
  match c with
  | Returns s => Returns (f s)
  | Abandons s => Abandons (f s)
  end.

(** The state [schedule] leaves when slot [j] heads the queue. *)
Definition rescheduled (j : nat) (s : sched) : sched :=
  let s1 := dequeued j s in
  installed j
    match current_task s1 with
    | Some cur =>
      if decide (state (task_at s1 cur) = TASK_RUNNING) then demoted cur s1 else s1
    | None => s1
    end.

(** The time-slice part of [scheduler_tick]. *)
Definition slice_accounted (s : sched) : sched :=
  match current_task s with
  | Some cur =>
    let s1 := update_task cur
                (fun t => set_time_remaining (u32 (time_remaining t - 1)) t) s in
    if time_remaining (task_at s1 cur) =? 0 then state_of (schedule s1) else s1
  | None => s
  end.

End Scheduler.

(** ** Heap allocator ([src/mm.h], [src/mm.c]) *)

Module Mm.

Definition KERNEL_HEAP_START : Z := 2097152.   (* 0x00200000 *)
Definition KERNEL_HEAP_SIZE : Z := 1048576.    (* 0x00100000 *)
Definition NULL : Z := 0.

(** [sizeof(mem_block_t)] on the 32-bit target: [size_t], [int] and two
    pointers, at offsets 0, 4, 8 and 12. *)
Definition HEADER : Z := 16.

(** [mem_block_t], the header in front of every payload, as it is read
    from memory; [is_free] is the truth value of the [int]. *)
Record mem_block_t := mk_block {
  size : Z;
  is_free : bool;
  next : Z;
  prev : Z
}.

Definition set_size (v : Z) (b : mem_block_t) : mem_block_t :=
  mk_block v (is_free b) (next b) (prev b).
Definition set_is_free (v : bool) (b : mem_block_t) : mem_block_t :=
  mk_block (size b) v (next b) (prev b).
Definition set_next (v : Z) (b : mem_block_t) : mem_block_t :=
  mk_block (size b) (is_free b) v (prev b).
Definition set_prev (v : Z) (b : mem_block_t) : mem_block_t :=
  mk_block (size b) (is_free b) (next b) v.

(** [mem_stats_t] *)
Record mem_stats_t := mk_stats {
  total_memory : Z;
  used_memory : Z;
  free_memory : Z;
  num_allocations : Z;
  num_frees : Z;
  largest_free_block : Z
}.

(** The file-scope variables of [mm.c] and the memory they point into.
    [memory] is the flat 32-bit address space, one byte per address:
    block headers and payloads are bytes of the same memory, so a write
    through one pointer is seen by a read through any other. An address
    that is not in the map has not been written; it reads as 0. The
    file-scope variables themselves and the paging structures written by
    [paging_init], which nothing else reads, are kept apart from
    [memory]. *)
Record mm_state := mk_mm {
  memory : gmap Z Z;
  heap_head : Z;
  heap_start : Z;
  heap_size : Z;
  mem_stats : mem_stats_t
}.

Definition set_memory (v : gmap Z Z) (s : mm_state) : mm_state :=
  mk_mm v (heap_head s) (heap_start s) (heap_size s) (mem_stats s).
Definition set_mem_stats (v : mem_stats_t) (s : mm_state) : mm_state :=
  mk_mm (memory s) (heap_head s) (heap_start s) (heap_size s) v.

(** One byte, at an address taken modulo 2^32. *)
Definition read8 (mem : gmap Z Z) (p : Z) : Z := u8 (default 0 (mem !! u32 p)).
Definition write8 (p v : Z) (mem : gmap Z Z) : gmap Z Z := <[u32 p := u8 v]> mem.

(** A 32-bit word, least significant byte first. *)
Definition load32 (mem : gmap Z Z) (p : Z) : Z :=
  read8 mem p + 256 * read8 mem (p + 1) + 65536 * read8 mem (p + 2)
  + 16777216 * read8 mem (p + 3).
Definition store32 (p v : Z) (mem : gmap Z Z) : gmap Z Z :=
  write8 (p + 3) (v / 16777216)
    (write8 (p + 2) (v / 65536)
       (write8 (p + 1) (v / 256)
          (write8 p v mem))).

(** The header found at address [p]. *)
Definition load_block (mem : gmap Z Z) (p : Z) : mem_block_t :=
  mk_block (load32 mem p)
           (negb (load32 mem (p + 4) =? 0))
           (load32 mem (p + 8))
           (load32 mem (p + 12)).

(** Why a call has no result. *)
Inductive fault :=
| DivisionByZero            (* an integer division by zero *)
| OutOfFuel.                (* the fuel given to a loop did not suffice *)

Inductive result (A : Type) :=
| Ok (a : A) (s : mm_state)
| Fails (f : fault).
Arguments Ok {A} a s.
Arguments Fails {A} f.

(** State and fault monad. *)
Definition M (A : Type) : Type := mm_state -> result A.

Definition ret {A} (a : A) : M A := fun s => Ok a s.
Definition fail {A} (f : fault) : M A := fun _ => Fails f.
Definition bind {A B} (m : M A) (k : A -> M B) : M B :=
  fun s => match m s with
           | Ok a s' => k a s'
           | Fails f => Fails f
           end.

Notation "x <~ m ; k" := (bind m (fun x : _ => k))
  (at level 20, m at level 100, k at level 200, only parsing).
Notation "m ;;; k" := (bind m (fun _ => k))
  (at level 100, k at level 200, only parsing, right associativity).

(** Reading the fields of [*p], and [p->size = v], [p->is_free = v],
    [p->next = v], [p->prev = v]. A field of [b <~ load p] is the value
    the field has at that point of the run; the code below reads again
    wherever the source does. *)
Definition load (p : Z) : M mem_block_t :=
  fun s => Ok (load_block (memory s) p) s.
Definition store_size (p v : Z) : M unit :=
  fun s => Ok tt (set_memory (store32 p v (memory s)) s).
Definition store_is_free (p v : Z) : M unit :=
  fun s => Ok tt (set_memory (store32 (p + 4) v (memory s)) s).
Definition store_next (p v : Z) : M unit :=
  fun s => Ok tt (set_memory (store32 (p + 8) v (memory s)) s).
Definition store_prev (p v : Z) : M unit :=
  fun s => Ok tt (set_memory (store32 (p + 12) v (memory s)) s).
Definition when (c : bool) (m : M unit) : M unit := if c then m else ret tt.

Definition get_stats : M mem_stats_t := fun s => Ok (mem_stats s) s.
Definition put_stats (st : mem_stats_t) : M unit := fun s => Ok tt (set_mem_stats st s).

(** [memset]; the loop runs [count] times, on whatever lies at [dest]. *)
Fixpoint memset_loop (count : nat) (d : Z) (value : Z) (mem : gmap Z Z) : gmap Z Z :=
  match count with
  | O => mem
  | S count' => memset_loop count' (d + 1) value (write8 d value mem)
  end.

Definition memset (dest value count : Z) : M unit :=
  fun s => Ok tt (set_memory (memset_loop (Z.to_nat count) dest value (memory s)) s).

(** [memcpy]: byte by byte, lowest address first. *)
Fixpoint memcpy_loop (count : nat) (d s : Z) (mem : gmap Z Z) : gmap Z Z :=
  match count with
  | O => mem
  | S count' => memcpy_loop count' (d + 1) (s + 1) (write8 d (read8 mem s) mem)
  end.

Definition memcpy (dest src count : Z) : M unit :=
  fun s => Ok tt (set_memory (memcpy_loop (Z.to_nat count) dest src (memory s)) s).

(** [mm_init]. Its arguments are only tested, by an [if] with an empty
    body. *)
Definition mm_init (mmap_addr mmap_length : Z) (s : mm_state) : mm_state :=
  let heap_start := KERNEL_HEAP_START in
  let heap_size := KERNEL_HEAP_SIZE in
  let heap_head := heap_start in
  let mem := store32 heap_head (heap_size - HEADER) (memory s) in
  let mem := store32 (heap_head + 4) 1 mem in
  let mem := store32 (heap_head + 8) NULL mem in
  let mem := store32 (heap_head + 12) NULL mem in
  let head := load_block mem heap_head in
  mk_mm mem heap_head heap_start heap_size
        (mk_stats heap_size 0 (size head) 0 0 (size head)).

(** [find_free_block]: the [while (current)] loop, from [current]. *)
Fixpoint find_free_block_from (fuel : nat) (current : Z) (sz : Z) : M Z :=
  match fuel with
  | O => fail OutOfFuel
  | S fuel' =>
    if current =? NULL then ret NULL else
    b <~ load current;
    if is_free b && (sz <=? size b) then ret current
    else find_free_block_from fuel' (next b) sz
  end.

Definition find_free_block (fuel : nat) (sz : Z) : M Z :=
  fun s => find_free_block_from fuel (heap_head s) sz s.

(** [split_block] *)
Definition split_block (block : Z) (sz : Z) : M unit :=
  b <~ load block;
  if u32 (sz + HEADER + 32) <? size b then
    let new_block := u32 (block + HEADER + sz) in
    b <~ load block;
    store_size new_block (size b - sz - HEADER) ;;;
    store_is_free new_block 1 ;;;
    b <~ load block;
    store_next new_block (next b) ;;;
    store_prev new_block block ;;;
    b <~ load block;
    when (negb (next b =? NULL))
         (b <~ load block; store_prev (next b) new_block) ;;;
    store_next block new_block ;;;
    store_size block sz
  else ret tt.

(** [merge_free_blocks], first loop: absorb the free blocks that follow. *)
Fixpoint merge_with_next (fuel : nat) (block : Z) : M unit :=
  match fuel with
  | O => fail OutOfFuel
  | S fuel' =>
    b <~ load block;
    if next b =? NULL then ret tt else
    n <~ load (next b);
    if negb (is_free n) then ret tt else
    b <~ load block;
    let nxt := next b in                      (* mem_block_t* next = block->next *)
    b <~ load block;
    n <~ load nxt;
    store_size block (size b + (size n + HEADER)) ;;;
    n <~ load nxt;
    store_next block (next n) ;;;
    n <~ load nxt;
    when (negb (next n =? NULL))
         (n <~ load nxt; store_prev (next n) block) ;;;
    merge_with_next fuel' block
  end.

(** [merge_free_blocks], second loop: be absorbed by the free blocks
    that precede. *)
Fixpoint merge_with_prev (fuel : nat) (block : Z) : M unit :=
  match fuel with
  | O => fail OutOfFuel
  | S fuel' =>
    b <~ load block;
    if prev b =? NULL then ret tt else
    p <~ load (prev b);
    if negb (is_free p) then ret tt else
    b <~ load block;
    let prv := prev b in                      (* mem_block_t* prev = block->prev *)
    p <~ load prv;
    b <~ load block;
    store_size prv (size p + (size b + HEADER)) ;;;
    b <~ load block;
    store_next prv (next b) ;;;
    b <~ load block;
    when (negb (next b =? NULL))
         (b <~ load block; store_prev (next b) prv) ;;;
    merge_with_prev fuel' prv
  end.

Definition merge_free_blocks (fuel : nat) (block : Z) : M unit :=
  merge_with_next fuel block ;;;
  merge_with_prev fuel block.

(** [(size + 7) & ~7] in [size_t] arithmetic. *)
Definition align8 (sz : Z) : Z := Z.land (u32 (sz + 7)) (u32 (Z.lnot 7)).

(** [kmalloc]; the result is the payload pointer, [NULL] on failure. *)
Definition kmalloc (fuel : nat) (sz : Z) : M Z :=
  if sz =? 0 then ret NULL else
  let sz := align8 sz in
  block <~ find_free_block fuel sz;
  if block =? NULL then ret NULL else
  split_block block sz ;;;
  store_is_free block 0 ;;;
  b <~ load block;
  st <~ get_stats;
  put_stats (mk_stats (total_memory st)
                      (u32 (used_memory st + size b))
                      (u32 (free_memory st - size b))
                      (u32 (num_allocations st + 1))
                      (num_frees st)
                      (largest_free_block st)) ;;;
  ret (u32 (block + HEADER)).

(** [kfree] *)
Definition kfree (fuel : nat) (ptr : Z) : M unit :=
  if ptr =? NULL then ret tt else
  let block := u32 (ptr - HEADER) in
  b <~ load block;
  if is_free b then ret tt else
  store_is_free block 1 ;;;
  b <~ load block;
  st <~ get_stats;
  put_stats (mk_stats (total_memory st)
                      (u32 (used_memory st - size b))
                      (u32 (free_memory st + size b))
                      (num_allocations st)
                      (u32 (num_frees st + 1))
                      (largest_free_block st)) ;;;
  merge_free_blocks fuel block.

(** [krealloc] *)
Definition krealloc (fuel : nat) (ptr : Z) (new_size : Z) : M Z :=
  if ptr =? NULL then kmalloc fuel new_size else
  if new_size =? 0 then kfree fuel ptr ;;; ret NULL else
  let block := u32 (ptr - HEADER) in
  b <~ load block;
  if new_size <=? size b then
    split_block block new_size ;;;
    ret ptr
  else
    new_ptr <~ kmalloc fuel new_size;
    when (negb (new_ptr =? NULL))
         (b <~ load block;
          memcpy new_ptr ptr (if size b <? new_size then size b else new_size) ;;;
          kfree fuel ptr) ;;;
    ret new_ptr.

(** [kcalloc]. The product is taken in [size_t]; the division that
    checks it has no value when [count] is zero. *)
Definition kcalloc (fuel : nat) (count : Z) (sz : Z) : M Z :=
  let total_size := u32 (count * sz) in
  if count =? 0 then fail DivisionByZero else
  if negb (total_size / count =? sz) then ret NULL else
  ptr <~ kmalloc fuel total_size;
  when (negb (ptr =? NULL)) (memset ptr 0 total_size) ;;;
  ret ptr.

(** Static storage before [mm_init], with memory that has never been
    written. *)
Definition boot_mm : mm_state :=
  mk_mm ∅ NULL NULL 0 (mk_stats 0 0 0 0 0 0).

(** *** Vocabulary of the properties *)

(** An entry of the block list: where the header is, the payload size
    and the free flag it holds. *)
Record blk := mk_blk {
  addr : Z;
  bsize : Z;
  bfree : bool
}.

Definition first_addr (l : list blk) (e : Z) : Z :=
  match l with
  | [] => e
  | b :: _ => addr b
  end.

(** The address of the last block of [l]; [pv] when [l] is empty. *)
Definition last_addr (l : list blk) (pv : Z) : Z :=
  foldl (fun _ b => addr b) pv l.

(** [chain m pv l e]: memory [m] holds the headers of [l] at their
    addresses, each linked by [next] to its successor and by [prev] to its
    predecessor; [pv] precedes the first and [e] follows the last. *)
Fixpoint chain (m : gmap Z Z) (pv : Z) (l : list blk) (e : Z) : Prop :=
  match l with
  | [] => True
  | b :: l' =>
    addr b ≠ NULL ∧
    load_block m (addr b) = mk_block (bsize b) (bfree b) (first_addr l' e) pv ∧
    chain m (addr b) l' e
  end.

(** [l] is the block list of [s]: what a walk from [heap_head] along
    [next] visits, with consistent [prev] links. *)
Definition block_list (s : mm_state) (l : list blk) : Prop :=
  heap_head s = first_addr l NULL ∧ chain (memory s) NULL l NULL.

(** The blocks of [l], headers included, lie back to back from address
    [a] to address [e]: no gap and no overlap. *)
Fixpoint tiles (a : Z) (l : list blk) (e : Z) : Prop :=
  match l with
  | [] => a = e
  | b :: l' => addr b = a ∧ 0 <= bsize b ∧ tiles (a + HEADER + bsize b) l' e
  end.

(** The block list of [s] is [l] and tiles the arena. *)
Definition heap_ok (s : mm_state) (l : list blk) : Prop :=
  heap_start s = KERNEL_HEAP_START ∧
  heap_size s = KERNEL_HEAP_SIZE ∧
  block_list s l ∧
  tiles (heap_start s) l (heap_start s + heap_size s).

(** [m'] is [m] except inside the headers at the addresses [A]. *)
Definition same_outside (A : list Z) (m m' : gmap Z Z) : Prop :=
  ∀ q, 0 <= q < UINT32_MOD ->
       (∀ a, a ∈ A -> q < a ∨ a + HEADER <= q) ->
       read8 m' q = read8 m q.

(** [m'] is [m] except inside the [size], [next] and [prev] fields of
    the headers at the addresses [A]. *)
Definition same_but_links (A : list Z) (m m' : gmap Z Z) : Prop :=
  ∀ q, 0 <= q < UINT32_MOD ->
       (∀ a, a ∈ A -> q < a ∨ a + HEADER <= q ∨ a + 4 <= q < a + 8) ->
       read8 m' q = read8 m q.

(** [chain], [tiles] and [heap_ok] as checks, for concrete states. *)
Fixpoint chainb (m : gmap Z Z) (pv : Z) (l : list blk) (e : Z) : bool :=
  match l with
  | [] => true
  | b :: l' =>
    negb (addr b =? NULL) &&
    (let h := load_block m (addr b) in
     (size h =? bsize b) && Bool.eqb (is_free h) (bfree b) &&
     (next h =? first_addr l' e) && (prev h =? pv)) &&
    chainb m (addr b) l' e
  end.

Fixpoint tilesb (a : Z) (l : list blk) (e : Z) : bool :=
  match l with
  | [] => a =? e
  | b :: l' => (addr b =? a) && (0 <=? bsize b) && tilesb (a + HEADER + bsize b) l' e
  end.

Definition heap_okb (s : mm_state) (l : list blk) : bool :=
  (heap_start s =? KERNEL_HEAP_START) && (heap_size s =? KERNEL_HEAP_SIZE) &&
  (heap_head s =? first_addr l NULL) && chainb (memory s) NULL l NULL &&
  tilesb (heap_start s) l (heap_start s + heap_size s).

(** The walk itself, for concrete states. *)
Fixpoint walk (fuel : nat) (m : gmap Z Z) (p : Z) : option (list blk) :=
  match fuel with
  | O => None
  | S fuel' =>
    if p =? NULL then Some [] else
    let b := load_block m p in
    match walk fuel' m (next b) with
    | Some l => Some (mk_blk p (size b) (is_free b) :: l)
    | None => None
    end
  end.

(** The payload bytes of the used blocks, and of the free blocks. *)
Fixpoint used_bytes (l : list blk) : Z :=
  match l with
  | [] => 0
  | b :: l' => (if bfree b then 0 else bsize b) + used_bytes l'
  end.

Fixpoint free_bytes (l : list blk) : Z :=
  match l with
  | [] => 0
  | b :: l' => (if bfree b then bsize b else 0) + free_bytes l'
  end.

(** No two neighbours of the list are both free. *)
Fixpoint no_adjacent_free (l : list blk) : Prop :=
  match l with
  | b :: (c :: _) as l' => ¬ (bfree b = true ∧ bfree c = true) ∧ no_adjacent_free l'
  | _ => True
  end.

(** A block that [find_free_block] accepts for a request of [sz] bytes. *)
Definition fits (sz : Z) (b : blk) : bool := bfree b && (sz <=? bsize b).

(** What [split_block] makes of a block: itself cut down to [sz] bytes
    followed by a new free block, when more than [sz] plus a header plus
    32 bytes are available; itself otherwise. *)
Definition split_blk (sz : Z) (b : blk) : list blk :=
  if sz + HEADER + 32 <? bsize b
  then [mk_blk (addr b) sz (bfree b);
        mk_blk (addr b + HEADER + sz) (bsize b - sz - HEADER) true]
  else [b].

Definition mark (free : bool) (b : blk) : blk := mk_blk (addr b) (bsize b) free.

(** The payload size of the block [kmalloc] hands out when it has chosen
    [b] for a rounded request of [sz] bytes. *)
Definition granted (sz : Z) (b : blk) : Z :=
  if sz + HEADER + 32 <? bsize b then sz else bsize b.

(** The counter updates of [kmalloc] and of [kfree] for a block of [x]
    bytes. *)
Definition charge (x : Z) (st : mem_stats_t) : mem_stats_t :=
  mk_stats (total_memory st)
           (u32 (used_memory st + x))
           (u32 (free_memory st - x))
           (u32 (num_allocations st + 1))
           (num_frees st)
           (largest_free_block st).

Definition refund (x : Z) (st : mem_stats_t) : mem_stats_t :=
  mk_stats (total_memory st)
           (u32 (used_memory st - x))
           (u32 (free_memory st + x))
           (num_allocations st)
           (u32 (num_frees st + 1))
           (largest_free_block st).

(** What [kmalloc] makes of the block it has chosen. *)
Definition allocate_in (sz : Z) (b : blk) : list blk :=
  match split_blk sz b with
  | b' :: l => mark false b' :: l
  | [] => []
  end.

(** The first loop of [merge_free_blocks]: [b] absorbs the free blocks
    at the front of [l]. *)
Fixpoint absorb_next (b : blk) (l : list blk) : blk * list blk :=
  match l with
  | n :: l' =>
    if bfree n
    then absorb_next (mk_blk (addr b) (bsize b + (bsize n + HEADER)) (bfree b)) l'
    else (b, l)
  | [] => (b, [])
  end.

(** The second loop: the free blocks at the end of the list before [b],
    given here last block first, absorb [b] one after the other. *)
Fixpoint absorb_prev (rev_before : list blk) (b : blk) : list blk * blk :=
  match rev_before with
  | p :: rest =>
    if bfree p
    then absorb_prev rest (mk_blk (addr p) (bsize p + (bsize b + HEADER)) (bfree p))
    else (rev_before, b)
  | [] => ([], b)
  end.

(** What [kfree] makes of the list [before ++ b :: after] when [b] is
    the used block being freed. *)
Definition free_in (before : list blk) (b : blk) (after : list blk) : list blk :=
  let '(b1, after') := absorb_next (mark true b) after in
  let '(rev_before', b2) := absorb_prev (rev before) b1 in
  rev rev_before' ++ b2 :: after'.

(** The two counters add up to the payload of the initial block, in
    32-bit arithmetic. *)
Definition stats_mod (s : mm_state) : Prop :=
  u32 (used_memory (mem_stats s) + free_memory (mem_stats s))
  = KERNEL_HEAP_SIZE - HEADER.

(** The counters are exact for the list [l]: [used_memory] is the sum
    of the payload sizes of the used blocks, and [free_memory] is what
    remains of the payload of the initial block. *)
Definition stats_exact (s : mm_state) (l : list blk) : Prop :=
  used_memory (mem_stats s) = used_bytes l ∧
  free_memory (mem_stats s) = KERNEL_HEAP_SIZE - HEADER - used_bytes l.

(** The calls of the allocation interface. *)
Inductive mm_call :=
| Kmalloc (sz : Z)
| Kfree (ptr : Z)
| Krealloc (ptr : Z) (new_size : Z).

Definition run_call (fuel : nat) (c : mm_call) : M Z :=
  match c with
  | Kmalloc sz => kmalloc fuel sz
  | Kfree ptr => kfree fuel ptr ;;; ret NULL
  | Krealloc ptr new_size => krealloc fuel ptr new_size
  end.

(** A sequence of calls, stopping at the first one without a result. *)
Fixpoint run_calls (fuel : nat) (calls : list mm_call) (s : mm_state) : result Z :=
  match calls with
  | [] => Ok NULL s
  | c :: calls' =>
    match run_call fuel c s with
    | Ok _ s' => run_calls fuel calls' s'
    | Fails f => Fails f
    end
  end.

Definition state_of (r : result Z) : mm_state :=
  match r with
  | Ok _ s => s
  | Fails _ => boot_mm
  end.

(** The block list of a concrete state, found by walking it. *)
Definition blocks_of (r : result Z) : option (list blk) :=
  match r with
  | Ok _ s => walk 64 (memory s) (heap_head s)
  | Fails _ => None
  end.

(** A pointer that may be passed to [kfree] and [krealloc]: null, or the
    payload address of a block of the list. *)
Definition valid_ptr (s : mm_state) (ptr : Z) : Prop :=
  ptr = NULL ∨ ∃ l b, block_list s l ∧ b ∈ l ∧ ptr = addr b + HEADER.

(** Arguments are [size_t] values and valid pointers; the size given to
    [krealloc] is at most 2^32 - 8, so that rounding it up to a multiple
    of 8 does not wrap around. *)
Definition valid_call (s : mm_state) (c : mm_call) : Prop :=
  match c with
  | Kmalloc sz => 0 <= sz < UINT32_MOD
  | Kfree ptr => valid_ptr s ptr
  | Krealloc ptr new_size =>
    valid_ptr s ptr ∧ 0 <= new_size ∧ new_size + 7 < UINT32_MOD
  end.

Definition is_krealloc (c : mm_call) : bool :=
  match c with Krealloc _ _ => true | _ => false end.

(** [reachable calls s]: state [s] results from [mm_init], run on any
    memory, followed by the calls [calls], first call first, each with
    valid arguments and enough fuel for its loops. *)
Inductive reachable : list mm_call -> mm_state -> Prop :=
| reachable_init mmap_addr mmap_length s0 :
    reachable [] (mm_init mmap_addr mmap_length s0)
| reachable_call calls s fuel c r s' :
    reachable calls s ->
    valid_call s c ->
    run_call fuel c s = Ok r s' ->
    reachable (calls ++ [c]) s'.

End Mm.

(** ** Heap allocator: the rest of [src/mm.c] *)

Module MmAux.
Import Mm.

(** The size of a pointer on the 32-bit target. *)
Definition POINTER : Z := 4.

(** [memcmp]: the bytes are compared as [unsigned char], lowest address
    first, and the difference of the first two that differ is returned as
    an [int]. *)
Fixpoint memcmp_loop (count : nat) (p1 p2 : Z) (mem : gmap Z Z) : Z :=
  match count with
  | O => 0
  | S count' =>
    if negb (read8 mem p1 =? read8 mem p2) then read8 mem p1 - read8 mem p2
    else memcmp_loop count' (p1 + 1) (p2 + 1) mem
  end.

Definition memcmp (ptr1 ptr2 count : Z) (s : mm_state) : Z :=
  memcmp_loop (Z.to_nat count) ptr1 ptr2 (memory s).

(** A pointer written to memory, four bytes, least significant first. *)
Definition store_pointer (p v : Z) : M unit :=
  fun s => Ok tt (set_memory (store32 p v (memory s)) s).

(** [kmalloc_aligned] *)
Definition kmalloc_aligned (fuel : nat) (sz alignment : Z) : M Z :=
  if (alignment =? 0) || negb (Z.land alignment (u32 (alignment - 1)) =? 0)
  then ret NULL else
  let total_size := u32 (u32 (sz + alignment) + POINTER) in
  raw_ptr <~ kmalloc fuel total_size;
  if raw_ptr =? NULL then ret NULL else
  let aligned_addr :=
    Z.land (u32 (u32 (u32 (raw_ptr + POINTER) + alignment) - 1))
           (u32 (Z.lnot (u32 (alignment - 1)))) in
  store_pointer (aligned_addr - POINTER) raw_ptr ;;;   (* one pointer below aligned_ptr *)
  ret aligned_addr.

Definition set_largest_free_block (v : Z) (st : mem_stats_t) : mem_stats_t :=
  mk_stats (total_memory st) (used_memory st) (free_memory st)
           (num_allocations st) (num_frees st) v.

(** [mm_get_stats]: the [while (current)] loop, from [current]. *)
Fixpoint largest_free_from (fuel : nat) (current : Z) : M unit :=
  match fuel with
  | O => fail OutOfFuel
  | S fuel' =>
    if current =? NULL then ret tt else
    b <~ load current;
    st <~ get_stats;
    when (is_free b && (largest_free_block st <? size b))
         (put_stats (set_largest_free_block (size b) st)) ;;;
    largest_free_from fuel' (next b)
  end.

Definition mm_get_stats (fuel : nat) : M mem_stats_t :=
  st <~ get_stats;
  put_stats (set_largest_free_block 0 st) ;;;
  (fun s => largest_free_from fuel (heap_head s) s) ;;;
  get_stats.

(** [mm_validate_pointer]; the result is a C truth value. *)
Definition mm_validate_pointer (ptr : Z) (s : mm_state) : Z :=
  if ptr =? NULL then 0 else
  if (ptr <? heap_start s) || (u32 (heap_start s + heap_size s) <=? ptr) then 0
  else 1.

(** [mm_check_heap_integrity]: the [while (current)] loop, from [current]
    with [total_size] bytes counted so far. *)
Fixpoint check_heap_from (fuel : nat) (current total_size : Z) : M Z :=
  match fuel with
  | O => fail OutOfFuel
  | S fuel' =>
    if current =? NULL
    then fun s => Ok (if total_size <=? heap_size s then 1 else 0) s
    else fun s =>
      if (current <? heap_start s) || (u32 (heap_start s + heap_size s) <=? current)
      then Ok 0 s
      else
        (b <~ load current;
         let total_size := u32 (total_size + u32 (size b + HEADER)) in
         if next b =? NULL then check_heap_from fuel' (next b) total_size else
         n <~ load (next b);
         if negb (prev n =? current) then ret 0
         else check_heap_from fuel' (next b) total_size) s
  end.

Definition mm_check_heap_integrity (fuel : nat) : M Z :=
  fun s => check_heap_from fuel (heap_head s) 0 s.

(** *** Vocabulary of the properties *)

(** The payload size of the largest free block of a list, 0 when no
    block is free. *)
Fixpoint largest_free (l : list blk) : Z :=
  match l with
  | [] => 0
  | b :: l' => if bfree b then Z.max (bsize b) (largest_free l') else largest_free l'
  end.

(** Every block size of the list is a multiple of 8. *)
Definition sizes_aligned (l : list blk) : Prop :=
  Forall (fun b => bsize b mod 8 = 0) l.

(** A heap with two live allocations, for the examples: [mm_init], then
    [kmalloc(100)] and [kmalloc(200)]. *)
Definition sample_calls : list mm_call := [Kmalloc 100; Kmalloc 200].
Definition sample_heap : mm_state :=
  state_of (run_calls 4 sample_calls (mm_init 0 0 boot_mm)).

(** The same after [kmalloc(2)], which returns 2097504, with the bytes
    7 and 9 then written to that block. *)
Definition sample_heap_written : mm_state :=
  let s := state_of (kmalloc 4 2 sample_heap) in
  set_memory (write8 2097505 9 (write8 2097504 7 (memory s))) s.

(** A header that a stray write has damaged: at address 2097252, a used
    block of 8 bytes whose [prev] points 4 bytes below the header
    itself. *)
Definition damaged_heap : mm_state :=
  set_memory (store32 (2097252 + 12) (2097252 - 4) (store32 2097252 8 ∅)) boot_mm.

End MmAux.
(** ** VGA text terminal and number output ([src/kernel.c]) *)

Module Terminal.

Definition u16 (x : Z) : Z := x mod 65536.

Definition VGA_WIDTH : Z := 80.
Definition VGA_HEIGHT : Z := 25.

(** A [char] is kept as its byte; [code] is its value as [unsigned char]. *)
Definition code (c : ascii) : Z := Z.of_N (N_of_ascii c).
Definition char_of (z : Z) : ascii := ascii_of_N (Z.to_N (z mod 256)).

Definition newline_char : ascii := char_of 10.

(** [vga_entry_color]: [fg | bg << 4], returned as [uint8_t]. The same
    function is repeated in [isr.c] and [scheduler.c]. *)
Definition vga_entry_color (fg bg : Z) : Z := u8 (Z.lor fg (Z.shiftl bg 4)).

(** [vga_entry]: [uc | color << 8], returned as [uint16_t]. *)
Definition vga_entry (uc color : Z) : Z := u16 (Z.lor (u8 uc) (Z.shiftl (u8 color) 8)).

(** [strlen]. A [const char*] argument is given as the characters that
    follow the pointer; the end of the string stands for the terminating
    NUL, and a NUL inside it ends the C string there. *)
Fixpoint strlen (str : string) : Z :=
  match str with
  | EmptyString => 0
  | String c str' => if decide (c = zero) then 0 else 1 + strlen str'
  end.

(** The globals [terminal_row], [terminal_column], [terminal_color] and
    the memory behind [terminal_buffer], cell index to 16-bit entry. *)
Record terminal := mk_terminal {
  terminal_row : Z;
  terminal_column : Z;
  terminal_color : Z;
  terminal_buffer : gmap Z Z
}.

Definition set_row (v : Z) (t : terminal) : terminal :=
  mk_terminal v (terminal_column t) (terminal_color t) (terminal_buffer t).
Definition set_column (v : Z) (t : terminal) : terminal :=
  mk_terminal (terminal_row t) v (terminal_color t) (terminal_buffer t).
Definition set_buffer (v : gmap Z Z) (t : terminal) : terminal :=
  mk_terminal (terminal_row t) (terminal_column t) (terminal_color t) v.

(** [terminal_setcolor] *)
Definition terminal_setcolor (color : Z) (t : terminal) : terminal :=
  mk_terminal (terminal_row t) (terminal_column t) (u8 color) (terminal_buffer t).

(** [terminal_putentryat]; the index is computed in [size_t]. *)
Definition terminal_putentryat (c : ascii) (color : Z) (x y : Z) (t : terminal) : terminal :=
  let index := u32 (u32 (y * VGA_WIDTH) + x) in
  set_buffer (<[index := vga_entry (code c) color]> (terminal_buffer t)) t.

(** [terminal_initialize]: the two nested loops blank the 25 rows of 80
    cells. *)
Definition terminal_initialize (t : terminal) : terminal :=
  let color := vga_entry_color 7 0 in
  let t := mk_terminal 0 0 color (terminal_buffer t) in
  foldl (fun t y =>
           foldl (fun t x => terminal_putentryat (char_of 32) color (Z.of_nat x) (Z.of_nat y) t)
                 t (seq 0 80))
        t (seq 0 25).

(** [if (++terminal_row == VGA_HEIGHT) terminal_row = 0;] *)
Definition next_row (t : terminal) : terminal :=
  let t := set_row (u32 (terminal_row t + 1)) t in
  if terminal_row t =? VGA_HEIGHT then set_row 0 t else t.

(** [terminal_putchar] *)
Definition terminal_putchar (c : ascii) (t : terminal) : terminal :=
  if decide (c = newline_char) then
    next_row (set_column 0 t)
  else
    let t := terminal_putentryat c (terminal_color t) (terminal_column t) (terminal_row t) t in
    let t := set_column (u32 (terminal_column t + 1)) t in
    if terminal_column t =? VGA_WIDTH then next_row (set_column 0 t) else t.

(** [terminal_write]: [data[0]] to [data[size - 1]]; every caller passes
    a [size] that does not exceed the characters given. *)
Definition terminal_write (data : string) (size : Z) (t : terminal) : terminal :=
  foldl (fun t c => terminal_putchar c t) t
        (take (Z.to_nat size) (list_ascii_of_string data)).

(** [terminal_writestring] *)
Definition terminal_writestring (data : string) (t : terminal) : terminal :=
  terminal_write data (strlen data) t.

(** [strcmp]; [shell_strcmp] in [shell.c] is the same function. *)
Definition head_char (str : string) : ascii :=
  match str with
  | EmptyString => zero
  | String c _ => c
  end.

Definition tail_string (str : string) : string :=
  match str with
  | EmptyString => EmptyString
  | String _ str' => str'
  end.

Fixpoint strcmp (str1 str2 : string) : Z :=
  match str1 with
  | String c str1' =>
    if decide (c ≠ zero ∧ c = head_char str2)
    then strcmp str1' (tail_string str2)
    else code c - code (head_char str2)
  | EmptyString => code zero - code (head_char str2)
  end.

(** [terminal_write_hex]: the loop fills [buffer[7]] down to
    [buffer[0]]. *)
Definition hex_digits : list ascii := list_ascii_of_string "0123456789ABCDEF".

Fixpoint write_hex_loop (n : nat) (value : Z) (buffer : list ascii) : list ascii :=
  match n with
  | O => buffer
  | S i =>
    write_hex_loop i (Z.shiftr value 4)
      (<[i := nth (Z.to_nat (Z.land value 15)) hex_digits zero]> buffer)
  end.

(** The nine bytes of [buffer] are not initialised; all are written
    before they are read, so they are taken as zero here. *)
Definition terminal_write_hex (value : Z) (t : terminal) : terminal :=
  let buffer := <[8%nat := zero]> (replicate 9 zero) in
  let buffer := write_hex_loop 8 (u32 value) buffer in
  terminal_writestring (string_of_list_ascii buffer) t.

(** [terminal_write_dec]: the [while (value > 0)] loop stores the digits
    least significant first; a store past the end of [buffer] has no
    defined result. The fuel is the length of the buffer plus one, which
    such a store always exhausts first. *)
Fixpoint write_dec_loop (fuel : nat) (value : Z) (pos : nat) (buffer : list ascii)
  : option (nat * list ascii) :=
  match fuel with
  | O => None
  | S fuel' =>
    if 0 <? value then
      if decide (pos < length buffer)%nat then
        write_dec_loop fuel' (value / 10) (S pos)
          (<[pos := char_of (48 + value mod 10)]> buffer)
      else None
    else Some (pos, buffer)
  end.

Definition terminal_write_dec (value : Z) (t : terminal) : option terminal :=
  let value := u32 value in
  if value =? 0 then Some (terminal_putchar (char_of 48) t) else
  match write_dec_loop 12 value 0 (replicate 11 zero) with
  | Some (pos, buffer) =>
    Some (foldl (fun t c => terminal_putchar c t) t (rev (take pos buffer)))
  | None => None
  end.

(** *** Vocabulary of the properties *)

(** The cell the next character goes to. *)
Definition cursor (t : terminal) : Z := terminal_row t * VGA_WIDTH + terminal_column t.

(** The cursor is on the screen and so is every cell written so far. *)
Definition on_screen (t : terminal) : Prop :=
  0 <= terminal_row t < VGA_HEIGHT ∧
  0 <= terminal_column t < VGA_WIDTH ∧
  ∀ k, is_Some (terminal_buffer t !! k) -> 0 <= k < VGA_WIDTH * VGA_HEIGHT.

(** The C string held by the characters given: those before the first
    NUL. *)
Fixpoint c_str (str : string) : string :=
  match str with
  | EmptyString => EmptyString
  | String c str' => if decide (c = zero) then EmptyString else String c (c_str str')
  end.

(** Reading a number back from its digits, most significant first. *)
Definition digit_of (base : Z) (c : ascii) : option Z :=
  let v := code c in
  let d := if (48 <=? v) && (v <=? 57) then v - 48
           else if (65 <=? v) && (v <=? 70) then v - 55
           else -1 in
  if (0 <=? d) && (d <? base) then Some d else None.

Definition number_of (base : Z) (digits : list ascii) : option Z :=
  foldl (fun acc c => match acc, digit_of base c with
                      | Some a, Some d => Some (base * a + d)
                      | _, _ => None
                      end)
        (Some 0) digits.

(** The state of the screen at boot, before [terminal_initialize]. *)
Definition boot_terminal : terminal := mk_terminal 0 0 0 ∅.

End Terminal.
(** ** Task scheduler: the ready queue as a list *)

Module SchedulerAux.
Import Scheduler.

(** [linked s p q]: following [next] from pointer [p] visits the slots
    [q] in order and then reaches the null pointer. *)
Fixpoint linked (s : sched) (p : task_ptr) (q : list nat) : Prop :=
  match q with
  | [] => p = None
  | i :: q' => p = Some i ∧ linked s (next (task_at s i)) q'
  end.

(** [q] is the ready queue of [s]: the slots linked from
    [task_queue_head], each linked once, with [task_queue_tail] on the
    last; all of them are slots of the table. *)
Definition ready_queue (s : sched) (q : list nat) : Prop :=
  linked s (task_queue_head s) q ∧
  task_queue_tail s = last q ∧
  NoDup q ∧
  Forall (fun i => (i < length (tasks s))%nat) q.

(** The slots that the wake-up loop of [scheduler_tick] finds asleep
    with their time come at tick [now], in the order of the loop. *)
Definition due (s : sched) (now : Z) : list nat :=
  filter (fun i => state (task_at s i) = TASK_SLEEPING ∧ sleep_until (task_at s i) <= now)
         (seq 0 MAX_TASKS).

(** A table of [MAX_TASKS] slots in which every queued task is ready and
    neither current nor asleep, as [task_create] and the timer leave it. *)
Definition queue_ready (s : sched) (q : list nat) : Prop :=
  ready_queue s q ∧ length (tasks s) = MAX_TASKS ∧
  Forall (fun i => state (task_at s i) = TASK_READY) q.

(** Two tasks created on a fresh scheduler, the first one installed by a
    call of [schedule] and the second one waiting. *)
Definition two_tasks : sched :=
  exec sample_stacks [OpCreate "idle" 4096; OpCreate "counter" 8192; OpSchedule]
       (scheduler_init boot_sched).

(** [i] is the slot at which the search loop of [task_create] stops: the
    lowest-numbered slot whose state is [TASK_TERMINATED]. *)
Definition first_free (s : sched) (i : nat) : Prop :=
  (i < length (tasks s))%nat ∧
  state (task_at s i) = TASK_TERMINATED ∧
  ∀ k, (k < i)%nat -> state (task_at s k) ≠ TASK_TERMINATED.

(** A string as C passes it: without a NUL before its end. *)
Definition no_nul (str : string) : Prop := zero ∉ list_ascii_of_string str.

(** A task named "counter" that has run and called [task_exit]: its slot
    is free again and still holds the name. *)
Definition counter_exited : sched :=
  exec sample_stacks [OpCreate "counter" 8192; OpSchedule; OpExit]
       (scheduler_init boot_sched).

(** The first of [two_tasks] has called [task_sleep 5] at tick 0, and
    four timer interrupts have arrived since. *)
Definition idle_asleep : sched :=
  exec sample_stacks [OpSleep 5; OpTick; OpTick; OpTick; OpTick] two_tasks.

End SchedulerAux.
(** * Properties *)

(** ** Interrupt layer *)

Module IsrFacts.
Import Isr.

Section Dispatch.
Context {K : Type}.
Implicit Types (m : machine K) (tbl : handler_table K) (r : registers).

Lemma emit_after m e es : emit e (after m es) = after m (es ++ [e]).
Proof. unfold emit, after; simpl. by rewrite <- app_assoc. Qed.

Lemma emit_fresh m e : emit e m = after m [e].
Proof. reflexivity. Qed.

Lemma after_after m es1 es2 : after (after m es1) es2 = after m (es1 ++ es2).
Proof. unfold after; simpl. by rewrite <- app_assoc. Qed.

(** The halt loop never returns: whatever the fuel, the run is still
    spinning, and all it has done is execute [hlt]. *)
Lemma halt_loop_spins fuel m :
  halt_loop fuel m = Spinning (after m (replicate fuel Hlt)).
Proof.
  revert m. induction fuel as [|n IH]; intros m; simpl.
  - unfold after. rewrite app_nil_r. by destruct m.
  - rewrite IH, emit_fresh, after_after. reflexivity.
Qed.

Lemma in_table_true v : 0 <= v < 256 -> in_table v = true.
Proof. unfold in_table. intros. apply andb_true_iff. split; [apply Z.leb_le | apply Z.ltb_lt]; lia. Qed.

Lemma exception_messages_length : length exception_messages = 32%nat.
Proof. reflexivity. Qed.

Lemma irq_ack_events irq m : irq_ack irq m = after m (eoi_events irq).
Proof.
  unfold irq_ack, eoi_events, outb, emit, after.
  destruct (8 <=? irq); simpl; rewrite <- ?app_assoc; reflexivity.
Qed.

(** C4. For every dispatch of a device vector (32..255) the layer writes
    the end-of-interrupt command 0x20 to the slave PIC (port 0xA0) exactly
    when the IRQ number [int_no - 32] is at least 8, then to the master PIC
    (port 0x20), and only then calls the registered handler, which receives
    the machine with the acknowledgment already on its trace; when no
    handler is registered the acknowledgment is sent all the same and the
    dispatcher returns. *)
Theorem irq_handler_acks_before_handler tbl r m :
  32 <= int_no r <= 255 ->
  let irq := int_no r - 32 in
  let eoi := (if 8 <=? irq then [Outb 160 32] else []) ++ [Outb 32 32] in
  irq_handler tbl r m =
    Returned (match tbl !! int_no r with
              | Some handler => handler r (after m eoi)
              | None => after m eoi
              end).
Proof.
  intros Hv irq eoi. unfold irq_handler.
  rewrite in_table_true by lia. cbn [negb].
  assert (Hirq : u8 (u32 (int_no r - 32)) = irq).
  { unfold u8, u32, UINT32_MOD, irq.
    rewrite (Z.mod_small (int_no r - 32)) by lia. apply Z.mod_small. lia. }
  rewrite Hirq, irq_ack_events. fold (eoi_events irq).
  destruct (tbl !! int_no r); reflexivity.
Qed.

Lemma isr_handler_unhandled fuel tbl r m :
  0 <= int_no r < 256 -> tbl !! int_no r = None ->
  isr_handler fuel tbl r m =
    Spinning (after m (fatal_report
                         (if int_no r <? 32
                          then nth (Z.to_nat (int_no r)) exception_messages ""%string
                          else "Unknown Exception"%string)
                       ++ replicate fuel Hlt)).
Proof.
  intros Hv Hnone. unfold isr_handler.
  rewrite in_table_true by lia. cbn [negb]. rewrite Hnone.
  rewrite halt_loop_spins.
  unfold terminal_writestring, terminal_setcolor.
  destruct (int_no r <? 32);
    unfold emit, after; simpl; rewrite <- !app_assoc; reflexivity.
Qed.

(** The table of [isr.c] holds these names, vector by vector. *)
Lemma exception_messages_names v :
  0 <= v < 32 -> nth (Z.to_nat v) exception_messages ""%string = exception_name v.
Proof.
  intros Hv. rewrite <- (Z2Nat.id v) at 2 by lia.
  assert (Hn : (Z.to_nat v < 32)%nat) by lia.
  generalize dependent (Z.to_nat v). intros n Hn.
  do 32 (destruct n as [|n]; [reflexivity|]). lia.
Qed.

(** C5, amended. A trap on a vector below 32 for which no handler is
    registered prints, between "Exception: " and "System Halted.", the name that the
    table gives to that vector, which is the name of the exception for
    vectors 0 to 18 and "Reserved" for vectors 19 to 31, and then executes
    [hlt] for ever: with any amount of fuel the run is still inside the
    halt loop and has not returned. "Unknown Exception" is reported only
    for an unhandled vector outside the table (32..255), which halts in
    the same way. When a handler is registered for the vector, the
    dispatcher prints nothing, does not halt, and returns what the handler
    returns. *)
Theorem isr_handler_fatal_policy fuel tbl r m :
  (0 <= int_no r < 32 -> tbl !! int_no r = None ->
     isr_handler fuel tbl r m =
       Spinning (after m (fatal_report (exception_name (int_no r))
                          ++ replicate fuel Hlt))) /\
  (32 <= int_no r < 256 -> tbl !! int_no r = None ->
     isr_handler fuel tbl r m =
       Spinning (after m (fatal_report "Unknown Exception" ++ replicate fuel Hlt))) /\
  (forall handler, 0 <= int_no r < 256 -> tbl !! int_no r = Some handler ->
     isr_handler fuel tbl r m = Returned (handler r m)).
Proof.
  split; [|split].
  - intros Hv Hnone.
    rewrite isr_handler_unhandled by (auto; lia).
    replace (int_no r <? 32) with true by (symmetry; apply Z.ltb_lt; lia).
    by rewrite exception_messages_names.
  - intros Hv Hnone.
    rewrite isr_handler_unhandled by (auto; lia).
    replace (int_no r <? 32) with false by (symmetry; apply Z.ltb_ge; lia).
    reflexivity.
  - intros handler Hv Hsome. unfold isr_handler.
    rewrite in_table_true by lia. cbn [negb]. by rewrite Hsome.
Qed.

End Dispatch.

(** Concrete runs: the timer IRQ (vector 32), a slave-PIC IRQ (vector 44),
    and a page fault (vector 14), on a machine with no other kernel state. *)

Example irq_slave_then_master_then_handler :
  irq_handler (register_interrupt_handler 44 marking_handler isr_init)
              (regs_of_vector 44) boot_machine
  = Returned {| trace := [Outb 160 32; Outb 32 32; WriteString "handled"];
                kernel := tt |}.
Proof. reflexivity. Qed.

Example irq_timer_unregistered_still_acked :
  irq_handler isr_init (regs_of_vector 32) boot_machine
  = Returned {| trace := [Outb 32 32]; kernel := tt |}.
Proof. reflexivity. Qed.

Example page_fault_is_fatal :
  isr_handler 3 isr_init (regs_of_vector 14) boot_machine
  = Spinning {| trace := [SetColor 12; WriteString "Exception: ";
                          WriteString "Page Fault";
                          WriteString (newline ++ "System Halted." ++ newline);
                          Hlt; Hlt; Hlt];
                kernel := tt |}.
Proof. reflexivity. Qed.

Lemma irq_handler_acks_before_handler_witness :
  32 <= int_no (regs_of_vector 44) <= 255 /\
  irq_handler (register_interrupt_handler 44 marking_handler isr_init)
              (regs_of_vector 44) boot_machine
  = Returned (after (after boot_machine [Outb 160 32; Outb 32 32])
                    [WriteString "handled"]).
Proof.
  split; [simpl; lia|].
  rewrite (irq_handler_acks_before_handler
             (register_interrupt_handler 44 marking_handler isr_init)
             (regs_of_vector 44) boot_machine); [reflexivity | simpl; lia].
Defined.

Lemma isr_handler_fatal_policy_witness :
  isr_handler 2 isr_init (regs_of_vector 14) boot_machine =
    Spinning (after boot_machine (fatal_report "Page Fault" ++ replicate 2 Hlt)).
Proof.
  destruct (isr_handler_fatal_policy 2 isr_init (regs_of_vector 14) boot_machine)
    as [Hfatal _].
  apply Hfatal; [simpl; lia | reflexivity].
Defined.

(** C5 as stated fails on the code: a vector below 32 without a known
    name, here vector 20, is not reported as "Unknown Exception". The
    table has an entry for every vector below 32, and for the vectors 19
    to 31 that entry is "Reserved". *)
Lemma reserved_vector_is_not_reported_as_unknown :
  isr_handler 1 isr_init (regs_of_vector 20) boot_machine
  = Spinning {| trace := [SetColor 12; WriteString "Exception: ";
                          WriteString "Reserved";
                          WriteString (newline ++ "System Halted." ++ newline);
                          Hlt];
                kernel := tt |} /\
  isr_handler 1 isr_init (regs_of_vector 20) boot_machine
  <> Spinning (after boot_machine (fatal_report "Unknown Exception" ++ [Hlt])).
Proof. split; [reflexivity | discriminate]. Qed.

End IsrFacts.

(** ** Task scheduler *)

Module SchedulerFacts.
Import Scheduler.

(** *** Reading the state after an update *)

Lemma task_at_update i f s j :
  task_at (update_task i f s) j =
    if decide (i = j ∧ (i < length (tasks s))%nat) then f (task_at s i) else task_at s j.
Proof. unfold task_at, update_task. simpl. apply list_lookup_total_alter. Qed.

Lemma task_at_update_ne i f s j : i ≠ j -> task_at (update_task i f s) j = task_at s j.
Proof.
  intros. rewrite task_at_update.
  destruct (decide _) as [[? _]|_]; [congruence | reflexivity].
Qed.

Lemma task_at_update_eq i f s :
  (i < length (tasks s))%nat -> task_at (update_task i f s) i = f (task_at s i).
Proof. intros. rewrite task_at_update. by rewrite decide_True. Qed.

Lemma length_update_task i f s : length (tasks (update_task i f s)) = length (tasks s).
Proof. unfold update_task. simpl. apply length_alter. Qed.

Lemma head_update_task i f s : task_queue_head (update_task i f s) = task_queue_head s.
Proof. reflexivity. Qed.
Lemma tail_update_task i f s : task_queue_tail (update_task i f s) = task_queue_tail s.
Proof. reflexivity. Qed.
Lemma current_update_task i f s : current_task (update_task i f s) = current_task s.
Proof. reflexivity. Qed.
Lemma ticks_update_task i f s : system_ticks (update_task i f s) = system_ticks s.
Proof. reflexivity. Qed.

Lemma task_at_set_head v s j : task_at (set_task_queue_head v s) j = task_at s j.
Proof. reflexivity. Qed.
Lemma task_at_set_tail v s j : task_at (set_task_queue_tail v s) j = task_at s j.
Proof. reflexivity. Qed.
Lemma task_at_set_current v s j : task_at (set_current_task v s) j = task_at s j.
Proof. reflexivity. Qed.
Lemma task_at_set_ticks v s j : task_at (set_system_ticks v s) j = task_at s j.
Proof. reflexivity. Qed.
Lemma task_at_set_next_id v s j : task_at (set_next_task_id v s) j = task_at s j.
Proof. reflexivity. Qed.

#[local] Arguments update_task : simpl never.
#[local] Arguments task_at : simpl never.

Create Rewrite HintDb sched.
#[local] Hint Rewrite head_update_task tail_update_task current_update_task
  ticks_update_task length_update_task task_at_set_head task_at_set_tail
  task_at_set_current task_at_set_ticks task_at_set_next_id : sched.

(** What [task_queue_remove_next] does to a non-empty queue. *)
Lemma task_queue_remove_next_head s j :
  task_queue_head s = Some j -> task_queue_remove_next s = (Some j, dequeued j s).
Proof. intros H. unfold task_queue_remove_next. rewrite H. reflexivity. Qed.

Lemma task_at_dequeued j s i : i ≠ j -> task_at (dequeued j s) i = task_at s i.
Proof.
  intros. unfold dequeued. rewrite task_at_update_ne by congruence.
  simpl. case_match; reflexivity.
Qed.

Lemma length_dequeued j s : length (tasks (dequeued j s)) = length (tasks s).
Proof. unfold dequeued. rewrite length_update_task. simpl. case_match; reflexivity. Qed.

Lemma current_dequeued j s : current_task (dequeued j s) = current_task s.
Proof. unfold dequeued. rewrite current_update_task. simpl. case_match; reflexivity. Qed.

(** What [switch_to_task] does to the state. *)
Lemma switch_to_task_installs j s : switch_to_task j s = Returns (installed j s).
Proof. reflexivity. Qed.

Lemma task_at_installed_ne j s i : i ≠ j -> task_at (installed j s) i = task_at s i.
Proof.
  intros. unfold installed. rewrite task_at_set_current.
  rewrite !task_at_update_ne by congruence. reflexivity.
Qed.

Lemma state_installed j s :
  (j < length (tasks s))%nat -> state (task_at (installed j s) j) = TASK_RUNNING.
Proof.
  intros. unfold installed. rewrite task_at_set_current.
  rewrite !task_at_update_eq; [reflexivity | exact H | by rewrite length_update_task].
Qed.

(** *** Every call returns *)

Lemma switch_to_task_returns task s : exists s', switch_to_task task s = Returns s'.
Proof. unfold switch_to_task. eauto. Qed.

Lemma schedule_returns s : exists s', schedule s = Returns s'.
Proof.
  unfold schedule. destruct (task_queue_remove_next s) as [[nt|] s1]; [|eauto].
  apply switch_to_task_returns.
Qed.

(** C10. Called with an empty ready queue, [schedule] returns to its
    caller and leaves the whole scheduler state as it was: the tasks with
    their lifecycle states and remaining slices, the current-task pointer,
    the queue ends, the id and tick counters. *)
Theorem schedule_empty_queue_is_noop s :
  task_queue_head s = None -> schedule s = Returns s.
Proof.
  intros Hempty. unfold schedule, task_queue_remove_next.
  rewrite Hempty. reflexivity.
Qed.

Lemma schedule_empty_queue_is_noop_witness :
  task_queue_head (scheduler_init boot_sched) = None ∧
  schedule (scheduler_init boot_sched) = Returns (scheduler_init boot_sched).
Proof.
  split; [reflexivity|].
  apply (schedule_empty_queue_is_noop (scheduler_init boot_sched)). reflexivity.
Defined.

(** *** Exit *)

(** The state in which [task_exit] calls [schedule]. *)
(** C8 as stated fails on the code: the only task of the system calls
    [task_exit] while the ready queue is empty; [schedule] finds nothing
    to run and returns, and so does [task_exit], to the code of the task
    that has just been marked terminated. No call abandons its caller. *)
Lemma task_exit_returns_to_exiting_task :
  let s := lone_task sample_stacks 4096 in
  current_task s = Some 0%nat ∧
  state (task_at s 0) = TASK_RUNNING ∧
  task_queue_head s = None ∧
  task_exit s = Returns (exiting 0 s) ∧
  ¬ (∃ s', task_exit s = Abandons s').
Proof.
  vm_compute. repeat split. intros [s' Hs']. discriminate Hs'.
Qed.

(** C8, amended. A call of [task_exit] by the current task [i] marks [i]
    terminated, clears the current-task pointer and calls [schedule] in
    that state; it then returns to its caller. If the ready queue is empty
    it returns with no current task and [i] terminated; otherwise the head
    [j] of the queue has been installed as the current task, running, and
    [i] is terminated unless it was itself that head. *)
Theorem task_exit_terminates_schedules_and_returns s i :
  current_task s = Some i ->
  task_exit s = schedule (exiting i s) ∧
  ∃ s', task_exit s = Returns s' ∧
    match task_queue_head s with
    | None =>
        s' = exiting i s ∧ current_task s' = None ∧
        ((i < length (tasks s))%nat -> state (task_at s' i) = TASK_TERMINATED)
    | Some j =>
        current_task s' = Some j ∧
        ((j < length (tasks s))%nat -> state (task_at s' j) = TASK_RUNNING) ∧
        ((i < length (tasks s))%nat -> i ≠ j -> state (task_at s' i) = TASK_TERMINATED)
    end.
Proof.
  intros Hcur. unfold task_exit. rewrite Hcur. fold (exiting i s).
  split; [reflexivity|].
  assert (Hlen : length (tasks (exiting i s)) = length (tasks s))
    by (unfold exiting; simpl; apply length_update_task).
  assert (Hst : (i < length (tasks s))%nat ->
                state (task_at (exiting i s) i) = TASK_TERMINATED).
  { intros Hi. unfold exiting. rewrite task_at_set_current.
    rewrite task_at_update_eq by exact Hi. reflexivity. }
  unfold schedule.
  destruct (task_queue_head s) as [j|] eqn:Hhead.
  - (* the queue head [j] is installed *)
    rewrite (task_queue_remove_next_head _ j) by exact Hhead.
    rewrite current_dequeued. change (current_task (exiting i s)) with (@None nat).
    rewrite switch_to_task_installs.
    eexists. split; [reflexivity|].
    split; [reflexivity|]. split.
    + intros Hj. apply state_installed. by rewrite length_dequeued, Hlen.
    + intros Hi Hij. rewrite task_at_installed_ne, task_at_dequeued by congruence.
      by apply Hst.
  - unfold task_queue_remove_next.
    change (task_queue_head (exiting i s)) with (task_queue_head s). rewrite Hhead.
    eexists. split; [reflexivity|]. split; [reflexivity|]. split; [reflexivity|].
    exact Hst.
Qed.

Lemma task_exit_terminates_schedules_and_returns_witness :
  let s := state_of (schedule (three_tasks sample_stacks 4096)) in
  current_task s = Some 0%nat ∧
  ∃ s', task_exit s = Returns s' ∧ current_task s' = Some 1%nat ∧
        state (task_at s' 1) = TASK_RUNNING ∧
        state (task_at s' 0) = TASK_TERMINATED.
Proof.
  intros s.
  assert (Hcur : current_task s = Some 0%nat) by reflexivity.
  split; [exact Hcur|].
  destruct (task_exit_terminates_schedules_and_returns s 0%nat Hcur)
    as [_ [s' [Hret Hpost]]].
  exists s'. split; [exact Hret|].
  change (task_queue_head s) with (Some 1%nat) in Hpost.
  destruct Hpost as [Hc [Hrun Hterm]].
  split; [exact Hc|]. split.
  - apply Hrun. vm_compute. lia.
  - apply Hterm; [vm_compute; lia | discriminate].
Defined.

(** *** Round robin *)

(** [schedule] with a running task and a non-empty queue: the running
    task is demoted, its slice reset, and it is appended to the queue
    before the dequeued head is installed. *)
Lemma schedule_round_robin s cur j :
  current_task s = Some cur -> state (task_at s cur) = TASK_RUNNING ->
  task_queue_head s = Some j -> cur ≠ j ->
  schedule s = Returns (installed j (demoted cur (dequeued j s))).
Proof.
  intros Hcur Hrun Hhead Hne. unfold schedule.
  rewrite (task_queue_remove_next_head _ j) by exact Hhead.
  rewrite current_dequeued, Hcur, task_at_dequeued, Hrun by exact Hne.
  rewrite decide_True by reflexivity.
  apply switch_to_task_installs.
Qed.

(** [schedule] in one equation. *)
Lemma schedule_unfold s :
  schedule s = Returns match task_queue_head s with
                       | Some j => rescheduled j s
                       | None => s
                       end.
Proof.
  unfold schedule. destruct (task_queue_head s) as [j|] eqn:Hhead.
  - rewrite (task_queue_remove_next_head _ j) by exact Hhead.
    apply switch_to_task_installs.
  - unfold task_queue_remove_next. by rewrite Hhead.
Qed.

Lemma dequeued_set_system_ticks T j s :
  dequeued j (set_system_ticks T s) = set_system_ticks T (dequeued j s).
Proof.
  unfold dequeued. change (task_at (set_system_ticks T s) j) with (task_at s j).
  cbn [task_queue_head set_task_queue_head].
  destruct (next (task_at s j)); reflexivity.
Qed.

Lemma demoted_set_system_ticks T cur s :
  demoted cur (set_system_ticks T s) = set_system_ticks T (demoted cur s).
Proof.
  unfold demoted, task_queue_add. rewrite !tail_update_task.
  change (task_queue_tail (set_system_ticks T s)) with (task_queue_tail s).
  destruct (task_queue_tail s); reflexivity.
Qed.

Lemma installed_set_system_ticks T j s :
  installed j (set_system_ticks T s) = set_system_ticks T (installed j s).
Proof. reflexivity. Qed.

Lemma rescheduled_set_system_ticks T j s :
  rescheduled j (set_system_ticks T s) = set_system_ticks T (rescheduled j s).
Proof.
  unfold rescheduled. rewrite dequeued_set_system_ticks.
  cbn [current_task set_system_ticks].
  destruct (current_task (dequeued j s)) as [cur|];
    [|apply installed_set_system_ticks].
  rewrite task_at_set_ticks.
  destruct (decide _); [|apply installed_set_system_ticks].
  rewrite demoted_set_system_ticks. apply installed_set_system_ticks.
Qed.

Lemma schedule_set_system_ticks T s :
  schedule (set_system_ticks T s) = map_state (set_system_ticks T) (schedule s).
Proof.
  rewrite !schedule_unfold. cbn [map_state task_queue_head set_system_ticks].
  destruct (task_queue_head s); [|reflexivity].
  by rewrite rescheduled_set_system_ticks.
Qed.

Lemma wake_slot_awake s j : state (task_at s j) ≠ TASK_SLEEPING -> wake_slot s j = s.
Proof. intros H. unfold wake_slot. by rewrite decide_False. Qed.

Lemma wake_sleeping_tasks_none s : no_sleepers s -> wake_sleeping_tasks s = s.
Proof.
  intros H. unfold wake_sleeping_tasks. generalize (seq 0 MAX_TASKS) as l.
  induction l as [|j l IH]; [reflexivity|].
  simpl. rewrite wake_slot_awake by apply H. exact IH.
Qed.

Lemma no_sleepers_update i f s :
  (∀ t, state t ≠ TASK_SLEEPING -> state (f t) ≠ TASK_SLEEPING) ->
  no_sleepers s -> no_sleepers (update_task i f s).
Proof.
  intros Hf H j. rewrite task_at_update. destruct (decide _); auto.
Qed.

Lemma no_sleepers_frame s s' :
  (∀ j, task_at s' j = task_at s j) -> no_sleepers s -> no_sleepers s'.
Proof. intros Heq H j. rewrite Heq. apply H. Qed.

Lemma no_sleepers_task_queue_add j s : no_sleepers s -> no_sleepers (task_queue_add j s).
Proof.
  intros H. unfold task_queue_add. rewrite tail_update_task.
  destruct (task_queue_tail s).
  - eapply no_sleepers_frame; [intros; apply task_at_set_tail|].
    do 2 (apply no_sleepers_update; [auto|]). exact H.
  - eapply no_sleepers_frame; [intros; reflexivity|].
    apply no_sleepers_update; [auto|]. exact H.
Qed.

Lemma no_sleepers_dequeued j s : no_sleepers s -> no_sleepers (dequeued j s).
Proof.
  intros H. unfold dequeued. apply no_sleepers_update; [auto|].
  eapply no_sleepers_frame; [|exact H].
  intros k. simpl. destruct (next (task_at s j)); reflexivity.
Qed.

Lemma no_sleepers_installed j s : no_sleepers s -> no_sleepers (installed j s).
Proof.
  intros H. unfold installed.
  eapply no_sleepers_frame; [intros; apply task_at_set_current|].
  apply no_sleepers_update; [auto|].
  apply no_sleepers_update; [|exact H]. intros; simpl; discriminate.
Qed.

Lemma no_sleepers_demoted cur s : no_sleepers s -> no_sleepers (demoted cur s).
Proof.
  intros H. unfold demoted. apply no_sleepers_task_queue_add.
  apply no_sleepers_update; [auto|].
  apply no_sleepers_update; [|exact H]. intros; simpl; discriminate.
Qed.

Lemma no_sleepers_rescheduled j s : no_sleepers s -> no_sleepers (rescheduled j s).
Proof.
  intros H. unfold rescheduled. apply no_sleepers_installed.
  pose proof (no_sleepers_dequeued j s H) as Hd.
  destruct (current_task (dequeued j s)); [|exact Hd].
  destruct (decide _); [|exact Hd]. by apply no_sleepers_demoted.
Qed.

Lemma no_sleepers_schedule s : no_sleepers s -> no_sleepers (state_of (schedule s)).
Proof.
  intros H. rewrite schedule_unfold. simpl.
  destruct (task_queue_head s); [by apply no_sleepers_rescheduled | exact H].
Qed.

(** The slice accounting of [scheduler_tick]. *)
Lemma no_sleepers_slice_accounted s : no_sleepers s -> no_sleepers (slice_accounted s).
Proof.
  intros H. unfold slice_accounted. destruct (current_task s) as [cur|]; [|exact H].
  assert (H1 : no_sleepers (update_task cur
             (fun t => set_time_remaining (u32 (time_remaining t - 1)) t) s))
    by (apply no_sleepers_update; [auto | exact H]).
  simpl. case_match; [by apply no_sleepers_schedule | exact H1].
Qed.

Lemma scheduler_tick_past_grace r s T :
  no_sleepers s -> 100 <= T -> T + 1 < UINT32_MOD ->
  scheduler_tick r (set_system_ticks T s)
  = Returns (set_system_ticks (T + 1) (slice_accounted s)).
Proof.
  intros Hns HT Hwrap. unfold scheduler_tick.
  change (system_ticks (set_system_ticks T s)) with T.
  replace (u32 (T + 1)) with (T + 1) by (unfold u32; rewrite Z.mod_small; lia).
  change (set_system_ticks (T + 1) (set_system_ticks T s))
    with (set_system_ticks (T + 1) s).
  rewrite wake_sleeping_tasks_none by exact Hns.
  change (current_task (set_system_ticks (T + 1) s)) with (current_task s).
  change (system_ticks (set_system_ticks (T + 1) s)) with (T + 1).
  unfold slice_accounted.
  destruct (current_task s) as [cur|]; [|reflexivity].
  replace (100 <? T + 1) with true by (symmetry; apply Z.ltb_lt; lia).
  cbv zeta.
  change (update_task cur ?f (set_system_ticks (T + 1) s))
    with (set_system_ticks (T + 1) (update_task cur f s)).
  rewrite task_at_set_ticks.
  case_match; [|reflexivity].
  rewrite schedule_set_system_ticks.
  destruct (schedule_returns (update_task cur
              (fun t => set_time_remaining (u32 (time_remaining t - 1)) t) s))
    as [s' Hs']. rewrite Hs'. reflexivity.
Qed.

Lemma observed_name_set_system_ticks T s p :
  observed_name (set_system_ticks T s) p = observed_name s p.
Proof. reflexivity. Qed.

Lemma tick_names_past_grace n : ∀ s T T',
  no_sleepers s ->
  100 <= T -> T + Z.of_nat n < UINT32_MOD ->
  100 <= T' -> T' + Z.of_nat n < UINT32_MOD ->
  tick_names n (set_system_ticks T s) = tick_names n (set_system_ticks T' s).
Proof.
  induction n as [|n IH]; intros s T T' Hns HT Hn HT' Hn'; [reflexivity|].
  cbn [tick_names].
  rewrite !scheduler_tick_past_grace by (auto; lia).
  cbn [state_of]. rewrite !observed_name_set_system_ticks.
  cbn [current_task set_system_ticks].
  rewrite (IH (slice_accounted s) (T + 1) (T' + 1));
    [reflexivity | by apply no_sleepers_slice_accounted | lia..].
Qed.

(** A decidable sufficient condition for [no_sleepers]. *)
Lemma no_sleepers_check s :
  forallb (fun t => bool_decide (state t ≠ TASK_SLEEPING)) (tasks s) = true ->
  no_sleepers s.
Proof.
  intros H j. unfold task_at. rewrite list_lookup_total_alt.
  destruct (tasks s !! j) as [t|] eqn:Hj; simpl; [|discriminate].
  rewrite forallb_forall in H. 
  assert (Hin : In t (tasks s)) by (apply list_elem_of_In; eapply list_elem_of_lookup_2; eauto).
  specialize (H t Hin). by apply bool_decide_eq_true in H.
Qed.

(** C6 as stated fails on the code: with A, B and C created and nothing
    else, the timer never starts a task. [scheduler_tick] only accounts
    slices when [current_task] is set, and only [schedule] sets it; so
    after the 100-tick grace window the next 35 ticks all find no current
    task, and the three tasks are still waiting in the ready queue. *)
Lemma timer_alone_never_starts_a_task :
  let s := run_ticks 100 (three_tasks sample_stacks 4096) in
  system_ticks s = 100 ∧
  tick_names 35 s = replicate 35 None ∧
  execution_order 35 s = [] ∧
  execution_order 35 s ≠ ["A"; "B"; "C"; "A"]%string ∧
  current_task (run_ticks 35 s) = None ∧
  map state (take 3 (tasks (run_ticks 35 s))) = [TASK_READY; TASK_READY; TASK_READY].
Proof. vm_compute. repeat split. discriminate. Qed.

(** C6, amended. Once one call of [schedule] has installed the first
    task, and from any tick count past the grace window (at least 100,
    and far enough from the 32-bit wrap), 35 timer ticks with no voluntary
    call give the execution order A, B, C, A. Each time a slice runs out,
    [schedule] marks the running task ready, resets its slice and appends
    it to the ready queue before it installs the dequeued head. *)
Theorem round_robin_after_first_schedule stack_addr entry T :
  100 <= T -> T + 35 < UINT32_MOD ->
  execution_order 35 (three_tasks_started stack_addr entry T) = ["A"; "B"; "C"; "A"]%string
  ∧ ∀ s cur j,
      current_task s = Some cur -> state (task_at s cur) = TASK_RUNNING ->
      task_queue_head s = Some j -> cur ≠ j ->
      schedule s = Returns (installed j (demoted cur (dequeued j s))).
Proof.
  intros HT Hwrap. split; [|apply schedule_round_robin].
  unfold execution_order, three_tasks_started.
  rewrite (tick_names_past_grace 35 _ T 100); [| |lia..].
  - vm_compute. reflexivity.
  - apply no_sleepers_check. vm_compute. reflexivity.
Qed.

Lemma round_robin_after_first_schedule_witness :
  execution_order 35 (three_tasks_started sample_stacks 4096 100)
  = ["A"; "B"; "C"; "A"]%string.
Proof.
  apply (round_robin_after_first_schedule sample_stacks 4096 100); unfold UINT32_MOD; lia.
Defined.

(** *** Sleep *)

(** The tick counter is only written by [scheduler_tick]. *)
Lemma ticks_task_queue_add j s : system_ticks (task_queue_add j s) = system_ticks s.
Proof.
  unfold task_queue_add. rewrite tail_update_task.
  destruct (task_queue_tail s); reflexivity.
Qed.

Lemma ticks_dequeued j s : system_ticks (dequeued j s) = system_ticks s.
Proof.
  unfold dequeued. rewrite ticks_update_task. simpl.
  destruct (next (task_at s j)); reflexivity.
Qed.

Lemma ticks_demoted cur s : system_ticks (demoted cur s) = system_ticks s.
Proof. unfold demoted. by rewrite ticks_task_queue_add, !ticks_update_task. Qed.

Lemma ticks_installed j s : system_ticks (installed j s) = system_ticks s.
Proof. reflexivity. Qed.

Lemma ticks_rescheduled j s : system_ticks (rescheduled j s) = system_ticks s.
Proof.
  unfold rescheduled. rewrite ticks_installed.
  destruct (current_task (dequeued j s)); [|apply ticks_dequeued].
  destruct (decide _); [|apply ticks_dequeued].
  by rewrite ticks_demoted, ticks_dequeued.
Qed.

Lemma ticks_schedule s : system_ticks (state_of (schedule s)) = system_ticks s.
Proof.
  rewrite schedule_unfold. simpl.
  destruct (task_queue_head s); [apply ticks_rescheduled | reflexivity].
Qed.

Lemma ticks_wake_slot s j : system_ticks (wake_slot s j) = system_ticks s.
Proof.
  unfold wake_slot. destruct (decide _); [|reflexivity].
  case_match; [|reflexivity]. by rewrite ticks_task_queue_add, ticks_update_task.
Qed.

Lemma ticks_wake_slots l : ∀ s, system_ticks (foldl wake_slot s l) = system_ticks s.
Proof.
  induction l as [|j l IH]; intros s; [reflexivity|].
  simpl. by rewrite IH, ticks_wake_slot.
Qed.

(** The array keeps its length. *)
Lemma length_task_queue_add j s : length (tasks (task_queue_add j s)) = length (tasks s).
Proof.
  unfold task_queue_add. rewrite tail_update_task.
  destruct (task_queue_tail s);
    unfold set_task_queue_tail, set_task_queue_head; cbn [tasks];
    by rewrite !length_update_task.
Qed.

Lemma length_wake_slot s j : length (tasks (wake_slot s j)) = length (tasks s).
Proof.
  unfold wake_slot. destruct (decide _); [|reflexivity].
  case_match; [|reflexivity]. by rewrite length_task_queue_add, length_update_task.
Qed.

Lemma length_wake_slots l : ∀ s, length (tasks (foldl wake_slot s l)) = length (tasks s).
Proof.
  induction l as [|j l IH]; intros s; [reflexivity|].
  simpl. by rewrite IH, length_wake_slot.
Qed.

Section Parked.
Variables (i : nat) (wake : Z).

Lemma parked_update j f s :
  j ≠ i -> (∀ t, next t ≠ Some i -> next (f t) ≠ Some i) ->
  parked i wake s -> parked i wake (update_task j f s).
Proof.
  intros Hne Hf (Hst & Hsl & Hcur & Hh & Ht & Hn).
  unfold parked, unlinked. rewrite task_at_update_ne by exact Hne.
  repeat split; try assumption.
  intros k. rewrite task_at_update. destruct (decide _); auto.
Qed.

Lemma parked_set_head v s :
  v ≠ Some i -> parked i wake s -> parked i wake (set_task_queue_head v s).
Proof. intros Hv (Hst & Hsl & Hcur & Hh & Ht & Hn). repeat split; assumption. Qed.

Lemma parked_set_tail v s :
  v ≠ Some i -> parked i wake s -> parked i wake (set_task_queue_tail v s).
Proof. intros Hv (Hst & Hsl & Hcur & Hh & Ht & Hn). repeat split; assumption. Qed.

Lemma parked_set_current v s :
  v ≠ Some i -> parked i wake s -> parked i wake (set_current_task v s).
Proof. intros Hv (Hst & Hsl & Hcur & Hh & Ht & Hn). repeat split; assumption. Qed.

Lemma parked_set_ticks v s : parked i wake s -> parked i wake (set_system_ticks v s).
Proof. intros (Hst & Hsl & Hcur & Hh & Ht & Hn). repeat split; assumption. Qed.

Lemma parked_set_next_id v s : parked i wake s -> parked i wake (set_next_task_id v s).
Proof. intros (Hst & Hsl & Hcur & Hh & Ht & Hn). repeat split; assumption. Qed.

Lemma parked_task_queue_add j s :
  j ≠ i -> parked i wake s -> parked i wake (task_queue_add j s).
Proof.
  intros Hne Hp. unfold task_queue_add. rewrite tail_update_task.
  assert (Hp1 : parked i wake (update_task j (set_next None) s))
    by (apply parked_update; [exact Hne | intros; simpl; discriminate | exact Hp]).
  destruct (task_queue_tail s) as [tl|] eqn:Htl.
  - assert (tl ≠ i) by (destruct Hp as (_ & _ & _ & _ & Ht & _); congruence).
    apply parked_set_tail; [congruence|].
    apply parked_update; [assumption | intros; simpl; congruence | exact Hp1].
  - apply parked_set_tail; [congruence|].
    apply parked_set_head; [congruence | exact Hp1].
Qed.

Lemma parked_dequeued j s :
  task_queue_head s = Some j -> parked i wake s -> j ≠ i ∧ parked i wake (dequeued j s).
Proof.
  intros Hhead Hp.
  assert (Hne : j ≠ i) by (destruct Hp as (_ & _ & _ & Hh & _); congruence).
  split; [exact Hne|]. unfold dequeued.
  apply parked_update; [exact Hne | intros; simpl; discriminate |].
  assert (Hp1 : parked i wake (set_task_queue_head (next (task_at s j)) s)).
  { apply parked_set_head; [|exact Hp]. destruct Hp as (_ & _ & _ & _ & _ & Hn). apply Hn. }
  simpl. destruct (next (task_at s j)); [exact Hp1|].
  apply parked_set_tail; [discriminate | exact Hp1].
Qed.

Lemma parked_installed j s :
  j ≠ i -> parked i wake s -> parked i wake (installed j s).
Proof.
  intros Hne Hp. unfold installed.
  apply parked_set_current; [congruence|].
  do 2 (apply parked_update; [exact Hne | auto |]). exact Hp.
Qed.

Lemma parked_demoted cur s :
  cur ≠ i -> parked i wake s -> parked i wake (demoted cur s).
Proof.
  intros Hne Hp. unfold demoted. apply parked_task_queue_add; [exact Hne|].
  do 2 (apply parked_update; [exact Hne | auto |]). exact Hp.
Qed.

Lemma parked_rescheduled j s :
  task_queue_head s = Some j -> parked i wake s -> parked i wake (rescheduled j s).
Proof.
  intros Hhead Hp. destruct (parked_dequeued j s Hhead Hp) as [Hne Hd].
  unfold rescheduled. apply parked_installed; [exact Hne|].
  destruct (current_task (dequeued j s)) as [cur|] eqn:Hcur; [|exact Hd].
  destruct (decide _); [|exact Hd].
  apply parked_demoted; [|exact Hd].
  destruct Hd as (_ & _ & Hc & _). congruence.
Qed.

Lemma parked_schedule s : parked i wake s -> parked i wake (state_of (schedule s)).
Proof.
  intros Hp. rewrite schedule_unfold. simpl.
  destruct (task_queue_head s) eqn:Hhead; [by apply parked_rescheduled | exact Hp].
Qed.

Lemma parked_wake_other s j :
  j ≠ i -> parked i wake s -> parked i wake (wake_slot s j).
Proof.
  intros Hne Hp. unfold wake_slot. destruct (decide _); [|exact Hp].
  case_match; [|exact Hp].
  apply parked_task_queue_add; [exact Hne|].
  apply parked_update; [exact Hne | auto | exact Hp].
Qed.

Lemma parked_wake_slot s j :
  system_ticks s < wake -> parked i wake s -> parked i wake (wake_slot s j).
Proof.
  intros Hlt Hp. destruct (decide (j = i)) as [->|Hne]; [|by apply parked_wake_other].
  unfold wake_slot. destruct (decide _); [|exact Hp].
  pose proof Hp as (_ & Hsl & _). rewrite Hsl.
  replace (wake <=? system_ticks s) with false by (symmetry; apply Z.leb_gt; lia).
  exact Hp.
Qed.

Lemma parked_wake_slots l : ∀ s,
  system_ticks s < wake -> parked i wake s -> parked i wake (foldl wake_slot s l).
Proof.
  induction l as [|j l IH]; intros s Hlt Hp; [exact Hp|].
  simpl. apply IH; [by rewrite ticks_wake_slot | by apply parked_wake_slot].
Qed.

Lemma parked_others_woken l : ∀ s,
  i ∉ l -> parked i wake s -> parked i wake (foldl wake_slot s l).
Proof.
  induction l as [|j l IH]; intros s Hnin Hp; [exact Hp|].
  simpl. apply not_elem_of_cons in Hnin as [Hne Hnin].
  apply IH; [exact Hnin | apply parked_wake_other; [congruence | exact Hp]].
Qed.

Lemma parked_scheduler_tick r s :
  u32 (system_ticks s + 1) < wake ->
  parked i wake s -> parked i wake (state_of (scheduler_tick r s)).
Proof.
  intros Hlt Hp. unfold scheduler_tick.
  set (s1 := wake_sleeping_tasks (set_system_ticks (u32 (system_ticks s + 1)) s)).
  assert (Hp1 : parked i wake s1).
  { apply parked_wake_slots; [exact Hlt | by apply parked_set_ticks]. }
  cbv zeta. destruct (current_task s1) as [cur|] eqn:Hcur; [|exact Hp1].
  case_match; [|exact Hp1].
  assert (cur ≠ i) by (destruct Hp1 as (_ & _ & Hc & _); congruence).
  assert (Hp2 : parked i wake (update_task cur
             (fun t => set_time_remaining (u32 (time_remaining t - 1)) t) s1))
    by (apply parked_update; [assumption | auto | exact Hp1]).
  case_match; [by apply parked_schedule | exact Hp2].
Qed.

Lemma parked_task_sleep k s : parked i wake s -> parked i wake (state_of (task_sleep k s)).
Proof.
  intros Hp. unfold task_sleep.
  destruct (current_task s) as [cur|] eqn:Hcur; [|exact Hp].
  assert (cur ≠ i) by (destruct Hp as (_ & _ & Hc & _); congruence).
  apply parked_schedule.
  do 2 (apply parked_update; [assumption | auto |]). exact Hp.
Qed.

Lemma parked_task_exit s : parked i wake s -> parked i wake (state_of (task_exit s)).
Proof.
  intros Hp. unfold task_exit.
  destruct (current_task s) as [cur|] eqn:Hcur; [|exact Hp].
  assert (cur ≠ i) by (destruct Hp as (_ & _ & Hc & _); congruence).
  apply parked_schedule. apply parked_set_current; [discriminate|].
  apply parked_update; [assumption | auto | exact Hp].
Qed.

Lemma find_free_slot_terminated ts : ∀ k t,
  find_free_slot ts k = Some t ->
  (k <= t)%nat ∧ ∃ x, ts !! (t - k)%nat = Some x ∧ state x = TASK_TERMINATED.
Proof.
  induction ts as [|x ts IH]; intros k t Hfind; [discriminate|].
  simpl in Hfind. destruct (decide (state x = TASK_TERMINATED)) as [Hx|Hx].
  - injection Hfind as <-. split; [lia|]. exists x. by rewrite Nat.sub_diag.
  - destruct (IH _ _ Hfind) as [Hle (y & Hy & Hst)]. split; [lia|].
    exists y. split; [|exact Hst].
    replace (t - k)%nat with (S (t - S k)) by lia. exact Hy.
Qed.

Lemma find_free_slot_state s t :
  find_free_slot (tasks s) 0 = Some t -> state (task_at s t) = TASK_TERMINATED.
Proof.
  intros Hfind. destruct (find_free_slot_terminated _ _ _ Hfind) as [_ (x & Hx & Hst)].
  rewrite Nat.sub_0_r in Hx. unfold task_at.
  by rewrite (list_lookup_total_correct _ _ _ Hx).
Qed.

Lemma parked_task_create stack_addr name_arg entry s :
  parked i wake s -> parked i wake (snd (task_create stack_addr name_arg entry s)).
Proof.
  intros Hp. unfold task_create.
  destruct (find_free_slot (tasks s) 0) as [t|] eqn:Hfind; [|exact Hp].
  assert (Hne : t ≠ i).
  { intros ->. apply find_free_slot_state in Hfind.
    destruct Hp as (Hst & _). congruence. }
  cbv zeta. cbn [snd].
  apply parked_task_queue_add; [exact Hne|].
  apply parked_update; [exact Hne | |by apply parked_set_next_id].
  intros _ _. cbn [next]. destruct Hp as (_ & _ & _ & _ & _ & Hn). apply Hn.
Qed.

Lemma parked_run_op stack_addr o s :
  (is_tick o = true -> u32 (system_ticks s + 1) < wake) ->
  parked i wake s -> parked i wake (run_op stack_addr o s).
Proof.
  intros Htick Hp. destruct o; cbn [run_op].
  - apply parked_scheduler_tick; [by apply Htick | exact Hp].
  - by apply parked_schedule.
  - by apply parked_schedule.
  - by apply parked_task_sleep.
  - by apply parked_task_exit.
  - by apply parked_task_create.
Qed.

End Parked.

Lemma ticks_slice_accounting s cur :
  system_ticks
    (state_of
       (let s1 := update_task cur
                    (fun t => set_time_remaining (u32 (time_remaining t - 1)) t) s in
        if time_remaining (task_at s1 cur) =? 0 then schedule s1 else Returns s1))
  = system_ticks s.
Proof. cbv zeta. case_match; [by rewrite ticks_schedule | reflexivity]. Qed.

Lemma ticks_scheduler_tick r s :
  system_ticks (state_of (scheduler_tick r s)) = u32 (system_ticks s + 1).
Proof.
  unfold scheduler_tick.
  set (s1 := wake_sleeping_tasks (set_system_ticks (u32 (system_ticks s + 1)) s)).
  assert (H1 : system_ticks s1 = u32 (system_ticks s + 1))
    by (unfold s1, wake_sleeping_tasks; by rewrite ticks_wake_slots).
  cbv zeta. destruct (current_task s1) as [cur|]; [|exact H1].
  case_match; [|exact H1].
  rewrite <- H1. apply ticks_slice_accounting.
Qed.

Lemma ticks_task_create stack_addr name_arg entry s :
  system_ticks (snd (task_create stack_addr name_arg entry s)) = system_ticks s.
Proof.
  unfold task_create. destruct (find_free_slot (tasks s) 0); [|reflexivity].
  cbv zeta. cbn [snd]. by rewrite ticks_task_queue_add.
Qed.

Lemma ticks_run_op stack_addr o s :
  system_ticks (run_op stack_addr o s)
  = if is_tick o then u32 (system_ticks s + 1) else system_ticks s.
Proof.
  destruct o; cbn [run_op is_tick].
  - apply ticks_scheduler_tick.
  - apply ticks_schedule.
  - apply ticks_schedule.
  - unfold task_sleep. destruct (current_task s); [|reflexivity].
    by rewrite ticks_schedule.
  - unfold task_exit. destruct (current_task s); [|reflexivity].
    by rewrite ticks_schedule.
  - apply ticks_task_create.
Qed.

Lemma count_ticks_cons o ops :
  count_ticks (o :: ops) = (if is_tick o then 1 else 0) + count_ticks ops.
Proof.
  unfold count_ticks. rewrite filter_cons.
  destruct (is_tick o); [rewrite decide_True by reflexivity | rewrite decide_False by discriminate];
    cbn [length]; lia.
Qed.

Lemma count_ticks_nonneg ops : 0 <= count_ticks ops.
Proof. unfold count_ticks. lia. Qed.

(** A parked task stays parked through any calls, as long as the tick
    counter stays below its wake time. *)
Lemma parked_exec stack_addr i wake ops : ∀ s,
  parked i wake s -> 0 <= system_ticks s -> wake <= UINT32_MOD ->
  count_ticks ops = 0 ∨ system_ticks s + count_ticks ops < wake ->
  parked i wake (exec stack_addr ops s) ∧
  system_ticks (exec stack_addr ops s) = system_ticks s + count_ticks ops.
Proof.
  induction ops as [|o ops IH]; intros s Hp Hpos Hw Hcount.
  - split; [exact Hp|]. unfold count_ticks; simpl. lia.
  - unfold exec. cbn [foldl]. fold (exec stack_addr ops (run_op stack_addr o s)).
    rewrite count_ticks_cons in Hcount |- *.
    pose proof (count_ticks_nonneg ops) as Hnn.
    assert (Htk : system_ticks (run_op stack_addr o s)
                  = system_ticks s + (if is_tick o then 1 else 0)).
    { rewrite ticks_run_op. destruct (is_tick o); [|lia].
      unfold u32. rewrite Z.mod_small; lia. }
    destruct (IH (run_op stack_addr o s)) as [Hp' Ht'].
    + apply parked_run_op; [|exact Hp].
      intros Hit. rewrite Hit in Hcount. unfold u32. rewrite Z.mod_small; lia.
    + rewrite Htk. destruct (is_tick o); lia.
    + exact Hw.
    + rewrite Htk. destruct (is_tick o); lia.
    + split; [exact Hp'|]. rewrite Ht', Htk. lia.
Qed.

(** The lifecycle state of a slot is only written through [set_state]. *)
Lemma state_update j f s i :
  j ≠ i ∨ (∀ t, state (f t) = state t) ->
  state (task_at (update_task j f s) i) = state (task_at s i).
Proof.
  intros H. rewrite task_at_update.
  destruct (decide _) as [[-> _]|_]; [|reflexivity].
  destruct H as [H|H]; [congruence | apply H].
Qed.

Lemma state_task_queue_add j s i :
  state (task_at (task_queue_add j s) i) = state (task_at s i).
Proof.
  unfold task_queue_add. rewrite tail_update_task.
  destruct (task_queue_tail s); rewrite ?task_at_set_tail, ?task_at_set_head;
    rewrite !state_update by (right; reflexivity); reflexivity.
Qed.

Lemma state_dequeued j s i : state (task_at (dequeued j s) i) = state (task_at s i).
Proof.
  unfold dequeued. rewrite state_update by (right; reflexivity).
  simpl. destruct (next (task_at s j)); reflexivity.
Qed.

Lemma state_wake_other s j i :
  j ≠ i -> state (task_at (wake_slot s j) i) = state (task_at s i).
Proof.
  intros Hne. unfold wake_slot. destruct (decide _); [|reflexivity].
  case_match; [|reflexivity].
  by rewrite state_task_queue_add, state_update by (left; exact Hne).
Qed.

Lemma state_wake_others l i : ∀ s,
  i ∉ l -> state (task_at (foldl wake_slot s l) i) = state (task_at s i).
Proof.
  induction l as [|j l IH]; intros s Hnin; [reflexivity|].
  apply not_elem_of_cons in Hnin as [Hne Hnin].
  simpl. rewrite IH by exact Hnin. apply state_wake_other. congruence.
Qed.

Lemma current_task_queue_add j s : current_task (task_queue_add j s) = current_task s.
Proof.
  unfold task_queue_add. rewrite tail_update_task.
  destruct (task_queue_tail s); reflexivity.
Qed.

Lemma current_wake_slot s j : current_task (wake_slot s j) = current_task s.
Proof.
  unfold wake_slot. destruct (decide _); [|reflexivity].
  case_match; [|reflexivity]. by rewrite current_task_queue_add.
Qed.

Lemma current_wake_slots l : ∀ s, current_task (foldl wake_slot s l) = current_task s.
Proof.
  induction l as [|j l IH]; intros s; [reflexivity|].
  simpl. by rewrite IH, current_wake_slot.
Qed.

Lemma state_installed_cases j s i :
  state (task_at (installed j s) i) = state (task_at s i) ∨
  state (task_at (installed j s) i) = TASK_RUNNING.
Proof.
  unfold installed. rewrite task_at_set_current.
  rewrite state_update by (right; reflexivity).
  rewrite task_at_update. destruct (decide _); [right; reflexivity | left; reflexivity].
Qed.

Lemma state_ready_after_schedule s i :
  state (task_at s i) = TASK_READY -> current_task s ≠ Some i ->
  state (task_at (state_of (schedule s)) i) = TASK_READY ∨
  state (task_at (state_of (schedule s)) i) = TASK_RUNNING.
Proof.
  intros Hst Hcur. rewrite schedule_unfold. simpl.
  destruct (task_queue_head s) as [j|]; [|left; exact Hst].
  unfold rescheduled.
  match goal with |- context [installed j ?x] =>
    assert (Hmid : state (task_at x i) = TASK_READY) end.
  { rewrite current_dequeued. destruct (current_task s) as [cur|].
    - destruct (decide _).
      + unfold demoted. rewrite state_task_queue_add.
        rewrite !state_update by (left; congruence).
        by rewrite state_dequeued.
      + by rewrite state_dequeued.
    - by rewrite state_dequeued. }
  match goal with |- context [installed j ?x] =>
    destruct (state_installed_cases j x i) as [H|H] end.
  - left. by rewrite H.
  - right. exact H.
Qed.

(** The wake-up loop reaches a parked task whose time has come after the
    slots before it, marks it ready and appends it to the ready queue. *)
Lemma wake_sleeping_tasks_wakes i wake s :
  parked i wake s -> wake <= system_ticks s ->
  (i < MAX_TASKS)%nat -> length (tasks s) = MAX_TASKS ->
  let before := foldl wake_slot s (seq 0 i) in
  wake_sleeping_tasks s
  = foldl wake_slot
      (task_queue_add i (update_task i (set_state TASK_READY) before))
      (seq (S i) (MAX_TASKS - S i)) ∧
  state (task_at (wake_sleeping_tasks s) i) = TASK_READY ∧
  current_task (wake_sleeping_tasks s) ≠ Some i.
Proof.
  intros Hp Hdue Hi Hlen before.
  assert (Hsplit : seq 0 MAX_TASKS = seq 0 i ++ i :: seq (S i) (MAX_TASKS - S i)).
  { replace MAX_TASKS with (i + S (MAX_TASKS - S i))%nat at 1 by lia.
    rewrite seq_app. reflexivity. }
  assert (Hpb : parked i wake before).
  { apply parked_others_woken; [|exact Hp].
    intros Hin%elem_of_seq. lia. }
  assert (Hstep : wake_slot before i
                  = task_queue_add i (update_task i (set_state TASK_READY) before)).
  { unfold wake_slot. destruct Hpb as (Hst & Hsl & _).
    rewrite decide_True by exact Hst. rewrite Hsl.
    unfold before at 1. rewrite ticks_wake_slots.
    replace (wake <=? system_ticks s) with true by (symmetry; apply Z.leb_le; lia).
    reflexivity. }
  assert (Heq : wake_sleeping_tasks s
                = foldl wake_slot
                    (task_queue_add i (update_task i (set_state TASK_READY) before))
                    (seq (S i) (MAX_TASKS - S i))).
  { unfold wake_sleeping_tasks. rewrite Hsplit, foldl_app. cbn [foldl].
    fold before. by rewrite Hstep. }
  split; [exact Heq|]. split.
  - rewrite Heq. rewrite state_wake_others by (intros Hin%elem_of_seq; lia).
    rewrite state_task_queue_add. rewrite task_at_update_eq; [reflexivity|].
    unfold before. rewrite length_wake_slots. lia.
  - unfold wake_sleeping_tasks. rewrite current_wake_slots.
    by destruct Hp as (_ & _ & Hc & _).
Qed.

Lemma length_installed j s : length (tasks (installed j s)) = length (tasks s).
Proof.
  unfold installed, set_current_task. cbn [tasks]. by rewrite !length_update_task.
Qed.

Lemma length_demoted cur s : length (tasks (demoted cur s)) = length (tasks s).
Proof. unfold demoted. by rewrite length_task_queue_add, !length_update_task. Qed.

Lemma length_schedule s : length (tasks (state_of (schedule s))) = length (tasks s).
Proof.
  rewrite schedule_unfold. cbn [state_of].
  destruct (task_queue_head s) as [j|]; [|reflexivity].
  unfold rescheduled. rewrite length_installed.
  destruct (current_task (dequeued j s)); [|apply length_dequeued].
  destruct (decide _); [|apply length_dequeued].
  by rewrite length_demoted, length_dequeued.
Qed.

Lemma length_scheduler_tick r s :
  length (tasks (state_of (scheduler_tick r s))) = length (tasks s).
Proof.
  unfold scheduler_tick.
  set (s1 := wake_sleeping_tasks (set_system_ticks (u32 (system_ticks s + 1)) s)).
  assert (H1 : length (tasks s1) = length (tasks s))
    by (unfold s1, wake_sleeping_tasks; by rewrite length_wake_slots).
  cbv zeta. destruct (current_task s1) as [cur|]; [|exact H1].
  case_match; [|exact H1].
  case_match; cbn [state_of]; by rewrite ?length_schedule, length_update_task.
Qed.

Lemma length_run_op stack_addr o s :
  length (tasks (run_op stack_addr o s)) = length (tasks s).
Proof.
  destruct o; cbn [run_op].
  - apply length_scheduler_tick.
  - apply length_schedule.
  - apply length_schedule.
  - unfold task_sleep. destruct (current_task s); [|reflexivity].
    by rewrite length_schedule, !length_update_task.
  - unfold task_exit. destruct (current_task s); [|reflexivity].
    rewrite length_schedule. unfold set_current_task. cbn [tasks].
    by rewrite length_update_task.
  - unfold task_create. destruct (find_free_slot (tasks s) 0); [|reflexivity].
    cbv zeta. cbn [snd]. rewrite length_task_queue_add, length_update_task.
    reflexivity.
Qed.

Lemma length_exec stack_addr ops : ∀ s,
  length (tasks (exec stack_addr ops s)) = length (tasks s).
Proof.
  induction ops as [|o ops IH]; intros s; [reflexivity|].
  unfold exec. cbn [foldl]. fold (exec stack_addr ops (run_op stack_addr o s)).
  by rewrite IH, length_run_op.
Qed.

(** A running task that calls [task_sleep] while the ready queue is not
    empty and does not contain it ends up parked. *)
Lemma task_sleep_parks s i j k :
  current_task s = Some i -> (i < length (tasks s))%nat ->
  unlinked i s -> task_queue_head s = Some j ->
  0 <= system_ticks s -> 0 <= k -> system_ticks s + k < UINT32_MOD ->
  parked i (system_ticks s + k) (state_of (task_sleep k s)) ∧
  system_ticks (state_of (task_sleep k s)) = system_ticks s.
Proof.
  intros Hcur Hi Hun Hhead Hpos Hk Hwrap.
  unfold task_sleep. rewrite Hcur. cbv zeta. rewrite ticks_update_task.
  replace (u32 (system_ticks s + k)) with (system_ticks s + k)
    by (unfold u32; rewrite Z.mod_small; lia).
  set (wake := system_ticks s + k).
  set (s2 := update_task i (set_sleep_until wake)
               (update_task i (set_state TASK_SLEEPING) s)).
  split; [|by rewrite ticks_schedule].
  assert (Hp : parked i wake (set_current_task None s2)).
  { destruct Hun as (Hh & Ht & Hn).
    unfold parked, unlinked. rewrite task_at_set_current.
    unfold s2. rewrite task_at_update_eq by (by rewrite length_update_task).
    rewrite task_at_update_eq by exact Hi.
    repeat split; try assumption; try discriminate.
    intros l. rewrite task_at_set_current, !task_at_update.
    repeat destruct (decide _); simpl; apply Hn. }
  rewrite schedule_unfold. cbn [state_of].
  change (task_queue_head s2) with (task_queue_head s). rewrite Hhead.
  assert (Hne : j ≠ i) by (destruct Hun as (Hh & _); congruence).
  unfold rescheduled. rewrite current_dequeued.
  change (current_task s2) with (current_task s). rewrite Hcur.
  rewrite task_at_dequeued by congruence.
  assert (Hsl : state (task_at s2 i) = TASK_SLEEPING).
  { unfold s2. rewrite task_at_update_eq by (by rewrite length_update_task).
    rewrite task_at_update_eq by exact Hi. reflexivity. }
  rewrite decide_False by (rewrite Hsl; discriminate).
  assert (Hsame : installed j (dequeued j s2)
                  = installed j (dequeued j (set_current_task None s2))).
  { unfold dequeued. rewrite task_at_set_current. simpl.
    destruct (next (task_at s2 j)); reflexivity. }
  rewrite Hsame. apply parked_installed; [exact Hne|].
  by apply parked_dequeued.
Qed.

(** C7 as stated fails on the code. Task A, alone in the system, sleeps
    5 ticks at tick 0: the ready queue is empty, so [schedule] returns and
    A keeps the CPU with [current_task] still pointing to it. Tick 5 wakes
    it, which appends it to the ready queue. A then calls [task_sleep 50]
    at tick 5: [schedule] dequeues A itself and [switch_to_task] marks it
    running. A is running at tick 5, fifty ticks before its wake time 55. *)
Lemma sleeping_task_runs_before_wake_time :
  let before :=
    exec sample_stacks [OpSleep 5; OpTick; OpTick; OpTick; OpTick; OpTick]
         (lone_task sample_stacks 4096) in
  let after := state_of (task_sleep 50 before) in
  current_task before = Some 0%nat ∧
  system_ticks before = 5 ∧
  system_ticks after = 5 ∧
  sleep_until (task_at after 0) = 5 + 50 ∧
  system_ticks after < 5 + 50 ∧
  state (task_at after 0) = TASK_RUNNING.
Proof. vm_compute. repeat split. Qed.

(** C7, amended. Let the current task [i] call [task_sleep k] at tick [T]
    while it is not linked in the ready queue, the ready queue is not
    empty, and [T + k] does not wrap around 32 bits. Then, whatever calls
    follow (ticks, yields, sleeps and exits of other tasks, task
    creations), as long as fewer than [max k 1] ticks have occurred the
    counter is below [T + max k 1] and task [i] is sleeping and not
    current, hence not running and not ready. At the next tick, the first
    at which the counter is at least [T + k], the wake-up loop marks it
    ready and appends it to the ready queue, and when that tick returns it
    is ready or already running again. *)
Theorem sleeping_task_wakes_on_time stack_addr s i j k :
  current_task s = Some i ->
  (i < MAX_TASKS)%nat -> length (tasks s) = MAX_TASKS ->
  unlinked i s ->
  task_queue_head s = Some j ->
  0 <= k -> 0 <= system_ticks s -> system_ticks s + Z.max k 1 < UINT32_MOD ->
  let T := system_ticks s in
  ∀ ops, count_ticks ops < Z.max k 1 ->
    let s2 := exec stack_addr ops (state_of (task_sleep k s)) in
    system_ticks s2 = T + count_ticks ops ∧
    state (task_at s2 i) = TASK_SLEEPING ∧
    sleep_until (task_at s2 i) = T + k ∧
    current_task s2 ≠ Some i ∧
    (count_ticks ops + 1 = Z.max k 1 ->
       let counted := set_system_ticks (T + count_ticks ops + 1) s2 in
       let before := foldl wake_slot counted (seq 0 i) in
       T + k <= system_ticks counted ∧
       wake_sleeping_tasks counted
       = foldl wake_slot
           (task_queue_add i (update_task i (set_state TASK_READY) before))
           (seq (S i) (MAX_TASKS - S i)) ∧
       state (task_at (wake_sleeping_tasks counted) i) = TASK_READY ∧
       (state (task_at (run_op stack_addr OpTick s2) i) = TASK_READY ∨
        state (task_at (run_op stack_addr OpTick s2) i) = TASK_RUNNING)).
Proof.
  intros Hcur Hi Hlen Hun Hhead Hk Hpos Hwrap T ops Hcount s2.
  destruct (task_sleep_parks s i j k) as [Hp0 Ht0]; try assumption; try lia.
  pose proof (count_ticks_nonneg ops) as Hnn.
  destruct (parked_exec stack_addr i (T + k) ops (state_of (task_sleep k s)))
    as [Hp Ht]; try (rewrite ?Ht0; fold T; lia); [exact Hp0|].
  fold s2 in Hp, Ht. rewrite Ht0 in Ht. fold T in Ht.
  split; [exact Ht|].
  pose proof Hp as (Hst & Hsl & Hc & _).
  split; [exact Hst|]. split; [exact Hsl|]. split; [exact Hc|].
  intros Hnext counted before.
  assert (Hlen2 : length (tasks s2) = MAX_TASKS).
  { unfold s2. rewrite length_exec.
    change (state_of (task_sleep k s)) with (run_op stack_addr (OpSleep k) s).
    by rewrite length_run_op. }
  assert (Hdue : T + k <= system_ticks counted) by (unfold counted; simpl; lia).
  split; [exact Hdue|].
  destruct (wake_sleeping_tasks_wakes i (T + k) counted) as (Heq & Hready & Hcw);
    [by apply parked_set_ticks | exact Hdue | exact Hi | exact Hlen2 |].
  split; [exact Heq|]. split; [exact Hready|].
  cbn [run_op]. unfold scheduler_tick.
  replace (u32 (system_ticks s2 + 1)) with (T + count_ticks ops + 1)
    by (rewrite Ht; unfold u32; rewrite Z.mod_small; lia).
  fold counted. cbv zeta.
  destruct (current_task (wake_sleeping_tasks counted)) as [cur|] eqn:Hcurw;
    [|left; exact Hready].
  case_match; [|left; exact Hready].
  assert (Hdec : state (task_at (update_task cur
                   (fun t => set_time_remaining (u32 (time_remaining t - 1)) t)
                   (wake_sleeping_tasks counted)) i) = TASK_READY)
    by (rewrite state_update by (right; reflexivity); exact Hready).
  case_match; [|left; exact Hdec].
  apply state_ready_after_schedule; [exact Hdec|].
  rewrite current_update_task, Hcurw. congruence.
Qed.

Lemma sleeping_task_wakes_on_time_witness :
  let s := run_op sample_stacks OpSchedule (three_tasks sample_stacks 4096) in
  let s2 := exec sample_stacks [OpTick; OpYield; OpTick]
                 (state_of (task_sleep 3 s)) in
  current_task s = Some 0%nat ∧
  system_ticks s2 = 2 ∧
  state (task_at s2 0) = TASK_SLEEPING ∧
  state (task_at (run_op sample_stacks OpTick s2) 0) = TASK_READY.
Proof.
  intros s s2.
  assert (Hcur : current_task s = Some 0%nat) by reflexivity.
  split; [exact Hcur|].
  destruct (sleeping_task_wakes_on_time sample_stacks s 0%nat 1%nat 3 Hcur)
    with (ops := [OpTick; OpYield; OpTick])
    as (Ht & Hst & _ & _ & Hwake);
    [ unfold MAX_TASKS; lia | reflexivity
    | vm_compute; repeat split; try discriminate;
      intros l; do 8 (destruct l as [|l]; [discriminate|]); discriminate
    | reflexivity | lia | vm_compute; discriminate
    | vm_compute; reflexivity | vm_compute; reflexivity |].
  split; [exact Ht|]. split; [exact Hst|].
  destruct Hwake as (_ & _ & _ & [Hr|Hr]); [reflexivity | exact Hr |].
  exfalso. vm_compute in Hr. discriminate Hr.
Defined.

End SchedulerFacts.
(** ** Heap allocator *)

Module MmFacts.
Import Mm.

(** *** Running monadic code *)

Lemma bind_ok {A B} (m : M A) (k : A -> M B) s a s' :
  m s = Ok a s' -> bind m k s = k a s'.
Proof. intros H. unfold bind. by rewrite H. Qed.

Lemma bind_fails {A B} (m : M A) (k : A -> M B) s f :
  m s = Fails f -> bind m k s = Fails f.
Proof. intros H. unfold bind. by rewrite H. Qed.

Lemma bind_ret {A B} (a : A) (k : A -> M B) s : bind (ret a) k s = k a s.
Proof. reflexivity. Qed.

Lemma bind_load {B} p (k : mem_block_t -> M B) s :
  bind (load p) k s = k (load_block (memory s) p) s.
Proof. reflexivity. Qed.

Lemma bind_store_size {B} p v (k : unit -> M B) s :
  bind (store_size p v) k s = k tt (set_memory (store32 p v (memory s)) s).
Proof. reflexivity. Qed.

Lemma bind_store_is_free {B} p v (k : unit -> M B) s :
  bind (store_is_free p v) k s = k tt (set_memory (store32 (p + 4) v (memory s)) s).
Proof. reflexivity. Qed.

Lemma bind_store_next {B} p v (k : unit -> M B) s :
  bind (store_next p v) k s = k tt (set_memory (store32 (p + 8) v (memory s)) s).
Proof. reflexivity. Qed.

Lemma bind_store_prev {B} p v (k : unit -> M B) s :
  bind (store_prev p v) k s = k tt (set_memory (store32 (p + 12) v (memory s)) s).
Proof. reflexivity. Qed.

Lemma bind_assoc {A B C} (m : M A) (k : A -> M B) (h : B -> M C) s :
  bind (bind m k) h s = bind m (fun a => bind (k a) h) s.
Proof. unfold bind. by destruct (m s). Qed.

Lemma memory_set_memory m s : memory (set_memory m s) = m.
Proof. reflexivity. Qed.

Lemma set_memory_set_memory m m' s :
  set_memory m' (set_memory m s) = set_memory m' s.
Proof. reflexivity. Qed.

Lemma set_memory_same s : set_memory (memory s) s = s.
Proof. by destruct s. Qed.

(** Run the next read or write of a header field. *)
Ltac run_step :=
  first [ rewrite bind_load | rewrite bind_store_size | rewrite bind_store_is_free
        | rewrite bind_store_next | rewrite bind_store_prev | rewrite bind_ret ];
  cbn beta; rewrite ?memory_set_memory, ?set_memory_set_memory.

(** *** Bytes and words *)

Lemma u32_small x : 0 <= x < UINT32_MOD -> u32 x = x.
Proof. intros. unfold u32. by apply Z.mod_small. Qed.

Lemma u32_range x : 0 <= u32 x < UINT32_MOD.
Proof. unfold u32, UINT32_MOD. apply Z.mod_pos_bound. lia. Qed.

Lemma u8_range x : 0 <= u8 x < 256.
Proof. unfold u8. apply Z.mod_pos_bound. lia. Qed.

Lemma u8_u8 x : u8 (u8 x) = u8 x.
Proof. unfold u8. apply Z.mod_mod. lia. Qed.

Lemma read8_range m p : 0 <= read8 m p < 256.
Proof. apply u8_range. Qed.

Lemma read8_write8_eq p v m : read8 (write8 p v m) p = u8 v.
Proof. unfold read8, write8. rewrite lookup_insert_eq. apply u8_u8. Qed.

Lemma read8_write8_ne p q v m :
  u32 p ≠ u32 q -> read8 (write8 p v m) q = read8 m q.
Proof. intros H. unfold read8, write8. by rewrite lookup_insert_ne. Qed.

(** Addresses that differ by less than 2^32 are different bytes. *)
Lemma u32_offset_ne p i j : 0 <= i < UINT32_MOD -> 0 <= j < UINT32_MOD -> i ≠ j ->
  u32 (p + i) ≠ u32 (p + j).
Proof.
  unfold u32, UINT32_MOD. intros Hi Hj Hne H.
  pose proof (Z.div_mod (p + i) 4294967296 ltac:(lia)).
  pose proof (Z.div_mod (p + j) 4294967296 ltac:(lia)).
  lia.
Qed.

Lemma u32_ne_small p q :
  0 <= p < UINT32_MOD -> 0 <= q < UINT32_MOD -> p ≠ q -> u32 p ≠ u32 q.
Proof. intros Hp Hq Hne. by rewrite !u32_small. Qed.

(** A byte outside the four of a stored word is not changed. *)
Lemma read8_store32_out w v m q :
  0 <= w -> w + 4 <= UINT32_MOD -> 0 <= q < UINT32_MOD -> q < w ∨ w + 4 <= q ->
  read8 (store32 w v m) q = read8 m q.
Proof.
  intros Hw0 Hw1 Hq Hout. unfold store32.
  rewrite !read8_write8_ne; [reflexivity|..]; apply u32_ne_small; lia.
Qed.

Lemma split_bytes v :
  u8 v + 256 * u8 (v / 256) + 65536 * u8 (v / 65536) + 16777216 * u8 (v / 16777216)
  = u32 v.
Proof.
  unfold u8, u32, UINT32_MOD.
  pose proof (Z.div_mod v 256 ltac:(lia)).
  pose proof (Z.div_mod (v / 256) 256 ltac:(lia)).
  pose proof (Z.div_mod (v / 256 / 256) 256 ltac:(lia)).
  pose proof (Z.div_mod (v / 256 / 256 / 256) 256 ltac:(lia)).
  pose proof (Z.mod_pos_bound v 256 ltac:(lia)).
  pose proof (Z.mod_pos_bound (v / 256) 256 ltac:(lia)).
  pose proof (Z.mod_pos_bound (v / 256 / 256) 256 ltac:(lia)).
  pose proof (Z.mod_pos_bound (v / 256 / 256 / 256) 256 ltac:(lia)).
  replace (v / 65536) with (v / 256 / 256)
    by (rewrite Z.div_div by lia; reflexivity).
  replace (v / 16777216) with (v / 256 / 256 / 256)
    by (rewrite !Z.div_div by lia; reflexivity).
  apply Z.mod_unique_pos with (q := v / 256 / 256 / 256 / 256); lia.
Qed.

Lemma load32_store32_eq p v m : load32 (store32 p v m) p = u32 v.
Proof.
  unfold load32, store32.
  assert (H0 : p = p + 0) by lia.
  assert (Hne : ∀ i j, 0 <= i < 4 -> 0 <= j < 4 -> i ≠ j -> u32 (p + i) ≠ u32 (p + j))
    by (intros; apply u32_offset_ne; unfold UINT32_MOD; lia).
  rewrite (read8_write8_ne (p + 3) p), (read8_write8_ne (p + 2) p),
    (read8_write8_ne (p + 1) p), read8_write8_eq
    by (rewrite H0 at 2; apply Hne; lia).
  rewrite (read8_write8_ne (p + 3) (p + 1)), (read8_write8_ne (p + 2) (p + 1)),
    read8_write8_eq by (apply Hne; lia).
  rewrite (read8_write8_ne (p + 3) (p + 2)), read8_write8_eq by (apply Hne; lia).
  rewrite read8_write8_eq. apply split_bytes.
Qed.

Lemma load32_store32_out w v m q :
  0 <= w -> w + 4 <= UINT32_MOD -> 0 <= q -> q + 4 <= UINT32_MOD ->
  q + 4 <= w ∨ w + 4 <= q ->
  load32 (store32 w v m) q = load32 m q.
Proof.
  intros. unfold load32. rewrite !read8_store32_out by lia. reflexivity.
Qed.

Lemma load32_range m p : 0 <= load32 m p < UINT32_MOD.
Proof.
  unfold load32, UINT32_MOD.
  pose proof (read8_range m p). pose proof (read8_range m (p + 1)).
  pose proof (read8_range m (p + 2)). pose proof (read8_range m (p + 3)). lia.
Qed.

(** *** Headers in memory *)

(** A word stored away from the sixteen bytes of a header. *)
Lemma load_block_store32_out w v m q :
  0 <= w -> w + 4 <= UINT32_MOD -> 0 <= q -> q + HEADER <= UINT32_MOD ->
  q + HEADER <= w ∨ w + 4 <= q ->
  load_block (store32 w v m) q = load_block m q.
Proof.
  unfold HEADER. intros. unfold load_block.
  rewrite !load32_store32_out by lia. reflexivity.
Qed.

Lemma load_block_store_size q v m :
  0 <= q -> q + HEADER <= UINT32_MOD ->
  load_block (store32 q v m) q = set_size (u32 v) (load_block m q).
Proof.
  unfold HEADER. intros. unfold load_block, set_size. cbn [size is_free next prev].
  rewrite load32_store32_eq, !load32_store32_out by lia. reflexivity.
Qed.

Lemma load_block_store_is_free q v m :
  0 <= q -> q + HEADER <= UINT32_MOD ->
  load_block (store32 (q + 4) v m) q
  = set_is_free (negb (u32 v =? 0)) (load_block m q).
Proof.
  unfold HEADER. intros. unfold load_block, set_is_free. cbn [size is_free next prev].
  rewrite load32_store32_eq, !load32_store32_out by lia. reflexivity.
Qed.

Lemma load_block_store_next q v m :
  0 <= q -> q + HEADER <= UINT32_MOD ->
  load_block (store32 (q + 8) v m) q = set_next (u32 v) (load_block m q).
Proof.
  unfold HEADER. intros. unfold load_block, set_next. cbn [size is_free next prev].
  rewrite load32_store32_eq, !load32_store32_out by lia. reflexivity.
Qed.

Lemma load_block_store_prev q v m :
  0 <= q -> q + HEADER <= UINT32_MOD ->
  load_block (store32 (q + 12) v m) q = set_prev (u32 v) (load_block m q).
Proof.
  unfold HEADER. intros. unfold load_block, set_prev. cbn [size is_free next prev].
  rewrite load32_store32_eq, !load32_store32_out by lia. reflexivity.
Qed.

Lemma load_block_range m p :
  0 <= size (load_block m p) < UINT32_MOD ∧
  0 <= next (load_block m p) < UINT32_MOD ∧
  0 <= prev (load_block m p) < UINT32_MOD.
Proof. unfold load_block. cbn. repeat split; apply load32_range. Qed.

(** Read a header through the words stored since. Side conditions are
    linear facts about the addresses. *)
Ltac through_stores :=
  repeat first
    [ rewrite load_block_store_size by lia
    | rewrite load_block_store_is_free by lia
    | rewrite load_block_store_next by lia
    | rewrite load_block_store_prev by lia
    | rewrite load_block_store32_out by lia ].

Lemma same_outside_refl A m : same_outside A m m.
Proof. by intros q _ _. Qed.

Lemma same_outside_trans A m1 m2 m3 :
  same_outside A m1 m2 -> same_outside A m2 m3 -> same_outside A m1 m3.
Proof. intros H12 H23 q Hq Hout. by rewrite H23, H12. Qed.

Lemma same_outside_mono A A' m m' :
  (∀ a, a ∈ A -> a ∈ A') -> same_outside A m m' -> same_outside A' m m'.
Proof. intros Hsub H q Hq Hout. apply H; [exact Hq|]. intros a Ha. by apply Hout, Hsub. Qed.

(** A word stored inside one of the headers. *)
Lemma same_outside_store32 A m a off v :
  a ∈ A -> 0 <= a -> a + HEADER <= UINT32_MOD -> 0 <= off <= 12 ->
  same_outside A m (store32 (a + off) v m).
Proof.
  unfold HEADER. intros Ha H0 H1 Hoff q Hq Hout. specialize (Hout a Ha).
  unfold HEADER in Hout. apply read8_store32_out; lia.
Qed.

Lemma same_outside_store32_0 A m a v :
  a ∈ A -> 0 <= a -> a + HEADER <= UINT32_MOD ->
  same_outside A m (store32 a v m).
Proof.
  intros Ha H0 H1.
  pose proof (same_outside_store32 A m a 0 v Ha H0 H1 ltac:(lia)) as H.
  by rewrite Z.add_0_r in H.
Qed.

(** The same for the writes that leave the [is_free] fields alone. *)
Lemma same_but_links_refl A m : same_but_links A m m.
Proof. by intros q _ _. Qed.

Lemma same_but_links_trans A m1 m2 m3 :
  same_but_links A m1 m2 -> same_but_links A m2 m3 -> same_but_links A m1 m3.
Proof. intros H12 H23 q Hq Hout. by rewrite H23, H12. Qed.

Lemma same_but_links_mono A A' m m' :
  (∀ a, a ∈ A -> a ∈ A') -> same_but_links A m m' -> same_but_links A' m m'.
Proof. intros Hsub H q Hq Hout. apply H; [exact Hq|]. intros a Ha. by apply Hout, Hsub. Qed.

Lemma same_but_links_store32 A m a off v :
  a ∈ A -> 0 <= a -> a + HEADER <= UINT32_MOD -> 8 <= off <= 12 ->
  same_but_links A m (store32 (a + off) v m).
Proof.
  unfold HEADER. intros Ha H0 H1 Hoff q Hq Hout. specialize (Hout a Ha).
  unfold HEADER in Hout. apply read8_store32_out; lia.
Qed.

Lemma same_but_links_store32_0 A m a v :
  a ∈ A -> 0 <= a -> a + HEADER <= UINT32_MOD ->
  same_but_links A m (store32 a v m).
Proof.
  unfold HEADER. intros Ha H0 H1 q Hq Hout. specialize (Hout a Ha).
  unfold HEADER in Hout. apply read8_store32_out; lia.
Qed.

Lemma same_but_links_outside A m m' : same_but_links A m m' -> same_outside A m m'.
Proof.
  intros H q Hq Hout. apply H; [exact Hq|]. intros a Ha.
  destruct (Hout a Ha); [by left | right; by left].
Qed.


(** *** Chains *)


Lemma first_addr_app l1 l2 e :
  first_addr (l1 ++ l2) e = first_addr l1 (first_addr l2 e).
Proof. by destruct l1. Qed.

Lemma last_addr_cons b l pv : last_addr (b :: l) pv = last_addr l (addr b).
Proof. reflexivity. Qed.

Lemma last_addr_snoc l b pv : last_addr (l ++ [b]) pv = addr b.
Proof. unfold last_addr. by rewrite foldl_app. Qed.

Lemma chain_app m pv l1 l2 e :
  chain m pv (l1 ++ l2) e ↔
  chain m pv l1 (first_addr l2 e) ∧ chain m (last_addr l1 pv) l2 e.
Proof.
  revert pv. induction l1 as [|b l1 IH]; intros pv.
  - simpl. tauto.
  - cbn [app chain]. rewrite IH, first_addr_app, last_addr_cons. tauto.
Qed.

(** A chain only depends on the headers at the addresses of its blocks. *)
Lemma chain_ext m m' pv l e :
  (∀ b, b ∈ l -> load_block m' (addr b) = load_block m (addr b)) ->
  chain m pv l e -> chain m' pv l e.
Proof.
  revert pv. induction l as [|b l IH]; intros pv Hext; [done|].
  intros (Hnz & Hb & Hl). cbn [chain]. split; [exact Hnz|]. split.
  - rewrite Hext by apply list_elem_of_here. exact Hb.
  - apply IH; [|exact Hl]. intros c Hc. apply Hext. by apply list_elem_of_further.
Qed.

(** *** Tilings *)

Lemma tiles_app a l1 l2 e :
  tiles a (l1 ++ l2) e ↔ ∃ mid, tiles a l1 mid ∧ tiles mid l2 e.
Proof.
  revert a. induction l1 as [|b l1 IH]; intros a.
  - simpl. split; [eauto | by intros (mid & -> & H)].
  - cbn [app tiles]. rewrite IH. split.
    + intros (Ha & Hs & mid & H1 & H2). eauto 10.
    + intros (mid & (Ha & Hs & H1) & H2). eauto 10.
Qed.

Lemma tiles_le a l e : tiles a l e -> a <= e.
Proof.
  revert a. induction l as [|b l IH]; intros a; simpl; [lia|].
  intros (_ & Hs & Hl). apply IH in Hl. unfold HEADER in *. lia.
Qed.

Lemma tiles_bounds a l e b :
  tiles a l e -> b ∈ l -> a <= addr b ∧ 0 <= bsize b ∧ addr b + HEADER + bsize b <= e.
Proof.
  revert a. induction l as [|c l IH]; intros a Ht Hin; [by apply elem_of_nil in Hin|].
  destruct Ht as (Ha & Hs & Hl).
  apply elem_of_cons in Hin as [->|Hin].
  - apply tiles_le in Hl. lia.
  - destruct (IH _ Hl Hin) as (H1 & H2 & H3). unfold HEADER in *. lia.
Qed.

Lemma tiles_first a l e : tiles a l e -> first_addr l e = a.
Proof. destruct l; simpl; [done | by intros (-> & _)]. Qed.

Lemma tiles_length a l e : tiles a l e -> HEADER * Z.of_nat (length l) <= e - a.
Proof.
  revert a. induction l as [|b l IH]; intros a; simpl; [lia|].
  intros (_ & Hs & Hl). apply IH in Hl. unfold HEADER in *. lia.
Qed.

Lemma tiles_focus a l1 b l2 e :
  tiles a (l1 ++ b :: l2) e ->
  tiles a l1 (addr b) ∧ 0 <= bsize b ∧ tiles (addr b + HEADER + bsize b) l2 e ∧
  a <= addr b ∧ addr b + HEADER + bsize b <= e ∧
  (∀ c, c ∈ l1 -> a <= addr c ∧ 0 <= bsize c ∧ addr c + HEADER + bsize c <= addr b) ∧
  (∀ c, c ∈ l2 -> addr b + HEADER + bsize b <= addr c ∧ 0 <= bsize c ∧
                  addr c + HEADER + bsize c <= e).
Proof.
  intros (mid & H1 & (Hb & Hs & H2))%tiles_app. subst mid.
  pose proof (tiles_le _ _ _ H1). pose proof (tiles_le _ _ _ H2).
  split; [exact H1|]. split; [exact Hs|]. split; [exact H2|].
  split; [lia|]. split; [lia|]. split.
  - intros c Hc. exact (tiles_bounds _ _ _ _ H1 Hc).
  - intros c Hc. exact (tiles_bounds _ _ _ _ H2 Hc).
Qed.


Lemma tiles_range a l e c : tiles a l e -> c ∈ l -> a <= addr c < e.
Proof.
  intros Ht Hin. destruct (tiles_bounds _ _ _ _ Ht Hin) as (H1 & H2 & H3).
  unfold HEADER in *. lia.
Qed.

(** Linear arithmetic over addresses. *)
Ltac addr_lia :=
  unfold HEADER, UINT32_MOD, NULL, KERNEL_HEAP_START, KERNEL_HEAP_SIZE in *; lia.

Ltac through :=
  repeat first
    [ rewrite load_block_store_size by addr_lia
    | rewrite load_block_store_is_free by addr_lia
    | rewrite load_block_store_next by addr_lia
    | rewrite load_block_store_prev by addr_lia
    | rewrite load_block_store32_out by addr_lia ].

(** Rewrite with the headers known from the chain. *)
Ltac known_headers :=
  repeat match goal with H : load_block _ _ = _ |- _ => rewrite H end.

(** Run one read or write and bring what is read back to the headers
    known at the start. *)
Ltac run := run_step; through; known_headers; cbn [size is_free next prev].

(** Conclude that the header at an address is the expected one. *)
Ltac header_is :=
  through; known_headers;
  unfold set_size, set_next, set_prev, set_is_free; cbn [size is_free next prev];
  rewrite ?u32_small by addr_lia;
  first [ reflexivity | f_equal; addr_lia ].

(** Membership in a list given by its elements. *)
Ltac mem :=
  repeat first [ apply list_elem_of_here | apply list_elem_of_further
               | (apply elem_of_app; right) ].

(** Every word stored lies inside a header of the list. *)
Ltac stores_inside :=
  cbn [memory set_memory]; rewrite ?map_app; cbn [map addr app];
  repeat first
    [ apply same_outside_refl
    | eapply same_outside_trans;
        [| first [ apply same_outside_store32; [mem | addr_lia ..]
                 | apply same_outside_store32_0; [mem | addr_lia ..] ] ] ].

(** Every word stored is a [size], [next] or [prev] field of the list. *)
Ltac links_inside :=
  cbn [memory set_memory]; rewrite ?map_app; cbn [map addr app];
  repeat first
    [ apply same_but_links_refl
    | eapply same_but_links_trans;
        [| first [ apply same_but_links_store32; [mem | addr_lia ..]
                 | apply same_but_links_store32_0; [mem | addr_lia ..] ] ] ].

(** The payload of a block of a tiling lies outside every header. *)
Lemma tiles_payload_outside a l e u q :
  tiles a l e -> u ∈ l ->
  addr u + HEADER <= q < addr u + HEADER + bsize u ->
  ∀ x, x ∈ map addr l -> q < x ∨ x + HEADER <= q.
Proof.
  intros Ht Hu Hq x Hx.
  apply list_elem_of_fmap in Hx as (c & -> & Hc).
  apply list_elem_of_split in Hu as (l1 & l2 & ->).
  pose proof (tiles_focus _ _ _ _ _ Ht) as (_ & _ & _ & _ & _ & Hl1 & Hl2).
  apply elem_of_app in Hc as [Hc|[->|Hc]%elem_of_cons].
  - destruct (Hl1 c Hc). addr_lia.
  - addr_lia.
  - destruct (Hl2 c Hc). addr_lia.
Qed.

(** *** [find_free_block] *)

Lemma find_free_block_from_finds sz l1 : ∀ pv b l2 fuel s,
  chain (memory s) pv (l1 ++ b :: l2) NULL ->
  Forall (fun c => fits sz c = false) l1 -> fits sz b = true ->
  (length l1 < fuel)%nat ->
  find_free_block_from fuel (first_addr (l1 ++ b :: l2) NULL) sz s = Ok (addr b) s.
Proof.
  induction l1 as [|c l1 IH]; intros pv b l2 fuel s Hc Hun Hfit Hfuel.
  - destruct fuel as [|fuel]; [simpl in Hfuel; lia|].
    destruct Hc as (Hnz & Hb & _). cbn [app first_addr find_free_block_from].
    rewrite (proj2 (Z.eqb_neq _ _) Hnz).
    rewrite bind_load, Hb. cbn [is_free size].
    unfold fits in Hfit. by rewrite Hfit.
  - destruct fuel as [|fuel]; [simpl in Hfuel; lia|].
    destruct Hc as (Hnz & Hb & Hrest). apply Forall_cons in Hun as [Hc Hun].
    cbn [app first_addr find_free_block_from].
    rewrite (proj2 (Z.eqb_neq _ _) Hnz).
    rewrite bind_load, Hb. cbn [is_free size next].
    unfold fits in Hc. rewrite Hc.
    apply (IH (addr c)); try assumption. simpl in Hfuel. lia.
Qed.

Lemma find_free_block_from_none sz l : ∀ pv fuel s,
  chain (memory s) pv l NULL ->
  Forall (fun c => fits sz c = false) l ->
  (length l < fuel)%nat ->
  find_free_block_from fuel (first_addr l NULL) sz s = Ok NULL s.
Proof.
  induction l as [|c l IH]; intros pv fuel s Hc Hun Hfuel.
  - destruct fuel as [|fuel]; [simpl in Hfuel; lia|]. reflexivity.
  - destruct fuel as [|fuel]; [simpl in Hfuel; lia|].
    destruct Hc as (Hnz & Hb & Hrest). apply Forall_cons in Hun as [Hc Hun].
    cbn [first_addr find_free_block_from].
    rewrite (proj2 (Z.eqb_neq _ _) Hnz).
    rewrite bind_load, Hb. cbn [is_free size next].
    unfold fits in Hc. rewrite Hc.
    apply (IH (addr c)); try assumption. simpl in Hfuel. lia.
Qed.

(** Either some block fits, and then there is a first one, or none does. *)
Lemma first_fit_cases sz l :
  Forall (fun c => fits sz c = false) l ∨
  ∃ l1 b l2, l = l1 ++ b :: l2 ∧ Forall (fun c => fits sz c = false) l1 ∧
             fits sz b = true.
Proof.
  induction l as [|c l IH]; [left; constructor|].
  destruct (fits sz c) eqn:Hc.
  - right. exists [], c, l. repeat split; [constructor | exact Hc].
  - destruct IH as [IH|(l1 & b & l2 & -> & Hun & Hb)].
    + left. by constructor.
    + right. exists (c :: l1), b, l2. repeat split; [by constructor | exact Hb].
Qed.

(** *** [split_block] *)

Lemma split_block_spec s l1 b l2 a0 hi sz :
  chain (memory s) NULL (l1 ++ b :: l2) NULL ->
  tiles a0 (l1 ++ b :: l2) hi -> 48 < a0 -> hi <= UINT32_MOD ->
  0 <= sz <= bsize b ->
  ∃ m', split_block (addr b) sz s = Ok tt (set_memory m' s) ∧
        chain m' NULL (l1 ++ split_blk sz b ++ l2) NULL ∧
        tiles a0 (l1 ++ split_blk sz b ++ l2) hi ∧
        same_outside (map addr (l1 ++ split_blk sz b ++ l2)) (memory s) m'.
Proof.
  intros Hc Ht Ha0 Hhi Hsz.
  pose proof (tiles_focus _ _ _ _ _ Ht) as (Ht1 & Hbs & Ht2 & Hlo & Hup & Hl1 & Hl2).
  apply chain_app in Hc as (Hc1 & Hnz & Hb & Hc2).
  cbn [first_addr] in Hc1.
  unfold split_block. rewrite bind_load, Hb.
  cbn [size next]. unfold split_blk.
  assert (Hsmall : u32 (sz + HEADER + 32) = sz + HEADER + 32)
    by (apply u32_small; addr_lia).
  rewrite Hsmall.
  destruct (sz + HEADER + 32 <? bsize b) eqn:Hbig.
  - (* the block is cut *)
    apply Z.ltb_lt in Hbig.
    rewrite (u32_small (addr b + HEADER + sz)) by addr_lia.
    remember (addr b + HEADER + sz) as nb eqn:Hnb.
    remember (addr b) as a eqn:Hab.
    destruct l2 as [|n l2].
    + (* no successor *)
      cbn [first_addr] in *.
      eexists. split; [|split; [|split]].
      * do 7 run. change (NULL =? NULL) with true. cbn [negb when].
        do 2 run. unfold store_size. reflexivity.
      * cbn [memory set_memory].
        apply chain_app. cbn [first_addr]. split.
        { apply (chain_ext (memory s)); [|exact Hc1]. intros c Hin.
          destruct (Hl1 c Hin) as (? & ? & ?). through. reflexivity. }
        cbn [app chain first_addr addr bsize bfree].
        split; [exact Hnz|]. split.
        { header_is. }
        split; [addr_lia|]. split; [|exact I].
        header_is.
      * apply tiles_app. exists a. split; [exact Ht1|].
        cbn [app tiles addr bsize]. simpl in Ht2.
        repeat split; addr_lia.
      * stores_inside.
    + (* a successor, whose [prev] is redirected *)
      destruct Hc2 as (Hnnz & Hn & Hc2). cbn [first_addr] in *.
      destruct (Hl2 n (list_elem_of_here _ _)) as (Hn1 & Hn2 & Hn3).
      assert (Hl2' : ∀ c, c ∈ l2 -> addr n + HEADER + bsize n <= addr c ∧
                                    addr c + HEADER + bsize c <= hi ∧ 0 <= bsize c).
      { intros c Hin. destruct Ht2 as (Hn0 & Hns & Ht2).
        pose proof (tiles_bounds _ _ _ _ Ht2 Hin). lia. }
      eexists. split; [|split; [|split]].
      * do 7 run. rewrite (proj2 (Z.eqb_neq _ _) Hnnz). cbn [negb when].
        rewrite bind_assoc. do 3 run. unfold store_size. reflexivity.
      * cbn [memory set_memory].
        apply chain_app. cbn [first_addr]. split.
        { apply (chain_ext (memory s)); [|exact Hc1]. intros c Hin.
          destruct (Hl1 c Hin) as (? & ? & ?). through. reflexivity. }
        cbn [app chain first_addr addr bsize bfree].
        split; [exact Hnz|]. split.
        { header_is. }
        split; [addr_lia|]. split.
        { header_is. }
        split; [exact Hnnz|]. split.
        { header_is. }
        apply (chain_ext (memory s)); [|exact Hc2]. intros c Hin.
        destruct (Hl2' c Hin) as (? & ? & ?). through. reflexivity.
      * apply tiles_app. exists a. split; [exact Ht1|].
        cbn [app tiles addr bsize].
        destruct Ht2 as (Hn0 & Hns & Ht2).
        repeat split; try addr_lia.
        replace (a + HEADER + sz + HEADER + (bsize b - sz - HEADER))
          with (addr n) by addr_lia.
        replace (addr n + HEADER + bsize n) with (a + HEADER + bsize b + HEADER + bsize n)
          by addr_lia.
        exact Ht2.
      * stores_inside.
  - (* the block is left whole *)
    exists (memory s). split; [by rewrite set_memory_same|]. split; [|split].
    + apply chain_app. cbn [first_addr app chain]. by repeat split.
    + exact Ht.
    + apply same_outside_refl.
Qed.

(** *** [merge_free_blocks] *)

Lemma absorb_next_addrs l : ∀ b x,
  x ∈ map addr ((absorb_next b l).1 :: (absorb_next b l).2) -> x ∈ map addr (b :: l).
Proof.
  induction l as [|n l IH]; intros b x; [done|].
  cbn [absorb_next]. destruct (bfree n); [|done].
  intros Hx%IH. cbn [map addr] in *.
  apply elem_of_cons in Hx as [->|Hx]; [apply list_elem_of_here|].
  by do 2 apply list_elem_of_further.
Qed.

Lemma merge_with_next_spec l2 : ∀ b s fuel l1 a0 hi,
  chain (memory s) NULL (l1 ++ b :: l2) NULL ->
  tiles a0 (l1 ++ b :: l2) hi -> 0 < a0 -> hi <= UINT32_MOD ->
  (length l2 < fuel)%nat ->
  ∃ m', merge_with_next fuel (addr b) s = Ok tt (set_memory m' s) ∧
        chain m' NULL (l1 ++ (absorb_next b l2).1 :: (absorb_next b l2).2) NULL ∧
        tiles a0 (l1 ++ (absorb_next b l2).1 :: (absorb_next b l2).2) hi ∧
        same_but_links (map addr (l1 ++ b :: l2)) (memory s) m'.
Proof.
  induction l2 as [|n l2 IH]; intros b s fuel l1 a0 hi Hc Ht Ha0 Hhi Hfuel;
    (destruct fuel as [|fuel]; [simpl in Hfuel; lia|]).
  - (* nothing follows *)
    pose proof Hc as (Hc1 & Hnz & Hb & _)%chain_app.
    cbn [merge_with_next first_addr] in *. run.
    change (NULL =? NULL) with true.
    exists (memory s). rewrite set_memory_same.
    split; [reflexivity|]. split; [exact Hc|]. split; [exact Ht|].
    apply same_but_links_refl.
  - pose proof Hc as (Hc1 & Hnz & Hb & Hnnz & Hn & Hc2)%chain_app.
    cbn [merge_with_next first_addr] in *. run.
    rewrite (proj2 (Z.eqb_neq _ _) Hnnz). run.
    cbn [absorb_next].
    destruct (bfree n) eqn:Hfree; cbn [negb].
    + (* the successor is free: absorb it and go on *)
      apply tiles_app in Ht as (mid & Ht1 & (Hba & Hbs & (Hna & Hns & Ht2))).
      subst mid.
      pose proof (tiles_le _ _ _ Ht1) as Hle1.
      pose proof (tiles_le _ _ _ Ht2) as Hle2.
      assert (Hl1 : ∀ c, c ∈ l1 -> a0 <= addr c ∧ addr c + HEADER <= addr b).
      { intros c Hin. destruct (tiles_bounds _ _ _ _ Ht1 Hin). lia. }
      assert (Hl2 : ∀ c, c ∈ l2 ->
                addr n + HEADER + bsize n <= addr c ∧ addr c + HEADER <= hi).
      { intros c Hin. destruct (tiles_bounds _ _ _ _ Ht2 Hin). lia. }
      set (b1 := mk_blk (addr b) (bsize b + (bsize n + HEADER)) (bfree b)).
      do 5 run.
      destruct l2 as [|nn l2].
      * (* the absorbed block was the last *)
        do 2 run. cbn [first_addr]. change (NULL =? NULL) with true.
        cbn [negb when]. run.
        match goal with |- context [set_memory ?m s] => set (m1 := m) end.
        destruct (IH b1 (set_memory m1 s) fuel l1 a0 hi)
          as (m' & Hrun & Hch & Hti & Hout).
        { cbn [memory set_memory]. apply chain_app. cbn [first_addr]. split.
          - apply (chain_ext (memory s)); [|exact Hc1]. intros c Hin.
            destruct (Hl1 c Hin). unfold m1. through. reflexivity.
          - cbn [chain addr bsize bfree first_addr b1].
            split; [exact Hnz|]. split; [|exact I]. unfold m1. header_is. }
        { apply tiles_app. exists (addr b). split; [exact Ht1|].
          cbn [tiles b1 addr bsize]. simpl in Ht2.
          repeat split; addr_lia. }
        { exact Ha0. } { exact Hhi. } { simpl in *. lia. }
        exists m'. cbn [addr b1] in Hrun. rewrite set_memory_set_memory in Hrun.
        split; [exact Hrun|]. split; [exact Hch|]. split; [exact Hti|].
        eapply same_but_links_trans.
        { assert (H : same_but_links (map addr (l1 ++ [b; n])) (memory s) m1).
          { unfold m1. links_inside. }
          exact H. }
        cbn [memory set_memory] in Hout.
        eapply same_but_links_mono; [|exact Hout].
        intros x. rewrite !map_app. cbn [map addr b1 app].
        intros [?|Hx]%elem_of_app; apply elem_of_app; [by left|right].
        apply elem_of_cons in Hx as [->|Hx]; [mem | by apply elem_of_nil in Hx].
      * (* its successor now follows [b] *)
        destruct Hc2 as (Hnnnz & Hnn & Hc3). cbn [first_addr] in *.
        destruct Ht2 as (Hnna & Hnns & Ht3).
        pose proof (tiles_le _ _ _ Ht3) as Hle3.
        assert (Hl3 : ∀ c, c ∈ l2 ->
                  addr nn + HEADER + bsize nn <= addr c ∧ addr c + HEADER <= hi).
        { intros c Hin. destruct (tiles_bounds _ _ _ _ Ht3 Hin). lia. }
        do 2 run. cbn [first_addr].
        rewrite (proj2 (Z.eqb_neq _ _) Hnnnz). cbn [negb when].
        rewrite bind_assoc. do 2 run.
        match goal with |- context [set_memory ?m s] => set (m1 := m) end.
        destruct (IH b1 (set_memory m1 s) fuel l1 a0 hi)
          as (m' & Hrun & Hch & Hti & Hout).
        { cbn [memory set_memory]. apply chain_app. cbn [first_addr]. split.
          - apply (chain_ext (memory s)); [|exact Hc1]. intros c Hin.
            destruct (Hl1 c Hin). unfold m1. through. reflexivity.
          - cbn [chain addr bsize bfree first_addr b1].
            split; [exact Hnz|]. split; [unfold m1; header_is|].
            split; [exact Hnnnz|]. split; [unfold m1; header_is|].
            apply (chain_ext (memory s)); [|exact Hc3]. intros c Hin.
            destruct (Hl3 c Hin). unfold m1. through. reflexivity. }
        { apply tiles_app. exists (addr b). split; [exact Ht1|].
          cbn [tiles b1 addr bsize].
          split; [reflexivity|]. split; [addr_lia|].
          split; [addr_lia|]. split; [exact Hnns|].
          replace (addr b + HEADER + (bsize b + (bsize n + HEADER)) + HEADER + bsize nn)
            with (addr b + HEADER + bsize b + HEADER + bsize n + HEADER + bsize nn) by lia.
          exact Ht3. }
        { exact Ha0. } { exact Hhi. } { simpl in *. lia. }
        exists m'. cbn [addr b1] in Hrun. rewrite set_memory_set_memory in Hrun.
        split; [exact Hrun|]. split; [exact Hch|]. split; [exact Hti|].
        eapply same_but_links_trans.
        { assert (H : same_but_links (map addr (l1 ++ b :: n :: nn :: l2)) (memory s) m1).
          { unfold m1. links_inside. }
          exact H. }
        cbn [memory set_memory] in Hout.
        eapply same_but_links_mono; [|exact Hout].
        intros x. rewrite !map_app. cbn [map addr b1 app].
        intros [?|Hx]%elem_of_app; apply elem_of_app; [by left|right].
        apply elem_of_cons in Hx as [->|Hx]; [mem | by do 2 apply list_elem_of_further].
    + (* the successor is in use *)
      exists (memory s). rewrite set_memory_same.
      split; [reflexivity|]. split; [exact Hc|]. split; [exact Ht|].
      apply same_but_links_refl.
Qed.

Lemma merge_with_prev_spec l1 : ∀ b s fuel l2 a0 hi,
  chain (memory s) NULL (l1 ++ b :: l2) NULL ->
  tiles a0 (l1 ++ b :: l2) hi -> 0 < a0 -> hi <= UINT32_MOD ->
  (length l1 < fuel)%nat ->
  ∃ m', merge_with_prev fuel (addr b) s = Ok tt (set_memory m' s) ∧
        chain m' NULL
          (rev (absorb_prev (rev l1) b).1 ++ (absorb_prev (rev l1) b).2 :: l2) NULL ∧
        tiles a0
          (rev (absorb_prev (rev l1) b).1 ++ (absorb_prev (rev l1) b).2 :: l2) hi ∧
        same_but_links (map addr (l1 ++ b :: l2)) (memory s) m'.
Proof.
  induction l1 as [|p l1 IH] using rev_ind;
    intros b s fuel l2 a0 hi Hc Ht Ha0 Hhi Hfuel;
    (destruct fuel as [|fuel]; [simpl in Hfuel; lia|]).
  - (* nothing precedes *)
    pose proof Hc as (Hnz & Hb & _).
    cbn [merge_with_prev]. run.
    change (NULL =? NULL) with true.
    exists (memory s). rewrite set_memory_same.
    split; [reflexivity|]. split; [exact Hc|]. split; [exact Ht|].
    apply same_but_links_refl.
  - rewrite <- app_assoc in Hc, Ht. cbn [app] in Hc, Ht.
    pose proof Hc as (Hc1 & Hpnz & Hp & Hnz & Hb & Hc2)%chain_app.
    cbn [first_addr] in *.
    cbn [merge_with_prev]. run.
    rewrite (proj2 (Z.eqb_neq _ _) Hpnz). run.
    rewrite rev_unit. cbn [absorb_prev].
    destruct (bfree p) eqn:Hfree; cbn [negb].
    + (* the predecessor is free: it absorbs [b], go on from it *)
      apply tiles_app in Ht as (mid & Ht1 & (Hpa & Hps & (Hba & Hbs & Ht2))).
      subst mid.
      pose proof (tiles_le _ _ _ Ht1) as Hle1.
      pose proof (tiles_le _ _ _ Ht2) as Hle2.
      assert (Hl1 : ∀ c, c ∈ l1 -> a0 <= addr c ∧ addr c + HEADER <= addr p).
      { intros c Hin. destruct (tiles_bounds _ _ _ _ Ht1 Hin). lia. }
      set (p1 := mk_blk (addr p) (bsize p + (bsize b + HEADER)) true).
      do 7 run.
      destruct l2 as [|n l2].
      * (* [b] was the last block *)
        cbn [first_addr]. change (NULL =? NULL) with true.
        cbn [negb when]. run.
        match goal with |- context [set_memory ?m s] => set (m1 := m) end.
        destruct (IH p1 (set_memory m1 s) fuel [] a0 hi)
          as (m' & Hrun & Hch & Hti & Hout).
        { cbn [memory set_memory]. apply chain_app. cbn [first_addr]. split.
          - apply (chain_ext (memory s)); [|exact Hc1]. intros c Hin.
            destruct (Hl1 c Hin). unfold m1. through. reflexivity.
          - cbn [chain addr bsize bfree first_addr p1].
            split; [exact Hpnz|]. split; [|exact I]. unfold m1. header_is. }
        { apply tiles_app. exists (addr p). split; [exact Ht1|].
          cbn [tiles p1 addr bsize]. simpl in Ht2.
          repeat split; addr_lia. }
        { exact Ha0. } { exact Hhi. }
        { rewrite length_app in Hfuel. simpl in Hfuel. lia. }
        exists m'. cbn [addr p1] in Hrun. rewrite set_memory_set_memory in Hrun.
        split; [exact Hrun|]. split; [exact Hch|]. split; [exact Hti|].
        eapply same_but_links_trans.
        { assert (H : same_but_links (map addr ((l1 ++ [p]) ++ [b])) (memory s) m1).
          { unfold m1. rewrite <- app_assoc. links_inside. }
          exact H. }
        cbn [memory set_memory] in Hout.
        eapply same_but_links_mono; [|exact Hout].
        intros x. rewrite !map_app. cbn [map addr p1 app].
        intros [?|Hx]%elem_of_app; apply elem_of_app; [left; apply elem_of_app; by left|].
        apply elem_of_cons in Hx as [->|Hx]; [|by apply elem_of_nil in Hx].
        left. apply elem_of_app. right. apply list_elem_of_here.
      * (* the successor of [b] now follows the predecessor *)
        destruct Hc2 as (Hnnz & Hn & Hc3). cbn [first_addr] in *.
        destruct Ht2 as (Hna & Hns & Ht3).
        pose proof (tiles_le _ _ _ Ht3) as Hle3.
        assert (Hl3 : ∀ c, c ∈ l2 ->
                  addr n + HEADER + bsize n <= addr c ∧ addr c + HEADER <= hi).
        { intros c Hin. destruct (tiles_bounds _ _ _ _ Ht3 Hin). lia. }
        rewrite (proj2 (Z.eqb_neq _ _) Hnnz). cbn [negb when].
        rewrite bind_assoc. do 2 run.
        match goal with |- context [set_memory ?m s] => set (m1 := m) end.
        destruct (IH p1 (set_memory m1 s) fuel (n :: l2) a0 hi)
          as (m' & Hrun & Hch & Hti & Hout).
        { cbn [memory set_memory]. apply chain_app. cbn [first_addr]. split.
          - apply (chain_ext (memory s)); [|exact Hc1]. intros c Hin.
            destruct (Hl1 c Hin). unfold m1. through. reflexivity.
          - cbn [chain addr bsize bfree first_addr p1].
            split; [exact Hpnz|]. split; [unfold m1; header_is|].
            split; [exact Hnnz|]. split; [unfold m1; header_is|].
            apply (chain_ext (memory s)); [|exact Hc3]. intros c Hin.
            destruct (Hl3 c Hin). unfold m1. through. reflexivity. }
        { apply tiles_app. exists (addr p). split; [exact Ht1|].
          cbn [tiles p1 addr bsize].
          split; [reflexivity|]. split; [addr_lia|].
          split; [addr_lia|]. split; [exact Hns|].
          replace (addr p + HEADER + (bsize p + (bsize b + HEADER)) + HEADER + bsize n)
            with (addr p + HEADER + bsize p + HEADER + bsize b + HEADER + bsize n) by lia.
          exact Ht3. }
        { exact Ha0. } { exact Hhi. }
        { rewrite length_app in Hfuel. simpl in Hfuel. lia. }
        exists m'. cbn [addr p1] in Hrun. rewrite set_memory_set_memory in Hrun.
        split; [exact Hrun|]. split; [exact Hch|]. split; [exact Hti|].
        eapply same_but_links_trans.
        { assert (H : same_but_links (map addr ((l1 ++ [p]) ++ b :: n :: l2)) (memory s) m1).
          { unfold m1. rewrite <- app_assoc. links_inside. }
          exact H. }
        cbn [memory set_memory] in Hout.
        eapply same_but_links_mono; [|exact Hout].
        intros x. rewrite !map_app. cbn [map addr p1 app].
        intros [?|Hx]%elem_of_app; apply elem_of_app; [left; apply elem_of_app; by left|].
        apply elem_of_cons in Hx as [->|Hx].
        { left. apply elem_of_app. right. apply list_elem_of_here. }
        right. by apply list_elem_of_further.
    + (* the predecessor is in use *)
      exists (memory s). rewrite set_memory_same.
      cbn [rev fst snd]. rewrite rev_involutive, <- app_assoc.
      split; [reflexivity|]. split; [exact Hc|]. split; [exact Ht|].
      apply same_but_links_refl.
Qed.

(** *** More fuel changes nothing *)

Lemma bind_mono {A B} (m : M A) (k k' : A -> M B) s r s' :
  (∀ a s1, k a s1 = Ok r s' -> k' a s1 = Ok r s') ->
  bind m k s = Ok r s' -> bind m k' s = Ok r s'.
Proof. unfold bind. destruct (m s); [auto | discriminate]. Qed.

Lemma find_free_block_from_mono fuel : ∀ fuel' cur sz s r s',
  (fuel <= fuel')%nat ->
  find_free_block_from fuel cur sz s = Ok r s' ->
  find_free_block_from fuel' cur sz s = Ok r s'.
Proof.
  induction fuel as [|fuel IH]; intros fuel' cur sz s r s' Hle; [discriminate|].
  destruct fuel' as [|fuel']; [lia|]. cbn [find_free_block_from].
  destruct (cur =? NULL); [done|].
  apply bind_mono. intros b s1. destruct (is_free b && (sz <=? size b)); [done|].
  apply IH. lia.
Qed.

Lemma merge_with_next_mono fuel : ∀ fuel' block s r s',
  (fuel <= fuel')%nat ->
  merge_with_next fuel block s = Ok r s' ->
  merge_with_next fuel' block s = Ok r s'.
Proof.
  induction fuel as [|fuel IH]; intros fuel' block s r s' Hle; [discriminate|].
  destruct fuel' as [|fuel']; [lia|]. cbn [merge_with_next].
  apply bind_mono. intros b s1. destruct (next b =? NULL); [done|].
  apply bind_mono. intros n s2. destruct (negb (is_free n)); [done|].
  repeat (apply bind_mono; intros ? ?). apply IH. lia.
Qed.

Lemma merge_with_prev_mono fuel : ∀ fuel' block s r s',
  (fuel <= fuel')%nat ->
  merge_with_prev fuel block s = Ok r s' ->
  merge_with_prev fuel' block s = Ok r s'.
Proof.
  induction fuel as [|fuel IH]; intros fuel' block s r s' Hle; [discriminate|].
  destruct fuel' as [|fuel']; [lia|]. cbn [merge_with_prev].
  apply bind_mono. intros b s1. destruct (prev b =? NULL); [done|].
  apply bind_mono. intros p s2. destruct (negb (is_free p)); [done|].
  repeat (apply bind_mono; intros ? ?). apply IH. lia.
Qed.

Lemma bind_mono_l {A B} (m m' : M A) (k : A -> M B) s r s' :
  (∀ a s1, m s = Ok a s1 -> m' s = Ok a s1) ->
  bind m k s = Ok r s' -> bind m' k s = Ok r s'.
Proof.
  intros Hm. unfold bind. destruct (m s) as [a s1|] eqn:H; [|discriminate].
  by rewrite (Hm _ _ eq_refl).
Qed.

Lemma kmalloc_mono fuel fuel' sz s r s' :
  (fuel <= fuel')%nat ->
  kmalloc fuel sz s = Ok r s' -> kmalloc fuel' sz s = Ok r s'.
Proof.
  intros Hle. unfold kmalloc. destruct (sz =? 0); [done|].
  apply bind_mono_l. intros a s1. unfold find_free_block.
  by apply find_free_block_from_mono.
Qed.

Lemma merge_free_blocks_mono fuel fuel' block s r s' :
  (fuel <= fuel')%nat ->
  merge_free_blocks fuel block s = Ok r s' -> merge_free_blocks fuel' block s = Ok r s'.
Proof.
  intros Hle. unfold merge_free_blocks. intros H.
  apply (bind_mono_l (merge_with_next fuel block)).
  - intros a s1. by apply merge_with_next_mono.
  - revert H. apply bind_mono. intros a s1. by apply merge_with_prev_mono.
Qed.

Lemma kfree_mono fuel fuel' ptr s r s' :
  (fuel <= fuel')%nat ->
  kfree fuel ptr s = Ok r s' -> kfree fuel' ptr s = Ok r s'.
Proof.
  intros Hle. unfold kfree. destruct (ptr =? NULL); [done|].
  apply bind_mono. intros b s1. destruct (is_free b); [done|].
  do 4 (apply bind_mono; intros ? ?).
  by apply merge_free_blocks_mono.
Qed.

Lemma krealloc_mono fuel fuel' ptr new_size s r s' :
  (fuel <= fuel')%nat ->
  krealloc fuel ptr new_size s = Ok r s' -> krealloc fuel' ptr new_size s = Ok r s'.
Proof.
  intros Hle. unfold krealloc.
  destruct (ptr =? NULL); [by apply kmalloc_mono|].
  destruct (new_size =? 0).
  { apply bind_mono_l. intros a s1. by apply kfree_mono. }
  apply bind_mono. intros b s1. destruct (new_size <=? size b); [done|].
  intros H. apply (bind_mono_l (kmalloc fuel new_size)).
  { intros a s2. by apply kmalloc_mono. }
  revert H. apply bind_mono. intros np s2.
  apply bind_mono_l. intros u s3.
  destruct (negb (np =? NULL)); [|done]. cbn [when].
  do 2 (apply bind_mono; intros ? ?). by apply kfree_mono.
Qed.

Lemma run_call_mono fuel fuel' c s r s' :
  (fuel <= fuel')%nat ->
  run_call fuel c s = Ok r s' -> run_call fuel' c s = Ok r s'.
Proof.
  intros Hle. destruct c; cbn [run_call].
  - by apply kmalloc_mono.
  - apply bind_mono_l. intros a s1. by apply kfree_mono.
  - by apply krealloc_mono.
Qed.

(** *** Rounding *)

Lemma align8_eq sz : align8 sz = 8 * (u32 (sz + 7) / 8).
Proof.
  unfold align8.
  assert (Hx : 0 <= u32 (sz + 7) < 2 ^ 32)
    by (unfold u32, UINT32_MOD; apply Z.mod_pos_bound; lia).
  set (x := u32 (sz + 7)) in *.
  replace (u32 (Z.lnot 7)) with (Z.land (Z.lnot 7) (Z.ones 32))
    by (rewrite Z.land_ones by lia; reflexivity).
  rewrite (Z.land_comm (Z.lnot 7)), Z.land_assoc.
  rewrite (Z.land_ones x) by lia. rewrite (Z.mod_small x) by lia.
  rewrite <- Z.ldiff_land. change 7 with (Z.ones 3).
  rewrite Z.ldiff_ones_r by lia.
  rewrite Z.shiftl_mul_pow2, Z.shiftr_div_pow2 by lia.
  change (2 ^ 3) with 8. lia.
Qed.

Lemma align8_bounds sz : 0 <= align8 sz < UINT32_MOD.
Proof.
  rewrite align8_eq.
  assert (Hx : 0 <= u32 (sz + 7) < UINT32_MOD)
    by (unfold u32, UINT32_MOD; apply Z.mod_pos_bound; lia).
  pose proof (Z.mul_div_le (u32 (sz + 7)) 8 ltac:(lia)).
  pose proof (Z.div_pos (u32 (sz + 7)) 8 ltac:(lia) ltac:(lia)). lia.
Qed.

(** Below the wrap-around the result is the least multiple of 8 that is
    not smaller than the request. *)
Lemma align8_rounds_up sz :
  0 <= sz -> sz + 7 < UINT32_MOD ->
  sz <= align8 sz < sz + 8 ∧ align8 sz mod 8 = 0.
Proof.
  intros H0 H1. rewrite align8_eq, u32_small by lia.
  pose proof (Z.div_mod (sz + 7) 8 ltac:(lia)).
  pose proof (Z.mod_pos_bound (sz + 7) 8 ltac:(lia)).
  split; [lia|]. rewrite Z.mul_comm. apply Z.mod_mul. lia.
Qed.

(** *** [kmalloc] *)

Lemma tiles_first_cons a b l e x : tiles a (b :: l) e -> first_addr (b :: l) x = a.
Proof. by intros (<- & _). Qed.

Lemma first_addr_nonempty l x y : l ≠ [] -> first_addr l x = first_addr l y.
Proof. by destruct l. Qed.

(** Setting the free flag of one block of the list. *)
Lemma chain_mark m l1 c l2 a0 hi (f : bool) :
  chain m NULL (l1 ++ c :: l2) NULL ->
  tiles a0 (l1 ++ c :: l2) hi -> 0 < a0 -> hi <= UINT32_MOD ->
  let m' := store32 (addr c + 4) (if f then 1 else 0) m in
  load_block m' (addr c)
    = mk_block (bsize c) f (first_addr l2 NULL) (last_addr l1 NULL) ∧
  chain m' NULL (l1 ++ mark f c :: l2) NULL ∧
  tiles a0 (l1 ++ mark f c :: l2) hi ∧
  same_outside (map addr (l1 ++ c :: l2)) m m'.
Proof.
  intros Hc Ht Ha0 Hhi m'.
  pose proof (tiles_focus _ _ _ _ _ Ht) as (Ht1 & Hbs & Ht2 & Hlo & Hup & Hl1 & Hl2).
  apply chain_app in Hc as (Hc1 & Hnz & Hb & Hc2).
  assert (Hc' : load_block m' (addr c)
                = mk_block (bsize c) f (first_addr l2 NULL) (last_addr l1 NULL)).
  { unfold m'. through. known_headers. unfold set_is_free. cbn [size is_free next prev].
    f_equal. by destruct f. }
  split; [exact Hc'|]. split; [|split].
  - apply chain_app. split.
    + apply (chain_ext m); [|exact Hc1]. intros d Hd. destruct (Hl1 d Hd) as (? & ? & ?).
      unfold m'. through. reflexivity.
    + cbn [chain mark addr bsize bfree].
      split; [exact Hnz|]. split; [exact Hc'|].
      apply (chain_ext m); [|exact Hc2]. intros d Hd. destruct (Hl2 d Hd) as (? & ? & ?).
      unfold m'. through. reflexivity.
  - apply tiles_app. exists (addr c). split; [exact Ht1|].
    cbn [tiles mark addr bsize]. by repeat split.
  - unfold m'. stores_inside.
Qed.

Lemma split_blk_cons sz b :
  ∃ rest, split_blk sz b = mk_blk (addr b) (granted sz b) (bfree b) :: rest ∧
          allocate_in sz b = mk_blk (addr b) (granted sz b) false :: rest.
Proof.
  unfold allocate_in, split_blk, granted.
  destruct (sz + HEADER + 32 <? bsize b); eexists; (split; [|reflexivity]).
  - reflexivity.
  - by destruct b.
Qed.

Lemma kmalloc_zero fuel s : kmalloc fuel 0 s = Ok NULL s.
Proof. reflexivity. Qed.

Lemma kmalloc_none s l fuel sz :
  heap_ok s l -> sz ≠ 0 ->
  Forall (fun c => fits (align8 sz) c = false) l ->
  (length l < fuel)%nat ->
  kmalloc fuel sz s = Ok NULL s.
Proof.
  intros (_ & _ & (Hhead & Hc) & _) Hsz Hun Hfuel.
  unfold kmalloc. rewrite (proj2 (Z.eqb_neq _ _) Hsz).
  unfold find_free_block, bind. rewrite Hhead.
  by rewrite (find_free_block_from_none _ _ _ _ _ Hc Hun Hfuel).
Qed.

(** [kmalloc] takes the first block that fits, and writes nothing but
    headers of the list it leaves. *)
Lemma kmalloc_takes s l1 b l2 fuel sz :
  heap_ok s (l1 ++ b :: l2) -> sz ≠ 0 ->
  Forall (fun c => fits (align8 sz) c = false) l1 ->
  fits (align8 sz) b = true ->
  (length l1 < fuel)%nat ->
  ∃ s', kmalloc fuel sz s = Ok (addr b + HEADER) s' ∧
        heap_ok s' (l1 ++ allocate_in (align8 sz) b ++ l2) ∧
        same_outside (map addr (l1 ++ allocate_in (align8 sz) b ++ l2))
                     (memory s) (memory s') ∧
        mem_stats s' = charge (granted (align8 sz) b) (mem_stats s).
Proof.
  intros (Hstart & Hsize & (Hhead & Hc) & Ht) Hsz Hun Hfit Hfuel.
  pose proof (align8_bounds sz) as Hr. set (r := align8 sz) in *.
  assert (Hrb : r <= bsize b).
  { unfold fits in Hfit. apply andb_true_iff in Hfit as [_ H]. by apply Z.leb_le. }
  assert (Hnz : addr b ≠ NULL) by (apply chain_app in Hc as (_ & H & _); exact H).
  pose proof (tiles_focus _ _ _ _ _ Ht) as (_ & _ & _ & Hlo & Hup & _).
  rewrite Hstart in Hlo. rewrite Hstart, Hsize in Hup.
  unfold kmalloc. rewrite (proj2 (Z.eqb_neq _ _) Hsz). fold r.
  unfold find_free_block, bind at 1. rewrite Hhead.
  rewrite (find_free_block_from_finds _ _ _ _ _ _ _ Hc Hun Hfit Hfuel).
  rewrite (proj2 (Z.eqb_neq _ _) Hnz).
  destruct (split_block_spec s l1 b l2 (heap_start s) (heap_start s + heap_size s) r)
    as (m1 & Hsplit & Hc1 & Ht1 & Hout1); try assumption;
    try (rewrite ?Hstart, ?Hsize; addr_lia).
  rewrite (bind_ok _ _ _ _ _ Hsplit).
  destruct (split_blk_cons r b) as (rest & Hsb & Hal). rewrite Hsb in Hc1, Ht1, Hout1.
  cbn [app] in Hc1, Ht1, Hout1.
  destruct (chain_mark _ _ _ _ _ _ false Hc1 Ht1) as (Hh & Hc2 & Ht2 & Hout2);
    try (rewrite ?Hstart, ?Hsize; addr_lia).
  cbn [addr bsize] in Hh, Hout2.
  rewrite bind_store_is_free. cbn beta. rewrite bind_load. cbn [memory set_memory].
  rewrite Hh. unfold get_stats, put_stats, bind, ret. cbn [size mem_stats set_memory].
  rewrite (u32_small (addr b + HEADER)) by addr_lia.
  eexists. split; [reflexivity|]. split; [|split; [|reflexivity]].
  - unfold heap_ok, block_list.
    cbn [heap_start heap_size heap_head memory set_mem_stats set_memory].
    split; [exact Hstart|]. split; [exact Hsize|].
    rewrite Hal. cbn [app]. split; [split|].
    + rewrite Hhead, !first_addr_app. destruct l1; reflexivity.
    + exact Hc2.
    + exact Ht2.
  - cbn [memory set_mem_stats set_memory]. rewrite Hal. cbn [app].
    assert (Hmap : map addr (l1 ++ mk_blk (addr b) (granted r b) false :: rest ++ l2)
                   = map addr (l1 ++ mk_blk (addr b) (granted r b) (bfree b)
                                 :: rest ++ l2))
      by (by rewrite !map_app).
    rewrite Hmap. eapply same_outside_trans; [exact Hout1 | exact Hout2].
Qed.

(** *** [kfree] *)

Lemma absorb_next_addr l : ∀ b, addr (absorb_next b l).1 = addr b.
Proof.
  induction l as [|n l IH]; intros b; [reflexivity|].
  cbn [absorb_next]. destruct (bfree n); [|reflexivity]. by rewrite IH.
Qed.

Lemma kfree_null fuel s : kfree fuel NULL s = Ok tt s.
Proof. reflexivity. Qed.

Lemma heap_ok_focus s l1 b l2 :
  heap_ok s (l1 ++ b :: l2) ->
  KERNEL_HEAP_START <= addr b ∧
  addr b + HEADER + bsize b <= KERNEL_HEAP_START + KERNEL_HEAP_SIZE ∧
  0 <= bsize b ∧
  load_block (memory s) (addr b)
  = mk_block (bsize b) (bfree b) (first_addr l2 NULL) (last_addr l1 NULL).
Proof.
  intros (Hstart & Hsize & (_ & Hc) & Ht). rewrite Hstart, Hsize in Ht.
  pose proof (tiles_focus _ _ _ _ _ Ht) as (_ & Hbs & _ & Hlo & Hup & _).
  apply chain_app in Hc as (_ & _ & Hb & _). by repeat split.
Qed.

(** The header below a payload pointer of the list. *)
Lemma block_of_payload s l1 b l2 :
  heap_ok s (l1 ++ b :: l2) ->
  (addr b + HEADER =? NULL) = false ∧ u32 (addr b + HEADER - HEADER) = addr b.
Proof.
  intros (Hlo & Hup & Hbs & _)%heap_ok_focus. split.
  - apply Z.eqb_neq. addr_lia.
  - replace (addr b + HEADER - HEADER) with (addr b) by lia. apply u32_small. addr_lia.
Qed.

Lemma kfree_free s l1 b l2 fuel :
  heap_ok s (l1 ++ b :: l2) -> bfree b = true ->
  kfree fuel (addr b + HEADER) s = Ok tt s.
Proof.
  intros Hok Hfree. destruct (heap_ok_focus _ _ _ _ Hok) as (Hlo & _ & _ & Hb).
  destruct (block_of_payload _ _ _ _ Hok) as [Hnull Hblock].
  unfold kfree. rewrite Hnull, Hblock.
  rewrite bind_load, Hb. cbn [is_free]. by rewrite Hfree.
Qed.

(** [kfree] of a block in use, and it writes nothing but headers of the
    list it finds. *)
(** The merges leave every [is_free] field of the list as it is. *)
Lemma same_but_links_is_free a0 l hi m m' c :
  same_but_links (map addr l) m m' -> tiles a0 l hi -> 0 < a0 -> hi <= UINT32_MOD ->
  c ∈ l ->
  is_free (load_block m' (addr c)) = is_free (load_block m (addr c)).
Proof.
  intros Hsame Ht Ha0 Hhi (l1 & l2 & ->)%list_elem_of_split.
  pose proof (tiles_focus _ _ _ _ _ Ht) as (_ & Hbs & _ & Hlo & Hup & Hl1 & Hl2).
  assert (Hq : ∀ k, 0 <= k < 4 -> read8 m' (addr c + 4 + k) = read8 m (addr c + 4 + k)).
  { intros k Hk. apply Hsame; [addr_lia|].
    intros x (d & -> & Hd)%list_elem_of_fmap.
    apply elem_of_app in Hd as [Hd|Hd].
    - destruct (Hl1 d Hd) as (? & ? & ?). right. left. addr_lia.
    - apply elem_of_cons in Hd as [->|Hd]; [right; right; lia|].
      destruct (Hl2 d Hd) as (? & ? & ?). left. addr_lia. }
  unfold load_block. cbn [is_free]. unfold load32.
  rewrite <- (Z.add_0_r (addr c + 4)) at 1 5.
  by rewrite !Hq by lia.
Qed.

Lemma kfree_used s l1 b l2 fuel :
  heap_ok s (l1 ++ b :: l2) -> bfree b = false ->
  (length (l1 ++ b :: l2) < fuel)%nat ->
  ∃ s', kfree fuel (addr b + HEADER) s = Ok tt s' ∧
        heap_ok s' (free_in l1 b l2) ∧
        same_outside (map addr (l1 ++ b :: l2)) (memory s) (memory s') ∧
        mem_stats s' = refund (bsize b) (mem_stats s) ∧
        is_free (load_block (memory s') (addr b)) = true.
Proof.
  intros Hok Hused Hfuel.
  destruct (heap_ok_focus _ _ _ _ Hok) as (Hlo & _ & _ & Hb).
  destruct (block_of_payload _ _ _ _ Hok) as [Hnull Hblock].
  destruct Hok as (Hstart & Hsize & (Hhead & Hc) & Ht).
  rewrite length_app in Hfuel. cbn [length] in Hfuel.
  assert (Ha0 : 0 < heap_start s) by (rewrite Hstart; addr_lia).
  assert (Hhi : heap_start s + heap_size s <= UINT32_MOD)
    by (rewrite Hstart, Hsize; addr_lia).
  unfold kfree. rewrite Hnull, Hblock.
  rewrite bind_load, Hb. cbn [is_free size]. rewrite Hused.
  destruct (chain_mark _ _ _ _ _ _ true Hc Ht Ha0 Hhi) as (Hh & Hc1 & Ht1 & Hout1).
  rewrite bind_store_is_free. cbn beta. rewrite bind_load. cbn [memory set_memory].
  rewrite Hh.
  unfold get_stats, put_stats, bind at 1 2. cbn [size mem_stats set_memory].
  fold (refund (bsize b) (mem_stats s)).
  match goal with |- context [merge_free_blocks fuel (addr b) ?x] => set (s2 := x) end.
  unfold merge_free_blocks.
  destruct (merge_with_next_spec l2 (mark true b) s2 fuel l1 (heap_start s)
              (heap_start s + heap_size s))
    as (m2 & Hrun2 & Hc2 & Ht2 & Hout2); try assumption; try lia.
  cbn [mark addr] in Hrun2. rewrite (bind_ok _ _ _ _ _ Hrun2).
  pose proof (absorb_next_addrs l2 (mark true b)) as Haddrs.
  destruct (absorb_next (mark true b) l2) as [b1 l2'] eqn:E1.
  assert (Hb1 : addr b1 = addr b).
  { change b1 with ((b1, l2').1). rewrite <- E1.
    exact (absorb_next_addr l2 (mark true b)). }
  cbn [fst snd] in Hc2, Ht2, Haddrs.
  destruct (merge_with_prev_spec l1 b1 (set_memory m2 s2) fuel l2' (heap_start s)
              (heap_start s + heap_size s))
    as (m3 & Hrun3 & Hc3 & Ht3 & Hout3); try assumption; try lia.
  rewrite Hb1 in Hrun3. rewrite Hrun3.
  eexists. split; [reflexivity|].
  unfold free_in. rewrite E1.
  destruct (absorb_prev (rev l1) b1) as [rb b2] eqn:E2. cbn [fst snd] in Hc3, Ht3.
  split; [|split; [|split; [reflexivity|]]].
  - unfold heap_ok, block_list.
    cbn [heap_start heap_size heap_head memory set_memory s2 set_mem_stats].
    split; [exact Hstart|]. split; [exact Hsize|]. split; [split|].
    + rewrite Hhead.
      destruct l1 as [|c l1], (rev rb) as [|d l1'] eqn:Erb; cbn [app] in *;
        rewrite (tiles_first_cons _ _ _ _ NULL Ht), (tiles_first_cons _ _ _ _ NULL Ht3);
        reflexivity.
    + exact Hc3.
    + exact Ht3.
  - cbn [memory set_memory s2 set_mem_stats] in *.
    eapply same_outside_trans; [exact Hout1|].
    eapply same_outside_trans.
    { eapply same_outside_mono; [|exact (same_but_links_outside _ _ _ Hout2)].
      intros x. rewrite !map_app. by cbn [map mark addr]. }
    eapply same_outside_mono; [|exact (same_but_links_outside _ _ _ Hout3)].
    intros x. rewrite !map_app.
    intros [?|Hx]%elem_of_app; apply elem_of_app; [by left|right].
    cbn [map addr]. change (addr b) with (addr (mark true b)).
    apply (Haddrs x). exact Hx.
  - cbn [memory set_memory s2 set_mem_stats] in *.
    rewrite <- Hb1.
    rewrite (same_but_links_is_free _ _ _ _ _ b1 Hout3 Ht2 Ha0 Hhi)
      by (apply elem_of_app; right; apply list_elem_of_here).
    rewrite Hb1. change (addr b) with (addr (mark true b)).
    rewrite (same_but_links_is_free _ _ _ _ _ (mark true b) Hout2 Ht1 Ha0 Hhi)
      by (apply elem_of_app; right; apply list_elem_of_here).
    cbn [mark addr]. by rewrite Hh.
Qed.

(** *** The block list of a state is unique *)

Lemma chain_functional m l : ∀ pv l',
  chain m pv l NULL -> chain m pv l' NULL ->
  first_addr l NULL = first_addr l' NULL -> l = l'.
Proof.
  induction l as [|b l IH]; intros pv [|b' l'] Hc Hc' Hfirst.
  - reflexivity.
  - destruct Hc' as (Hnz & _). cbn [first_addr] in Hfirst. congruence.
  - destruct Hc as (Hnz & _). cbn [first_addr] in Hfirst. congruence.
  - destruct Hc as (Hnz & Hb & Hl), Hc' as (Hnz' & Hb' & Hl').
    cbn [first_addr] in Hfirst. rewrite <- Hfirst in Hb', Hl'.
    rewrite Hb in Hb'. injection Hb' as Hs Hf Hn.
    assert (b = b') by (destruct b, b'; cbn in *; congruence). subst b'.
    f_equal. by apply (IH (addr b)).
Qed.

Lemma block_list_unique s l l' : block_list s l -> block_list s l' -> l = l'.
Proof.
  intros (Hh & Hc) (Hh' & Hc'). apply (chain_functional _ _ _ _ Hc Hc'). congruence.
Qed.

Lemma valid_ptr_cases s l ptr :
  heap_ok s l -> valid_ptr s ptr ->
  ptr = NULL ∨ ∃ l1 b l2, l = l1 ++ b :: l2 ∧ ptr = addr b + HEADER.
Proof.
  intros (_ & _ & Hbl & _) [->|(l' & b & Hbl' & Hin & ->)]; [by left|].
  right. rewrite (block_list_unique _ _ _ Hbl Hbl').
  apply list_elem_of_split in Hin as (l1 & l2 & ->). by exists l1, b, l2.
Qed.

(** *** What the calls do, case by case *)

Lemma kmalloc_cases s l fuel sz :
  heap_ok s l -> (length l < fuel)%nat ->
  kmalloc fuel sz s = Ok NULL s ∨
  ∃ l1 b l2 s',
    l = l1 ++ b :: l2 ∧ sz ≠ 0 ∧
    Forall (fun c => fits (align8 sz) c = false) l1 ∧ fits (align8 sz) b = true ∧
    kmalloc fuel sz s = Ok (addr b + HEADER) s' ∧
    heap_ok s' (l1 ++ allocate_in (align8 sz) b ++ l2) ∧
    same_outside (map addr (l1 ++ allocate_in (align8 sz) b ++ l2))
                 (memory s) (memory s') ∧
    mem_stats s' = charge (granted (align8 sz) b) (mem_stats s).
Proof.
  intros Hok Hfuel. destruct (decide (sz = 0)) as [->|Hsz]; [by left|].
  destruct (first_fit_cases (align8 sz) l) as [Hun|(l1 & b & l2 & -> & Hun & Hfit)].
  - left. by apply (kmalloc_none s l).
  - right. destruct (kmalloc_takes s l1 b l2 fuel sz) as (s' & H); try assumption.
    { rewrite length_app in Hfuel. lia. }
    exists l1, b, l2, s'. by repeat split; try apply H.
Qed.

Lemma kfree_cases s l fuel ptr :
  heap_ok s l -> valid_ptr s ptr -> (length l < fuel)%nat ->
  kfree fuel ptr s = Ok tt s ∨
  ∃ l1 b l2 s',
    l = l1 ++ b :: l2 ∧ bfree b = false ∧ ptr = addr b + HEADER ∧
    kfree fuel ptr s = Ok tt s' ∧
    heap_ok s' (free_in l1 b l2) ∧
    same_outside (map addr (l1 ++ b :: l2)) (memory s) (memory s') ∧
    mem_stats s' = refund (bsize b) (mem_stats s).
Proof.
  intros Hok Hptr Hfuel.
  destruct (valid_ptr_cases _ _ _ Hok Hptr) as [->|(l1 & b & l2 & -> & ->)];
    [by left|].
  destruct (bfree b) eqn:Hfree.
  - left. by apply (kfree_free s l1 b l2).
  - right. destruct (kfree_used s l1 b l2 fuel) as (s' & H); try assumption.
    exists l1, b, l2, s'. by repeat split; try apply H.
Qed.

(** *** Accounting *)

Lemma u32_add_sub a b x : u32 (u32 (a + x) + u32 (b - x)) = u32 (a + b).
Proof.
  unfold u32. rewrite <- Z.add_mod by (unfold UINT32_MOD; lia). f_equal. lia.
Qed.

Lemma u32_sub_add a b x : u32 (u32 (a - x) + u32 (b + x)) = u32 (a + b).
Proof.
  unfold u32. rewrite <- Z.add_mod by (unfold UINT32_MOD; lia). f_equal. lia.
Qed.

Lemma used_bytes_app l1 l2 : used_bytes (l1 ++ l2) = used_bytes l1 + used_bytes l2.
Proof.
  induction l1 as [|b l1 IH]; [reflexivity|].
  cbn [app used_bytes]. rewrite IH. lia.
Qed.

Lemma free_bytes_app l1 l2 : free_bytes (l1 ++ l2) = free_bytes l1 + free_bytes l2.
Proof.
  induction l1 as [|b l1 IH]; [reflexivity|].
  cbn [app free_bytes]. rewrite IH. lia.
Qed.

(** Payloads and headers add up to the tiled range. *)
Lemma tiles_payload a l e :
  tiles a l e ->
  used_bytes l + free_bytes l + HEADER * Z.of_nat (length l) = e - a ∧
  0 <= used_bytes l ∧ 0 <= free_bytes l.
Proof.
  revert a. induction l as [|b l IH]; intros a.
  - cbn. lia.
  - intros (Ha & Hs & Hl). destruct (IH _ Hl) as (H1 & H2 & H3).
    cbn [used_bytes free_bytes length].
    destruct (bfree b); unfold HEADER in *; lia.
Qed.

Lemma used_bytes_bound s l :
  heap_ok s l -> l ≠ [] -> 0 <= used_bytes l <= KERNEL_HEAP_SIZE - HEADER.
Proof.
  intros (Hstart & Hsize & _ & Ht) Hne.
  destruct (tiles_payload _ _ _ Ht) as (H1 & H2 & H3).
  destruct l; [done|]. cbn [length] in H1. unfold HEADER in *. lia.
Qed.

Lemma absorb_next_bfree l : ∀ b, bfree (absorb_next b l).1 = bfree b.
Proof.
  induction l as [|n l IH]; intros b; [reflexivity|].
  cbn [absorb_next]. destruct (bfree n); [|reflexivity]. by rewrite IH.
Qed.

Lemma absorb_next_used l : ∀ b,
  bfree b = true ->
  used_bytes ((absorb_next b l).1 :: (absorb_next b l).2) = used_bytes l.
Proof.
  induction l as [|n l IH]; intros b Hb; cbn [absorb_next].
  - cbn [fst snd used_bytes]. rewrite Hb. lia.
  - destruct (bfree n) eqn:Hn.
    + rewrite IH by exact Hb. cbn [used_bytes]. rewrite Hn. lia.
    + cbn [fst snd used_bytes]. rewrite Hb, Hn. lia.
Qed.

Lemma absorb_prev_used rl : ∀ b,
  bfree b = true ->
  used_bytes (rev (absorb_prev rl b).1 ++ [(absorb_prev rl b).2]) = used_bytes (rev rl).
Proof.
  induction rl as [|p rl IH]; intros b Hb; cbn [absorb_prev].
  - cbn [fst snd rev app used_bytes]. rewrite Hb. lia.
  - destruct (bfree p) eqn:Hp.
    + rewrite IH by reflexivity. cbn [rev]. rewrite used_bytes_app.
      cbn [used_bytes]. rewrite Hp. lia.
    + cbn [fst snd]. rewrite used_bytes_app. cbn [used_bytes]. rewrite Hb. lia.
Qed.

Lemma used_bytes_free_in l1 b l2 :
  used_bytes (free_in l1 b l2) = used_bytes l1 + used_bytes l2.
Proof.
  unfold free_in.
  pose proof (absorb_next_bfree l2 (mark true b)) as Hf.
  pose proof (absorb_next_used l2 (mark true b) eq_refl) as Hu.
  destruct (absorb_next (mark true b) l2) as [b1 l2']. cbn [fst snd mark bfree] in Hf, Hu.
  pose proof (absorb_prev_used (rev l1) b1 Hf) as Hp.
  destruct (absorb_prev (rev l1) b1) as [rb b2]. cbn [fst snd] in Hp.
  rewrite rev_involutive in Hp.
  replace (rev rb ++ b2 :: l2') with ((rev rb ++ [b2]) ++ l2')
    by (by rewrite <- app_assoc).
  rewrite used_bytes_app, Hp.
  cbn [used_bytes] in Hu. rewrite Hf in Hu. lia.
Qed.

Lemma used_bytes_allocate_in r b :
  bfree b = true -> used_bytes (allocate_in r b) = granted r b.
Proof.
  intros Hb. unfold allocate_in, split_blk, granted.
  destruct (r + HEADER + 32 <? bsize b); cbn; lia.
Qed.

(** *** The invariant, call by call *)

Lemma heap_ok_nonempty s l : heap_ok s l -> l ≠ [].
Proof.
  intros (Hstart & Hsize & _ & Ht) ->. cbn in Ht. rewrite Hsize in Ht.
  unfold KERNEL_HEAP_SIZE in Ht. lia.
Qed.

Lemma fits_free sz b : fits sz b = true -> bfree b = true.
Proof. unfold fits. by intros [H _]%andb_true_iff. Qed.

Lemma length_allocate_in r b : (length (allocate_in r b) <= 2)%nat.
Proof.
  unfold allocate_in, split_blk.
  destruct (r + HEADER + 32 <? bsize b); cbn [length]; lia.
Qed.

Lemma kmalloc_preserves s l fuel sz r s' :
  heap_ok s l -> stats_mod s -> (length l < fuel)%nat ->
  kmalloc fuel sz s = Ok r s' ->
  ∃ l', heap_ok s' l' ∧ stats_mod s' ∧
        (stats_exact s l -> stats_exact s' l') ∧
        (∀ b, b ∈ l -> ∃ b', b' ∈ l' ∧ addr b' = addr b) ∧
        (length l' <= S (length l))%nat.
Proof.
  intros Hok Hmod Hfuel Hrun.
  destruct (kmalloc_cases s l fuel sz Hok Hfuel)
    as [Hnull|(l1 & b & l2 & s1 & -> & Hsz & Hun & Hfit & Hrun1 & Hok1 & Hpay & Hst)].
  - rewrite Hnull in Hrun. injection Hrun as _ <-.
    exists l. split; [exact Hok|]. split; [exact Hmod|]. split; [auto|].
    split; [eauto | lia].
  - rewrite Hrun1 in Hrun. injection Hrun as _ <-.
    pose proof (fits_free _ _ Hfit) as Hfree.
    destruct (split_blk_cons (align8 sz) b) as (rest & Hsb & Hal).
    exists (l1 ++ allocate_in (align8 sz) b ++ l2).
    split; [exact Hok1|]. split; [|split; [|split]].
    + unfold stats_mod. rewrite Hst. unfold charge. cbn [used_memory free_memory].
      rewrite u32_add_sub. exact Hmod.
    + intros (Hu & Hf).
      pose proof (used_bytes_bound _ _ Hok1 (heap_ok_nonempty _ _ Hok1)) as Hb1.
      pose proof (used_bytes_bound _ _ Hok (heap_ok_nonempty _ _ Hok)) as Hb0.
      rewrite !used_bytes_app in Hb1. rewrite used_bytes_app in Hb0.
      cbn [used_bytes] in Hb0. rewrite Hfree in Hb0.
      rewrite used_bytes_allocate_in in Hb1 by exact Hfree.
      unfold stats_exact. rewrite Hst. unfold charge. cbn [used_memory free_memory].
      rewrite Hu, Hf, !used_bytes_app, used_bytes_allocate_in by exact Hfree.
      cbn [used_bytes]. rewrite Hfree.
      unfold KERNEL_HEAP_SIZE, HEADER in *.
      rewrite !u32_small by (unfold UINT32_MOD; lia). lia.
    + intros c [Hc|[->|Hc]%elem_of_cons]%elem_of_app.
      * exists c. split; [|reflexivity]. apply elem_of_app. by left.
      * exists (mk_blk (addr b) (granted (align8 sz) b) false).
        split; [|reflexivity]. rewrite Hal. cbn [app].
        apply elem_of_app. right. apply list_elem_of_here.
      * exists c. split; [|reflexivity]. rewrite !elem_of_app. auto.
    + rewrite !length_app. cbn [length].
      pose proof (length_allocate_in (align8 sz) b). lia.
Qed.

Lemma kfree_preserves s l fuel ptr r s' :
  heap_ok s l -> stats_mod s -> valid_ptr s ptr -> (length l < fuel)%nat ->
  kfree fuel ptr s = Ok r s' ->
  ∃ l', heap_ok s' l' ∧ stats_mod s' ∧ (stats_exact s l -> stats_exact s' l').
Proof.
  intros Hok Hmod Hptr Hfuel Hrun.
  destruct (kfree_cases s l fuel ptr Hok Hptr Hfuel)
    as [Hsame|(l1 & b & l2 & s1 & -> & Hused & -> & Hrun1 & Hok1 & Hpay & Hst)].
  - rewrite Hsame in Hrun. injection Hrun as _ <-.
    exists l. split; [exact Hok|]. split; [exact Hmod | auto].
  - rewrite Hrun1 in Hrun. injection Hrun as _ <-.
    exists (free_in l1 b l2). split; [exact Hok1|]. split.
    + unfold stats_mod. rewrite Hst. unfold refund. cbn [used_memory free_memory].
      rewrite u32_sub_add. exact Hmod.
    + intros (Hu & Hf).
      pose proof (used_bytes_bound _ _ Hok1 (heap_ok_nonempty _ _ Hok1)) as Hb1.
      pose proof (used_bytes_bound _ _ Hok (heap_ok_nonempty _ _ Hok)) as Hb0.
      rewrite used_bytes_free_in in Hb1. rewrite used_bytes_app in Hb0.
      cbn [used_bytes] in Hb0. rewrite Hused in Hb0.
      destruct (heap_ok_focus _ _ _ _ Hok) as (_ & _ & Hbs & _).
      unfold stats_exact. rewrite Hst. unfold refund. cbn [used_memory free_memory].
      rewrite Hu, Hf, used_bytes_free_in, used_bytes_app.
      cbn [used_bytes]. rewrite Hused.
      unfold KERNEL_HEAP_SIZE, HEADER in *.
      rewrite !u32_small by (unfold UINT32_MOD; lia). lia.
Qed.

Lemma kfree_preserves_total s l fuel ptr :
  heap_ok s l -> stats_mod s -> valid_ptr s ptr -> (length l < fuel)%nat ->
  ∃ s' l', kfree fuel ptr s = Ok tt s' ∧ heap_ok s' l' ∧ stats_mod s'.
Proof.
  intros Hok Hmod Hptr Hfuel.
  destruct (kfree_cases s l fuel ptr Hok Hptr Hfuel)
    as [H|(l1 & b & l2 & s' & _ & _ & _ & H & _)].
  - by exists s, l.
  - destruct (kfree_preserves s l fuel ptr tt s' Hok Hmod Hptr Hfuel H) as (l' & H1 & H2 & _).
    by exists s', l'.
Qed.

Lemma bind_inv {A B} (m : M A) (k : A -> M B) s r s' :
  bind m k s = Ok r s' -> ∃ a s1, m s = Ok a s1 ∧ k a s1 = Ok r s'.
Proof. unfold bind. destruct (m s) as [a s1|]; [eauto | discriminate]. Qed.

(** *** [memset] and [memcpy] *)

Lemma memset_loop_out n : ∀ d v m q,
  0 <= d -> d + Z.of_nat n <= UINT32_MOD -> 0 <= q < UINT32_MOD ->
  q < d ∨ d + Z.of_nat n <= q ->
  read8 (memset_loop n d v m) q = read8 m q.
Proof.
  induction n as [|n IH]; intros d v m q Hd Hn Hq Hout; [reflexivity|].
  cbn [memset_loop]. rewrite IH by lia.
  apply read8_write8_ne, u32_ne_small; lia.
Qed.

Lemma memcpy_loop_out n : ∀ d s m q,
  0 <= d -> d + Z.of_nat n <= UINT32_MOD -> 0 <= q < UINT32_MOD ->
  q < d ∨ d + Z.of_nat n <= q ->
  read8 (memcpy_loop n d s m) q = read8 m q.
Proof.
  induction n as [|n IH]; intros d s m q Hd Hn Hq Hout; [reflexivity|].
  cbn [memcpy_loop]. rewrite IH by lia.
  apply read8_write8_ne, u32_ne_small; lia.
Qed.

(** A header is its sixteen bytes. *)
Lemma load_block_ext m m' p :
  (∀ q, p <= q < p + HEADER -> read8 m' q = read8 m q) ->
  load_block m' p = load_block m p.
Proof.
  unfold HEADER. intros H. unfold load_block, load32.
  rewrite !H by lia. reflexivity.
Qed.

(** Bytes written inside the payload of a block of the list leave the
    list as it is. *)
Lemma chain_payload_write m m' l a0 hi u lo n :
  chain m NULL l NULL -> tiles a0 l hi -> 0 < a0 -> hi <= UINT32_MOD -> u ∈ l ->
  addr u + HEADER <= lo -> lo + n <= addr u + HEADER + bsize u ->
  (∀ q, 0 <= q < UINT32_MOD -> q < lo ∨ lo + n <= q -> read8 m' q = read8 m q) ->
  chain m' NULL l NULL.
Proof.
  intros Hc Ht Ha0 Hhi Hu Hlo Hn Hsame.
  apply (chain_ext m); [|exact Hc]. intros c Hc_in.
  apply load_block_ext. intros q Hq.
  pose proof (tiles_bounds _ _ _ _ Ht Hc_in) as (Hc1 & Hc2 & Hc3).
  apply Hsame; [addr_lia|].
  destruct (decide (lo + n <= q)) as [|Hin]; [by right|left].
  destruct (decide (q < lo)) as [|Hin']; [done|exfalso].
  assert (Hpay : addr u + HEADER <= q < addr u + HEADER + bsize u) by lia.
  destruct (tiles_payload_outside _ _ _ _ _ Ht Hu Hpay (addr c)) as [?|?];
    [by apply list_elem_of_fmap_2 | addr_lia | addr_lia].
Qed.

(** *** [krealloc] *)

Lemma heap_ok_set_memory s l m' l' :
  heap_ok s l -> l' ≠ [] ->
  chain m' NULL l' NULL ->
  tiles (heap_start s) l' (heap_start s + heap_size s) ->
  heap_ok (set_memory m' s) l'.
Proof.
  intros Hok Hne Hc' Ht'.
  destruct Hok as (Hstart & Hsize & (Hhead & Hc) & Ht).
  assert (Hnel : l ≠ []).
  { intros ->. cbn in Ht. rewrite Hsize in Ht. addr_lia. }
  split; [exact Hstart|]. split; [exact Hsize|]. split; [split|].
  - cbn [heap_head set_memory]. rewrite Hhead.
    destruct l as [|b l], l' as [|b' l']; try done.
    by rewrite (tiles_first_cons _ _ _ _ NULL Ht), (tiles_first_cons _ _ _ _ NULL Ht').
  - exact Hc'.
  - exact Ht'.
Qed.

Lemma fits_granted r b : fits r b = true -> r <= granted r b.
Proof.
  unfold fits, granted. intros [_ H%Z.leb_le]%andb_true_iff.
  destruct (r + HEADER + 32 <? bsize b); lia.
Qed.

Lemma stats_mod_charge x s s' :
  stats_mod s -> mem_stats s' = charge x (mem_stats s) -> stats_mod s'.
Proof.
  intros Hmod Hst. unfold stats_mod. rewrite Hst. unfold charge.
  cbn [used_memory free_memory]. rewrite u32_add_sub. exact Hmod.
Qed.

(** [krealloc] with a size that the rounding does not wrap around: the
    bytes it copies fit the block that [kmalloc] has handed out. *)
Lemma krealloc_spec s l fuel ptr new_size :
  heap_ok s l -> stats_mod s -> valid_ptr s ptr ->
  0 <= new_size -> new_size + 7 < UINT32_MOD ->
  (S (length l) < fuel)%nat ->
  ∃ r s' l', krealloc fuel ptr new_size s = Ok r s' ∧ heap_ok s' l' ∧ stats_mod s'.
Proof.
  intros Hok Hmod Hptr Hn Hmax Hfuel. unfold krealloc.
  destruct (ptr =? NULL) eqn:Hnull.
  { destruct (kmalloc_cases s l fuel new_size Hok)
      as [H|(l1 & b & l2 & s' & _ & _ & _ & _ & H & Hok' & _ & Hst)]; [lia| |].
    - by exists NULL, s, l.
    - exists (addr b + HEADER), s'. eexists. split; [exact H|].
      split; [exact Hok' | by apply (stats_mod_charge _ _ _ Hmod Hst)]. }
  destruct (new_size =? 0) eqn:Hzero.
  { destruct (kfree_preserves_total s l fuel ptr Hok Hmod Hptr) as (s' & l' & H & H1 & H2);
      [lia|].
    rewrite (bind_ok _ _ _ _ _ H). by exists NULL, s', l'. }
  apply Z.eqb_neq in Hnull.
  destruct (valid_ptr_cases _ _ _ Hok Hptr) as [->|(l1 & b & l2 & -> & ->)]; [done|].
  destruct (block_of_payload _ _ _ _ Hok) as [_ Hblock]. rewrite Hblock.
  destruct (heap_ok_focus _ _ _ _ Hok) as (Hlo & Hup & Hbs & Hb).
  rewrite bind_load, Hb. cbn [size].
  destruct (new_size <=? bsize b) eqn:Hfitb.
  - (* shrink in place *)
    apply Z.leb_le in Hfitb.
    pose proof Hok as (Hstart & Hsize & (Hhead & Hc) & Ht).
    destruct (split_block_spec s l1 b l2 (heap_start s) (heap_start s + heap_size s)
                new_size)
      as (m1 & Hsplit & Hc1 & Ht1 & _); try assumption;
      try (rewrite ?Hstart, ?Hsize; addr_lia).
    rewrite (bind_ok _ _ _ _ _ Hsplit).
    exists (addr b + HEADER), (set_memory m1 s), (l1 ++ split_blk new_size b ++ l2).
    split; [reflexivity|]. split; [|exact Hmod].
    apply (heap_ok_set_memory s (l1 ++ b :: l2)); try assumption.
    unfold split_blk. destruct (new_size + HEADER + 32 <? bsize b); by destruct l1.
  - (* allocate, copy, free *)
    apply Z.leb_gt in Hfitb.
    destruct (align8_rounds_up new_size Hn Hmax) as [Hr _].
    destruct (kmalloc_cases s (l1 ++ b :: l2) fuel new_size Hok)
      as [Hk|(k1 & b0 & k2 & s1 & Hl & _ & _ & Hfit & Hk & Hok1 & _ & Hst1)]; [lia| |].
    { rewrite (bind_ok _ _ _ _ _ Hk). change (negb (NULL =? NULL)) with false.
      cbn [when]. rewrite bind_ret. by exists NULL, s, (l1 ++ b :: l2). }
    rewrite (bind_ok _ _ _ _ _ Hk).
    pose proof (fits_granted _ _ Hfit) as Hg.
    pose proof (stats_mod_charge _ _ _ Hmod Hst1) as Hmod1.
    destruct (split_blk_cons (align8 new_size) b0) as (rest & _ & Hal).
    rewrite Hal in Hok1. cbn [app] in Hok1.
    set (nb0 := mk_blk (addr b0) (granted (align8 new_size) b0) false) in *.
    destruct (heap_ok_focus _ _ _ _ Hok1) as (Hlo0 & Hup0 & _ & Hb0).
    cbn [addr bsize bfree nb0] in Hlo0, Hup0, Hb0.
    replace (negb (addr b0 + HEADER =? NULL)) with true
      by (symmetry; apply negb_true_iff, Z.eqb_neq; addr_lia).
    cbn [when].
    (* the old block is still in the list *)
    assert (Hin : b ∈ k1 ++ nb0 :: rest ++ k2).
    { assert (Hb_in : b ∈ k1 ++ b0 :: k2)
        by (rewrite <- Hl; apply elem_of_app; right; apply list_elem_of_here).
      apply elem_of_app in Hb_in as [?|Hb_in]; [apply elem_of_app; by left|].
      apply elem_of_cons in Hb_in as [->|?].
      - unfold fits in Hfit. apply andb_true_iff in Hfit as [_ Hfit%Z.leb_le]. lia.
      - apply elem_of_app. right. apply elem_of_cons. right. apply elem_of_app. by right. }
    apply list_elem_of_split in Hin as (la & lb & Hsplit).
    pose proof Hok1 as Hok1'. rewrite Hsplit in Hok1'.
    destruct (heap_ok_focus _ _ _ _ Hok1') as (_ & _ & _ & Hb').
    rewrite bind_assoc, bind_load, Hb'. cbn [size].
    replace (bsize b <? new_size) with true by (symmetry; apply Z.ltb_lt; lia).
    rewrite bind_assoc. unfold memcpy at 1. unfold bind at 1.
    match goal with |- context [bind _ _ ?x] => set (s3 := x) end.
    assert (Hok3 : heap_ok s3 (la ++ b :: lb)).
    { rewrite <- Hsplit. destruct Hok1 as (Hstart1 & Hsize1 & (Hhead1 & Hc1) & Ht1).
      split; [exact Hstart1|]. split; [exact Hsize1|]. split; [split; [exact Hhead1|]|exact Ht1].
      cbn [memory set_memory s3].
      apply (chain_payload_write (memory s1) _ _ _ _ nb0 (addr b0 + HEADER) (bsize b)
               Hc1 Ht1).
      - rewrite Hstart1. addr_lia.
      - rewrite Hstart1, Hsize1. addr_lia.
      - apply elem_of_app. right. apply list_elem_of_here.
      - cbn [addr nb0]. lia.
      - cbn [addr bsize nb0]. lia.
      - intros q Hq Hout. apply memcpy_loop_out; [addr_lia | | exact Hq |].
        + rewrite Z2Nat.id by lia. addr_lia.
        + rewrite Z2Nat.id by lia. exact Hout. }
    assert (Hmod3 : stats_mod s3) by exact Hmod1.
    destruct (kfree_preserves_total s3 (la ++ b :: lb) fuel (addr b + HEADER) Hok3 Hmod3)
      as (s4 & l4 & H4 & Hok4 & Hmod4).
    { right. exists (la ++ b :: lb), b. split; [apply Hok3|].
      split; [apply elem_of_app; right; apply list_elem_of_here | reflexivity]. }
    { rewrite <- Hsplit. pose proof (length_allocate_in (align8 new_size) b0) as Hlen.
      rewrite Hal in Hlen. apply (f_equal length) in Hl.
      rewrite !length_app in *. cbn [length] in *. rewrite length_app. lia. }
    rewrite (bind_ok _ _ _ _ _ H4).
    by exists (addr b0 + HEADER), s4, l4.
Qed.

Lemma krealloc_preserves s l fuel ptr new_size r s' :
  heap_ok s l -> stats_mod s -> valid_ptr s ptr ->
  0 <= new_size -> new_size + 7 < UINT32_MOD ->
  (S (length l) < fuel)%nat ->
  krealloc fuel ptr new_size s = Ok r s' ->
  ∃ l', heap_ok s' l' ∧ stats_mod s'.
Proof.
  intros Hok Hmod Hptr Hn Hmax Hfuel Hrun.
  destruct (krealloc_spec s l fuel ptr new_size Hok Hmod Hptr Hn Hmax Hfuel)
    as (r0 & s0 & l' & Hrun0 & H1 & H2).
  rewrite Hrun0 in Hrun. injection Hrun as _ <-. eauto.
Qed.

Lemma mm_init_ok mmap_addr mmap_length s0 :
  let l := [mk_blk KERNEL_HEAP_START (KERNEL_HEAP_SIZE - HEADER) true] in
  heap_ok (mm_init mmap_addr mmap_length s0) l ∧
  stats_mod (mm_init mmap_addr mmap_length s0) ∧
  stats_exact (mm_init mmap_addr mmap_length s0) l.
Proof.
  assert (Hhead : load_block (memory (mm_init mmap_addr mmap_length s0)) KERNEL_HEAP_START
                  = mk_block (KERNEL_HEAP_SIZE - HEADER) true NULL NULL).
  { unfold mm_init. cbn [memory]. through.
    unfold set_size, set_next, set_prev, set_is_free. cbn [size is_free next prev].
    reflexivity. }
  assert (Hsz : size (load_block (memory (mm_init mmap_addr mmap_length s0))
                        KERNEL_HEAP_START) = KERNEL_HEAP_SIZE - HEADER)
    by (by rewrite Hhead).
  split; [|split].
  - split; [reflexivity|]. split; [reflexivity|]. split; [split|].
    + reflexivity.
    + cbn [chain addr bsize bfree first_addr].
      split; [discriminate|]. split; [exact Hhead | exact I].
    + cbn. repeat split; discriminate.
  - unfold stats_mod. unfold mm_init at 1 2. cbn [mem_stats used_memory free_memory].
    unfold mm_init in Hsz. cbn [memory] in Hsz. rewrite Hsz. reflexivity.
  - unfold stats_exact. unfold mm_init at 1 2. cbn [mem_stats used_memory free_memory].
    unfold mm_init in Hsz. cbn [memory] in Hsz. rewrite Hsz. split; reflexivity.
Qed.

Lemma run_call_preserves fuel c s l r s' :
  heap_ok s l -> stats_mod s -> valid_call s c ->
  run_call fuel c s = Ok r s' ->
  ∃ l', heap_ok s' l' ∧ stats_mod s' ∧
        (is_krealloc c = false -> stats_exact s l -> stats_exact s' l').
Proof.
  intros Hok Hmod Hvalid Hrun.
  apply (run_call_mono fuel (fuel + length l + 2)) in Hrun; [|lia].
  destruct c as [sz|ptr|ptr new_size]; cbn [run_call valid_call is_krealloc] in *.
  - destruct (kmalloc_preserves s l (fuel + length l + 2) sz r s' Hok Hmod)
      as (l' & H1 & H2 & H3 & _); [lia | exact Hrun | eauto].
  - apply bind_inv in Hrun as (u & s1 & Hfree & [= _ <-]).
    destruct (kfree_preserves s l (fuel + length l + 2) ptr u s1 Hok Hmod Hvalid)
      as (l' & H1 & H2 & H3); [lia | exact Hfree | eauto].
  - destruct Hvalid as (Hptr & Hn & Hmax).
    destruct (krealloc_preserves s l (fuel + length l + 2) ptr new_size r s'
                Hok Hmod Hptr) as (l' & H1 & H2);
      [lia | lia | lia | exact Hrun |].
    exists l'. split; [exact H1|]. split; [exact H2 | discriminate].
Qed.

Lemma reachable_invariant calls s :
  reachable calls s ->
  ∃ l, heap_ok s l ∧ stats_mod s ∧
       (forallb (fun c => negb (is_krealloc c)) calls = true -> stats_exact s l).
Proof.
  induction 1 as [a n s0|calls s fuel c r s' Hreach IH Hvalid Hrun].
  - destruct (mm_init_ok a n s0) as (H1 & H2 & H3). eauto.
  - destruct IH as (l & Hok & Hmod & Hex).
    destruct (run_call_preserves _ _ _ _ _ _ Hok Hmod Hvalid Hrun)
      as (l' & Hok' & Hmod' & Hex').
    exists l'. split; [exact Hok'|]. split; [exact Hmod'|].
    rewrite forallb_app. cbn [forallb]. rewrite andb_true_r.
    intros [Hcalls Hc%negb_true_iff]%andb_true_iff. auto.
Qed.

(** *** Every valid call returns *)

Lemma kmalloc_returns s l fuel sz :
  heap_ok s l -> (length l < fuel)%nat -> ∃ r s', kmalloc fuel sz s = Ok r s'.
Proof.
  intros Hok Hfuel.
  destruct (kmalloc_cases s l fuel sz Hok Hfuel)
    as [H|(l1 & b & l2 & s' & _ & _ & _ & _ & H & _)]; eauto.
Qed.

Lemma kfree_returns s l fuel ptr :
  heap_ok s l -> valid_ptr s ptr -> (length l < fuel)%nat ->
  ∃ s', kfree fuel ptr s = Ok tt s'.
Proof.
  intros Hok Hptr Hfuel.
  destruct (kfree_cases s l fuel ptr Hok Hptr Hfuel)
    as [H|(l1 & b & l2 & s' & _ & _ & _ & H & _)]; eauto.
Qed.

(** A valid call made with enough fuel for the loops returns: no state
    is left out of [reachable] for want of a result. *)
Lemma run_call_returns s l c :
  heap_ok s l -> stats_mod s -> valid_call s c ->
  ∃ r s', run_call (length l + 2) c s = Ok r s'.
Proof.
  intros Hok Hmod Hvalid. destruct c as [sz|ptr|ptr new_size]; cbn [run_call valid_call] in *.
  - apply (kmalloc_returns s l); [exact Hok | lia].
  - destruct (kfree_returns s l (length l + 2) ptr Hok Hvalid) as (s' & H); [lia|].
    rewrite (bind_ok _ _ _ _ _ H). by eexists _, _.
  - destruct Hvalid as (Hptr & Hn & Hmax).
    destruct (krealloc_spec s l (length l + 2) ptr new_size Hok Hmod Hptr Hn Hmax)
      as (r & s' & _ & H & _); [lia|]. eauto.
Qed.

(** So the reachable states are closed under the valid calls: every one
    of them returns, and in a state that is reachable. *)
Lemma reachable_step calls s c :
  reachable calls s -> valid_call s c ->
  ∃ fuel r s', run_call fuel c s = Ok r s' ∧ reachable (calls ++ [c]) s'.
Proof.
  intros Hreach Hvalid.
  destruct (reachable_invariant _ _ Hreach) as (l & Hok & Hmod & _).
  destruct (run_call_returns s l c Hok Hmod Hvalid) as (r & s' & Hrun).
  exists (length l + 2)%nat, r, s'. split; [exact Hrun|].
  by apply (reachable_call calls s (length l + 2) c r s').
Qed.

(** *** Coalescing without [krealloc] *)

Lemma no_adjacent_free_app l1 b l2 :
  no_adjacent_free (l1 ++ b :: l2) ↔
  no_adjacent_free (l1 ++ [b]) ∧ no_adjacent_free (b :: l2).
Proof.
  induction l1 as [|a l1 IH]; [cbn [app no_adjacent_free]; tauto|].
  destruct l1 as [|a' l1]; [cbn [app no_adjacent_free]; tauto|].
  change (¬ (bfree a = true ∧ bfree a' = true) ∧ no_adjacent_free ((a' :: l1) ++ b :: l2) ↔
          (¬ (bfree a = true ∧ bfree a' = true) ∧ no_adjacent_free ((a' :: l1) ++ [b])) ∧
          no_adjacent_free (b :: l2)).
  tauto.
Qed.

Lemma no_adjacent_free_tail b l : no_adjacent_free (b :: l) -> no_adjacent_free l.
Proof. destruct l; [done|]. by intros [_ H]. Qed.

Lemma no_adjacent_free_init l b : no_adjacent_free (l ++ [b]) -> no_adjacent_free l.
Proof.
  induction l as [|a l IH]; [done|].
  destruct l as [|a' l]; [done|].
  change (¬ (bfree a = true ∧ bfree a' = true) ∧ no_adjacent_free ((a' :: l) ++ [b]) ->
          ¬ (bfree a = true ∧ bfree a' = true) ∧ no_adjacent_free (a' :: l)).
  tauto.
Qed.

(** Replacing a block by one that is free only if the block was keeps
    its neighbours apart. *)
Lemma no_adjacent_free_head b c l :
  (bfree c = true -> bfree b = true) ->
  no_adjacent_free (b :: l) -> no_adjacent_free (c :: l).
Proof. destruct l as [|n l]; [done|]. cbn [no_adjacent_free]. tauto. Qed.

Lemma no_adjacent_free_last l : ∀ b c,
  (bfree c = true -> bfree b = true) ->
  no_adjacent_free (l ++ [b]) -> no_adjacent_free (l ++ [c]).
Proof.
  induction l as [|a l IH]; intros b c Hcb; [done|].
  destruct l as [|a' l].
  - cbn [app no_adjacent_free]. tauto.
  - change (¬ (bfree a = true ∧ bfree a' = true) ∧ no_adjacent_free ((a' :: l) ++ [b]) ->
            ¬ (bfree a = true ∧ bfree a' = true) ∧ no_adjacent_free ((a' :: l) ++ [c])).
    intros [H1 H2]. split; [exact H1 | by apply (IH b c)].
Qed.

Lemma no_adjacent_free_allocate_in sz l1 b l2 :
  bfree b = true ->
  no_adjacent_free (l1 ++ b :: l2) ->
  no_adjacent_free (l1 ++ allocate_in sz b ++ l2).
Proof.
  intros Hb [H1 H2]%no_adjacent_free_app.
  unfold allocate_in, split_blk. destruct (sz + HEADER + 32 <? bsize b);
    cbn [app mark addr bsize bfree]; apply no_adjacent_free_app; split.
  - by apply (no_adjacent_free_last l1 b).
  - split; [by intros [? _]|].
    by apply (no_adjacent_free_head b).
  - by apply (no_adjacent_free_last l1 b).
  - by apply (no_adjacent_free_head b).
Qed.

(** The two loops of [merge_free_blocks] stop at a used block or at an
    end of the list. *)
Lemma no_adjacent_free_absorb_next l : ∀ b x,
  no_adjacent_free l -> no_adjacent_free (x :: (absorb_next b l).2).
Proof.
  induction l as [|n l IH]; intros b x Hl; [done|].
  cbn [absorb_next]. destruct (bfree n) eqn:Hn.
  - apply IH. by apply (no_adjacent_free_tail n).
  - cbn [snd no_adjacent_free]. split; [|exact Hl].
    intros [_ H]. congruence.
Qed.

Lemma no_adjacent_free_absorb_prev rl : ∀ b x,
  no_adjacent_free (rev rl) -> no_adjacent_free (rev (absorb_prev rl b).1 ++ [x]).
Proof.
  induction rl as [|p rl IH]; intros b x Hl; [done|].
  cbn [absorb_prev]. destruct (bfree p) eqn:Hp.
  - apply IH. cbn [rev] in Hl. by apply (no_adjacent_free_init _ p).
  - cbn [fst rev]. rewrite <- app_assoc. apply no_adjacent_free_app.
    split; [exact Hl|]. split; [|done]. intros [H _]. congruence.
Qed.

Lemma no_adjacent_free_free_in l1 b l2 :
  no_adjacent_free (l1 ++ b :: l2) -> no_adjacent_free (free_in l1 b l2).
Proof.
  intros [H1 H2]%no_adjacent_free_app.
  apply no_adjacent_free_init in H1. apply no_adjacent_free_tail in H2.
  unfold free_in.
  pose proof (no_adjacent_free_absorb_next l2 (mark true b)) as Hn.
  destruct (absorb_next (mark true b) l2) as [b1 l2']. cbn [snd] in Hn.
  pose proof (no_adjacent_free_absorb_prev (rev l1) b1) as Hp.
  destruct (absorb_prev (rev l1) b1) as [rb b2]. cbn [fst] in Hp.
  rewrite rev_involutive in Hp.
  apply no_adjacent_free_app. split; [by apply Hp | by apply Hn].
Qed.

(** While [krealloc] is not called, free blocks are never neighbours:
    [kmalloc] splits a free block whose neighbours are used, and [kfree]
    merges the freed block with every free neighbour. *)
Lemma kmalloc_kfree_keep_free_blocks_apart calls s :
  reachable calls s ->
  forallb (fun c => negb (is_krealloc c)) calls = true ->
  ∃ l, heap_ok s l ∧ no_adjacent_free l.
Proof.
  induction 1 as [a n s0|calls s fuel c r s' Hreach IH Hvalid Hrun].
  - intros _. destruct (mm_init_ok a n s0) as (H1 & _). eexists. split; [exact H1|done].
  - rewrite forallb_app. cbn [forallb]. rewrite andb_true_r.
    intros [Hcalls Hc%negb_true_iff]%andb_true_iff.
    destruct (IH Hcalls) as (l & Hok & Hnaf).
    apply (run_call_mono fuel (fuel + length l + 2)) in Hrun; [|lia].
    destruct c as [sz|ptr|ptr new_size]; cbn [run_call valid_call is_krealloc] in *;
      [| |discriminate].
    + destruct (kmalloc_cases s l (fuel + length l + 2) sz Hok)
        as [Hnull|(l1 & b & l2 & s1 & -> & _ & _ & Hfit & Hrun1 & Hok1 & _)]; [lia| |].
      * rewrite Hnull in Hrun. injection Hrun as _ <-. by exists l.
      * rewrite Hrun1 in Hrun. injection Hrun as _ <-.
        eexists. split; [exact Hok1|].
        apply no_adjacent_free_allocate_in; [by apply (fits_free (align8 sz)) | exact Hnaf].
    + apply bind_inv in Hrun as (u & s1 & Hfree & [= _ <-]).
      destruct (kfree_cases s l (fuel + length l + 2) ptr Hok Hvalid)
        as [Hsame|(l1 & b & l2 & s2 & -> & _ & -> & Hrun1 & Hok1 & _)]; [lia| |].
      * rewrite Hsame in Hfree. injection Hfree as _ <-. by exists l.
      * rewrite Hrun1 in Hfree. injection Hfree as _ <-.
        eexists. split; [exact Hok1|]. by apply no_adjacent_free_free_in.
Qed.

(** C1 as stated fails on the code: the counters are only ever moved by
    the payload size of the block handed out or taken back, so the header
    of a block created by a split is never deducted. After [mm_init] and
    [kmalloc(8)] the list has two blocks, yet [used_memory + free_memory]
    is still the arena size minus one header. *)
Lemma counters_ignore_split_headers :
  ∃ p s l,
    kmalloc 2 8 (mm_init 0 0 boot_mm) = Ok p s ∧
    reachable [Kmalloc 8] s ∧
    block_list s l ∧
    l = [mk_blk 2097152 8 false; mk_blk 2097176 1048536 true] ∧
    used_memory (mem_stats s) + free_memory (mem_stats s) = 1048560 ∧
    used_memory (mem_stats s) + free_memory (mem_stats s)
      ≠ KERNEL_HEAP_SIZE - HEADER * Z.of_nat (length l).
Proof.
  eexists _, _, _. split; [vm_compute; reflexivity|].
  split; [|split; [|split; [reflexivity|]]].
  - apply (reachable_call [] (mm_init 0 0 boot_mm) 2 (Kmalloc 8) 2097168).
    + constructor.
    + cbn. unfold UINT32_MOD. lia.
    + vm_compute. reflexivity.
  - split; [reflexivity|].
    cbn [chain addr bsize bfree first_addr].
    repeat split; try discriminate; vm_compute; reflexivity.
  - split; [reflexivity|]. vm_compute. discriminate.
Qed.

(** The restriction on the size given to [krealloc] in [valid_call]
    cannot be dropped. [p = kmalloc(104)] followed by
    [krealloc(p, 0xFFFFFFFF)]: the size is rounded to 0, [kmalloc] hands
    out a block of no bytes whose payload address 2097288 is that of the
    header of the free block behind it, and [memcpy] copies the 104 old
    bytes over that header. [krealloc] returns 2097288; the walk from
    [heap_head] now ends after 136 bytes of the arena. *)
Example krealloc_wrapped_size_overwrites_a_header :
  ∃ s s', kmalloc 3 104 (mm_init 0 0 boot_mm) = Ok 2097168 s ∧
          krealloc 3 2097168 4294967295 s = Ok 2097288 s' ∧
          blocks_of (Ok NULL s')
          = Some [mk_blk 2097152 104 true; mk_blk 2097272 0 false;
                  mk_blk 2097288 0 false] ∧
          ¬ tiles KERNEL_HEAP_START
                  [mk_blk 2097152 104 true; mk_blk 2097272 0 false;
                   mk_blk 2097288 0 false]
                  (KERNEL_HEAP_START + KERNEL_HEAP_SIZE).
Proof.
  eexists _, _. split; [vm_compute; reflexivity|].
  split; [vm_compute; reflexivity|]. split; [vm_compute; reflexivity|].
  cbn. intros (_ & _ & _ & _ & _ & _ & H). vm_compute in H. discriminate.
Qed.

(** C1, amended. In every heap state reachable from [mm_init] by calls
    of [kmalloc], [kfree] and [krealloc] (pointers null or payload
    pointers of blocks of the list, sizes in the range of [size_t] and,
    for [krealloc], at most 2^32 - 8), the block list tiles the arena
    exactly, with no gap and no overlap, and [used_memory + free_memory],
    taken modulo 2^32, is the arena size minus one header, the payload of
    the initial block. When [krealloc] has not been called the sum is
    exact and [used_memory] is the sum of the payload sizes of the blocks
    in use. Every such call returns, in a state that is reachable again
    ([reachable_step]), so no state that the calls reach is left out. *)
Theorem heap_tiles_arena_and_counters_balance calls s :
  reachable calls s ->
  ∃ l,
    block_list s l ∧
    tiles KERNEL_HEAP_START l (KERNEL_HEAP_START + KERNEL_HEAP_SIZE) ∧
    u32 (used_memory (mem_stats s) + free_memory (mem_stats s))
      = KERNEL_HEAP_SIZE - HEADER ∧
    (forallb (fun c => negb (is_krealloc c)) calls = true ->
       used_memory (mem_stats s) = used_bytes l ∧
       used_memory (mem_stats s) + free_memory (mem_stats s)
         = KERNEL_HEAP_SIZE - HEADER).
Proof.
  intros Hreach.
  destruct (reachable_invariant _ _ Hreach)
    as (l & (Hstart & Hsize & Hbl & Ht) & Hmod & Hex).
  exists l. split; [exact Hbl|]. rewrite Hstart, Hsize in Ht.
  split; [exact Ht|]. split; [exact Hmod|].
  intros Hcalls. destruct (Hex Hcalls) as [Hu Hf]. split; [exact Hu | lia].
Qed.

(** *** Checking concrete states *)

Lemma chainb_ok m l : ∀ pv e, chainb m pv l e = true -> chain m pv l e.
Proof.
  induction l as [|b l IH]; intros pv e; [done|].
  cbn [chainb chain].
  intros [[Hnz Hh%Is_true_true]%andb_true_iff Hl]%andb_true_iff.
  split; [by apply Z.eqb_neq, negb_true_iff|]. split; [|by apply IH].
  apply Is_true_true in Hh. cbv zeta in Hh.
  apply andb_true_iff in Hh as [[[Hs Hf]%andb_true_iff Hn]%andb_true_iff Hp].
  apply Z.eqb_eq in Hs, Hn, Hp. apply Bool.eqb_prop in Hf.
  destruct (load_block m (addr b)); cbn in *; congruence.
Qed.

Lemma tilesb_ok l : ∀ a e, tilesb a l e = true -> tiles a l e.
Proof.
  induction l as [|b l IH]; intros a e; cbn [tilesb tiles].
  - apply Z.eqb_eq.
  - intros [[Ha Hs]%andb_true_iff Hl]%andb_true_iff.
    split; [by apply Z.eqb_eq|]. split; [by apply Z.leb_le | by apply IH].
Qed.

Lemma heap_okb_ok s l : heap_okb s l = true -> heap_ok s l.
Proof.
  unfold heap_okb.
  intros [[[[H1 H2]%andb_true_iff H3]%andb_true_iff H4]%andb_true_iff H5]%andb_true_iff.
  split; [by apply Z.eqb_eq|]. split; [by apply Z.eqb_eq|]. split; [split|].
  - by apply Z.eqb_eq.
  - by apply chainb_ok.
  - by apply tilesb_ok.
Qed.

Lemma heap_okb_block_list s l : heap_okb s l = true -> block_list s l.
Proof. intros H. apply (heap_okb_ok s l H). Qed.

Lemma heap_tiles_arena_and_counters_balance_witness :
  ∃ s l,
    run_calls 4 [Kmalloc 100; Kmalloc 200; Kfree 2097168] (mm_init 0 0 boot_mm)
      = Ok NULL s ∧
    block_list s l ∧
    tiles KERNEL_HEAP_START l (KERNEL_HEAP_START + KERNEL_HEAP_SIZE) ∧
    used_memory (mem_stats s) = used_bytes l.
Proof.
  eexists _. 
  assert (Hreach : reachable [Kmalloc 100; Kmalloc 200; Kfree 2097168]
            (state_of (run_calls 4 [Kmalloc 100; Kmalloc 200; Kfree 2097168]
                         (mm_init 0 0 boot_mm)))).
  { apply (reachable_call [Kmalloc 100; Kmalloc 200]
             (state_of (run_calls 4 [Kmalloc 100; Kmalloc 200] (mm_init 0 0 boot_mm)))
             4 (Kfree 2097168) NULL).
    - apply (reachable_call [Kmalloc 100]
               (state_of (run_calls 4 [Kmalloc 100] (mm_init 0 0 boot_mm)))
               4 (Kmalloc 200) 2097288).
      + apply (reachable_call [] (mm_init 0 0 boot_mm) 4 (Kmalloc 100) 2097168).
        * constructor.
        * cbn. unfold UINT32_MOD. lia.
        * vm_compute. reflexivity.
      + cbn. unfold UINT32_MOD. lia.
      + vm_compute. reflexivity.
    - right.
      exists [mk_blk 2097152 104 false; mk_blk 2097272 200 false;
              mk_blk 2097488 1048224 true], (mk_blk 2097152 104 false).
      split; [|split; [apply list_elem_of_here | reflexivity]].
      apply heap_okb_block_list. vm_compute. reflexivity.
    - vm_compute. reflexivity. }
  destruct (heap_tiles_arena_and_counters_balance _ _ Hreach)
    as (l & Hbl & Ht & _ & Hexact).
  exists l. split; [vm_compute; reflexivity|].
  split; [exact Hbl|]. split; [exact Ht|].
  apply Hexact. reflexivity.
Defined.

(** *** First fit *)

(** C3. In a heap whose block list holds a free block of 50 bytes and,
    further on, a free block of 200 bytes, no block before the latter
    being free with 64 bytes or more, [kmalloc(60)] passes over the
    50-byte block and cuts the 200-byte block into a used block of 64
    bytes, the request rounded up to a multiple of 8, followed by a new
    free block of the remaining 120 bytes; it returns the payload address
    of the former. In general [kmalloc] rounds the request, takes the
    first block in list order that is free and at least as large, and
    splits it exactly when its size exceeds the rounded request plus one
    header plus 32 bytes; otherwise the block is handed out whole. When no
    block qualifies it returns null and changes nothing. *)
Theorem kmalloc_is_first_fit :
  (∀ s before mid after a1 a2 fuel,
     heap_ok s (before ++ mk_blk a1 50 true :: mid ++ mk_blk a2 200 true :: after) ->
     Forall (fun c => fits 64 c = false) before ->
     Forall (fun c => fits 64 c = false) mid ->
     (length before + length mid + 1 < fuel)%nat ->
     ∃ s', kmalloc fuel 60 s = Ok (a2 + HEADER) s' ∧
           heap_ok s' (before ++ mk_blk a1 50 true :: mid ++
                       mk_blk a2 64 false :: mk_blk (a2 + 80) 120 true :: after)) ∧
  (∀ s l1 b l2 fuel sz,
     heap_ok s (l1 ++ b :: l2) -> sz ≠ 0 ->
     Forall (fun c => fits (align8 sz) c = false) l1 ->
     fits (align8 sz) b = true ->
     (length l1 < fuel)%nat ->
     ∃ s', kmalloc fuel sz s = Ok (addr b + HEADER) s' ∧
           heap_ok s'
             (l1 ++
              (if align8 sz + HEADER + 32 <? bsize b
               then [mk_blk (addr b) (align8 sz) false;
                     mk_blk (addr b + HEADER + align8 sz)
                            (bsize b - align8 sz - HEADER) true]
               else [mk_blk (addr b) (bsize b) false]) ++
              l2)) ∧
  (∀ s l fuel sz,
     heap_ok s l -> sz ≠ 0 ->
     Forall (fun c => fits (align8 sz) c = false) l ->
     (length l < fuel)%nat ->
     kmalloc fuel sz s = Ok NULL s) ∧
  (∀ sz, 0 <= sz -> sz + 7 < UINT32_MOD ->
     sz <= align8 sz < sz + 8 ∧ align8 sz mod 8 = 0).
Proof.
  assert (Hgen : ∀ s l1 b l2 fuel sz,
     heap_ok s (l1 ++ b :: l2) -> sz ≠ 0 ->
     Forall (fun c => fits (align8 sz) c = false) l1 ->
     fits (align8 sz) b = true ->
     (length l1 < fuel)%nat ->
     ∃ s', kmalloc fuel sz s = Ok (addr b + HEADER) s' ∧
           heap_ok s'
             (l1 ++
              (if align8 sz + HEADER + 32 <? bsize b
               then [mk_blk (addr b) (align8 sz) false;
                     mk_blk (addr b + HEADER + align8 sz)
                            (bsize b - align8 sz - HEADER) true]
               else [mk_blk (addr b) (bsize b) false]) ++
              l2)).
  { intros s l1 b l2 fuel sz Hok Hsz Hun Hfit Hfuel.
    destruct (kmalloc_takes s l1 b l2 fuel sz Hok Hsz Hun Hfit Hfuel)
      as (s' & Hrun & Hok' & _).
    exists s'. split; [exact Hrun|].
    unfold allocate_in, split_blk in Hok'.
    rewrite (fits_free _ _ Hfit) in Hok'.
    destruct (align8 sz + HEADER + 32 <? bsize b); exact Hok'. }
  split; [|split; [exact Hgen | split; [apply kmalloc_none | apply align8_rounds_up]]].
  intros s before mid after a1 a2 fuel Hok Hbefore Hmid Hfuel.
  assert (Hsplit : before ++ mk_blk a1 50 true :: mid ++ mk_blk a2 200 true :: after
                   = (before ++ mk_blk a1 50 true :: mid) ++ mk_blk a2 200 true :: after)
    by (by rewrite <- app_assoc).
  rewrite Hsplit in Hok.
  destruct (Hgen s (before ++ mk_blk a1 50 true :: mid) (mk_blk a2 200 true) after
              fuel 60 Hok) as (s' & Hrun & Hok').
  - discriminate.
  - change (align8 60) with 64. apply Forall_app. split; [exact Hbefore|].
    constructor; [reflexivity | exact Hmid].
  - reflexivity.
  - rewrite length_app. cbn [length]. lia.
  - exists s'. split; [exact Hrun|].
    change (align8 60) with 64 in Hok'.
    change (64 + HEADER + 32 <? bsize (mk_blk a2 200 true)) with true in Hok'.
    cbn [addr bsize] in Hok'.
    change (200 - 64 - HEADER) with 120 in Hok'.
    replace (a2 + HEADER + 64) with (a2 + 80) in Hok' by (unfold HEADER; lia).
    rewrite <- app_assoc in Hok'. exact Hok'.
Qed.

Lemma kmalloc_is_first_fit_witness :
  let s := state_of (run_calls 6
                 [Kmalloc 104; Kmalloc 200; Kmalloc 8; Krealloc 2097168 50;
                  Kmalloc 32; Kfree 2097168; Kfree 2097288]
                 (mm_init 0 0 boot_mm)) in
  blocks_of (Ok NULL s)
  = Some [mk_blk 2097152 50 true; mk_blk 2097218 38 false; mk_blk 2097272 200 true;
          mk_blk 2097488 8 false; mk_blk 2097512 1048200 true] ∧
  ∃ s', kmalloc 6 60 s = Ok (2097272 + HEADER) s' ∧
        heap_ok s' [mk_blk 2097152 50 true; mk_blk 2097218 38 false;
                    mk_blk 2097272 64 false; mk_blk 2097352 120 true;
                    mk_blk 2097488 8 false; mk_blk 2097512 1048200 true].
Proof.
  intros s. split; [vm_compute; reflexivity|].
  destruct kmalloc_is_first_fit as [Hexample _].
  apply (Hexample s [] [mk_blk 2097218 38 false]
           [mk_blk 2097488 8 false; mk_blk 2097512 1048200 true] 2097152 2097272 6%nat).
  - apply heap_okb_ok. vm_compute. reflexivity.
  - constructor.
  - constructor; [reflexivity | constructor].
  - cbn. lia.
Defined.

(** *** Coalescing *)

(** C2: the code at the failing input. [b = kmalloc(8)], [a = kmalloc(104)],
    [krealloc(a, 8)], [kfree(b)]: [krealloc] shrinks [a] in place with
    [split_block], which makes the 80 spare bytes a free block without
    merging it with the free block that follows; [kfree(b)] only merges
    around [b]. When it returns, the free blocks at 2097200 and 2097296
    are neighbours. *)
Theorem kfree_leaves_adjacent_free_blocks_after_krealloc :
  let calls := [Kmalloc 8; Kmalloc 104; Krealloc 2097192 8; Kfree 2097168] in
  let l := [mk_blk 2097152 8 true; mk_blk 2097176 8 false;
            mk_blk 2097200 80 true; mk_blk 2097296 1048416 true] in
  ∃ s, run_calls 5 calls (mm_init 0 0 boot_mm) = Ok NULL s ∧
       heap_ok s l ∧
       ¬ no_adjacent_free l.
Proof.
  intros calls l. eexists. split; [vm_compute; reflexivity|]. split.
  - apply heap_okb_ok. vm_compute. reflexivity.
  - cbn. intros (_ & _ & H & _). apply H. by split.
Qed.

(** *** Zeroed allocation *)

(** C9: the code at the failing input. With [count = 0] the overflow
    check [total_size / count != size] divides by zero, whatever [size]
    is and whatever the heap holds; [kcalloc] has no result. *)
Theorem kcalloc_zero_count_divides_by_zero fuel sz s :
  kcalloc fuel 0 sz s = Fails DivisionByZero.
Proof. reflexivity. Qed.

(** For a non-zero count [kcalloc] is as specified: failure when the
    product does not fit [size_t], [kmalloc] of the product followed by
    [memset] otherwise. *)
Lemma kcalloc_overflow fuel count sz s :
  count ≠ 0 -> u32 (count * sz) / count ≠ sz ->
  kcalloc fuel count sz s = Ok NULL s.
Proof.
  intros Hc Hov. unfold kcalloc.
  rewrite (proj2 (Z.eqb_neq _ _) Hc), (proj2 (Z.eqb_neq _ _) Hov). reflexivity.
Qed.

Lemma kcalloc_no_overflow fuel count sz s :
  count ≠ 0 -> u32 (count * sz) / count = sz ->
  kcalloc fuel count sz s
  = bind (kmalloc fuel (u32 (count * sz)))
      (fun ptr => bind (when (negb (ptr =? NULL)) (memset ptr 0 (u32 (count * sz))))
                    (fun _ => ret ptr)) s.
Proof.
  intros Hc Hov. unfold kcalloc.
  rewrite (proj2 (Z.eqb_neq _ _) Hc), (proj2 (Z.eqb_eq _ _) Hov). reflexivity.
Qed.

(** The 24 bytes handed out read 0; the byte behind them is the first
    of the next header, the low byte of its size 1048520. *)
Example kcalloc_three_words :
  ∃ s, kcalloc 2 3 8 (mm_init 0 0 boot_mm) = Ok 2097168 s ∧
       blocks_of (Ok NULL s)
       = Some [mk_blk 2097152 24 false; mk_blk 2097192 1048520 true] ∧
       map (read8 (memory s)) [2097168; 2097191; 2097192] = [0; 0; 200].
Proof. eexists. split; [vm_compute; reflexivity|]. split; vm_compute; reflexivity. Qed.

End MmFacts.
(** ** Heap allocator: statistics, validation and the callers' view *)

Module MmAuxFacts.
Import Mm MmAux MmFacts.

(** *** [mm_get_stats] *)

(** The running maximum of the loop of [mm_get_stats]. *)
Lemma largest_free_from_spec l : ∀ pv fuel s0 st0 L,
  chain (memory s0) pv l NULL -> (length l < fuel)%nat -> 0 <= L ->
  largest_free_from fuel (first_addr l NULL)
    (set_mem_stats (set_largest_free_block L st0) s0)
  = Ok tt (set_mem_stats (set_largest_free_block (Z.max L (largest_free l)) st0) s0).
Proof.
  induction l as [|b l IH]; intros pv fuel s0 st0 L Hc Hfuel HL;
    (destruct fuel as [|fuel]; [cbn [length] in Hfuel; lia|]).
  - cbn [first_addr largest_free_from largest_free]. rewrite Z.max_l by lia. reflexivity.
  - destruct Hc as (Hnz & Hb & Hc). cbn [first_addr largest_free_from largest_free].
    rewrite (proj2 (Z.eqb_neq _ _) Hnz).
    rewrite bind_load. cbn [memory set_mem_stats]. rewrite Hb.
    cbn [is_free size next].
    unfold get_stats at 1. unfold bind at 1.
    cbn [mem_stats set_mem_stats set_largest_free_block largest_free_block].
    cbn [length] in Hfuel.
    destruct (bfree b) eqn:Hfree; cbn [andb].
    + destruct (L <? bsize b) eqn:Hlt; cbn [when].
      * apply Z.ltb_lt in Hlt. unfold put_stats, bind.
        specialize (IH (addr b) fuel s0 st0 (bsize b) Hc ltac:(lia) ltac:(lia)).
        refine (eq_trans IH _). do 3 f_equal. lia.
      * apply Z.ltb_ge in Hlt. rewrite bind_ret.
        refine (eq_trans (IH (addr b) fuel s0 st0 L Hc ltac:(lia) HL) _).
        do 3 f_equal. lia.
    + cbn [when]. rewrite bind_ret. apply (IH (addr b) fuel s0 st0 L Hc ltac:(lia) HL).
Qed.

Lemma largest_free_nonneg l : 0 <= largest_free l.
Proof. induction l as [|b l IH]; cbn; [lia|]. destruct (bfree b); lia. Qed.

Lemma mm_get_stats_spec s l fuel :
  heap_ok s l -> (length l < fuel)%nat ->
  mm_get_stats fuel s
  = Ok (set_largest_free_block (largest_free l) (mem_stats s))
       (set_mem_stats (set_largest_free_block (largest_free l) (mem_stats s)) s).
Proof.
  intros (_ & _ & (Hhead & Hc) & _) Hfuel. unfold mm_get_stats.
  unfold get_stats at 1. unfold bind at 1. unfold put_stats at 1. unfold bind at 1.
  unfold bind at 1. cbn [heap_head set_mem_stats]. rewrite Hhead.
  rewrite (largest_free_from_spec l NULL fuel s (mem_stats s) 0 Hc Hfuel ltac:(lia)).
  rewrite Z.max_r by apply largest_free_nonneg. reflexivity.
Qed.

(** A request fits some free block exactly when it is not larger than
    the largest one. *)
Lemma fits_largest_free r l :
  0 < r -> (Exists (fun b => fits r b = true) l ↔ r <= largest_free l).
Proof.
  intros Hr. induction l as [|b l IH]; cbn [largest_free].
  - split; [by intros ?%Exists_nil | lia].
  - rewrite Exists_cons, IH. unfold fits. destruct (bfree b); cbn [andb].
    + rewrite Z.leb_le. lia.
    + split; [by intros [?|?] | by right].
Qed.

Lemma heap_ok_set_mem_stats st s l : heap_ok s l -> heap_ok (set_mem_stats st s) l.
Proof. intros H. exact H. Qed.

(** *** [mm_check_heap_integrity] *)

Lemma check_heap_from_spec l : ∀ pv a fuel s,
  heap_start s = KERNEL_HEAP_START -> heap_size s = KERNEL_HEAP_SIZE ->
  chain (memory s) pv l NULL ->
  tiles a l (KERNEL_HEAP_START + KERNEL_HEAP_SIZE) ->
  KERNEL_HEAP_START <= a ->
  (length l < fuel)%nat ->
  check_heap_from fuel (first_addr l NULL) (a - KERNEL_HEAP_START) s = Ok 1 s.
Proof.
  induction l as [|b l IH]; intros pv a fuel s Hstart Hsize Hc Ht Ha Hfuel;
    (destruct fuel as [|fuel]; [cbn [length] in Hfuel; lia|]).
  - cbn [first_addr check_heap_from]. change (NULL =? NULL) with true. cbn beta iota.
    cbn in Ht. subst a. rewrite Hsize.
    replace (KERNEL_HEAP_START + KERNEL_HEAP_SIZE - KERNEL_HEAP_START <=? KERNEL_HEAP_SIZE)
      with true by (symmetry; apply Z.leb_le; lia).
    reflexivity.
  - destruct Hc as (Hnz & Hb & Hc). destruct Ht as (Hab & Hs & Ht).
    pose proof (tiles_le _ _ _ Ht) as Hle.
    cbn [first_addr check_heap_from]. cbn [length] in Hfuel.
    rewrite (proj2 (Z.eqb_neq _ _) Hnz). cbn beta iota. rewrite Hstart, Hsize.
    replace (addr b <? KERNEL_HEAP_START) with false
      by (symmetry; apply Z.ltb_ge; lia).
    change (u32 (KERNEL_HEAP_START + KERNEL_HEAP_SIZE))
      with (KERNEL_HEAP_START + KERNEL_HEAP_SIZE).
    replace (KERNEL_HEAP_START + KERNEL_HEAP_SIZE <=? addr b) with false
      by (symmetry; apply Z.leb_gt; unfold HEADER in *; lia).
    cbn [orb]. rewrite bind_load, Hb. cbn [size next].
    assert (Hsz : u32 (a - KERNEL_HEAP_START + u32 (bsize b + HEADER))
                  = a + HEADER + bsize b - KERNEL_HEAP_START).
    { rewrite (u32_small (bsize b + HEADER))
        by (unfold HEADER, UINT32_MOD, KERNEL_HEAP_START, KERNEL_HEAP_SIZE in *; lia).
      rewrite u32_small
        by (unfold HEADER, UINT32_MOD, KERNEL_HEAP_START, KERNEL_HEAP_SIZE in *; lia).
      lia. }
    rewrite Hsz.
    assert (Hnext : check_heap_from fuel (first_addr l NULL)
                      (a + HEADER + bsize b - KERNEL_HEAP_START) s = Ok 1 s).
    { apply (IH (addr b)); try assumption; [unfold HEADER; lia | lia]. }
    destruct l as [|n l'].
    + cbn [first_addr]. rewrite Z.eqb_refl. exact Hnext.
    + destruct Hc as (Hnz' & Hn & Hc'). cbn [first_addr] in *.
      rewrite (proj2 (Z.eqb_neq _ _) Hnz').
      rewrite bind_load, Hn. cbn [prev]. rewrite Z.eqb_refl. cbn [negb].
      exact Hnext.
Qed.

(** *** Invariants of the block list under [kmalloc] and [kfree] *)

(** A property of block lists that holds of the initial list and is kept
    by the list transformations of [kmalloc] and [kfree] holds in every
    state reached without [krealloc]. *)
Lemma kmalloc_kfree_induction (P : list blk -> Prop) :
  P [mk_blk KERNEL_HEAP_START (KERNEL_HEAP_SIZE - HEADER) true] ->
  (∀ sz l1 b l2, bfree b = true -> align8 sz <= bsize b ->
     P (l1 ++ b :: l2) -> P (l1 ++ allocate_in (align8 sz) b ++ l2)) ->
  (∀ l1 b l2, bfree b = false -> P (l1 ++ b :: l2) -> P (free_in l1 b l2)) ->
  ∀ calls s,
    reachable calls s ->
    forallb (fun c => negb (is_krealloc c)) calls = true ->
    ∃ l, heap_ok s l ∧ P l.
Proof.
  intros Hinit Halloc Hfree.
  induction 1 as [a n s0|calls s fuel c r s' Hreach IH Hvalid Hrun].
  - intros _. destruct (mm_init_ok a n s0) as (H1 & _). eexists. split; [exact H1|done].
  - rewrite forallb_app. cbn [forallb]. rewrite andb_true_r.
    intros [Hcalls Hc%negb_true_iff]%andb_true_iff.
    destruct (IH Hcalls) as (l & Hok & HP).
    apply (run_call_mono fuel (fuel + length l + 2)) in Hrun; [|lia].
    destruct c as [sz|ptr|ptr new_size]; cbn [run_call valid_call is_krealloc] in *;
      [| |discriminate].
    + destruct (kmalloc_cases s l (fuel + length l + 2) sz Hok)
        as [Hnull|(l1 & b & l2 & s1 & -> & _ & _ & Hfit & Hrun1 & Hok1 & _)]; [lia| |].
      * rewrite Hnull in Hrun. injection Hrun as _ <-. by exists l.
      * rewrite Hrun1 in Hrun. injection Hrun as _ <-.
        eexists. split; [exact Hok1|].
        pose proof Hfit as [Hb Hle%Z.leb_le]%andb_true_iff. by apply Halloc.
    + apply bind_inv in Hrun as (u & s1 & Hfr & [= _ <-]).
      destruct (kfree_cases s l (fuel + length l + 2) ptr Hok Hvalid)
        as [Hsame|(l1 & b & l2 & s2 & -> & Hused & -> & Hrun1 & Hok1 & _)]; [lia| |].
      * rewrite Hsame in Hfr. injection Hfr as _ <-. by exists l.
      * rewrite Hrun1 in Hfr. injection Hfr as _ <-.
        eexists. split; [exact Hok1|]. by apply Hfree.
Qed.

(** Block sizes stay multiples of 8. *)
Lemma align8_multiple sz : align8 sz mod 8 = 0.
Proof. rewrite align8_eq, Z.mul_comm. apply Z.mod_mul. lia. Qed.

Lemma sizes_aligned_allocate_in sz l1 b l2 :
  sizes_aligned (l1 ++ b :: l2) ->
  sizes_aligned (l1 ++ allocate_in (align8 sz) b ++ l2).
Proof.
  unfold sizes_aligned. rewrite !Forall_app, Forall_cons.
  intros (H1 & Hb & H2). split; [exact H1|]. split; [|exact H2].
  pose proof (align8_multiple sz) as Hr.
  unfold allocate_in, split_blk.
  destruct (align8 sz + HEADER + 32 <? bsize b); cbn [mark addr bsize bfree].
  - repeat constructor; cbn [bsize]; [exact Hr|].
    unfold HEADER. rewrite <- Z.sub_add_distr, Zminus_mod, Hb.
    rewrite Z.add_mod, Hr by lia. reflexivity.
  - repeat constructor. exact Hb.
Qed.

Lemma sizes_aligned_absorb_next l : ∀ b,
  bsize b mod 8 = 0 -> sizes_aligned l ->
  bsize (absorb_next b l).1 mod 8 = 0 ∧ sizes_aligned (absorb_next b l).2.
Proof.
  induction l as [|n l IH]; intros b Hb Hl; [by split|].
  apply Forall_cons in Hl as [Hn Hl]. cbn [absorb_next].
  destruct (bfree n).
  - apply IH; [|exact Hl]. cbn [bsize]. unfold HEADER.
    rewrite Z.add_mod, Hb by lia. rewrite (Z.add_mod (bsize n)), Hn by lia. reflexivity.
  - split; [exact Hb | by constructor].
Qed.

Lemma sizes_aligned_absorb_prev rl : ∀ b,
  bsize b mod 8 = 0 -> sizes_aligned rl ->
  bsize (absorb_prev rl b).2 mod 8 = 0 ∧ sizes_aligned (absorb_prev rl b).1.
Proof.
  induction rl as [|p rl IH]; intros b Hb Hl; [by split|].
  apply Forall_cons in Hl as [Hp Hl]. cbn [absorb_prev].
  destruct (bfree p).
  - apply IH; [|exact Hl]. cbn [bsize]. unfold HEADER.
    rewrite Z.add_mod, Hp by lia. rewrite (Z.add_mod (bsize b)), Hb by lia. reflexivity.
  - split; [exact Hb | by constructor].
Qed.

Lemma sizes_aligned_free_in l1 b l2 :
  sizes_aligned (l1 ++ b :: l2) -> sizes_aligned (free_in l1 b l2).
Proof.
  unfold sizes_aligned at 1. rewrite Forall_app, Forall_cons.
  intros (H1 & Hb & H2). unfold free_in.
  pose proof (sizes_aligned_absorb_next l2 (mark true b) Hb H2) as [Hb1 Hl2].
  destruct (absorb_next (mark true b) l2) as [b1 l2']. cbn [fst snd] in Hb1, Hl2.
  assert (Hr1 : sizes_aligned (rev l1)) by (by apply Forall_rev).
  pose proof (sizes_aligned_absorb_prev (rev l1) b1 Hb1 Hr1) as [Hb2 Hl1].
  destruct (absorb_prev (rev l1) b1) as [rb b2]. cbn [fst snd] in Hb2, Hl1.
  unfold sizes_aligned. rewrite Forall_app, Forall_cons.
  split; [by apply Forall_rev | by split].
Qed.

Lemma tiles_aligned l : ∀ a e,
  tiles a l e -> a mod 8 = 0 -> sizes_aligned l -> Forall (fun b => addr b mod 8 = 0) l.
Proof.
  induction l as [|b l IH]; intros a e Ht Ha Hl; [constructor|].
  destruct Ht as (Hab & _ & Ht). apply Forall_cons in Hl as [Hb Hl].
  constructor; [by rewrite Hab|].
  apply (IH _ _ Ht); [|exact Hl]. unfold HEADER.
  rewrite Z.add_mod, Hb by lia. rewrite (Z.add_mod a), Ha by lia. reflexivity.
Qed.

(** *** Allocating and freeing again *)

Lemma absorb_next_stop c l b :
  no_adjacent_free (c :: l) -> bfree c = true -> absorb_next b l = (b, l).
Proof.
  destruct l as [|n l]; [done|]. intros [Hn _] Hc. cbn [absorb_next].
  destruct (bfree n); [|done]. by destruct Hn.
Qed.

Lemma absorb_prev_stop l c b :
  no_adjacent_free (l ++ [c]) -> bfree c = true -> absorb_prev (rev l) b = (rev l, b).
Proof.
  destruct l as [|p l _] using rev_ind; [done|].
  rewrite <- app_assoc. cbn [app]. intros [_ [Hp _]]%no_adjacent_free_app Hc.
  rewrite rev_app_distr. cbn [rev app absorb_prev].
  destruct (bfree p); [|done]. by destruct Hp.
Qed.

(** Freeing the block that [kmalloc] has just cut out of [b] gives [b]
    back, when no two free blocks were neighbours. *)
Lemma free_in_allocate_in r l1 b l2 u rest :
  bfree b = true -> no_adjacent_free (l1 ++ b :: l2) ->
  allocate_in r b = u :: rest ->
  free_in l1 u (rest ++ l2) = l1 ++ b :: l2.
Proof.
  intros Hb [H1 H2]%no_adjacent_free_app Hal. unfold free_in.
  assert (Hnext : absorb_next (mark true u) (rest ++ l2) = (b, l2)).
  { unfold allocate_in, split_blk in Hal.
    destruct (r + HEADER + 32 <? bsize b); cbn [mark addr bsize bfree] in Hal;
      injection Hal as <- <-; cbn [app absorb_next mark addr bsize bfree].
    - rewrite (absorb_next_stop b l2) by assumption.
      destruct b as [a z f]. cbn [addr bsize bfree] in *. subst f.
      do 2 f_equal. unfold HEADER. lia.
    - rewrite (absorb_next_stop b l2) by assumption.
      destruct b as [a z f]. cbn [addr bsize bfree] in *. by subst f. }
  rewrite Hnext. rewrite (absorb_prev_stop l1 b b) by assumption.
  by rewrite rev_involutive.
Qed.

(** With no two free neighbours, a list of free blocks has one block. *)
Lemma all_free_single l :
  no_adjacent_free l -> Forall (fun b => bfree b = true) l -> (length l <= 1)%nat.
Proof.
  destruct l as [|b [|c l]]; cbn [length]; [lia | lia |].
  intros [Hbc _] Hall. apply Forall_cons in Hall as [Hb Hall].
  apply Forall_cons in Hall as [Hc _]. by destruct Hbc.
Qed.

(** *** Sample states *)

Lemma sample_heap_reachable : reachable sample_calls sample_heap.
Proof.
  apply (reachable_call [Kmalloc 100]
           (state_of (run_calls 4 [Kmalloc 100] (mm_init 0 0 boot_mm)))
           4 (Kmalloc 200) 2097288).
  - apply (reachable_call [] (mm_init 0 0 boot_mm) 4 (Kmalloc 100) 2097168).
    + constructor.
    + cbn. unfold UINT32_MOD. lia.
    + vm_compute. reflexivity.
  - cbn. unfold UINT32_MOD. lia.
  - vm_compute. reflexivity.
Qed.

Lemma sample_calls_no_krealloc :
  forallb (fun c => negb (is_krealloc c)) sample_calls = true.
Proof. reflexivity. Qed.

Lemma sample_heap_ok :
  heap_ok sample_heap
    [mk_blk 2097152 104 false; mk_blk 2097272 200 false; mk_blk 2097488 1048224 true].
Proof. apply heap_okb_ok. vm_compute. reflexivity. Qed.

Lemma sample_heap_written_ok :
  heap_ok sample_heap_written
    [mk_blk 2097152 104 false; mk_blk 2097272 200 false;
     mk_blk 2097488 8 false; mk_blk 2097512 1048200 true].
Proof. apply heap_okb_ok. vm_compute. reflexivity. Qed.

(** *** The integrity check and the statistics *)

(** X1. In a heap whose block list tiles the arena, which is what
    [mm_init] sets up and what valid calls of [kmalloc], [kfree] and
    [krealloc] keep, [mm_check_heap_integrity] returns 1 and changes
    nothing: every block is inside the arena, every [next->prev] link
    points back, and the sizes add up to no more than the arena. *)
Theorem mm_check_heap_integrity_accepts_tiled_heap s l fuel :
  heap_ok s l -> (length l < fuel)%nat ->
  mm_check_heap_integrity fuel s = Ok 1 s.
Proof.
  intros (Hstart & Hsize & (Hhead & Hc) & Ht) Hfuel. unfold mm_check_heap_integrity.
  rewrite Hhead, Hstart, Hsize in *.
  replace 0 with (KERNEL_HEAP_START - KERNEL_HEAP_START) at 1 by lia.
  apply (check_heap_from_spec l NULL); try assumption; lia.
Qed.

Lemma mm_check_heap_integrity_accepts_tiled_heap_witness :
  mm_check_heap_integrity 4 sample_heap = Ok 1 sample_heap.
Proof.
  apply (mm_check_heap_integrity_accepts_tiled_heap sample_heap _ 4 sample_heap_ok).
  cbn [length]. lia.
Defined.

(** The check does see the damage done by a [krealloc] whose size wraps
    around when rounded: the header after the block is overwritten, and
    the check returns 0. *)
Example mm_check_heap_integrity_rejects_overwritten_header :
  ∃ s, run_calls 5 [Kmalloc 104; Krealloc 2097168 4294967295] (mm_init 0 0 boot_mm)
       = Ok NULL s ∧
       ∃ s', mm_check_heap_integrity 8 s = Ok 0 s'.
Proof. eexists. split; [vm_compute; reflexivity|]. eexists. vm_compute. reflexivity. Qed.

(** X2. For a heap whose chain of headers is the block list [l],
    [mm_get_stats] returns the stored counters with [largest_free_block]
    replaced by the payload size of the largest free block of the list (0
    when no block is free), stores that value in [mem_stats], and changes
    nothing else. *)
Theorem mm_get_stats_reports_largest_free_block s l fuel :
  block_list s l -> (length l < fuel)%nat ->
  mm_get_stats fuel s
  = Ok (set_largest_free_block (largest_free l) (mem_stats s))
       (set_mem_stats (set_largest_free_block (largest_free l) (mem_stats s)) s).
Proof.
  intros (Hhead & Hc) Hfuel. unfold mm_get_stats.
  unfold get_stats at 1. unfold bind at 1. unfold put_stats at 1. unfold bind at 1.
  unfold bind at 1. cbn [heap_head set_mem_stats]. rewrite Hhead.
  rewrite (largest_free_from_spec l NULL fuel s (mem_stats s) 0 Hc Hfuel ltac:(lia)).
  rewrite Z.max_r by apply largest_free_nonneg. reflexivity.
Qed.

Lemma mm_get_stats_reports_largest_free_block_witness :
  mm_get_stats 4 sample_heap
  = Ok (set_largest_free_block 1048224 (mem_stats sample_heap))
       (set_mem_stats (set_largest_free_block 1048224 (mem_stats sample_heap))
                      sample_heap).
Proof.
  apply (mm_get_stats_reports_largest_free_block sample_heap
           [mk_blk 2097152 104 false; mk_blk 2097272 200 false;
            mk_blk 2097488 1048224 true] 4
           (proj1 (proj2 (proj2 sample_heap_ok)))).
  cbn [length]. lia.
Defined.

(** X3. [largest_free_block] as reported by [mm_get_stats] tells which
    requests succeed: in a heap whose block list tiles the arena, for a
    request of [sz] bytes with [0 < sz] and [sz] at most 2^32 - 8, so that
    the rounding to 8 does not wrap around, the [kmalloc] that follows
    returns a non-null pointer exactly when the rounded size is at most
    the reported value. *)
Theorem kmalloc_succeeds_iff_fits_largest_free_block s l sz fuel :
  heap_ok s l -> 0 < sz -> sz + 7 < UINT32_MOD -> (length l < fuel)%nat ->
  ∃ st s1 p s2,
    mm_get_stats fuel s = Ok st s1 ∧
    kmalloc fuel sz s1 = Ok p s2 ∧
    (p ≠ NULL ↔ align8 sz <= largest_free_block st).
Proof.
  intros Hok Hsz Hmax Hfuel.
  rewrite (mm_get_stats_spec s l fuel Hok) by lia.
  set (st := set_largest_free_block (largest_free l) (mem_stats s)).
  pose proof (heap_ok_set_mem_stats st s l Hok) as Hok1.
  destruct (align8_rounds_up sz ltac:(lia) Hmax) as [Hr _].
  pose proof (fits_largest_free (align8 sz) l ltac:(lia)) as Hfit.
  destruct (first_fit_cases (align8 sz) l) as [Hun|(l1 & b & l2 & -> & Hun & Hb)].
  - exists st, (set_mem_stats st s), NULL, (set_mem_stats st s).
    split; [reflexivity|]. split.
    + apply (kmalloc_none _ l); [exact Hok1 | lia | exact Hun | lia].
    + split; [done|]. intros Hle%Hfit. exfalso.
      apply Exists_exists in Hle as (c & Hin & Hc).
      rewrite Forall_forall in Hun. specialize (Hun c Hin). congruence.
  - destruct (kmalloc_takes (set_mem_stats st s) l1 b l2 fuel sz) as (s2 & Hk & _);
      [exact Hok1 | lia | exact Hun | exact Hb | rewrite length_app in Hfuel; lia |].
    exists st, (set_mem_stats st s), (addr b + HEADER), s2.
    split; [reflexivity|]. split; [exact Hk|].
    destruct (heap_ok_focus _ _ _ _ Hok) as (Hlo & _).
    split.
    + intros _. apply Hfit. apply Exists_app. right. by left.
    + intros _. unfold KERNEL_HEAP_START, HEADER, NULL in *. lia.
Qed.

Lemma kmalloc_succeeds_iff_fits_largest_free_block_witness :
  ∃ st s1 p s2,
    mm_get_stats 4 sample_heap = Ok st s1 ∧
    kmalloc 4 4096 s1 = Ok p s2 ∧
    (p ≠ NULL ↔ align8 4096 <= largest_free_block st).
Proof.
  apply (kmalloc_succeeds_iff_fits_largest_free_block sample_heap _ 4096 4 sample_heap_ok);
    [lia | unfold UINT32_MOD; lia | cbn [length]; lia].
Defined.

(** X4. Every byte of a successful allocation passes
    [mm_validate_pointer]: in a heap whose block list tiles the arena,
    when [kmalloc(sz)] with [0 < sz] and [sz] at most 2^32 - 8 returns a
    non-null pointer [p], the function returns 1 on [p + i] for every
    [i < sz]. *)
Theorem kmalloc_result_is_validated s l fuel sz p s' i :
  heap_ok s l -> 0 < sz -> sz + 7 < UINT32_MOD ->
  kmalloc fuel sz s = Ok p s' -> p ≠ NULL ->
  0 <= i < sz ->
  mm_validate_pointer (p + i) s' = 1.
Proof.
  intros Hok Hsz Hmax Hrun Hp Hi.
  apply (kmalloc_mono fuel (fuel + length l + 1)) in Hrun; [|lia].
  destruct (kmalloc_cases s l (fuel + length l + 1) sz Hok)
    as [Hnull|(l1 & b & l2 & s1 & -> & _ & _ & Hfit & Hrun1 & Hok1 & _)]; [lia| |].
  { rewrite Hnull in Hrun. by injection Hrun as <- _. }
  rewrite Hrun1 in Hrun. injection Hrun as <- <-.
  destruct (split_blk_cons (align8 sz) b) as (rest & _ & Hal).
  rewrite Hal in Hok1. cbn [app] in Hok1.
  destruct (heap_ok_focus _ _ _ _ Hok1) as (Hlo & Hup & _).
  cbn [addr bsize] in Hlo, Hup.
  pose proof (fits_granted _ _ Hfit) as Hg.
  destruct (align8_rounds_up sz ltac:(lia) Hmax) as [Hr _].
  destruct Hok1 as (Hstart & Hsize & _).
  unfold mm_validate_pointer. rewrite Hstart, Hsize.
  change (u32 (KERNEL_HEAP_START + KERNEL_HEAP_SIZE))
    with (KERNEL_HEAP_START + KERNEL_HEAP_SIZE).
  replace (addr b + HEADER + i =? NULL) with false
    by (symmetry; apply Z.eqb_neq; unfold KERNEL_HEAP_START, HEADER, NULL in *; lia).
  replace (addr b + HEADER + i <? KERNEL_HEAP_START) with false
    by (symmetry; apply Z.ltb_ge; unfold HEADER in *; lia).
  replace (KERNEL_HEAP_START + KERNEL_HEAP_SIZE <=? addr b + HEADER + i) with false
    by (symmetry; apply Z.leb_gt; unfold HEADER in *; lia).
  reflexivity.
Qed.

Lemma kmalloc_result_is_validated_witness :
  ∃ s', kmalloc 4 64 sample_heap = Ok 2097504 s' ∧
        mm_validate_pointer (2097504 + 63) s' = 1.
Proof.
  eexists. split; [vm_compute; reflexivity|].
  apply (kmalloc_result_is_validated sample_heap _ 4 64 2097504 _ 63 sample_heap_ok);
    [lia | unfold UINT32_MOD; lia | vm_compute; reflexivity | discriminate | lia].
Defined.

(** X5. Allocating and freeing at once is a round trip: in a state
    reached without [krealloc], when [kmalloc] returns a non-null pointer
    and [kfree] is called on it, the block list, [used_memory] and
    [free_memory] are what they were before the two calls. *)
Theorem kmalloc_then_kfree_restores_heap calls s fuel sz p s1 :
  reachable calls s ->
  forallb (fun c => negb (is_krealloc c)) calls = true ->
  kmalloc fuel sz s = Ok p s1 -> p ≠ NULL ->
  ∃ n l, block_list s l ∧
    ∀ fuel', (n <= fuel')%nat ->
      ∃ s2, kfree fuel' p s1 = Ok tt s2 ∧
            block_list s2 l ∧
            used_memory (mem_stats s2) = used_memory (mem_stats s) ∧
            free_memory (mem_stats s2) = free_memory (mem_stats s).
Proof.
  intros Hreach Hcalls Hrun Hp.
  destruct (kmalloc_kfree_keep_free_blocks_apart _ _ Hreach Hcalls) as (l & Hok & Hnaf).
  destruct (reachable_invariant _ _ Hreach) as (l0 & Hok0 & _ & Hex).
  assert (l0 = l) as -> by (eapply block_list_unique; [apply Hok0 | apply Hok]).
  destruct (Hex Hcalls) as [Hused Hfree].
  pose proof (used_bytes_bound _ _ Hok (heap_ok_nonempty _ _ Hok)) as Hb.
  exists (length l + 3)%nat, l. split; [apply Hok|]. intros fuel' Hfuel'.
  apply (kmalloc_mono fuel (fuel + length l + 1)) in Hrun; [|lia].
  destruct (kmalloc_cases s l (fuel + length l + 1) sz Hok)
    as [Hnull|(l1 & b & l2 & s1' & -> & _ & _ & Hfit & Hrun1 & Hok1 & _ & Hst1)]; [lia| |].
  { rewrite Hnull in Hrun. by injection Hrun as <- _. }
  rewrite Hrun1 in Hrun. injection Hrun as <- <-.
  destruct (split_blk_cons (align8 sz) b) as (rest & _ & Hal).
  pose proof Hok1 as Hok1'. rewrite Hal in Hok1'. cbn [app] in Hok1'.
  destruct (kfree_used s1' l1 _ (rest ++ l2) fuel' Hok1' eq_refl)
    as (s2 & Hk & Hok2 & _ & Hst2 & _).
  { pose proof (length_allocate_in (align8 sz) b) as Hlen. rewrite Hal in Hlen.
    rewrite !length_app in *. cbn [length] in *. rewrite length_app. lia. }
  exists s2. cbn [addr] in Hk. split; [exact Hk|].
  rewrite (free_in_allocate_in (align8 sz) l1 b l2 _ rest (fits_free _ _ Hfit) Hnaf Hal)
    in Hok2.
  split; [apply Hok2|].
  pose proof (fits_granted _ _ Hfit) as Hg.
  pose proof (align8_bounds sz) as Hr.
  pose proof (used_bytes_bound _ _ Hok1 (heap_ok_nonempty _ _ Hok1)) as Hb1.
  rewrite !used_bytes_app, (used_bytes_allocate_in _ _ (fits_free _ _ Hfit)) in Hb1.
  rewrite used_bytes_app in Hb, Hused, Hfree. cbn [used_bytes] in Hb, Hused, Hfree.
  rewrite (fits_free _ _ Hfit) in Hb, Hused, Hfree.
  rewrite Hst2, Hst1. unfold refund, charge.
  cbn [used_memory free_memory bsize]. rewrite Hused, Hfree.
  unfold HEADER, KERNEL_HEAP_SIZE in *.
  split.
  - rewrite (u32_small (_ + granted _ _)) by (unfold UINT32_MOD; lia).
    rewrite u32_small by (unfold UINT32_MOD; lia). lia.
  - rewrite (u32_small (_ - granted _ _)) by (unfold UINT32_MOD; lia).
    rewrite u32_small by (unfold UINT32_MOD; lia). lia.
Qed.

Lemma kmalloc_then_kfree_restores_heap_witness :
  ∃ s1 n l, kmalloc 4 64 sample_heap = Ok 2097504 s1 ∧
    block_list sample_heap l ∧
    ∀ fuel', (n <= fuel')%nat ->
      ∃ s2, kfree fuel' 2097504 s1 = Ok tt s2 ∧
            block_list s2 l ∧
            used_memory (mem_stats s2) = used_memory (mem_stats sample_heap) ∧
            free_memory (mem_stats s2) = free_memory (mem_stats sample_heap).
Proof.
  eexists.
  destruct (kmalloc_then_kfree_restores_heap sample_calls sample_heap 4 64 2097504 _
              sample_heap_reachable sample_calls_no_krealloc
              ltac:(vm_compute; reflexivity) ltac:(discriminate))
    as (n & l & Hl & H).
  exists n, l. split; [vm_compute; reflexivity|]. split; [exact Hl | exact H].
Defined.

(** X6. A double free is ignored: in a heap whose block list tiles the
    arena, when [kfree(p)] of a null pointer or of the payload address of
    a block of the list has returned, a second [kfree(p)] made at once
    reads a header whose [is_free] flag is set (also after the block has
    been merged into a neighbour, which leaves the flag of the absorbed
    header in place) and returns without changing anything. *)
Theorem kfree_twice_is_kfree_once s l fuel fuel' p s1 :
  heap_ok s l -> valid_ptr s p ->
  kfree fuel p s = Ok tt s1 -> kfree fuel' p s1 = Ok tt s1.
Proof.
  intros Hok Hptr Hrun.
  destruct (valid_ptr_cases _ _ _ Hok Hptr) as [->|(l1 & b & l2 & -> & ->)].
  { rewrite kfree_null in Hrun. injection Hrun as <-. apply kfree_null. }
  destruct (bfree b) eqn:Hfree.
  - rewrite (kfree_free s l1 b l2 fuel Hok Hfree) in Hrun. injection Hrun as <-.
    exact (kfree_free s l1 b l2 fuel' Hok Hfree).
  - set (F := (fuel + length (l1 ++ b :: l2) + 1)%nat).
    apply (kfree_mono fuel F) in Hrun; [|lia].
    destruct (kfree_used s l1 b l2 F Hok Hfree ltac:(lia))
      as (s' & Hk & _ & _ & _ & Hflag).
    rewrite Hk in Hrun. injection Hrun as <-.
    destruct (block_of_payload _ _ _ _ Hok) as [Hnull Hblock].
    unfold kfree. rewrite Hnull, Hblock, bind_load, Hflag. reflexivity.
Qed.

Lemma kfree_twice_is_kfree_once_witness :
  ∃ s1, kfree 4 2097168 sample_heap = Ok tt s1 ∧
        used_memory (mem_stats s1) ≠ used_memory (mem_stats sample_heap) ∧
        kfree 4 2097168 s1 = Ok tt s1.
Proof.
  eexists. split; [vm_compute; reflexivity|]. split; [vm_compute; discriminate|].
  apply (kfree_twice_is_kfree_once sample_heap _ 4 4 2097168 _ sample_heap_ok).
  - right. eexists _, (mk_blk 2097152 104 false).
    split; [apply (proj1 (proj2 (proj2 sample_heap_ok)))|].
    split; [apply list_elem_of_here | reflexivity].
  - vm_compute. reflexivity.
Defined.

(** The heap has to be intact for this: on a header that a stray write
    has damaged, here a [prev] that points into the header itself, the
    merge with the predecessor clears the [is_free] flag again, and the
    second [kfree] frees a second time. *)
Example kfree_twice_on_damaged_header :
  ∃ s1 s2, kfree 2 2097268 damaged_heap = Ok tt s1 ∧
           kfree 2 2097268 s1 = Ok tt s2 ∧
           num_frees (mem_stats s1) = 1 ∧ num_frees (mem_stats s2) = 2.
Proof.
  eexists _, _. split; [vm_compute; reflexivity|].
  split; [vm_compute; reflexivity|]. split; reflexivity.
Qed.

(** X7. Freeing everything undoes all fragmentation: in a state reached
    by [kmalloc] and [kfree] alone, if every block of the list is free
    then the list is the single block of [mm_init], which spans the whole
    arena. *)
Theorem all_blocks_free_is_initial_heap calls s l :
  reachable calls s ->
  forallb (fun c => negb (is_krealloc c)) calls = true ->
  block_list s l -> Forall (fun b => bfree b = true) l ->
  l = [mk_blk KERNEL_HEAP_START (KERNEL_HEAP_SIZE - HEADER) true].
Proof.
  intros Hreach Hcalls Hbl Hall.
  destruct (kmalloc_kfree_keep_free_blocks_apart _ _ Hreach Hcalls) as (l0 & Hok & Hnaf).
  assert (l0 = l) as -> by (eapply block_list_unique; [apply Hok | exact Hbl]).
  pose proof (all_free_single l Hnaf Hall) as Hlen.
  pose proof (heap_ok_nonempty _ _ Hok) as Hne.
  destruct Hok as (Hstart & Hsize & _ & Ht). rewrite Hstart, Hsize in Ht.
  destruct l as [|[a z f] [|c l]]; [done| |cbn [length] in Hlen; lia].
  destruct Ht as (Ha & _ & He). apply Forall_cons in Hall as [Hf _].
  cbn [addr bsize bfree tiles] in *. subst a f. do 2 f_equal. lia.
Qed.

Lemma all_blocks_free_is_initial_heap_witness :
  ∃ s l, run_calls 4 [Kmalloc 100; Kmalloc 200; Kfree 2097168; Kfree 2097288]
           (mm_init 0 0 boot_mm) = Ok NULL s ∧
         block_list s l ∧
         l = [mk_blk KERNEL_HEAP_START (KERNEL_HEAP_SIZE - HEADER) true].
Proof.
  eexists _, [mk_blk KERNEL_HEAP_START (KERNEL_HEAP_SIZE - HEADER) true].
  split; [vm_compute; reflexivity|].
  assert (Hbl : block_list
                  (state_of (run_calls 4 [Kmalloc 100; Kmalloc 200; Kfree 2097168;
                                          Kfree 2097288] (mm_init 0 0 boot_mm)))
                  [mk_blk KERNEL_HEAP_START (KERNEL_HEAP_SIZE - HEADER) true]).
  { split; [reflexivity|]. apply chainb_ok. vm_compute. reflexivity. }
  split; [exact Hbl|].
  refine (all_blocks_free_is_initial_heap
            [Kmalloc 100; Kmalloc 200; Kfree 2097168; Kfree 2097288] _ _ _ eq_refl Hbl _).
  - apply (reachable_call [Kmalloc 100; Kmalloc 200; Kfree 2097168]
             (state_of (run_calls 4 [Kmalloc 100; Kmalloc 200; Kfree 2097168]
                          (mm_init 0 0 boot_mm)))
             4 (Kfree 2097288) NULL).
    + apply (reachable_call sample_calls sample_heap 4 (Kfree 2097168) NULL).
      * exact sample_heap_reachable.
      * right. exists [mk_blk 2097152 104 false; mk_blk 2097272 200 false;
                       mk_blk 2097488 1048224 true], (mk_blk 2097152 104 false).
        split; [|split; [apply list_elem_of_here | reflexivity]].
        split; [reflexivity|]. apply chainb_ok. vm_compute. reflexivity.
      * vm_compute. reflexivity.
    + right. exists [mk_blk 2097152 104 true; mk_blk 2097272 200 false;
                     mk_blk 2097488 1048224 true], (mk_blk 2097272 200 false).
      split; [|split; [apply list_elem_of_further, list_elem_of_here | reflexivity]].
      split; [reflexivity|]. apply chainb_ok. vm_compute. reflexivity.
    + vm_compute. reflexivity.
  - repeat constructor.
Defined.

(** X8. While [krealloc] is not called, every pointer that [kmalloc]
    returns is a multiple of 8: the arena starts on a multiple of 8, the
    header is 16 bytes, and every block size stays a multiple of 8. *)
Theorem kmalloc_result_is_8_aligned calls s fuel sz p s' :
  reachable calls s ->
  forallb (fun c => negb (is_krealloc c)) calls = true ->
  kmalloc fuel sz s = Ok p s' ->
  p mod 8 = 0.
Proof.
  intros Hreach Hcalls Hrun.
  destruct (kmalloc_kfree_induction sizes_aligned) with (calls := calls) (s := s)
    as (l & Hok & Hal); try assumption.
  { by repeat constructor. }
  { intros. by apply sizes_aligned_allocate_in. }
  { intros. by apply sizes_aligned_free_in. }
  apply (kmalloc_mono fuel (fuel + length l + 1)) in Hrun; [|lia].
  destruct (kmalloc_cases s l (fuel + length l + 1) sz Hok)
    as [Hnull|(l1 & b & l2 & s1 & -> & _ & _ & _ & Hrun1 & _)]; [lia| |].
  { rewrite Hnull in Hrun. by injection Hrun as <- _. }
  rewrite Hrun1 in Hrun. injection Hrun as <- _.
  destruct Hok as (Hstart & _ & _ & Ht). rewrite Hstart in Ht.
  pose proof (tiles_aligned _ _ _ Ht eq_refl Hal) as Haddr.
  apply Forall_app in Haddr as [_ [Hb _]%Forall_cons].
  unfold HEADER. rewrite Z.add_mod, Hb by lia. reflexivity.
Qed.

Lemma kmalloc_result_is_8_aligned_witness :
  ∃ s', kmalloc 4 13 sample_heap = Ok 2097504 s' ∧ 2097504 mod 8 = 0.
Proof.
  eexists. split; [vm_compute; reflexivity|].
  eapply (kmalloc_result_is_8_aligned sample_calls sample_heap 4 13 2097504);
    [exact sample_heap_reachable | exact sample_calls_no_krealloc
    | vm_compute; reflexivity].
Defined.

(** The hypothesis cannot be dropped: [krealloc] cuts a block at the
    size it is given, which need not be a multiple of 8. *)
Example kmalloc_misaligned_after_krealloc :
  ∃ s s', run_calls 4 [Kmalloc 64; Krealloc 2097168 5] (mm_init 0 0 boot_mm) = Ok NULL s ∧
          kmalloc 4 8 s = Ok 2097189 s' ∧ 2097189 mod 8 = 5.
Proof. eexists _, _. split; [vm_compute; reflexivity|]. split; vm_compute; reflexivity. Qed.

Lemma align8_wraps sz : UINT32_MOD - 7 <= sz < UINT32_MOD -> align8 sz = 0.
Proof.
  intros Hsz. rewrite align8_eq.
  replace (u32 (sz + 7)) with (sz + 7 - UINT32_MOD).
  - rewrite Z.div_small by (unfold UINT32_MOD in *; lia). reflexivity.
  - unfold u32. apply Z.mod_unique with 1; unfold UINT32_MOD in *; lia.
Qed.

(** X9. A request within 7 bytes of the largest [size_t] is rounded to
    0 by [(size + 7) & ~7]: in a heap whose block list tiles the arena
    and has a free block, [kmalloc] then returns a non-null pointer to a
    block of at most 48 bytes, far less than was asked for. *)
Theorem kmalloc_huge_request_gets_small_block s l sz fuel :
  heap_ok s l -> Exists (fun b => bfree b = true) l ->
  UINT32_MOD - 7 <= sz < UINT32_MOD -> (length l < fuel)%nat ->
  ∃ p s' l' b',
    kmalloc fuel sz s = Ok p s' ∧ p ≠ NULL ∧
    heap_ok s' l' ∧ b' ∈ l' ∧ p = addr b' + HEADER ∧ bsize b' <= 48.
Proof.
  intros Hok Hex Hsz Hfuel.
  pose proof (align8_wraps sz Hsz) as Hr.
  destruct (first_fit_cases (align8 sz) l) as [Hun|(l1 & b & l2 & -> & Hun & Hb)].
  { exfalso. apply Exists_exists in Hex as (c & Hin & Hc).
    rewrite Forall_forall in Hun. specialize (Hun c Hin).
    destruct Hok as (_ & _ & _ & Ht).
    destruct (tiles_bounds _ _ _ _ Ht Hin) as (_ & Hs & _).
    unfold fits in Hun. rewrite Hc, Hr in Hun. cbn [andb] in Hun.
    apply Z.leb_gt in Hun. lia. }
  destruct (kmalloc_takes s l1 b l2 fuel sz) as (s' & Hk & Hok' & _);
    [exact Hok | unfold UINT32_MOD in *; lia | exact Hun | exact Hb
    | rewrite length_app in Hfuel; lia |].
  destruct (split_blk_cons (align8 sz) b) as (rest & _ & Hal).
  rewrite Hal in Hok'. cbn [app] in Hok'.
  destruct (heap_ok_focus _ _ _ _ Hok) as (Hlo & _).
  eexists (addr b + HEADER), s', _, (mk_blk (addr b) (granted (align8 sz) b) false).
  split; [exact Hk|].
  split; [unfold KERNEL_HEAP_START, HEADER, NULL in *; lia|].
  split; [exact Hok'|].
  split; [apply elem_of_app; right; apply list_elem_of_here|].
  split; [reflexivity|]. cbn [bsize]. unfold granted. rewrite Hr. unfold HEADER.
  destruct (0 + 16 + 32 <? bsize b) eqn:Hlt; [lia | apply Z.ltb_ge in Hlt; lia].
Qed.

Lemma kmalloc_huge_request_gets_small_block_witness :
  ∃ p s' l' b',
    kmalloc 4 4294967295 sample_heap = Ok p s' ∧ p ≠ NULL ∧
    heap_ok s' l' ∧ b' ∈ l' ∧ p = addr b' + HEADER ∧ bsize b' <= 48.
Proof.
  apply (kmalloc_huge_request_gets_small_block sample_heap _ 4294967295 4 sample_heap_ok).
  - do 2 right. by left.
  - unfold UINT32_MOD. lia.
  - cbn [length]. lia.
Defined.

(** *** [memset], [memcpy] and [memcmp] *)

Lemma memset_loop_cases n : ∀ d v m q,
  read8 (memset_loop n d v m) q = u8 v ∨ read8 (memset_loop n d v m) q = read8 m q.
Proof.
  induction n as [|n IH]; intros d v m q; cbn [memset_loop]; [by right|].
  destruct (IH (d + 1) v (write8 d v m) q) as [H|H]; [by left|]. rewrite H.
  destruct (decide (u32 d = u32 q)) as [He|Hne].
  - left. unfold read8, write8. rewrite He, lookup_insert_eq. cbn. apply u8_u8.
  - right. by apply read8_write8_ne.
Qed.

(** [memset] fills the range, also when it runs over the end of the
    address space. *)
Lemma memset_loop_in n : ∀ d v m i,
  0 <= i < Z.of_nat n -> read8 (memset_loop n d v m) (d + i) = u8 v.
Proof.
  induction n as [|n IH]; intros d v m i Hi; [lia|]. cbn [memset_loop].
  destruct (decide (i = 0)) as [->|Hne].
  - rewrite Z.add_0_r.
    destruct (memset_loop_cases n (d + 1) v (write8 d v m) d) as [H|H]; [exact H|].
    rewrite H. apply read8_write8_eq.
  - replace (d + i) with (d + 1 + (i - 1)) by lia. apply IH. lia.
Qed.

(** The forward loop of [memcpy] copies the source as it was when the
    destination does not start inside the source after its first byte. *)
Lemma memcpy_loop_in n : ∀ d s m i,
  0 <= d -> d + Z.of_nat n <= UINT32_MOD -> 0 <= s -> s + Z.of_nat n <= UINT32_MOD ->
  d <= s ∨ s + Z.of_nat n <= d ->
  0 <= i < Z.of_nat n ->
  read8 (memcpy_loop n d s m) (d + i) = read8 m (s + i).
Proof.
  induction n as [|n IH]; intros d s m i Hd Hdn Hs Hsn Hsafe Hi; [lia|].
  cbn [memcpy_loop].
  destruct (decide (i = 0)) as [->|Hne].
  - rewrite !Z.add_0_r. rewrite memcpy_loop_out by lia.
    rewrite read8_write8_eq. unfold read8. apply u8_u8.
  - replace (d + i) with (d + 1 + (i - 1)) by lia. rewrite IH by lia.
    replace (s + 1 + (i - 1)) with (s + i) by lia.
    apply read8_write8_ne, u32_ne_small; lia.
Qed.

Lemma memcmp_loop_zero n : ∀ p1 p2 m,
  memcmp_loop n p1 p2 m = 0 ↔
  ∀ i, 0 <= i < Z.of_nat n -> read8 m (p1 + i) = read8 m (p2 + i).
Proof.
  induction n as [|n IH]; intros p1 p2 m; cbn [memcmp_loop].
  - split; [intros _ i Hi; lia | done].
  - destruct (read8 m p1 =? read8 m p2) eqn:Hab; cbn [negb].
    + apply Z.eqb_eq in Hab. rewrite IH. split.
      * intros Hrec i Hi. destruct (decide (i = 0)) as [->|Hne].
        -- by rewrite !Z.add_0_r.
        -- specialize (Hrec (i - 1) ltac:(lia)).
           replace (p1 + 1 + (i - 1)) with (p1 + i) in Hrec by lia.
           by replace (p2 + 1 + (i - 1)) with (p2 + i) in Hrec by lia.
      * intros Hall i Hi. specialize (Hall (i + 1) ltac:(lia)).
        replace (p1 + (i + 1)) with (p1 + 1 + i) in Hall by lia.
        by replace (p2 + (i + 1)) with (p2 + 1 + i) in Hall by lia.
    + apply Z.eqb_neq in Hab. split; [lia|].
      intros Hall. specialize (Hall 0 ltac:(lia)). by rewrite !Z.add_0_r in Hall.
Qed.

Lemma memcmp_loop_diff n : ∀ p1 p2 m,
  memcmp_loop n p1 p2 m ≠ 0 ->
  ∃ i, 0 <= i < Z.of_nat n ∧
    (∀ j, 0 <= j < i -> read8 m (p1 + j) = read8 m (p2 + j)) ∧
    read8 m (p1 + i) ≠ read8 m (p2 + i) ∧
    memcmp_loop n p1 p2 m = read8 m (p1 + i) - read8 m (p2 + i).
Proof.
  induction n as [|n IH]; intros p1 p2 m; cbn [memcmp_loop]; [done|].
  destruct (read8 m p1 =? read8 m p2) eqn:Hab; cbn [negb].
  - apply Z.eqb_eq in Hab. intros Hr.
    destruct (IH _ _ _ Hr) as (i & Hi & Hpre & Hne & Heq).
    exists (i + 1). split; [lia|].
    replace (p1 + (i + 1)) with (p1 + 1 + i) by lia.
    replace (p2 + (i + 1)) with (p2 + 1 + i) by lia.
    split; [|by split].
    intros j Hj. destruct (decide (j = 0)) as [->|Hj0].
    + by rewrite !Z.add_0_r.
    + specialize (Hpre (j - 1) ltac:(lia)).
      replace (p1 + 1 + (j - 1)) with (p1 + j) in Hpre by lia.
      by replace (p2 + 1 + (j - 1)) with (p2 + j) in Hpre by lia.
  - apply Z.eqb_neq in Hab. intros _.
    exists 0. rewrite !Z.add_0_r. split; [lia|].
    split; [intros j Hj; lia | done].
Qed.

(** *** Alignment arithmetic *)

Lemma align_down_pow2 k y :
  0 <= k < 32 -> 0 <= y < UINT32_MOD ->
  Z.land y (u32 (Z.lnot (u32 (2 ^ k - 1)))) = 2 ^ k * (y / 2 ^ k).
Proof.
  intros Hk Hy.
  assert (Hpow : 0 < 2 ^ k <= 2 ^ 31).
  { split; [apply Z.pow_pos_nonneg; lia | apply Z.pow_le_mono_r; lia]. }
  rewrite (u32_small (2 ^ k - 1)) by (unfold UINT32_MOD; lia).
  replace (2 ^ k - 1) with (Z.ones k) by (rewrite Z.ones_equiv; lia).
  replace (u32 (Z.lnot (Z.ones k))) with (Z.land (Z.lnot (Z.ones k)) (Z.ones 32))
    by (rewrite Z.land_ones by lia; reflexivity).
  rewrite (Z.land_comm (Z.lnot _)), Z.land_assoc.
  rewrite (Z.land_ones y) by lia.
  rewrite (Z.mod_small y) by (unfold UINT32_MOD in Hy; lia).
  rewrite <- Z.ldiff_land, Z.ldiff_ones_r by lia.
  rewrite Z.shiftl_mul_pow2, Z.shiftr_div_pow2 by lia. lia.
Qed.

Lemma alignment_check_pow2 k :
  0 <= k < 32 ->
  (2 ^ k =? 0) || negb (Z.land (2 ^ k) (u32 (2 ^ k - 1)) =? 0) = false.
Proof.
  intros Hk.
  assert (Hpow : 0 < 2 ^ k <= 2 ^ 31).
  { split; [apply Z.pow_pos_nonneg; lia | apply Z.pow_le_mono_r; lia]. }
  rewrite (u32_small (2 ^ k - 1)) by (unfold UINT32_MOD; lia).
  replace (2 ^ k - 1) with (Z.ones k) by (rewrite Z.ones_equiv; lia).
  rewrite Z.land_ones, Z.mod_same by lia.
  replace (2 ^ k =? 0) with false by (symmetry; apply Z.eqb_neq; lia).
  reflexivity.
Qed.

(** A positive number that is not a power of two shares its top bit with
    its predecessor. *)
Lemma alignment_check_not_pow2 a :
  0 < a < UINT32_MOD -> (∀ k, 0 <= k -> a ≠ 2 ^ k) ->
  Z.land a (u32 (a - 1)) ≠ 0.
Proof.
  intros Ha Hnp. rewrite u32_small by lia.
  pose proof (Z.log2_spec a ltac:(lia)) as Hlog.
  pose proof (Z.log2_nonneg a) as Hk.
  set (k := Z.log2 a) in *.
  assert (Hne : a ≠ 2 ^ k) by (by apply Hnp).
  assert (Hlog' : Z.log2 (a - 1) = k).
  { apply Z.log2_unique; [exact Hk|]. replace (Z.succ k) with (k + 1) in Hlog by lia. lia. }
  intros Hz.
  assert (Hbit : Z.testbit (Z.land a (a - 1)) k = true).
  { rewrite Z.land_spec. unfold k at 1. rewrite Z.bit_log2 by lia.
    rewrite <- Hlog'. rewrite Z.bit_log2; [reflexivity|].
    assert (0 < 2 ^ k) by (apply Z.pow_pos_nonneg; lia). lia. }
  rewrite Hz, Z.bits_0 in Hbit. discriminate.
Qed.

(** *** [kmalloc_aligned] *)

(** X10. In a heap whose block list tiles the arena,
    [kmalloc_aligned(sz, 2^k)] with [sz + 2^k] below 2^31 returns, and a
    non-null result [p] is a multiple of [2^k] that lies inside a used
    block of the list, at least one pointer after the start of its
    payload and with [sz] bytes before its end; the pointer [kmalloc]
    returned for that block is stored in the four bytes below [p], and the
    block list still tiles the arena. *)
Theorem kmalloc_aligned_result s l sz k fuel :
  heap_ok s l -> 0 <= k -> 0 <= sz -> sz + 2 ^ k < 2 ^ 31 -> (length l < fuel)%nat ->
  ∃ p s', kmalloc_aligned fuel sz (2 ^ k) s = Ok p s' ∧
    (p ≠ NULL ->
     p mod 2 ^ k = 0 ∧
     ∃ l' b, heap_ok s' l' ∧ b ∈ l' ∧ bfree b = false ∧
             addr b + HEADER + POINTER <= p ∧
             p + sz <= addr b + HEADER + bsize b ∧
             load32 (memory s') (p - POINTER) = addr b + HEADER).
Proof.
  intros Hok Hk Hsz Hsum Hfuel.
  assert (Hpow : 0 < 2 ^ k) by (apply Z.pow_pos_nonneg; lia).
  assert (Hk31 : k < 31).
  { destruct (decide (k < 31)) as [|Hge]; [done|].
    assert (2 ^ 31 <= 2 ^ k) by (apply Z.pow_le_mono_r; lia). lia. }
  change (2 ^ 31) with 2147483648 in Hsum.
  unfold kmalloc_aligned. rewrite alignment_check_pow2 by lia.
  unfold POINTER.
  rewrite (u32_small (sz + 2 ^ k)) by (unfold UINT32_MOD; lia).
  rewrite (u32_small (sz + 2 ^ k + 4)) by (unfold UINT32_MOD; lia).
  set (total := sz + 2 ^ k + 4).
  destruct (align8_rounds_up total ltac:(lia) ltac:(unfold UINT32_MOD; lia)) as [Hr _].
  destruct (kmalloc_cases s l fuel total Hok Hfuel)
    as [Hnull|(l1 & b & l2 & s1 & -> & _ & _ & Hfit & Hrun1 & Hok1 & _)].
  { rewrite (bind_ok _ _ _ _ _ Hnull). change (NULL =? NULL) with true.
    by exists NULL, s. }
  rewrite (bind_ok _ _ _ _ _ Hrun1).
  pose proof (fits_granted _ _ Hfit) as Hg.
  destruct (split_blk_cons (align8 total) b) as (rest & _ & Hal).
  rewrite Hal in Hok1. cbn [app] in Hok1.
  destruct (heap_ok_focus _ _ _ _ Hok1) as (Hlo & Hup & _ & Hb).
  cbn [addr bsize bfree] in Hlo, Hup, Hb.
  set (raw := addr b + HEADER) in *.
  assert (Hraw : KERNEL_HEAP_START + 16 <= raw <= KERNEL_HEAP_START + KERNEL_HEAP_SIZE)
    by (subst raw; unfold HEADER in *; lia).
  replace (raw =? NULL) with false
    by (symmetry; apply Z.eqb_neq; unfold KERNEL_HEAP_START, NULL in *; lia).
  unfold KERNEL_HEAP_START, KERNEL_HEAP_SIZE in Hraw.
  rewrite (u32_small (raw + 4)) by (unfold UINT32_MOD; lia).
  rewrite (u32_small (raw + 4 + 2 ^ k)) by (unfold UINT32_MOD; lia).
  rewrite (u32_small (raw + 4 + 2 ^ k - 1)) by (unfold UINT32_MOD; lia).
  rewrite align_down_pow2 by (unfold UINT32_MOD; lia).
  set (y := raw + 4 + 2 ^ k - 1).
  set (p := 2 ^ k * (y / 2 ^ k)).
  assert (Hp : raw + 4 <= p <= y).
  { subst p. pose proof (Z.mul_div_le y (2 ^ k) Hpow).
    pose proof (Z.mod_pos_bound y (2 ^ k) Hpow).
    pose proof (Z.div_mod y (2 ^ k) ltac:(lia)). subst y. lia. }
  unfold store_pointer. unfold bind at 1.
  eexists p, _. split; [reflexivity|]. intros _. split.
  { subst p. rewrite Z.mul_comm. apply Z.mod_mul. lia. }
  set (u := mk_blk (addr b) (granted (align8 total) b) false) in *.
  assert (Hu : u ∈ l1 ++ u :: rest ++ l2)
    by (apply elem_of_app; right; apply list_elem_of_here).
  eexists _, u. split; [|split; [exact Hu|]].
  - pose proof Hok1 as (Hstart & Hsize & (_ & Hc) & Ht).
    apply (heap_ok_set_memory s1 _ _ _ Hok1); [by destruct l1| |exact Ht].
    apply (chain_payload_write (memory s1) _ _ (heap_start s1)
             (heap_start s1 + heap_size s1) u (p - 4) 4 Hc Ht);
      [rewrite Hstart; addr_lia | rewrite Hstart, Hsize; addr_lia | exact Hu
      | cbn [addr u]; fold raw; lia
      | cbn [addr bsize u]; fold raw; subst y total; lia |].
    intros q Hq Hout. apply read8_store32_out; unfold UINT32_MOD in *; lia.
  - split; [reflexivity|]. cbn [addr bsize u memory set_memory]. fold raw.
    split; [lia|]. split; [subst y total; lia|].
    rewrite load32_store32_eq. apply u32_small. unfold UINT32_MOD. lia.
Qed.

Lemma kmalloc_aligned_result_witness :
  ∃ p s', kmalloc_aligned 4 100 (2 ^ 6) sample_heap = Ok p s' ∧
    (p ≠ NULL ->
     p mod 2 ^ 6 = 0 ∧
     ∃ l' b, heap_ok s' l' ∧ b ∈ l' ∧ bfree b = false ∧
             addr b + HEADER + POINTER <= p ∧
             p + 100 <= addr b + HEADER + bsize b ∧
             load32 (memory s') (p - POINTER) = addr b + HEADER).
Proof.
  apply (kmalloc_aligned_result sample_heap _ 100 6 4 sample_heap_ok);
    [lia | lia | reflexivity | cbn [length]; lia].
Defined.

(** X11. [kmalloc_aligned] refuses every alignment that is not a power
    of two, zero included: it returns the null pointer and leaves the
    heap as it was. *)
Theorem kmalloc_aligned_rejects_bad_alignment fuel sz alignment s :
  0 <= alignment < UINT32_MOD -> (∀ k, 0 <= k -> alignment ≠ 2 ^ k) ->
  kmalloc_aligned fuel sz alignment s = Ok NULL s.
Proof.
  intros Ha Hnp. unfold kmalloc_aligned.
  destruct (alignment =? 0) eqn:Hz; [reflexivity|].
  apply Z.eqb_neq in Hz. cbn [orb].
  pose proof (alignment_check_not_pow2 alignment ltac:(lia) Hnp) as Hland.
  rewrite (proj2 (Z.eqb_neq _ _) Hland). reflexivity.
Qed.

Lemma kmalloc_aligned_rejects_bad_alignment_witness :
  kmalloc_aligned 4 100 24 sample_heap = Ok NULL sample_heap.
Proof.
  apply kmalloc_aligned_rejects_bad_alignment; [unfold UINT32_MOD; lia|].
  intros k Hk Heq.
  destruct (decide (k <= 4)) as [Hle|Hgt].
  - assert (k = 0 ∨ k = 1 ∨ k = 2 ∨ k = 3 ∨ k = 4) as [->|[->|[->|[->| ->]]]] by lia;
      discriminate.
  - assert (2 ^ 5 <= 2 ^ k) by (apply Z.pow_le_mono_r; lia).
    change (2 ^ 5) with 32 in *. lia.
Defined.

(** *** Contents of memory *)

(** X12. [memcmp] returns 0 exactly when the two ranges hold the same
    bytes; a non-zero result is the difference of the bytes at the first
    position where the ranges differ, first minus second. *)
Theorem memcmp_compares_bytes ptr1 ptr2 count s :
  (memcmp ptr1 ptr2 count s = 0 ↔
   ∀ i, 0 <= i < count -> read8 (memory s) (ptr1 + i) = read8 (memory s) (ptr2 + i)) ∧
  (memcmp ptr1 ptr2 count s ≠ 0 ->
   ∃ i, 0 <= i < count ∧
     (∀ j, 0 <= j < i -> read8 (memory s) (ptr1 + j) = read8 (memory s) (ptr2 + j)) ∧
     read8 (memory s) (ptr1 + i) ≠ read8 (memory s) (ptr2 + i) ∧
     memcmp ptr1 ptr2 count s
     = read8 (memory s) (ptr1 + i) - read8 (memory s) (ptr2 + i)).
Proof.
  unfold memcmp. split.
  - rewrite memcmp_loop_zero. split; intros H i Hi; apply H; lia.
  - intros Hr. destruct (memcmp_loop_diff _ _ _ _ Hr) as (i & Hi & H).
    exists i. split; [lia | exact H].
Qed.

(** Two bytes of one block, 7 and 9: the first differs, by -2. *)
Example memcmp_first_minus_second : memcmp 2097504 2097505 2 sample_heap_written = -2.
Proof. vm_compute. reflexivity. Qed.

(** X13. [memcpy(dest, src, count)] between two ranges of the address
    space that do not overlap returns, and after it [memcmp] of the two
    ranges is 0 and the source is unchanged. *)
Theorem memcpy_then_memcmp_is_zero dest src count s :
  0 <= count -> 0 <= dest -> dest + count <= UINT32_MOD ->
  0 <= src -> src + count <= UINT32_MOD ->
  src + count <= dest ∨ dest + count <= src ->
  ∃ s', memcpy dest src count s = Ok tt s' ∧
        memcmp dest src count s' = 0 ∧
        ∀ i, 0 <= i < count -> read8 (memory s') (src + i) = read8 (memory s) (src + i).
Proof.
  intros Hc Hd Hdn Hs Hsn Hdis. eexists. split; [reflexivity|].
  cbn [memory set_memory].
  assert (Hout : ∀ i, 0 <= i < count ->
            read8 (memcpy_loop (Z.to_nat count) dest src (memory s)) (src + i)
            = read8 (memory s) (src + i)).
  { intros i Hi. apply memcpy_loop_out; unfold UINT32_MOD in *; lia. }
  split; [|exact Hout].
  unfold memcmp. apply memcmp_loop_zero. intros i Hi. cbn [memory set_memory].
  rewrite Hout by lia. apply memcpy_loop_in; lia.
Qed.

Lemma memcpy_then_memcmp_is_zero_witness :
  ∃ s', memcpy 2097528 2097504 2 sample_heap_written = Ok tt s' ∧
        memcmp 2097528 2097504 2 s' = 0 ∧
        ∀ i, 0 <= i < 2 ->
          read8 (memory s') (2097504 + i) = read8 (memory sample_heap_written) (2097504 + i).
Proof.
  apply (memcpy_then_memcmp_is_zero 2097528 2097504 2 sample_heap_written);
    unfold UINT32_MOD; lia.
Defined.

(** X14. [kcalloc] hands out zeroed memory: from any state, when
    [kcalloc(count, sz)] with [0 < count] returns a non-null pointer, the
    product [count * sz] has not overflowed and each of the [count * sz]
    bytes from that pointer on reads 0. *)
Theorem kcalloc_zero_fills s fuel count sz p s' :
  0 < count -> 0 <= sz ->
  kcalloc fuel count sz s = Ok p s' -> p ≠ NULL ->
  count * sz < UINT32_MOD ∧
  ∀ i, 0 <= i < count * sz -> read8 (memory s') (p + i) = 0.
Proof.
  intros Hc Hsz Hrun Hp. unfold kcalloc in Hrun.
  rewrite (proj2 (Z.eqb_neq _ _)) in Hrun by lia.
  destruct (u32 (count * sz) / count =? sz) eqn:Hdiv; cbn [negb] in Hrun;
    [|by injection Hrun as <- _].
  apply Z.eqb_eq in Hdiv.
  assert (Hprod : u32 (count * sz) = count * sz).
  { pose proof (u32_range (count * sz)) as Hrange.
    pose proof (Z.mul_div_le (u32 (count * sz)) count Hc) as Hle. rewrite Hdiv in Hle.
    pose proof (Z.mod_le (count * sz) UINT32_MOD ltac:(nia) ltac:(unfold UINT32_MOD; lia)).
    unfold u32 in *. lia. }
  pose proof (u32_range (count * sz)) as Hrange. rewrite Hprod in Hrun, Hrange.
  split; [lia|]. intros i Hi.
  apply bind_inv in Hrun as (ptr & s1 & Hk & Hrun).
  apply bind_inv in Hrun as (u & s2 & Hset & [= <- <-]).
  rewrite (proj2 (negb_true_iff _) (proj2 (Z.eqb_neq _ _) Hp)) in Hset.
  cbn [when] in Hset. unfold memset in Hset. injection Hset as Hset. subst s2.
  cbn [memory set_memory]. rewrite memset_loop_in by lia. reflexivity.
Qed.

Lemma kcalloc_zero_fills_witness :
  ∃ s', kcalloc 4 3 8 sample_heap = Ok 2097504 s' ∧
        3 * 8 < UINT32_MOD ∧
        ∀ i, 0 <= i < 3 * 8 -> read8 (memory s') (2097504 + i) = 0.
Proof.
  eexists. split; [vm_compute; reflexivity|].
  apply (kcalloc_zero_fills sample_heap 4 3 8 2097504);
    [lia | lia | vm_compute; reflexivity | discriminate].
Defined.

(** X15. [krealloc] keeps the contents when it has to move a block: in
    a heap whose block list tiles the arena, whatever the payloads hold,
    when a block of the list is grown beyond its size to a new size of at
    most 2^32 - 8 and the call returns a non-null pointer, the bytes of
    the old payload are found at the same offsets from the new pointer. *)
Theorem krealloc_grow_keeps_contents s fuel l b new_size p' s' i :
  heap_ok s l -> b ∈ l ->
  bsize b < new_size -> new_size + 7 < UINT32_MOD ->
  krealloc fuel (addr b + HEADER) new_size s = Ok p' s' -> p' ≠ NULL ->
  0 <= i < bsize b ->
  read8 (memory s') (p' + i) = read8 (memory s) (addr b + HEADER + i).
Proof.
  intros Hok Hin Hgrow Hmax Hrun Hp' Hi.
  apply (krealloc_mono fuel (fuel + length l + 3)) in Hrun; [|lia].
  set (F := (fuel + length l + 3)%nat) in *.
  pose proof Hin as (l1 & l2 & ->)%list_elem_of_split.
  destruct (heap_ok_focus _ _ _ _ Hok) as (Hlo & Hup & Hbs & Hb).
  destruct (block_of_payload _ _ _ _ Hok) as [Hnull Hblock].
  unfold krealloc in Hrun. rewrite Hnull, Hblock in Hrun.
  replace (new_size =? 0) with false in Hrun by (symmetry; apply Z.eqb_neq; lia).
  rewrite bind_load, Hb in Hrun. cbn [size] in Hrun.
  replace (new_size <=? bsize b) with false in Hrun by (symmetry; apply Z.leb_gt; lia).
  apply bind_inv in Hrun as (np & s1 & Hk & Hrun).
  apply bind_inv in Hrun as (u & s2 & Hrun & [= <- <-]).
  destruct (align8_rounds_up new_size ltac:(lia) Hmax) as [Hr _].
  destruct (kmalloc_cases s (l1 ++ b :: l2) F new_size Hok)
    as [Hnull'|(k1 & b0 & k2 & s1' & Hl & _ & _ & Hfit & Hk' & Hok1 & Hout1 & _)];
    [subst F; lia | congruence |].
  rewrite Hk' in Hk. injection Hk as <- <-.
  pose proof (fits_granted _ _ Hfit) as Hg.
  destruct (split_blk_cons (align8 new_size) b0) as (rest & _ & Hal).
  rewrite Hal in Hok1, Hout1. cbn [app] in Hok1, Hout1.
  set (u0 := mk_blk (addr b0) (granted (align8 new_size) b0) false) in *.
  set (l' := k1 ++ u0 :: rest ++ k2) in *.
  assert (Hu0 : u0 ∈ l') by (apply elem_of_app; right; apply list_elem_of_here).
  rewrite (proj2 (negb_true_iff _) (proj2 (Z.eqb_neq _ _) Hp')) in Hrun.
  cbn [when] in Hrun.
  (* where the old block is, relative to the new one *)
  assert (Hpos : b ∈ k1 ∨ b ∈ k2).
  { assert (Hb_in : b ∈ k1 ++ b0 :: k2) by (by rewrite <- Hl).
    apply elem_of_app in Hb_in as [?|Hb_in]; [by left|].
    apply elem_of_cons in Hb_in as [->|?]; [|by right].
    unfold fits in Hfit. apply andb_true_iff in Hfit as [_ Hfit%Z.leb_le]. lia. }
  assert (Hsafe : addr b0 + HEADER <= addr b + HEADER ∨
                  addr b + HEADER + bsize b <= addr b0 + HEADER).
  { pose proof Hok as (Hstart & _ & _ & Ht). rewrite Hl in Ht.
    destruct (tiles_focus _ _ _ _ _ Ht) as (_ & Hs0 & _ & _ & _ & Hbefore & Hafter).
    destruct Hpos as [Hk1|Hk2].
    - destruct (Hbefore _ Hk1) as (_ & _ & H). right. unfold HEADER in *. lia.
    - destruct (Hafter _ Hk2) as (H & _). left. unfold HEADER in *. lia. }
  assert (Hin1 : b ∈ l').
  { destruct Hpos as [?|?]; [apply elem_of_app; by left|].
    apply elem_of_app. right. apply elem_of_cons. right. apply elem_of_app. by right. }
  pose proof Hin1 as (la & lb & Hsplit)%list_elem_of_split.
  pose proof Hok1 as Hok1'. rewrite Hsplit in Hok1'.
  destruct (heap_ok_focus _ _ _ _ Hok1') as (_ & _ & _ & Hb').
  destruct (heap_ok_focus _ _ _ _ Hok1) as (Hlo0 & Hup0 & _).
  cbn [addr bsize u0] in Hlo0, Hup0.
  rewrite bind_load, Hb' in Hrun. cbn [size] in Hrun.
  replace (bsize b <? new_size) with true in Hrun by (symmetry; apply Z.ltb_lt; lia).
  unfold memcpy in Hrun. unfold bind at 1 in Hrun.
  match type of Hrun with kfree _ _ ?x = _ => set (s3 := x) in * end.
  pose proof Hok1 as (Hstart & Hsize & (_ & Hc1) & Ht1).
  assert (Ha0 : 0 < heap_start s1') by (rewrite Hstart; addr_lia).
  assert (Hhi : heap_start s1' + heap_size s1' <= UINT32_MOD)
    by (rewrite Hstart, Hsize; addr_lia).
  rewrite Hstart, Hsize in Ht1.
  unfold KERNEL_HEAP_START, KERNEL_HEAP_SIZE, HEADER in Hlo, Hup, Hlo0, Hup0, Hsafe.
  assert (Hok3 : heap_ok s3 l').
  { apply (heap_ok_set_memory s1' _ _ _ Hok1); [subst l'; by destruct k1| |apply Hok1].
    apply (chain_payload_write (memory s1') _ _ (heap_start s1')
             (heap_start s1' + heap_size s1') u0 (addr b0 + HEADER) (bsize b) Hc1
             (proj2 (proj2 (proj2 Hok1))) Ha0 Hhi Hu0);
      [cbn [addr u0]; lia | cbn [addr bsize u0]; lia |].
    intros q Hq Hout. apply memcpy_loop_out; unfold HEADER, UINT32_MOD in *; lia. }
  assert (Hfree : read8 (memory s2) (addr b0 + HEADER + i)
                  = read8 (memory s3) (addr b0 + HEADER + i)).
  { destruct (kfree_cases s3 l' F (addr b + HEADER) Hok3)
      as [Hsame|(x1 & x & x2 & s4 & Hx & _ & _ & Hrun4 & _ & Hout4 & _)].
    - right. exists l', b. split; [apply Hok3|]. by split.
    - pose proof (length_allocate_in (align8 new_size) b0) as Hlen.
      rewrite Hal in Hlen. apply (f_equal length) in Hl. subst F l'.
      rewrite !length_app in *. cbn [length] in *. rewrite length_app. lia.
    - assert (s2 = s3) as -> by congruence. reflexivity.
    - assert (s2 = s4) as -> by congruence. rewrite <- Hx in Hout4.
      apply Hout4; [unfold HEADER, UINT32_MOD; lia|].
      apply (tiles_payload_outside _ _ _ u0 _ Ht1 Hu0). cbn [addr bsize u0].
      unfold HEADER. lia. }
  rewrite Hfree. subst s3. cbn [memory set_memory].
  rewrite memcpy_loop_in by (unfold HEADER, UINT32_MOD; lia).
  apply Hout1; [unfold HEADER, UINT32_MOD; lia|].
  apply (tiles_payload_outside _ _ _ b _ Ht1 Hin1). unfold HEADER. lia.
Qed.

Lemma krealloc_grow_keeps_contents_witness :
  ∃ s', krealloc 5 2097504 64 sample_heap_written = Ok 2097528 s' ∧
        read8 (memory s') (2097528 + 1) = read8 (memory sample_heap_written) (2097504 + 1) ∧
        read8 (memory s') (2097528 + 1) = 9.
Proof.
  eexists. split; [vm_compute; reflexivity|]. split; [|vm_compute; reflexivity].
  apply (krealloc_grow_keeps_contents sample_heap_written 5 _ (mk_blk 2097488 8 false) 64
           2097528 _ 1 sample_heap_written_ok);
    [do 2 apply list_elem_of_further; apply list_elem_of_here | cbn; lia
    | unfold UINT32_MOD; lia | vm_compute; reflexivity | discriminate | cbn; lia].
Defined.

End MmAuxFacts.
(** ** VGA text terminal and number output *)

Module TerminalFacts.
Import Terminal.

(** *** Characters *)

Lemma code_range c : 0 <= code c < 256.
Proof.
  unfold code. pose proof (N_ascii_bounded c) as H.
  destruct c as [[] [] [] [] [] [] [] []]; cbn; lia.
Qed.

Lemma code_inj c c' : code c = code c' -> c = c'.
Proof.
  unfold code. intros H%(inj Z.of_N).
  rewrite <- (ascii_N_embedding c), <- (ascii_N_embedding c'). by rewrite H.
Qed.

Lemma code_zero : code zero = 0.
Proof. reflexivity. Qed.

Lemma code_char_of z : 0 <= z < 256 -> code (char_of z) = z.
Proof.
  intros Hz. unfold code, char_of. rewrite Z.mod_small by lia.
  rewrite N_ascii_embedding by lia. lia.
Qed.

(** *** The cursor *)

Lemma next_row_spec t :
  0 <= terminal_row t < VGA_HEIGHT ->
  next_row t = set_row ((terminal_row t + 1) mod VGA_HEIGHT) t.
Proof.
  intros Hr. unfold next_row, VGA_HEIGHT in *. cbn [terminal_row set_row].
  rewrite MmFacts.u32_small by (unfold UINT32_MOD; lia).
  destruct (terminal_row t + 1 =? 25) eqn:He.
  - apply Z.eqb_eq in He. rewrite He. reflexivity.
  - apply Z.eqb_neq in He. rewrite Z.mod_small by lia. reflexivity.
Qed.

(** What [terminal_putchar] does with a character other than a newline,
    in terms of the cell index of the cursor. *)
Lemma terminal_putchar_cell c t :
  c ≠ newline_char ->
  0 <= terminal_row t < VGA_HEIGHT -> 0 <= terminal_column t < VGA_WIDTH ->
  let t' := terminal_putchar c t in
  terminal_buffer t' = <[cursor t := vga_entry (code c) (terminal_color t)]> (terminal_buffer t) ∧
  terminal_color t' = terminal_color t ∧
  0 <= terminal_row t' < VGA_HEIGHT ∧ 0 <= terminal_column t' < VGA_WIDTH ∧
  cursor t' = (cursor t + 1) mod (VGA_WIDTH * VGA_HEIGHT).
Proof.
  intros Hc Hr Hcol. unfold terminal_putchar. rewrite decide_False by exact Hc.
  unfold terminal_putentryat, cursor, VGA_WIDTH, VGA_HEIGHT in *.
  cbn [terminal_row terminal_column terminal_color terminal_buffer set_buffer set_column].
  rewrite (MmFacts.u32_small (terminal_row t * 80)) by (unfold UINT32_MOD; lia).
  rewrite (MmFacts.u32_small (terminal_row t * 80 + _)) by (unfold UINT32_MOD; lia).
  rewrite (MmFacts.u32_small (terminal_column t + 1)) by (unfold UINT32_MOD; lia).
  destruct (terminal_column t + 1 =? 80) eqn:He.
  - apply Z.eqb_eq in He. rewrite next_row_spec by (cbn; unfold VGA_HEIGHT; lia).
    unfold VGA_HEIGHT. cbn [terminal_row terminal_column terminal_color terminal_buffer
                            set_row set_column set_buffer].
    split; [reflexivity|]. split; [reflexivity|].
    pose proof (Z.mod_pos_bound (terminal_row t + 1) 25 ltac:(lia)).
    split; [lia|]. split; [lia|].
    destruct (decide (terminal_row t + 1 = 25)) as [H25|H25].
    + rewrite H25, Z.mod_same by lia.
      replace (terminal_row t * 80 + terminal_column t + 1) with (80 * 25) by lia.
      rewrite Z.mod_same by lia. reflexivity.
    + rewrite (Z.mod_small (terminal_row t + 1)) by lia.
      rewrite Z.mod_small by lia. lia.
  - apply Z.eqb_neq in He.
    cbn [terminal_row terminal_column terminal_color terminal_buffer
         set_row set_column set_buffer].
    split; [reflexivity|]. split; [reflexivity|]. split; [lia|]. split; [lia|].
    rewrite Z.mod_small by lia. lia.
Qed.

Lemma terminal_putchar_newline t :
  0 <= terminal_row t < VGA_HEIGHT ->
  terminal_putchar newline_char t
  = mk_terminal ((terminal_row t + 1) mod VGA_HEIGHT) 0 (terminal_color t) (terminal_buffer t).
Proof.
  intros Hr. unfold terminal_putchar. rewrite decide_True by reflexivity.
  rewrite next_row_spec by exact Hr. reflexivity.
Qed.

Lemma cursor_range t :
  0 <= terminal_row t < VGA_HEIGHT -> 0 <= terminal_column t < VGA_WIDTH ->
  0 <= cursor t < VGA_WIDTH * VGA_HEIGHT.
Proof. unfold cursor, VGA_WIDTH, VGA_HEIGHT. lia. Qed.

Lemma terminal_putchar_on_screen c t : on_screen t -> on_screen (terminal_putchar c t).
Proof.
  intros (Hr & Hc & Hb). destruct (decide (c = newline_char)) as [->|Hne].
  - rewrite terminal_putchar_newline by exact Hr. unfold on_screen.
    cbn [terminal_row terminal_column terminal_buffer].
    pose proof (Z.mod_pos_bound (terminal_row t + 1) VGA_HEIGHT ltac:(done)).
    split; [lia|]. split; [done | exact Hb].
  - destruct (terminal_putchar_cell c t Hne Hr Hc) as (Hbuf & _ & Hr' & Hc' & _).
    split; [exact Hr'|]. split; [exact Hc'|]. intros k. rewrite Hbuf.
    destruct (decide (k = cursor t)) as [->|Hk].
    + intros _. by apply cursor_range.
    + rewrite lookup_insert_ne by congruence. apply Hb.
Qed.

Lemma write_chars_on_screen cs : ∀ t,
  on_screen t -> on_screen (foldl (fun t c => terminal_putchar c t) t cs).
Proof.
  induction cs as [|c cs IH]; intros t Ht; [exact Ht|].
  cbn [foldl]. apply IH. by apply terminal_putchar_on_screen.
Qed.

(** *** Writing text *)

(** The cells written by a run of characters without a newline, and
    where the cursor ends up. *)
Lemma write_chars_spec cs : ∀ t,
  on_screen t -> Forall (fun c => c ≠ newline_char) cs ->
  Z.of_nat (length cs) <= VGA_WIDTH * VGA_HEIGHT ->
  let t' := foldl (fun t c => terminal_putchar c t) t cs in
  cursor t' = (cursor t + Z.of_nat (length cs)) mod (VGA_WIDTH * VGA_HEIGHT) ∧
  terminal_color t' = terminal_color t ∧
  ∀ k, 0 <= k < VGA_WIDTH * VGA_HEIGHT ->
    terminal_buffer t' !! k
    = match cs !! Z.to_nat ((k - cursor t) mod (VGA_WIDTH * VGA_HEIGHT)) with
      | Some c => Some (vga_entry (code c) (terminal_color t))
      | None => terminal_buffer t !! k
      end.
Proof.
  induction cs as [|c cs IH]; intros t Ht Hnl Hlen.
  - cbn [foldl length]. pose proof Ht as (Hr & Hc & _).
    pose proof (cursor_range t Hr Hc).
    split; [rewrite Z.add_0_r, Z.mod_small by lia; reflexivity|].
    split; [reflexivity|]. intros k Hk. by rewrite lookup_nil.
  - apply Forall_cons in Hnl as [Hc Hnl]. cbn [foldl length] in *.
    pose proof Ht as (Hr & Hcol & _).
    destruct (terminal_putchar_cell c t Hc Hr Hcol) as (Hbuf & Hcolor & Hr' & Hc' & Hcur).
    pose proof (terminal_putchar_on_screen c t Ht) as Ht1.
    set (t1 := terminal_putchar c t) in *.
    destruct (IH t1 Ht1 Hnl ltac:(lia)) as (IHcur & IHcolor & IHbuf).
    pose proof (cursor_range t Hr Hcol) as Hrange.
    unfold VGA_WIDTH, VGA_HEIGHT in *. change (80 * 25) with 2000 in *.
    split; [|split; [congruence|]].
    { rewrite IHcur, Hcur. rewrite Zplus_mod_idemp_l. f_equal. lia. }
    intros k Hk. rewrite (IHbuf k Hk), Hcur, Hcolor.
    set (j := (k - cursor t) mod 2000).
    pose proof (Z.mod_pos_bound (k - cursor t) 2000 ltac:(lia)) as Hj. fold j in Hj.
    destruct (decide (k = cursor t)) as [->|Hne].
    + assert (j = 0) as -> by (subst j; rewrite Z.sub_diag; reflexivity).
      cbn [Z.to_nat lookup list_lookup].
      replace ((cursor t - (cursor t + 1) mod 2000) mod 2000) with 1999.
      * rewrite (lookup_ge_None_2 cs) by lia. rewrite Hbuf. apply lookup_insert_eq.
      * destruct (decide (cursor t + 1 = 2000)) as [He|He].
        -- replace (cursor t) with 1999 by lia. reflexivity.
        -- rewrite (Z.mod_small (cursor t + 1)) by lia.
           apply (Z.mod_unique _ _ (-1)); lia.
    + assert (Hj0 : 0 < j).
      { destruct (decide (j = 0)) as [Hz|]; [|lia]. exfalso. subst j.
        apply Z.mod_divide in Hz as [q Hq]; [|lia]. lia. }
      replace ((k - (cursor t + 1) mod 2000) mod 2000) with (j - 1).
      * replace (Z.to_nat j) with (S (Z.to_nat (j - 1))) by lia.
        cbn [lookup list_lookup]. destruct (cs !! Z.to_nat (j - 1)); [reflexivity|].
        rewrite Hbuf. apply lookup_insert_ne. congruence.
      * subst j. rewrite Zminus_mod_idemp_r.
        replace (k - (cursor t + 1)) with (k - cursor t - 1) by lia.
        rewrite <- (Zminus_mod_idemp_l (k - cursor t) 1).
        symmetry. apply Z.mod_small. lia.
Qed.

(** *** [terminal_initialize] *)

Lemma fill_row_spec c color y n : ∀ a t,
  0 <= y < VGA_HEIGHT -> (a + n <= 80)%nat ->
  let t' := foldl (fun t x => terminal_putentryat c color (Z.of_nat x) y t) t (seq a n) in
  terminal_row t' = terminal_row t ∧ terminal_column t' = terminal_column t ∧
  terminal_color t' = terminal_color t ∧
  ∀ k, terminal_buffer t' !! k
       = if decide (y * VGA_WIDTH + Z.of_nat a <= k < y * VGA_WIDTH + Z.of_nat (a + n))
         then Some (vga_entry (code c) color) else terminal_buffer t !! k.
Proof.
  induction n as [|n IH]; intros a t Hy Han.
  - cbn [seq foldl]. repeat split. intros k. rewrite decide_False by lia. reflexivity.
  - cbn [seq foldl].
    destruct (IH (S a) (terminal_putentryat c color (Z.of_nat a) y t) Hy ltac:(lia))
      as (H1 & H2 & H3 & H4).
    split; [exact H1|]. split; [exact H2|]. split; [exact H3|].
    intros k. rewrite H4. unfold terminal_putentryat, VGA_WIDTH, VGA_HEIGHT in *.
    cbn [terminal_buffer set_buffer].
    rewrite (MmFacts.u32_small (y * 80)) by (unfold UINT32_MOD; lia).
    rewrite MmFacts.u32_small by (unfold UINT32_MOD; lia).
    destruct (decide (y * 80 + Z.of_nat (S a) <= k < y * 80 + Z.of_nat (S a + n))) as [H|H];
      destruct (decide (y * 80 + Z.of_nat a <= k < y * 80 + Z.of_nat (a + S n))) as [H'|H'];
      try lia; try reflexivity.
    + assert (k = y * 80 + Z.of_nat a) as -> by lia. apply lookup_insert_eq.
    + apply lookup_insert_ne. lia.
Qed.

Lemma fill_rows_spec c color m : ∀ b t,
  (b + m <= 25)%nat ->
  let t' := foldl (fun t y =>
                     foldl (fun t x => terminal_putentryat c color (Z.of_nat x) (Z.of_nat y) t)
                           t (seq 0 80))
                  t (seq b m) in
  terminal_row t' = terminal_row t ∧ terminal_column t' = terminal_column t ∧
  terminal_color t' = terminal_color t ∧
  ∀ k, terminal_buffer t' !! k
       = if decide (Z.of_nat b * VGA_WIDTH <= k < Z.of_nat (b + m) * VGA_WIDTH)
         then Some (vga_entry (code c) color) else terminal_buffer t !! k.
Proof.
  induction m as [|m IH]; intros b t Hbm.
  - cbn [seq foldl]. repeat split. intros k. rewrite decide_False by lia. reflexivity.
  - cbn [seq foldl].
    destruct (fill_row_spec c color (Z.of_nat b) 80 0 t) as (R1 & R2 & R3 & R4);
      [unfold VGA_HEIGHT; lia | lia |].
    cbv zeta in R1, R2, R3, R4.
    set (t1 := foldl _ t (seq 0 80)) in *.
    destruct (IH (S b) t1 ltac:(lia)) as (H1 & H2 & H3 & H4).
    split; [exact (eq_trans H1 R1)|]. split; [exact (eq_trans H2 R2)|].
    split; [exact (eq_trans H3 R3)|].
    intros k. rewrite H4, R4. unfold VGA_WIDTH.
    destruct (decide (Z.of_nat (S b) * 80 <= k < Z.of_nat (S b + m) * 80)) as [H|H];
      destruct (decide (Z.of_nat b * 80 <= k < Z.of_nat (b + S m) * 80)) as [H'|H'];
      destruct (decide (Z.of_nat b * 80 + Z.of_nat 0 <= k
                        < Z.of_nat b * 80 + Z.of_nat (0 + 80))) as [H''|H''];
      try lia; reflexivity.
Qed.

(** *** Strings *)

Lemma strlen_nonzero cs :
  Forall (fun c => c ≠ zero) cs ->
  ∀ rest, strlen (string_of_list_ascii (cs ++ zero :: rest)) = Z.of_nat (length cs).
Proof.
  induction 1 as [|c cs Hc _ IH]; intros rest; cbn [app string_of_list_ascii strlen length].
  - rewrite decide_True by reflexivity. reflexivity.
  - rewrite decide_False by exact Hc. rewrite IH. lia.
Qed.

Lemma strlen_no_nul cs :
  Forall (fun c => c ≠ zero) cs ->
  strlen (string_of_list_ascii cs) = Z.of_nat (length cs).
Proof.
  induction 1 as [|c cs Hc _ IH]; cbn [string_of_list_ascii strlen length]; [reflexivity|].
  rewrite decide_False by exact Hc. rewrite IH. lia.
Qed.

(** Writing a NUL-terminated buffer writes the characters before the
    NUL. *)
Lemma terminal_writestring_buffer cs rest t :
  Forall (fun c => c ≠ zero) cs ->
  terminal_writestring (string_of_list_ascii (cs ++ zero :: rest)) t
  = foldl (fun t c => terminal_putchar c t) t cs.
Proof.
  intros Hcs. unfold terminal_writestring, terminal_write.
  rewrite strlen_nonzero by exact Hcs.
  rewrite list_ascii_of_string_of_list_ascii, Nat2Z.id.
  by rewrite take_app_length.
Qed.

Lemma strcmp_zero_iff str1 : ∀ str2, strcmp str1 str2 = 0 ↔ c_str str1 = c_str str2.
Proof.
  induction str1 as [|c str1 IH]; intros str2; cbn [strcmp c_str].
  - rewrite code_zero. destruct str2 as [|d str2]; cbn [head_char c_str].
    + rewrite code_zero. done.
    + destruct (decide (d = zero)) as [->|Hd].
      * rewrite code_zero. done.
      * split; [|done]. intros H. exfalso. apply Hd, code_inj. rewrite code_zero. lia.
  - destruct (decide (c ≠ zero ∧ c = head_char str2)) as [[Hc Hh]|Hn].
    + destruct str2 as [|d str2]; cbn [head_char tail_string c_str] in *; [done|].
      subst d. rewrite !decide_False by exact Hc. rewrite IH.
      split; [by intros -> | by intros [= ->]].
    + destruct (decide (c = zero)) as [->|Hc].
      * rewrite code_zero.
        destruct str2 as [|d str2]; cbn [head_char c_str]; [by rewrite code_zero|].
        destruct (decide (d = zero)) as [->|Hd]; [by rewrite code_zero|].
        split; [|done]. intros H. exfalso. apply Hd, code_inj. rewrite code_zero. lia.
      * split.
        -- intros H. exfalso. apply Hn. split; [exact Hc|]. apply code_inj. lia.
        -- destruct str2 as [|d str2]; cbn [head_char c_str] in *; [done|].
           destruct (decide (d = zero)); [done|]. intros [= ->]. exfalso. by apply Hn.
Qed.

Lemma strcmp_antisym str1 : ∀ str2, strcmp str2 str1 = - strcmp str1 str2.
Proof.
  induction str1 as [|c str1 IH]; intros str2.
  - destruct str2 as [|d str2]; cbn [strcmp head_char]; [reflexivity|].
    rewrite decide_False; [lia|]. intros [Hd ->]. done.
  - destruct str2 as [|d str2]; cbn [strcmp head_char tail_string].
    + rewrite decide_False; [lia|]. intros [Hc ->]. done.
    + destruct (decide (d ≠ zero ∧ d = c)) as [[Hd ->]|Hn].
      * rewrite decide_True by done. apply IH.
      * rewrite decide_False; [lia|]. intros [Hc ->]. by apply Hn.
Qed.

(** *** Digits *)

Lemma hex_digit_round_trip d :
  0 <= d < 16 -> digit_of 16 (nth (Z.to_nat d) hex_digits zero) = Some d ∧
                 nth (Z.to_nat d) hex_digits zero ≠ zero ∧
                 nth (Z.to_nat d) hex_digits zero ≠ newline_char.
Proof.
  intros Hd.
  assert (d = 0 ∨ d = 1 ∨ d = 2 ∨ d = 3 ∨ d = 4 ∨ d = 5 ∨ d = 6 ∨ d = 7 ∨ d = 8 ∨
          d = 9 ∨ d = 10 ∨ d = 11 ∨ d = 12 ∨ d = 13 ∨ d = 14 ∨ d = 15) as H by lia.
  repeat (destruct H as [->|H]; [by vm_compute|]). subst d. by vm_compute.
Qed.

Lemma dec_digit_round_trip d :
  0 <= d < 10 -> digit_of 10 (char_of (48 + d)) = Some d ∧
                 char_of (48 + d) ≠ zero ∧ char_of (48 + d) ≠ newline_char ∧
                 (d ≠ 0 -> char_of (48 + d) ≠ char_of 48).
Proof.
  intros Hd.
  assert (d = 0 ∨ d = 1 ∨ d = 2 ∨ d = 3 ∨ d = 4 ∨ d = 5 ∨ d = 6 ∨ d = 7 ∨ d = 8 ∨
          d = 9) as H by lia.
  repeat (destruct H as [->|H]; [by vm_compute|]). subst d. by vm_compute.
Qed.

Lemma number_of_snoc base ds c a d :
  number_of base ds = Some a -> digit_of base c = Some d ->
  number_of base (ds ++ [c]) = Some (base * a + d).
Proof. unfold number_of. rewrite foldl_app. cbn [foldl]. by intros -> ->. Qed.

(** The loop of [terminal_write_hex] writes the [n] low hexadecimal
    digits of [value] into the first [n] places. *)
Lemma write_hex_loop_spec n : ∀ value buffer,
  (n <= length buffer)%nat -> 0 <= value ->
  ∃ ds, write_hex_loop n value buffer = ds ++ drop n buffer ∧
        length ds = n ∧
        number_of 16 ds = Some (value mod 16 ^ Z.of_nat n) ∧
        Forall (fun c => c ≠ zero ∧ c ≠ newline_char) ds.
Proof.
  induction n as [|n IH]; intros value buffer Hlen Hv.
  - exists []. cbn [write_hex_loop app drop length]. by rewrite Z.mod_1_r.
  - cbn [write_hex_loop].
    change 15 with (Z.ones 4). rewrite Z.land_ones, Z.shiftr_div_pow2 by lia.
    change (2 ^ 4) with 16.
    pose proof (Z.mod_pos_bound value 16 ltac:(lia)) as Hd.
    destruct (hex_digit_round_trip (value mod 16) Hd) as (Hdig & Hnz & Hnl).
    set (c := nth (Z.to_nat (value mod 16)) hex_digits zero) in *.
    destruct (IH (value / 16) (<[n:=c]> buffer)) as (ds & Hrun & Hds & Hnum & Hall).
    { rewrite length_insert. lia. }
    { apply Z.div_pos; lia. }
    exists (ds ++ [c]). rewrite Hrun. split; [|split; [|split]].
    + rewrite <- app_assoc. f_equal. cbn [app].
      rewrite (drop_S (<[n:=c]> buffer) c n) by (apply list_lookup_insert_eq; lia).
      f_equal. by rewrite drop_insert_lt by lia.
    + rewrite length_app. cbn [length]. lia.
    + rewrite (number_of_snoc 16 ds c _ _ Hnum Hdig). f_equal.
      rewrite Nat2Z.inj_succ, Z.pow_succ_r by lia.
      rewrite (Z.rem_mul_r value 16 (16 ^ Z.of_nat n)) by lia. lia.
    + apply Forall_app. split; [exact Hall | by repeat constructor].
Qed.

(** The loop of [terminal_write_dec] stores the decimal digits of
    [value], least significant first, from [pos] on. *)
Lemma write_dec_loop_spec k : ∀ fuel value pos buffer,
  0 <= value < 10 ^ Z.of_nat k -> (pos + k <= length buffer)%nat -> (k < fuel)%nat ->
  ∃ ds, write_dec_loop fuel value pos buffer
        = Some ((pos + length ds)%nat, take pos buffer ++ ds ++ drop (pos + length ds) buffer) ∧
        (length ds <= k)%nat ∧
        number_of 10 (rev ds) = Some value ∧
        Forall (fun c => c ≠ zero ∧ c ≠ newline_char) ds ∧
        (value = 0 -> ds = []) ∧
        (0 < value -> ∃ c rest, rev ds = c :: rest ∧ c ≠ char_of 48).
Proof.
  induction k as [|k IH]; intros fuel value pos buffer Hv Hlen Hfuel;
    (destruct fuel as [|fuel]; [lia|]); cbn [write_dec_loop].
  - assert (value = 0) as -> by (cbn in Hv; lia). cbn [Z.ltb Z.compare].
    exists []. cbn [length app rev]. rewrite Nat.add_0_r, take_drop.
    split; [reflexivity|]. split; [lia|]. split; [reflexivity|].
    split; [constructor|]. split; [done | lia].
  - destruct (0 <? value) eqn:Hpos.
    + apply Z.ltb_lt in Hpos. rewrite decide_True by lia.
      pose proof (Z.mod_pos_bound value 10 ltac:(lia)) as Hd.
      destruct (dec_digit_round_trip (value mod 10) Hd) as (Hdig & Hnz & Hnl & Hlead).
      set (c := char_of (48 + value mod 10)) in *.
      destruct (IH fuel (value / 10) (S pos) (<[pos:=c]> buffer))
        as (ds & Hrun & Hds & Hnum & Hall & Hnil & Hmsd).
      { rewrite Nat2Z.inj_succ, Z.pow_succ_r in Hv by lia.
        split; [apply Z.div_pos; lia | apply Z.div_lt_upper_bound; lia]. }
      { rewrite length_insert. lia. }
      { lia. }
      exists (c :: ds). rewrite Hrun. cbn [length]. split; [|split; [|split; [|split; [|split]]]].
      * f_equal. f_equal; [lia|].
        rewrite (take_S_r (<[pos:=c]> buffer) pos c) by (apply list_lookup_insert_eq; lia).
        rewrite take_insert_ge by lia. rewrite <- app_assoc. cbn [app].
        do 3 f_equal. rewrite drop_insert_lt by lia. f_equal. lia.
      * lia.
      * cbn [rev]. rewrite (number_of_snoc 10 (rev ds) c _ _ Hnum Hdig). f_equal.
        pose proof (Z.div_mod value 10 ltac:(lia)). lia.
      * by constructor.
      * lia.
      * intros _. cbn [rev]. destruct (decide (value / 10 = 0)) as [Hz|Hnz'].
        -- rewrite (Hnil Hz). cbn [rev app]. exists c, []. split; [reflexivity|]. apply Hlead.
           pose proof (Z.div_mod value 10 ltac:(lia)). lia.
        -- destruct Hmsd as (m & rest & Hrev & Hm).
           { pose proof (Z.div_pos value 10 ltac:(lia) ltac:(lia)). lia. }
           exists m, (rest ++ [c]). rewrite Hrev. done.
    + apply Z.ltb_ge in Hpos. assert (value = 0) as -> by lia.
      exists []. cbn [length app rev]. rewrite Nat.add_0_r, take_drop.
      split; [reflexivity|]. split; [lia|]. split; [reflexivity|].
      split; [constructor|]. split; [done | lia].
Qed.

(** *** The terminal as its callers see it *)

(** X16. [terminal_initialize] homes the cursor, selects light grey on
    black and stores a blank in each of the 2000 cells of the screen;
    no cell outside the screen is touched. *)
Theorem terminal_initialize_blanks_screen t :
  terminal_row (terminal_initialize t) = 0 ∧
  terminal_column (terminal_initialize t) = 0 ∧
  terminal_color (terminal_initialize t) = 7 ∧
  ∀ k, terminal_buffer (terminal_initialize t) !! k
       = if decide (0 <= k < VGA_WIDTH * VGA_HEIGHT)
         then Some (vga_entry 32 7) else terminal_buffer t !! k.
Proof.
  unfold terminal_initialize.
  destruct (fill_rows_spec (char_of 32) (vga_entry_color 7 0) 25 0
              (mk_terminal 0 0 (vga_entry_color 7 0) (terminal_buffer t)) ltac:(lia))
    as (H1 & H2 & H3 & H4).
  split; [exact H1|]. split; [exact H2|]. split; [exact H3|].
  intros k. rewrite H4. unfold VGA_WIDTH, VGA_HEIGHT. cbn [terminal_buffer].
  destruct (decide (Z.of_nat 0 * 80 <= k < Z.of_nat (0 + 25) * 80));
    destruct (decide (0 <= k < 80 * 25)); try lia; reflexivity.
Qed.

Lemma terminal_initialize_on_screen t :
  (∀ k, is_Some (terminal_buffer t !! k) -> 0 <= k < VGA_WIDTH * VGA_HEIGHT) ->
  on_screen (terminal_initialize t).
Proof.
  intros Hb. destruct (terminal_initialize_blanks_screen t) as (H1 & H2 & _ & H4).
  split; [rewrite H1; done|]. split; [rewrite H2; done|].
  intros k. rewrite H4. destruct (decide _); [done | apply Hb].
Qed.

Lemma boot_terminal_initialized : on_screen (terminal_initialize boot_terminal).
Proof.
  apply terminal_initialize_on_screen. intros k [x Hx]. cbn in Hx.
  by rewrite lookup_empty in Hx.
Qed.

(** X17. Output never leaves the screen: when the cursor and the cells
    written so far are inside the 80 by 25 buffer, they still are after
    [terminal_writestring], whatever the string holds. *)
Theorem terminal_writestring_stays_on_screen data t :
  on_screen t -> on_screen (terminal_writestring data t).
Proof. intros Ht. unfold terminal_writestring, terminal_write. by apply write_chars_on_screen. Qed.

Lemma terminal_writestring_stays_on_screen_witness :
  on_screen (terminal_initialize boot_terminal) ∧
  on_screen (terminal_writestring "Welcome to MiniCore-OS!" (terminal_initialize boot_terminal)).
Proof.
  split; [exact boot_terminal_initialized|].
  exact (terminal_writestring_stays_on_screen _ _ boot_terminal_initialized).
Defined.

(** X18. The terminal wraps around instead of scrolling: a string of at
    most 2000 characters with no newline in it is stored cell after cell
    from the cursor on, continuing at cell 0 after cell 1999, in the
    current colour; the other cells are unchanged and the cursor ends
    that many cells further, modulo 2000. *)
Theorem terminal_writestring_wraps_to_top data t :
  on_screen t ->
  Forall (fun c => c ≠ zero ∧ c ≠ newline_char) (list_ascii_of_string data) ->
  Z.of_nat (String.length data) <= VGA_WIDTH * VGA_HEIGHT ->
  let t' := terminal_writestring data t in
  cursor t' = (cursor t + Z.of_nat (String.length data)) mod (VGA_WIDTH * VGA_HEIGHT) ∧
  terminal_color t' = terminal_color t ∧
  ∀ k, 0 <= k < VGA_WIDTH * VGA_HEIGHT ->
    terminal_buffer t' !! k
    = match list_ascii_of_string data
            !! Z.to_nat ((k - cursor t) mod (VGA_WIDTH * VGA_HEIGHT)) with
      | Some c => Some (vga_entry (code c) (terminal_color t))
      | None => terminal_buffer t !! k
      end.
Proof.
  intros Ht Hdata Hlen. unfold terminal_writestring, terminal_write.
  assert (Hl : length (list_ascii_of_string data) = String.length data).
  { clear. induction data as [|c data IH]; cbn; [reflexivity | by rewrite IH]. }
  assert (Hs : strlen data = Z.of_nat (length (list_ascii_of_string data))).
  { rewrite <- (string_of_list_ascii_of_string data) at 1.
    apply strlen_no_nul. eapply Forall_impl; [exact Hdata | by intros c [H _]]. }
  rewrite Hs, Nat2Z.id, firstn_all. rewrite <- Hl in *.
  apply write_chars_spec; [exact Ht | | exact Hlen].
  eapply Forall_impl; [exact Hdata | by intros c [_ H]].
Qed.

Lemma terminal_writestring_wraps_to_top_witness :
  let t := mk_terminal 24 78 7 ∅ in
  let t' := terminal_writestring "wrap" t in
  on_screen t ∧ cursor t' = 2 ∧
  terminal_buffer t' !! 1998 = Some (vga_entry 119 7) ∧
  terminal_buffer t' !! 1 = Some (vga_entry 112 7).
Proof.
  assert (Ht : on_screen (mk_terminal 24 78 7 ∅)).
  { split; [done|]. split; [done|]. intros k [x Hx]. cbn in Hx. by rewrite lookup_empty in Hx. }
  destruct (terminal_writestring_wraps_to_top "wrap" _ Ht) as (H1 & _ & H3).
  { repeat constructor; discriminate. }
  { done. }
  split; [exact Ht|]. split; [exact H1|].
  split; [exact (H3 1998 ltac:(done)) | exact (H3 1 ltac:(done))].
Defined.

(** X19. [terminal_write_hex] prints exactly eight characters, the
    hexadecimal digits of its argument (taken as a [uint32_t]) with the
    most significant first, in upper case and padded with zeros: read
    back in base 16 they give the argument. *)
Theorem terminal_write_hex_prints_eight_digits value t :
  ∃ ds, length ds = 8%nat ∧
        number_of 16 ds = Some (u32 value) ∧
        terminal_write_hex value t = foldl (fun t c => terminal_putchar c t) t ds.
Proof.
  unfold terminal_write_hex.
  assert (Hv : 0 <= u32 value < UINT32_MOD)
    by (unfold u32, UINT32_MOD; apply Z.mod_pos_bound; lia).
  destruct (write_hex_loop_spec 8 (u32 value) (<[8%nat:=zero]> (replicate 9 zero)))
    as (ds & Hrun & Hlen & Hnum & Hall); [cbn; lia | lia |].
  exists ds. split; [exact Hlen|]. split.
  - rewrite Hnum. f_equal. apply Z.mod_small. exact Hv.
  - rewrite Hrun. change (drop 8 (<[8%nat:=zero]> (replicate 9 zero))) with [zero].
    apply terminal_writestring_buffer.
    eapply Forall_impl; [exact Hall | by intros c [H _]].
Qed.

(** X20. [terminal_write_dec] prints the decimal digits of its argument
    (taken as a [uint32_t]), most significant first: at least one and at
    most ten characters, which fit its 11-byte buffer, with no leading
    zero except for the number 0 itself; read back in base 10 they give
    the argument. *)
Theorem terminal_write_dec_prints_decimal value t :
  ∃ ds, terminal_write_dec value t = Some (foldl (fun t c => terminal_putchar c t) t ds) ∧
        number_of 10 ds = Some (u32 value) ∧
        (1 <= length ds <= 10)%nat ∧
        (ds = [char_of 48] ∨ ∃ c rest, ds = c :: rest ∧ c ≠ char_of 48).
Proof.
  unfold terminal_write_dec.
  assert (Hv : 0 <= u32 value < UINT32_MOD)
    by (unfold u32, UINT32_MOD; apply Z.mod_pos_bound; lia).
  destruct (u32 value =? 0) eqn:Hz.
  - apply Z.eqb_eq in Hz. rewrite Hz. exists [char_of 48].
    split; [reflexivity|]. split; [reflexivity|]. split; [cbn; lia | by left].
  - apply Z.eqb_neq in Hz.
    destruct (write_dec_loop_spec 10 12 (u32 value) 0 (replicate 11 zero))
      as (ds & Hrun & Hlen & Hnum & _ & _ & Hmsd);
      [unfold UINT32_MOD in Hv; change (10 ^ Z.of_nat 10) with 10000000000; lia
      | cbn; lia | lia |].
    rewrite Hrun. rewrite take_0. cbn [app Nat.add]. rewrite take_app_length.
    exists (rev ds). split; [reflexivity|]. split; [exact Hnum|].
    rewrite length_rev. destruct (Hmsd ltac:(lia)) as (c & rest & Hrev & Hc).
    split; [|right; eauto].
    apply (f_equal length) in Hrev. rewrite length_rev in Hrev. cbn [length] in Hrev. lia.
Qed.

(** X21. [strcmp] returns 0 exactly when its arguments are the same C
    string, that is the same characters up to the first NUL, and
    exchanging the arguments negates the result. [shell_strcmp] is the
    same code. *)
Theorem strcmp_zero_iff_equal str1 str2 :
  (strcmp str1 str2 = 0 ↔ c_str str1 = c_str str2) ∧
  strcmp str2 str1 = - strcmp str1 str2.
Proof. split; [apply strcmp_zero_iff | apply strcmp_antisym]. Qed.

End TerminalFacts.
(** ** Task scheduler: the ready queue *)

Module SchedulerAuxFacts.
Import Scheduler SchedulerAux SchedulerFacts.

#[local] Arguments update_task : simpl never.
#[local] Arguments task_at : simpl never.

(** *** Links *)

(** A change that leaves the [next] fields of the queued slots alone
    leaves the chain alone. *)
Lemma linked_frame s s' q : ∀ p,
  (∀ i, i ∈ q -> next (task_at s' i) = next (task_at s i)) ->
  linked s p q -> linked s' p q.
Proof.
  induction q as [|i q IH]; intros p Hnext; [done|].
  intros [-> Hl]. split; [reflexivity|].
  rewrite Hnext by apply list_elem_of_here.
  apply IH; [|exact Hl]. intros j Hj. apply Hnext. by apply list_elem_of_further.
Qed.

Lemma last_cons_cons {A} (x y : A) l : last (x :: y :: l) = last (y :: l).
Proof. reflexivity. Qed.

Lemma linked_snoc s s' i t q : ∀ p,
  linked s p q -> last q = Some t -> NoDup q -> i ∉ q ->
  (∀ j, j ∈ q -> j ≠ t -> next (task_at s' j) = next (task_at s j)) ->
  next (task_at s' t) = Some i -> next (task_at s' i) = None ->
  linked s' p (q ++ [i]).
Proof.
  induction q as [|j q IH]; intros p Hl Hlast Hnd Hi Hframe Ht Hin; [done|].
  destruct Hl as [-> Hl]. apply NoDup_cons in Hnd as [Hj Hnd].
  apply not_elem_of_cons in Hi as [Hij Hi].
  destruct q as [|k q].
  - injection Hlast as <-. cbn in Hl. cbn [app linked]. by rewrite Ht, Hin.
  - rewrite last_cons_cons in Hlast. cbn [app linked]. split; [reflexivity|].
    assert (Hjt : j ≠ t).
    { intros ->. apply Hj. by apply last_Some_elem_of. }
    rewrite (Hframe j) by (done || apply list_elem_of_here).
    apply (IH _ Hl Hlast Hnd Hi); [|exact Ht | exact Hin].
    intros x Hx. apply Hframe. by apply list_elem_of_further.
Qed.

(** *** The queue operations *)

Lemma ready_queue_update i f s q :
  (∀ t, next (f t) = next t) -> ready_queue s q -> ready_queue (update_task i f s) q.
Proof.
  intros Hf (Hl & Ht & Hnd & Hlen). split; [|split; [exact Ht|split; [exact Hnd|]]].
  - apply (linked_frame s); [|exact Hl]. intros j _. rewrite task_at_update.
    destruct (decide _) as [[<- _]|_]; [apply Hf | reflexivity].
  - by rewrite length_update_task.
Qed.

Lemma ready_queue_add i s q :
  ready_queue s q -> i ∉ q -> (i < length (tasks s))%nat ->
  ready_queue (task_queue_add i s) (q ++ [i]).
Proof.
  intros (Hl & Ht & Hnd & Hlen) Hi Hlt. unfold task_queue_add.
  rewrite tail_update_task, Ht.
  assert (Hnd' : NoDup (q ++ [i])).
  { apply NoDup_app. split; [exact Hnd|]. split; [|apply NoDup_singleton].
    intros x Hx ->%list_elem_of_singleton. done. }
  destruct (last q) as [t|] eqn:Hlast.
  - assert (Htq : t ∈ q) by (by apply last_Some_elem_of).
    assert (Hti : t ≠ i) by (by intros ->).
    split; [|split; [|split; [exact Hnd'|]]].
    + cbn [task_queue_head set_task_queue_tail]. rewrite head_update_task.
      rewrite head_update_task.
      apply (linked_snoc s _ i t q _ Hl Hlast Hnd Hi).
      * intros j Hj Hjt. rewrite task_at_set_tail, !task_at_update_ne; [done| |congruence].
        intros ->. done.
      * rewrite task_at_set_tail, task_at_update_eq; [done|].
        rewrite length_update_task. rewrite Forall_forall in Hlen. by apply Hlen.
      * rewrite task_at_set_tail, task_at_update_ne by done.
        by rewrite task_at_update_eq.
    + cbn [task_queue_tail set_task_queue_tail]. by rewrite last_snoc.
    + cbn [tasks set_task_queue_tail]. rewrite !length_update_task.
      apply Forall_app. split; [exact Hlen | by repeat constructor].
  - apply last_None in Hlast as ->. cbn in Hl. cbn [app].
    split; [|split; [reflexivity|split; [exact Hnd'|]]].
    + cbn [task_queue_head set_task_queue_tail set_task_queue_head linked].
      split; [reflexivity|].
      rewrite task_at_set_tail, task_at_set_head. by rewrite task_at_update_eq.
    + cbn [tasks set_task_queue_tail set_task_queue_head]. rewrite length_update_task.
      by repeat constructor.
Qed.

Lemma ready_queue_dequeued j s q :
  ready_queue s (j :: q) -> ready_queue (dequeued j s) q.
Proof.
  intros ([Hh Hl] & Ht & [Hj Hnd]%NoDup_cons & [_ Hlen]%Forall_cons). unfold dequeued.
  cbn [task_queue_head set_task_queue_head].
  assert (Hl' : ∀ s', (∀ i, task_at s' i = task_at s i) ->
                linked (update_task j (set_next None) s') (next (task_at s j)) q).
  { intros s' Hs'. apply (linked_frame s); [|exact Hl].
    intros i Hi. rewrite task_at_update_ne by (by intros ->). by rewrite Hs'. }
  destruct q as [|k q].
  - cbn in Hl. rewrite Hl. cbn [set_task_queue_tail].
    split; [|split; [reflexivity|split; [constructor|constructor]]].
    rewrite head_update_task. reflexivity.
  - destruct Hl as [Hn Hl]. rewrite Hn. rewrite last_cons_cons in Ht.
    split; [|split; [|split; [exact Hnd|]]].
    + rewrite head_update_task. cbn [task_queue_head]. rewrite <- Hn.
      apply Hl'. reflexivity.
    + rewrite tail_update_task. exact Ht.
    + rewrite length_update_task. exact Hlen.
Qed.

Lemma ready_queue_frame s s' q :
  tasks s' = tasks s -> task_queue_head s' = task_queue_head s ->
  task_queue_tail s' = task_queue_tail s ->
  ready_queue s q -> ready_queue s' q.
Proof.
  intros Htasks Hhead Htail (Hl & Ht & Hnd & Hlen).
  split; [|split; [congruence|split; [exact Hnd | by rewrite Htasks]]].
  rewrite Hhead. apply (linked_frame s); [|exact Hl].
  intros i _. unfold task_at. by rewrite Htasks.
Qed.

Lemma ready_queue_set_current v s q : ready_queue s q -> ready_queue (set_current_task v s) q.
Proof. by apply ready_queue_frame. Qed.

Lemma ready_queue_set_ticks v s q : ready_queue s q -> ready_queue (set_system_ticks v s) q.
Proof. by apply ready_queue_frame. Qed.

Lemma ready_queue_set_next_id v s q : ready_queue s q -> ready_queue (set_next_task_id v s) q.
Proof. by apply ready_queue_frame. Qed.

Lemma ready_queue_head s q : ready_queue s q -> task_queue_head s = head q.
Proof. intros (Hl & _). destruct q as [|j q]; [exact Hl | by destruct Hl]. Qed.

Lemma ready_queue_unique s q q' : ready_queue s q -> ready_queue s q' -> q = q'.
Proof.
  intros (Hl & _) (Hl' & _). revert Hl Hl'. generalize (task_queue_head s).
  revert q'. induction q as [|j q IH]; intros [|j' q'] p; cbn [linked]; try congruence.
  - intros -> [? _]. done.
  - intros [-> _] ?. done.
  - intros [-> Hl] [[= <-] Hl']. f_equal. by apply (IH _ _ Hl Hl').
Qed.

(** *** Sample states *)

Lemma two_tasks_queue : ready_queue two_tasks [1%nat].
Proof.
  split; [by vm_compute|]. split; [reflexivity|]. split; [apply NoDup_singleton|].
  apply Forall_singleton. vm_compute. lia.
Qed.

(** X22. The ready queue is first-in first-out: when a slot that is not
    queued is appended with [task_queue_add], the next
    [task_queue_remove_next] returns the slot that was at the head
    (the new one only if the queue was empty) and leaves the others
    queued in their order, the new slot last. *)
Theorem ready_queue_is_fifo s q i j rest :
  ready_queue s q -> i ∉ q -> (i < length (tasks s))%nat ->
  q ++ [i] = j :: rest ->
  ∃ s', task_queue_remove_next (task_queue_add i s) = (Some j, s') ∧
        ready_queue s' rest.
Proof.
  intros Hq Hi Hlt Heq.
  pose proof (ready_queue_add i s q Hq Hi Hlt) as Hq'. rewrite Heq in Hq'.
  exists (dequeued j (task_queue_add i s)). split.
  - apply task_queue_remove_next_head. by rewrite (ready_queue_head _ _ Hq').
  - by apply ready_queue_dequeued.
Qed.

Lemma ready_queue_is_fifo_witness :
  ready_queue two_tasks [1%nat] ∧
  ∃ s', task_queue_remove_next (task_queue_add 5 two_tasks) = (Some 1%nat, s') ∧
        ready_queue s' [5%nat].
Proof.
  split; [exact two_tasks_queue|].
  apply (ready_queue_is_fifo two_tasks [1%nat] 5 1 [5%nat] two_tasks_queue).
  - apply not_elem_of_cons. split; [lia | apply not_elem_of_nil].
  - vm_compute. lia.
  - reflexivity.
Defined.

(** X23. [schedule] rotates the queue: with a running current task that
    is not queued and a non-empty ready queue, it returns with the head
    of the queue installed as the current task, running on a fresh
    slice, and with the former current task ready, its slice reset, at
    the tail of the queue. [task_yield] is the same call. *)
Theorem schedule_rotates_ready_queue s cur j q :
  ready_queue s (j :: q) -> current_task s = Some cur ->
  state (task_at s cur) = TASK_RUNNING ->
  cur ∉ j :: q -> (cur < length (tasks s))%nat ->
  ∃ s', task_yield s = Returns s' ∧
        current_task s' = Some j ∧
        state (task_at s' j) = TASK_RUNNING ∧
        time_remaining (task_at s' j) = time_slice (task_at s j) ∧
        state (task_at s' cur) = TASK_READY ∧
        time_remaining (task_at s' cur) = time_slice (task_at s cur) ∧
        ready_queue s' (q ++ [cur]).
Proof.
  intros Hq Hcur Hrun Hnotin Hlt.
  apply not_elem_of_cons in Hnotin as [Hne Hnotin].
  pose proof Hq as (_ & _ & _ & [Hj _]%Forall_cons).
  unfold task_yield.
  rewrite (schedule_round_robin s cur j Hcur Hrun) by
    (by rewrite (ready_queue_head _ _ Hq) || done).
  eexists. split; [reflexivity|].
  pose proof (ready_queue_dequeued j s q Hq) as Hq1.
  set (s1 := dequeued j s) in *.
  assert (Hlen1 : length (tasks s1) = length (tasks s)) by apply length_dequeued.
  assert (Hcur1 : task_at s1 cur = task_at s cur) by (by apply task_at_dequeued).
  assert (Hq2 : ready_queue (demoted cur s1) (q ++ [cur])).
  { unfold demoted. apply ready_queue_add; [|exact Hnotin|].
    - apply ready_queue_update; [done|]. by apply ready_queue_update.
    - rewrite !length_update_task. lia. }
  assert (Hj1 : time_slice (task_at s1 j) = time_slice (task_at s j)).
  { unfold s1, dequeued. cbv zeta. rewrite task_at_update.
    destruct (decide _); [cbn [time_slice set_next]|];
      destruct (task_queue_head (set_task_queue_head _ s)); reflexivity. }
  assert (Hdem : ∀ i, i ≠ cur ->
            time_slice (task_at (demoted cur s1) i) = time_slice (task_at s1 i)).
  { intros i Hi. unfold demoted, task_queue_add.
    assert (Hts : ∀ (f : task_t -> task_t) k s0,
              (∀ t, time_slice (f t) = time_slice t) ->
              time_slice (task_at (update_task k f s0) i) = time_slice (task_at s0 i)).
    { intros f k s0 Hf. rewrite task_at_update. destruct (decide _) as [[-> _]|_]; auto. }
    destruct (task_queue_tail _) as [t|];
      rewrite ?task_at_set_tail, ?task_at_set_head, ?Hts by done;
      rewrite ?task_at_update_ne by done; reflexivity. }
  assert (Hlen2 : length (tasks (demoted cur s1)) = length (tasks s))
    by (rewrite length_demoted; exact Hlen1).
  unfold installed. split; [reflexivity|]. rewrite !task_at_set_current.
  split; [|split; [|split; [|split]]].
  - rewrite task_at_update_eq by (rewrite length_update_task; lia).
    rewrite task_at_update_eq by lia. reflexivity.
  - rewrite task_at_update_eq by (rewrite length_update_task; lia).
    cbn [time_remaining set_time_remaining].
    rewrite task_at_update_eq by lia. cbn [time_slice set_state].
    rewrite Hdem by done. exact Hj1.
  - rewrite !task_at_update_ne by done. unfold demoted.
    rewrite state_task_queue_add. rewrite task_at_update_eq by (rewrite length_update_task; lia).
    cbn [state set_time_remaining]. rewrite task_at_update_eq by lia. reflexivity.
  - rewrite !task_at_update_ne by done. unfold demoted, task_queue_add.
    assert (Htr : ∀ (f : task_t -> task_t) k s0,
              (∀ t, time_remaining (f t) = time_remaining t) ->
              time_remaining (task_at (update_task k f s0) cur)
              = time_remaining (task_at s0 cur)).
    { intros f k s0 Hf. rewrite task_at_update. destruct (decide _) as [[-> _]|_]; auto. }
    destruct (task_queue_tail _) as [t|];
      rewrite ?task_at_set_tail, ?task_at_set_head, !Htr by done;
      (rewrite task_at_update_eq by (rewrite length_update_task; lia));
      cbn [time_remaining set_time_remaining];
      (rewrite task_at_update_eq by lia); cbn [time_slice set_state]; by rewrite Hcur1.
  - apply ready_queue_set_current.
    apply ready_queue_update; [done|]. by apply ready_queue_update.
Qed.

Lemma schedule_rotates_ready_queue_witness :
  ready_queue two_tasks [1%nat] ∧
  ∃ s', task_yield two_tasks = Returns s' ∧
        current_task s' = Some 1%nat ∧
        state (task_at s' 1) = TASK_RUNNING ∧
        time_remaining (task_at s' 1) = time_slice (task_at two_tasks 1) ∧
        state (task_at s' 0) = TASK_READY ∧
        time_remaining (task_at s' 0) = time_slice (task_at two_tasks 0) ∧
        ready_queue s' ([] ++ [0%nat]).
Proof.
  split; [exact two_tasks_queue|].
  apply (schedule_rotates_ready_queue two_tasks 0 1 [] two_tasks_queue).
  - reflexivity.
  - reflexivity.
  - apply not_elem_of_cons. split; [lia | apply not_elem_of_nil].
  - vm_compute. lia.
Defined.

(** *** Creating tasks *)

Lemma ready_queue_update_out i f s q :
  i ∉ q -> ready_queue s q -> ready_queue (update_task i f s) q.
Proof.
  intros Hi (Hl & Ht & Hnd & Hlen). split; [|split; [exact Ht|split; [exact Hnd|]]].
  - apply (linked_frame s); [|exact Hl]. intros j Hj.
    rewrite task_at_update_ne; [reflexivity|]. by intros ->.
  - by rewrite length_update_task.
Qed.

(** A field that [set_next] leaves alone is not changed by queueing. *)
Lemma field_update {A} (g : task_t -> A) j f s i :
  j ≠ i ∨ (∀ t, g (f t) = g t) ->
  g (task_at (update_task j f s) i) = g (task_at s i).
Proof.
  intros H. rewrite task_at_update.
  destruct (decide _) as [[-> _]|_]; [|reflexivity].
  destruct H as [H|H]; [congruence | apply H].
Qed.

Lemma field_task_queue_add {A} (g : task_t -> A) j s i :
  (∀ v t, g (set_next v t) = g t) ->
  g (task_at (task_queue_add j s) i) = g (task_at s i).
Proof.
  intros Hg. unfold task_queue_add. rewrite tail_update_task.
  destruct (task_queue_tail s); rewrite ?task_at_set_tail, ?task_at_set_head;
    rewrite !field_update by (right; apply Hg); reflexivity.
Qed.

Lemma find_free_slot_first ts : ∀ k i x,
  ts !! i = Some x -> state x = TASK_TERMINATED ->
  (∀ j y, (j < i)%nat -> ts !! j = Some y -> state y ≠ TASK_TERMINATED) ->
  find_free_slot ts k = Some (k + i)%nat.
Proof.
  induction ts as [|t ts IH]; intros k i x Hx Hst Hbefore; [done|].
  cbn [find_free_slot]. destruct i as [|i].
  - injection Hx as ->. rewrite decide_True by done. f_equal. lia.
  - rewrite decide_False by (apply (Hbefore 0%nat); [lia | reflexivity]).
    rewrite (IH (S k) i x Hx Hst); [f_equal; lia|].
    intros j y Hj Hy. apply (Hbefore (S j)); [lia | exact Hy].
Qed.

Lemma first_free_found s i : first_free s i -> find_free_slot (tasks s) 0 = Some i.
Proof.
  intros (Hlt & Hst & Hbefore).
  destruct (lookup_lt_is_Some_2 _ _ Hlt) as [x Hx].
  assert (Hat : ∀ j y, tasks s !! j = Some y -> task_at s j = y).
  { intros j y Hy. unfold task_at. by apply list_lookup_total_correct. }
  apply (find_free_slot_first _ 0%nat i x Hx).
  - by rewrite <- (Hat _ _ Hx).
  - intros j y Hj Hy. rewrite <- (Hat _ _ Hy). by apply Hbefore.
Qed.

Lemma find_free_slot_none ts k :
  find_free_slot ts k = None ↔ Forall (fun t => state t ≠ TASK_TERMINATED) ts.
Proof.
  revert k. induction ts as [|t ts IH]; intros k; cbn [find_free_slot].
  - split; [constructor | reflexivity].
  - destruct (decide (state t = TASK_TERMINATED)) as [Ht|Ht].
    + split; [discriminate|]. intros [? _]%Forall_cons. done.
    + rewrite IH. split; [by constructor | by intros [_ ?]%Forall_cons].
Qed.

Lemma u32_succ_ne n : u32 (n + 1) ≠ n.
Proof.
  unfold u32, UINT32_MOD. intros H.
  pose proof (Z.mod_pos_bound (n + 1) 4294967296 ltac:(lia)) as Hb.
  pose proof (Z.div_mod (n + 1) 4294967296 ltac:(lia)) as Hd.
  rewrite H in Hd. lia.
Qed.

Lemma counter_exited_first_free : first_free counter_exited 0.
Proof.
  split; [vm_compute; lia|]. split; [reflexivity|]. intros k Hk. lia.
Qed.

Lemma counter_exited_queue : queue_ready counter_exited [].
Proof.
  split; [|split; [reflexivity | constructor]].
  split; [reflexivity|]. split; [reflexivity|]. split; constructor.
Qed.

(** X24. [task_create] takes the lowest-numbered terminated slot. On a
    table whose queued tasks are all ready it returns the value of
    [next_task_id], which it increments; the slot gets that id, state
    READY, a slice of 10 ticks, both stack registers at the top word of
    its own stack and [eip] at the entry point; it is appended to the
    ready queue behind the tasks already waiting, and no other slot
    changes state. *)
Theorem task_create_enqueues_first_free_slot stack_addr name_arg entry s q i :
  queue_ready s q -> first_free s i ->
  ∃ s', task_create stack_addr name_arg entry s = (next_task_id s, s') ∧
        next_task_id s' = u32 (next_task_id s + 1) ∧
        id (task_at s' i) = next_task_id s ∧
        state (task_at s' i) = TASK_READY ∧
        time_slice (task_at s' i) = 10 ∧
        time_remaining (task_at s' i) = 10 ∧
        esp (task_at s' i) = u32 (stack_addr i + TASK_STACK_SIZE - 4) ∧
        ebp (task_at s' i) = esp (task_at s' i) ∧
        eip (task_at s' i) = u32 entry ∧
        queue_ready s' (q ++ [i]) ∧
        current_task s' = current_task s ∧
        ∀ k, k ≠ i -> state (task_at s' k) = state (task_at s k).
Proof.
  intros (Hq & Hlen & Hready) Hfree.
  pose proof Hfree as (Hlt & Hst & _).
  assert (Hi : i ∉ q).
  { intros Hin. rewrite Forall_forall in Hready. specialize (Hready _ Hin). congruence. }
  unfold task_create. rewrite (first_free_found _ _ Hfree). cbv zeta.
  set (fresh := fun _ : task_t => mk_task _ _ _ _ _ _ _ _ _ _ _ _ _ _).
  set (s1 := update_task i fresh (set_next_task_id _ s)).
  assert (Hlen1 : length (tasks s1) = length (tasks s))
    by (unfold s1; by rewrite length_update_task).
  assert (Hat1 : task_at s1 i = fresh (task_at s i)).
  { unfold s1. rewrite task_at_update_eq by exact Hlt. reflexivity. }
  assert (Hq1 : ready_queue s1 q).
  { unfold s1. apply ready_queue_update_out; [exact Hi|]. by apply ready_queue_set_next_id. }
  assert (Hfield : ∀ A (g : task_t -> A), (∀ v t, g (set_next v t) = g t) ->
            g (task_at (task_queue_add i s1) i) = g (fresh (task_at s i))).
  { intros A g Hg. by rewrite field_task_queue_add, Hat1. }
  eexists. split; [f_equal; by rewrite (Hfield _ id)|].
  split.
  { unfold task_queue_add. rewrite tail_update_task.
    destruct (task_queue_tail s1); reflexivity. }
  split; [by rewrite (Hfield _ id)|].
  split; [by rewrite (Hfield _ state)|].
  split; [by rewrite (Hfield _ time_slice)|].
  split; [by rewrite (Hfield _ time_remaining)|].
  split; [by rewrite (Hfield _ esp)|].
  split; [by rewrite (Hfield _ ebp), (Hfield _ esp)|].
  split; [by rewrite (Hfield _ eip)|].
  assert (Hstate : ∀ k, k ≠ i ->
            state (task_at (task_queue_add i s1) k) = state (task_at s k)).
  { intros k Hk. rewrite state_task_queue_add. unfold s1.
    by rewrite task_at_update_ne, task_at_set_next_id. }
  split; [|split; [|exact Hstate]].
  - split; [apply ready_queue_add; [exact Hq1 | exact Hi | lia]|].
    split; [by rewrite length_task_queue_add, Hlen1|].
    apply Forall_app. split.
    + rewrite Forall_forall in Hready |- *. intros k Hk.
      rewrite Hstate by (by intros ->). by apply Hready.
    + apply Forall_singleton. by rewrite (Hfield _ state).
  - by rewrite current_task_queue_add.
Qed.

Lemma task_create_enqueues_first_free_slot_witness :
  queue_ready counter_exited [] ∧ first_free counter_exited 0 ∧
  ∃ s', task_create sample_stacks "idle" 4096 counter_exited = (2, s') ∧
        next_task_id s' = u32 (2 + 1) ∧
        id (task_at s' 0) = 2 ∧
        state (task_at s' 0) = TASK_READY ∧
        time_slice (task_at s' 0) = 10 ∧
        time_remaining (task_at s' 0) = 10 ∧
        esp (task_at s' 0) = u32 (sample_stacks 0 + TASK_STACK_SIZE - 4) ∧
        ebp (task_at s' 0) = esp (task_at s' 0) ∧
        eip (task_at s' 0) = u32 4096 ∧
        queue_ready s' ([] ++ [0%nat]) ∧
        current_task s' = current_task counter_exited ∧
        ∀ k, k ≠ 0%nat -> state (task_at s' k) = state (task_at counter_exited k).
Proof.
  split; [exact counter_exited_queue|]. split; [exact counter_exited_first_free|].
  exact (task_create_enqueues_first_free_slot sample_stacks "idle" 4096 counter_exited
           [] 0 counter_exited_queue counter_exited_first_free).
Defined.

(** X25. [task_create] fails exactly when no slot of the table is
    terminated: it then returns 0 and changes nothing. Whenever a slot
    is terminated the call changes the state (it advances
    [next_task_id]), whatever value it returns. *)
Theorem task_create_fails_iff_table_full stack_addr name_arg entry s :
  task_create stack_addr name_arg entry s = (0, s)
  ↔ Forall (fun t => state t ≠ TASK_TERMINATED) (tasks s).
Proof.
  rewrite <- (find_free_slot_none _ 0). unfold task_create.
  destruct (find_free_slot (tasks s) 0) as [i|]; [|done].
  split; [|done]. cbv zeta. intros H. exfalso.
  apply (f_equal (fun p => next_task_id (snd p))) in H. cbn [snd] in H.
  revert H. unfold task_queue_add. rewrite tail_update_task.
  destruct (task_queue_tail _); cbn; apply u32_succ_ne.
Qed.

(** *** Names *)

Lemma copy_name_spec src : ∀ dst,
  copy_name src dst
  = take (length dst) (list_ascii_of_string src) ++ drop (String.length src) dst.
Proof.
  induction src as [|c src IH]; intros dst; [by destruct dst|].
  destruct dst as [|d dst]; [reflexivity|].
  cbn [copy_name list_ascii_of_string length take String.length drop app].
  by rewrite IH.
Qed.

Lemma c_string_app pre rest :
  zero ∉ pre -> c_string (pre ++ zero :: rest) = string_of_list_ascii pre.
Proof.
  induction pre as [|c pre IH]; intros Hpre; cbn [app c_string string_of_list_ascii].
  - by rewrite decide_True.
  - apply not_elem_of_cons in Hpre as [Hc Hpre].
    rewrite decide_False by congruence. by rewrite IH.
Qed.

Lemma first_nul_split l :
  zero ∈ l -> ∃ pre rest, l = pre ++ zero :: rest ∧ zero ∉ pre.
Proof.
  induction l as [|c l IH]; intros Hin; [by apply elem_of_nil in Hin|].
  destruct (decide (c = zero)) as [->|Hc].
  - exists [], l. split; [reflexivity | apply not_elem_of_nil].
  - apply elem_of_cons in Hin as [?|Hin]; [congruence|].
    destruct (IH Hin) as (pre & rest & -> & Hpre).
    exists (c :: pre), rest. split; [reflexivity|].
    apply not_elem_of_cons. split; [congruence | exact Hpre].
Qed.

Lemma length_list_ascii_of_string str :
  length (list_ascii_of_string str) = String.length str.
Proof. induction str as [|c str IH]; [reflexivity|]. cbn. by rewrite IH. Qed.

Lemma counter_exited_name :
  name (task_at counter_exited 0) !! 31%nat = Some zero.
Proof. reflexivity. Qed.

(** X26. [task_create] copies the name up to its NUL but does not write
    the NUL: a slot that held a name at least as long keeps the rest of
    it. The slot's name reads afterwards as the new name followed by the
    characters of the old name from that position on. *)
Theorem task_create_keeps_rest_of_old_name stack_addr name_arg entry s i :
  first_free s i -> no_nul name_arg ->
  name (task_at s i) !! 31%nat = Some zero ->
  (String.length name_arg <= String.length (c_string (name (task_at s i))))%nat ->
  c_string (name (task_at (snd (task_create stack_addr name_arg entry s)) i))
  = (name_arg ++
     string_of_list_ascii
       (drop (String.length name_arg)
             (list_ascii_of_string (c_string (name (task_at s i))))))%string.
Proof.
  intros Hfree Hnul H31 Hle. pose proof Hfree as (Hlt & _).
  unfold task_create. rewrite (first_free_found _ _ Hfree). cbv zeta. cbn [snd].
  rewrite (field_task_queue_add name) by reflexivity.
  rewrite task_at_update_eq by exact Hlt. cbn [name].
  set (old := name (task_at s i)) in *.
  destruct (first_nul_split old) as (pre & rest & Hold & Hpre).
  { by apply (list_elem_of_lookup_2 _ 31%nat). }
  assert (Hpre31 : (length pre <= 31)%nat).
  { destruct (decide (length pre <= 31)%nat) as [|Hgt]; [done|]. exfalso.
    rewrite Hold, lookup_app_l in H31 by lia.
    apply Hpre. by apply (list_elem_of_lookup_2 _ 31%nat). }
  rewrite Hold, c_string_app in Hle |- * by exact Hpre.
  rewrite list_ascii_of_string_of_list_ascii.
  rewrite <- !length_list_ascii_of_string in Hle.
  rewrite list_ascii_of_string_of_list_ascii in Hle.
  set (L := list_ascii_of_string name_arg) in *.
  rewrite copy_name_spec. fold L. rewrite <- length_list_ascii_of_string. fold L.
  rewrite take_ge by (rewrite length_app; cbn [length]; lia).
  rewrite drop_app_le by exact Hle.
  rewrite app_assoc.
  rewrite insert_app_r_alt by (rewrite length_app, length_drop; lia).
  assert (Hins : ∃ rest', <[(31 - length (L ++ drop (length L) pre))%nat:=zero]> (zero :: rest)
                          = zero :: rest').
  { destruct (31 - length (L ++ drop (length L) pre))%nat; eexists; reflexivity. }
  destruct Hins as [rest' ->].
  rewrite c_string_app.
  - rewrite <- (string_of_list_ascii_of_string name_arg) at 1. fold L.
    generalize (drop (length L) pre). clear. induction L as [|c L IH]; intros l; [reflexivity|].
    cbn. by rewrite IH.
  - intros [Hin|Hin]%elem_of_app; [exact (Hnul Hin)|].
    apply Hpre. apply list_elem_of_lookup in Hin as [k Hk].
    rewrite lookup_drop in Hk. exact (list_elem_of_lookup_2 _ _ _ Hk).
Qed.

Lemma task_create_keeps_rest_of_old_name_witness :
  c_string (name (task_at (snd (task_create sample_stacks "idle" 4096 counter_exited)) 0))
  = "idleter"%string.
Proof.
  refine (task_create_keeps_rest_of_old_name sample_stacks "idle" 4096 counter_exited 0
            counter_exited_first_free _ counter_exited_name _).
  - unfold no_nul. vm_compute. intros H. by repeat (apply elem_of_cons in H as [H|H]; [discriminate|]; try apply elem_of_nil in H).
  - vm_compute. lia.
Defined.

(** *** The timer *)

Lemma field_wake_slot {A} (g : task_t -> A) s j i :
  (∀ v t, g (set_next v t) = g t) -> (∀ v t, g (set_state v t) = g t) ->
  g (task_at (wake_slot s j) i) = g (task_at s i).
Proof.
  intros Hn Hs. unfold wake_slot. destruct (decide _); [|reflexivity].
  case_match; [|reflexivity].
  rewrite field_task_queue_add by exact Hn.
  apply field_update. right. apply Hs.
Qed.

Lemma field_wake_slots {A} (g : task_t -> A) l i : ∀ s,
  (∀ v t, g (set_next v t) = g t) -> (∀ v t, g (set_state v t) = g t) ->
  g (task_at (foldl wake_slot s l) i) = g (task_at s i).
Proof.
  induction l as [|j l IH]; intros s Hn Hs; [reflexivity|].
  cbn [foldl]. rewrite IH by done. by apply field_wake_slot.
Qed.

Lemma u32_tick t : 0 <= t < UINT32_MOD - 1 -> u32 (t + 1) = t + 1.
Proof. intros. unfold u32. apply Z.mod_small. lia. Qed.

(** X27. No preemption during the first 100 ticks: while [system_ticks]
    is below 100 on entry, [scheduler_tick] counts the tick and returns
    without changing [current_task] or the remaining slice of any task. *)
Theorem scheduler_tick_grace_window r s :
  0 <= system_ticks s < 100 ->
  ∃ s', scheduler_tick r s = Returns s' ∧
        system_ticks s' = system_ticks s + 1 ∧
        current_task s' = current_task s ∧
        ∀ i, time_remaining (task_at s' i) = time_remaining (task_at s i).
Proof.
  intros Ht. unfold scheduler_tick. cbv zeta.
  set (s1 := wake_sleeping_tasks _).
  assert (Hticks : system_ticks s1 = system_ticks s + 1).
  { unfold s1, wake_sleeping_tasks. rewrite ticks_wake_slots.
    cbn [system_ticks set_system_ticks]. apply u32_tick. unfold UINT32_MOD. lia. }
  assert (Hcur : current_task s1 = current_task s)
    by (unfold s1, wake_sleeping_tasks; by rewrite current_wake_slots).
  assert (Hrem : ∀ i, time_remaining (task_at s1 i) = time_remaining (task_at s i)).
  { intros i. unfold s1, wake_sleeping_tasks.
    by rewrite (field_wake_slots time_remaining), task_at_set_ticks. }
  exists s1. split; [|done].
  destruct (current_task s1); [|reflexivity].
  replace (100 <? system_ticks s1) with false; [reflexivity|].
  symmetry. apply Z.ltb_ge. lia.
Qed.

Lemma scheduler_tick_grace_window_witness :
  0 <= system_ticks idle_asleep < 100 ∧
  ∃ s', scheduler_tick timer_regs idle_asleep = Returns s' ∧
        system_ticks s' = system_ticks idle_asleep + 1 ∧
        current_task s' = current_task idle_asleep ∧
        ∀ i, time_remaining (task_at s' i) = time_remaining (task_at idle_asleep i).
Proof.
  assert (H : 0 <= system_ticks idle_asleep < 100) by (split; [vm_compute; discriminate | reflexivity]).
  split; [exact H|]. exact (scheduler_tick_grace_window timer_regs idle_asleep H).
Defined.

Lemma filter_agree {A} (P1 P2 : A -> Prop)
    `{!∀ x, Decision (P1 x)} `{!∀ x, Decision (P2 x)} (l : list A) :
  (∀ x, x ∈ l -> P1 x ↔ P2 x) -> filter P1 l = filter P2 l.
Proof.
  induction l as [|x l IH]; intros Hiff; [reflexivity|].
  rewrite !filter_cons.
  rewrite IH by (intros y Hy; apply Hiff; by apply list_elem_of_further).
  pose proof (Hiff x (list_elem_of_here _ _)).
  destruct (decide (P1 x)), (decide (P2 x)); tauto || reflexivity.
Qed.

(** The wake-up loop over the slots [l], started with the queue [q]. *)
Lemma wake_slots_queue now l : ∀ s q,
  system_ticks s = now -> NoDup l ->
  Forall (fun i => (i < length (tasks s))%nat) l ->
  ready_queue s q -> Forall (fun i => state (task_at s i) = TASK_READY) q ->
  let woken := filter (fun i => state (task_at s i) = TASK_SLEEPING ∧
                                sleep_until (task_at s i) <= now) l in
  ready_queue (foldl wake_slot s l) (q ++ woken) ∧
  Forall (fun i => state (task_at (foldl wake_slot s l) i) = TASK_READY) (q ++ woken) ∧
  ∀ i, i ∉ woken -> state (task_at (foldl wake_slot s l) i) = state (task_at s i).
Proof.
  induction l as [|i l IH]; intros s q Hnow Hnd Hlen Hq Hready woken.
  { subst woken. cbn. rewrite app_nil_r. done. }
  apply NoDup_cons in Hnd as [Hil Hnd]. apply Forall_cons in Hlen as [Hi Hlen].
  cbn [foldl].
  assert (Hsame : ∀ s1, (∀ k, k ≠ i -> state (task_at s1 k) = state (task_at s k)) ->
            (∀ k, sleep_until (task_at s1 k) = sleep_until (task_at s k)) ->
            filter (fun k => state (task_at s1 k) = TASK_SLEEPING ∧
                             sleep_until (task_at s1 k) <= now) l
            = filter (fun k => state (task_at s k) = TASK_SLEEPING ∧
                               sleep_until (task_at s k) <= now) l).
  { intros s1 Hst Hsl. apply filter_agree. intros k Hk.
    rewrite Hsl, Hst; [done|]. by intros ->. }
  destruct (decide (state (task_at s i) = TASK_SLEEPING)) as [Hsleep|Hawake].
  - destruct (sleep_until (task_at s i) <=? system_ticks s) eqn:Hdue.
    + assert (Hw : wake_slot s i
                   = task_queue_add i (update_task i (set_state TASK_READY) s)).
      { unfold wake_slot. by rewrite decide_True, Hdue by done. }
      rewrite Hw. clear Hw.
      apply Z.leb_le in Hdue. rewrite Hnow in Hdue.
      set (s1 := task_queue_add i (update_task i (set_state TASK_READY) s)).
      assert (Hiq : i ∉ q).
      { intros Hin. rewrite Forall_forall in Hready. specialize (Hready _ Hin). congruence. }
      assert (Hst1 : ∀ k, k ≠ i -> state (task_at s1 k) = state (task_at s k)).
      { intros k Hk. unfold s1. rewrite state_task_queue_add.
        by rewrite task_at_update_ne. }
      assert (Hsl1 : ∀ k, sleep_until (task_at s1 k) = sleep_until (task_at s k)).
      { intros k. unfold s1. rewrite (field_task_queue_add sleep_until) by reflexivity.
        apply field_update. right. reflexivity. }
      assert (Hi1 : state (task_at s1 i) = TASK_READY).
      { unfold s1. rewrite state_task_queue_add. by rewrite task_at_update_eq. }
      assert (Hlen1 : length (tasks s1) = length (tasks s)).
      { unfold s1. by rewrite length_task_queue_add, length_update_task. }
      destruct (IH s1 (q ++ [i])) as (IH1 & IH2 & IH3).
      * unfold s1. by rewrite ticks_task_queue_add, ticks_update_task.
      * exact Hnd.
      * by rewrite Hlen1.
      * unfold s1. apply ready_queue_add; [|exact Hiq | by rewrite length_update_task].
        by apply ready_queue_update.
      * apply Forall_app. split; [|by apply Forall_singleton].
        rewrite Forall_forall in Hready |- *. intros k Hk.
        rewrite Hst1 by (by intros ->). by apply Hready.
      * rewrite (Hsame s1 Hst1 Hsl1) in IH1, IH2, IH3.
        subst woken. rewrite filter_cons_True by done.
        rewrite <- app_assoc in IH1, IH2. cbn [app] in IH1, IH2.
        split; [exact IH1|]. split; [exact IH2|].
        intros k [Hki Hk]%not_elem_of_cons. rewrite IH3 by exact Hk. by apply Hst1.
    + assert (Hw : wake_slot s i = s).
      { unfold wake_slot. by rewrite decide_True, Hdue by done. }
      rewrite Hw. clear Hw.
      apply Z.leb_gt in Hdue. rewrite Hnow in Hdue.
      subst woken. rewrite filter_cons_False by lia.
      by apply IH.
  - rewrite wake_slot_awake by exact Hawake.
    subst woken. rewrite filter_cons_False by (by intros [? _]).
    by apply IH.
Qed.

Lemma idle_asleep_queue : queue_ready idle_asleep [].
Proof.
  split; [|split; [reflexivity | constructor]].
  split; [reflexivity|]. split; [reflexivity|]. split; constructor.
Qed.

(** X28. A timer tick that does not end the current slice moves the
    sleepers whose time has come to the ready queue: the slots that are
    SLEEPING with [sleep_until] at most the new tick count become READY
    and are appended behind the tasks already queued, in slot order;
    no other slot changes state and [current_task] stays. *)
Theorem scheduler_tick_wakes_in_slot_order r s q :
  queue_ready s q ->
  (∀ cur, current_task s = Some cur ->
          (cur < MAX_TASKS)%nat ∧
          (100 < u32 (system_ticks s + 1) ->
           u32 (time_remaining (task_at s cur) - 1) ≠ 0)) ->
  ∃ s', scheduler_tick r s = Returns s' ∧
        queue_ready s' (q ++ due s (u32 (system_ticks s + 1))) ∧
        current_task s' = current_task s ∧
        ∀ i, i ∉ due s (u32 (system_ticks s + 1)) ->
             state (task_at s' i) = state (task_at s i).
Proof.
  intros (Hq & Hlen & Hready) Hslice.
  set (now := u32 (system_ticks s + 1)) in *.
  set (s0 := set_system_ticks now s).
  destruct (wake_slots_queue now (seq 0 MAX_TASKS) s0 q) as (Hq1 & Hready1 & Hst1).
  { reflexivity. }
  { apply NoDup_seq. }
  { apply Forall_forall. intros i Hi%elem_of_seq.
    change (length (tasks s0)) with (length (tasks s)). lia. }
  { by apply ready_queue_set_ticks. }
  { exact Hready. }
  change (filter _ (seq 0 MAX_TASKS)) with (due s now) in Hq1, Hready1, Hst1.
  unfold scheduler_tick, wake_sleeping_tasks. cbv zeta. fold now. fold s0.
  set (s1 := foldl wake_slot s0 (seq 0 MAX_TASKS)) in *.
  assert (Hlen1 : length (tasks s1) = MAX_TASKS).
  { unfold s1. by rewrite length_wake_slots. }
  assert (Hcur1 : current_task s1 = current_task s)
    by (unfold s1; by rewrite current_wake_slots).
  assert (Hticks1 : system_ticks s1 = now)
    by (unfold s1; by rewrite ticks_wake_slots).
  rewrite Hcur1, Hticks1.
  destruct (current_task s) as [cur|] eqn:Hcur; [|by exists s1].
  destruct (Hslice cur eq_refl) as [Hcurlt Hrem].
  destruct (100 <? now) eqn:Hgrace; [|by exists s1].
  apply Z.ltb_lt in Hgrace. specialize (Hrem Hgrace).
  set (s2 := update_task cur _ s1).
  assert (Hrem2 : (time_remaining (task_at s2 cur) =? 0) = false).
  { apply Z.eqb_neq. unfold s2. rewrite task_at_update_eq by lia.
    cbn [time_remaining set_time_remaining].
    unfold s1. by rewrite (field_wake_slots time_remaining). }
  rewrite Hrem2. exists s2. split; [reflexivity|].
  split; [|split].
  - split; [by apply ready_queue_update|].
    split; [unfold s2; by rewrite length_update_task|].
    rewrite Forall_forall in Hready1 |- *. intros k Hk.
    unfold s2. rewrite state_update by (right; reflexivity). by apply Hready1.
  - unfold s2. by rewrite current_update_task.
  - intros i Hi. unfold s2. rewrite state_update by (right; reflexivity).
    by apply Hst1.
Qed.

Lemma scheduler_tick_wakes_in_slot_order_witness :
  queue_ready idle_asleep [] ∧
  ∃ s', scheduler_tick timer_regs idle_asleep = Returns s' ∧
        queue_ready s' ([] ++ due idle_asleep (u32 (system_ticks idle_asleep + 1))) ∧
        current_task s' = current_task idle_asleep ∧
        ∀ i, i ∉ due idle_asleep (u32 (system_ticks idle_asleep + 1)) ->
             state (task_at s' i) = state (task_at idle_asleep i).
Proof.
  split; [exact idle_asleep_queue|].
  apply (scheduler_tick_wakes_in_slot_order timer_regs idle_asleep [] idle_asleep_queue).
  intros cur Hcur. vm_compute in Hcur. injection Hcur as <-.
  split; [vm_compute; lia|]. vm_compute. discriminate.
Defined.

End SchedulerAuxFacts.
